(** * High-Performance-HTTP-Cache: the cache engines and their contract

    A shallow embedding of the four cache engines of the repository

      - [Memory]  : [MemoryCache]  of [memory.go]        (configurable engine),
      - [Simple]  : [SimpleCache]  of [memory/simple.go] (unbounded engine),
      - [LRU]     : [LRUCache]     of [memory/lru.go]    (recency engine),
      - [LFU]     : [LFUCache]     of [memory/lfu.go]    (frequency engine),

    together with the shared types of [cache.go] / [types.go] ([Stats],
    [Config], [EvictionPolicy], the error values), the sharding helpers of
    [internal/hash.go] ([Hash]) and the string cache of [internal/cache]
    that the HTTP server uses ([Legacy]).

    Conventions of the embedding.
    - Every public operation runs under the engine's mutex; an operation is
      modelled as one atomic state transformer.  The wall clock is an explicit
      argument [now], sampled once per operation.
    - [time.Time] is an instant counted in nanoseconds ([Z]); the zero
      [time.Time] is the instant [0].  [time.Duration] is a number of
      nanoseconds.
    - [int64] counters are integers with the wrap-around of
      [atomic.AddInt64] written out ([AddInt64]).
    - [[]byte] values are slices into a heap of backing arrays, so that
      aliasing between the caller's buffers and the cached bytes is visible.
    - Go leaves the iteration order of [range] over a map unspecified; a
      [MapIter] chooses the order, and every statement about an engine that
      ranges over its map is made for an arbitrary [MapIter]. *)

From Stdlib Require Import ZArith Lia Permutation.
From Stdlib Require Import Floats.PrimFloat Numbers.Cyclic.Int63.Uint63.
From Stdlib Require Import Strings.Byte.
From stdpp Require Import gmap strings list fin_maps pretty.

Set Warnings "-clear-no-such-hyp".
Local Open Scope Z_scope.

(** ** Time *)

Abbreviation Time := Z (only parsing).
Abbreviation Duration := Z (only parsing).

Definition IsZero (t : Time) : bool := t =? 0.
(** [t.After(u)] *)
Definition After (t u : Time) : bool := u <? t.
(** [t.Before(u)] *)
Definition Before (t u : Time) : bool := t <? u.
(** [t.Add(d)] *)
Definition Add (t : Time) (d : Duration) : Time := t + d.

Definition Millisecond : Duration := 1000000.
Definition Second : Duration := 1000 * Millisecond.
Definition Minute : Duration := 60 * Second.
Definition Hour : Duration := 60 * Minute.

(** The expiry that [SetWithTTL] of the [memory] package computes: the
    zero time stands for "never expires". *)
Definition deadline (ttl defaultTTL : Duration) (now : Time) : Time :=
  if 0 <? ttl then Add now ttl
  else if 0 <? defaultTTL then Add now defaultTTL
  else 0.

(** The expiry that [MemoryCache.SetWithTTL] computes: without a TTL the
    entry expires in a hundred years. *)
Definition far_deadline (ttl defaultTTL : Duration) (now : Time) : Time :=
  if 0 <? ttl then Add now ttl
  else if 0 <? defaultTTL then Add now defaultTTL
  else Add now (100 * 365 * 24 * Hour).

(** ** int64 counters *)

Definition min_int64 : Z := - 2 ^ 63.
Definition max_int64 : Z := 2 ^ 63 - 1.

Definition wrap64 (z : Z) : Z := (z + 2 ^ 63) mod 2 ^ 64 - 2 ^ 63.

(** [atomic.AddInt64(&x, d)] *)
Definition AddInt64 (x d : Z) : Z := wrap64 (x + d).

Definition int64_range (x : Z) : Prop := min_int64 <= x <= max_int64.

(** ** Byte slices *)

Abbreviation loc := nat (only parsing).
(** The heap of backing arrays; an array is never freed while referenced,
    so allocation only appends. *)
Abbreviation heap := (list (list byte)) (only parsing).

(** A slice is [nil] or a window [off, off+len) of a backing array. *)
Inductive slice :=
| nil_slice
| Slice (a : loc) (off len : nat).

Arguments Slice (a off len)%_nat_scope.

Definition slice_len (s : slice) : nat :=
  match s with
  | nil_slice => 0%nat
  | Slice _ _ n => n
  end.

Definition array_at (h : heap) (a : loc) : list byte := default [] (h !! a).

Definition slice_bytes (h : heap) (s : slice) : list byte :=
  match s with
  | nil_slice => []
  | Slice a o n => take n (drop o (array_at h a))
  end.

Definition slice_valid (h : heap) (s : slice) : Prop :=
  match s with
  | nil_slice => True
  | Slice a o n => (a < length h)%nat /\ (o + n <= length (array_at h a))%nat
  end.

(** [make([]byte, n)] *)
Definition make (h : heap) (n : nat) : heap * slice :=
  (h ++ [replicate n x00], Slice (length h) 0 n).

(** Writing [bs] through the window of a slice (at most [len] bytes). *)
Definition slice_write (h : heap) (s : slice) (bs : list byte) : heap :=
  match s with
  | nil_slice => h
  | Slice a o n =>
      let k := Nat.min n (length bs) in
      alter (fun arr => take o arr ++ take k bs ++ drop (o + k) arr) a h
  end.

(** [copy(dst, src)] *)
Definition copy (h : heap) (dst src : slice) : heap :=
  slice_write h dst (slice_bytes h src).

Arguments copy : simpl never.
Arguments slice_bytes : simpl never.

(** The slice [s] does not point into the array at address [a]. *)
Definition disjoint_from (s : slice) (a : loc) : Prop :=
  match s with
  | nil_slice => True
  | Slice a' _ _ => a' <> a
  end.

(** ** Iteration order of [range] over a map *)

Record MapIter := {
  range : forall {A : Type}, gmap string A -> list (string * A);
  range_perm : forall (A : Type) (m : gmap string A), range m ≡ₚ map_to_list m
}.

Definition keyOrder : MapIter :=
  {| range := fun A m => map_to_list m;
     range_perm := fun A m => reflexivity (map_to_list m) |}.

Definition reverseOrder : MapIter :=
  {| range := fun A m => reverse (map_to_list m);
     range_perm := fun A m => reverse_Permutation (map_to_list m) |}.

(** ** Shared types ([cache.go], [types.go]) *)

Inductive error :=
| ErrKeyEmpty
| ErrValueTooLarge
| ErrCacheClosed
| ErrCacheFull.

(** [float64(x)] for an [int64] value [x]. *)
Definition float64_of_int64 (x : Z) : float :=
  if x <? 0 then
    if x =? min_int64 then (- (of_uint63 (of_Z (2 ^ 62)) * 2))%float
    else (- of_uint63 (of_Z (- x)))%float
  else of_uint63 (of_Z x).

Record Stats := {
  Hits : Z;
  Misses : Z;
  Keys : Z;
  Evictions : Z;
  HitRate : float
}.

Definition CalculateHitRate (s : Stats) : Stats :=
  let total := wrap64 (Hits s + Misses s) in
  if 0 <? total then
    {| Hits := Hits s; Misses := Misses s; Keys := Keys s; Evictions := Evictions s;
       HitRate := (float64_of_int64 (Hits s) / float64_of_int64 total * 100)%float |}
  else s.

Abbreviation EvictionPolicy := Z (only parsing).
Definition LRU : EvictionPolicy := 0.
Definition LFU : EvictionPolicy := 1.
Definition FIFO : EvictionPolicy := 2.

Record Config := {
  MaxSize : Z;
  DefaultTTL : Duration;
  CleanupInterval : Duration;
  EvictionPolicy_ : EvictionPolicy
}.

Definition DefaultConfig : Config :=
  {| MaxSize := 1000;
     DefaultTTL := 5 * Minute;
     CleanupInterval := 1 * Minute;
     EvictionPolicy_ := LRU |}.

(** ** The unbounded engine: [SimpleCache] ([memory/simple.go]) *)

Module Simple.

Record simpleItem := {
  value : slice;
  expiresAt : Time
}.

Definition isExpired (now : Time) (item : simpleItem) : bool :=
  negb (IsZero (expiresAt item)) && After now (expiresAt item).

Record SimpleCache := {
  items : gmap string simpleItem;
  defaultTTL : Duration;
  closed : bool;
  hits : Z;
  misses : Z
}.

Definition with_items (m : gmap string simpleItem) (c : SimpleCache) : SimpleCache :=
  {| items := m; defaultTTL := defaultTTL c; closed := closed c;
     hits := hits c; misses := misses c |}.

Definition add_hit (c : SimpleCache) : SimpleCache :=
  {| items := items c; defaultTTL := defaultTTL c; closed := closed c;
     hits := AddInt64 (hits c) 1; misses := misses c |}.

Definition add_miss (c : SimpleCache) : SimpleCache :=
  {| items := items c; defaultTTL := defaultTTL c; closed := closed c;
     hits := hits c; misses := AddInt64 (misses c) 1 |}.

Definition NewSimpleWithTTL (defaultTTL : Duration) : SimpleCache :=
  {| items := ∅; defaultTTL := defaultTTL; closed := false; hits := 0; misses := 0 |}.

Definition NewSimple : SimpleCache := NewSimpleWithTTL 0.

(** The tail of [Get]: count a hit, return a copy of [item.value]. *)
Definition hit (h : heap) (c : SimpleCache) (item : simpleItem)
  : heap * SimpleCache * (slice * bool) :=
  let c := add_hit c in
  let '(h, value) := make h (slice_len (value item)) in
  let h := copy h value (Simple.value item) in
  (h, c, (value, true)).

(** [Get].  In the expiry branch the source re-reads the map with
    [if item, exists := c.items[key]; ...], which declares a second pair of
    variables: the assignment [exists = false] in its body sets that inner
    variable, and the [exists] tested after the block is the outer one. *)
Definition Get (h : heap) (c : SimpleCache) (key : string) (now : Time)
  : heap * SimpleCache * (slice * bool) :=
  if decide (key = "") then (h, add_miss c, (nil_slice, false))
  else
    match items c !! key with
    | None => (h, add_miss c, (nil_slice, false))
    | Some item =>
        let exists_ := true in
        if isExpired now item then
          let c :=
            match items c !! key with
            | Some item' =>
                if isExpired now item' then with_items (delete key (items c)) c else c
            | None => c
            end in
          if negb exists_ then (h, add_miss c, (nil_slice, false))
          else hit h c item
        else hit h c item
    end.

Definition SetWithTTL (h : heap) (c : SimpleCache) (key : string) (value : slice)
    (ttl : Duration) (now : Time) : heap * SimpleCache * option error :=
  if decide (key = "") then (h, c, Some ErrKeyEmpty)
  else if closed c then (h, c, Some ErrCacheClosed)
  else
    let expiresAt :=
      if 0 <? ttl then Add now ttl
      else if 0 <? defaultTTL c then Add now (defaultTTL c)
      else 0 in
    let '(h, valueCopy) := make h (slice_len value) in
    let h := copy h valueCopy value in
    (h, with_items (<[key := {| value := valueCopy; expiresAt := expiresAt |}]> (items c)) c,
     None).

Definition Set_ (h : heap) (c : SimpleCache) (key : string) (value : slice) (now : Time)
  : heap * SimpleCache * option error :=
  SetWithTTL h c key value (defaultTTL c) now.

Definition Delete (c : SimpleCache) (key : string) : SimpleCache * bool :=
  if decide (key = "") then (c, false)
  else
    match items c !! key with
    | Some _ => (with_items (delete key (items c)) c, true)
    | None => (c, false)
    end.

Definition Clear (c : SimpleCache) : SimpleCache :=
  {| items := ∅; defaultTTL := defaultTTL c; closed := closed c; hits := 0; misses := 0 |}.

Definition Stats_ (c : SimpleCache) : Stats :=
  CalculateHitRate
    {| Hits := hits c; Misses := misses c; Keys := Z.of_nat (size (items c));
       Evictions := 0; HitRate := 0%float |}.

Definition Close (c : SimpleCache) : SimpleCache :=
  if closed c then c
  else {| items := items c; defaultTTL := defaultTTL c; closed := true;
          hits := hits c; misses := misses c |}.

(** One pass of the sweep started by [cleanup]. *)
Definition removeExpired (it : MapIter) (c : SimpleCache) (now : Time) : SimpleCache :=
  let expiredKeys :=
    foldl (fun acc '(key, item) => if isExpired now item then acc ++ [key] else acc)
          [] (range it (items c)) in
  with_items (foldl (fun m key => delete key m) (items c) expiredKeys) c.

End Simple.

(** ** The frequency engine: [LFUCache] ([memory/lfu.go]) *)

Module LFU.

Record lfuItem := {
  key : string;
  value : slice;
  expiresAt : Time;
  frequency : Z;
  lastAccess : Time
}.

Definition isExpired (now : Time) (item : lfuItem) : bool :=
  negb (IsZero (expiresAt item)) && After now (expiresAt item).

Definition touch (now : Time) (item : lfuItem) : lfuItem :=
  {| key := key item; value := value item; expiresAt := expiresAt item;
     frequency := AddInt64 (frequency item) 1; lastAccess := now |}.

Record LFUCache := {
  items : gmap string lfuItem;
  maxSize : Z;
  defaultTTL : Duration;
  closed : bool;
  hits : Z;
  misses : Z;
  evictions : Z
}.

Definition with_items (m : gmap string lfuItem) (c : LFUCache) : LFUCache :=
  {| items := m; maxSize := maxSize c; defaultTTL := defaultTTL c; closed := closed c;
     hits := hits c; misses := misses c; evictions := evictions c |}.

Definition add_hit (c : LFUCache) : LFUCache :=
  {| items := items c; maxSize := maxSize c; defaultTTL := defaultTTL c; closed := closed c;
     hits := AddInt64 (hits c) 1; misses := misses c; evictions := evictions c |}.

Definition add_miss (c : LFUCache) : LFUCache :=
  {| items := items c; maxSize := maxSize c; defaultTTL := defaultTTL c; closed := closed c;
     hits := hits c; misses := AddInt64 (misses c) 1; evictions := evictions c |}.

Definition add_evictions (n : Z) (c : LFUCache) : LFUCache :=
  {| items := items c; maxSize := maxSize c; defaultTTL := defaultTTL c; closed := closed c;
     hits := hits c; misses := misses c; evictions := AddInt64 (evictions c) n |}.

Definition NewLFUWithTTL (maxSize : Z) (defaultTTL : Duration) : LFUCache :=
  let maxSize := if maxSize <=? 0 then 1000 else maxSize in
  {| items := ∅; maxSize := maxSize; defaultTTL := defaultTTL; closed := false;
     hits := 0; misses := 0; evictions := 0 |}.

Definition NewLFU (maxSize : Z) : LFUCache := NewLFUWithTTL maxSize 0.

Definition Get (h : heap) (c : LFUCache) (key : string) (now : Time)
  : heap * LFUCache * (slice * bool) :=
  if decide (key = "") then (h, add_miss c, (nil_slice, false))
  else
    match items c !! key with
    | None => (h, add_miss c, (nil_slice, false))
    | Some item =>
        if isExpired now item then
          (h, add_miss (with_items (delete key (items c)) c), (nil_slice, false))
        else
          let item := touch now item in
          let c := with_items (<[key := item]> (items c)) c in
          let c := add_hit c in
          let '(h, value) := make h (slice_len (value item)) in
          let h := copy h value (LFU.value item) in
          (h, c, (value, true))
    end.

(** The scan of [evictLFU]: the loop state is
    [(evictKey, minFrequency, oldestTime)]. *)
Definition evictLFU_step (st : string * Z * Time) (e : string * lfuItem)
  : string * Z * Time :=
  let '(evictKey, minFrequency, oldestTime) := st in
  let '(key, item) := e in
  let frequency := frequency item in
  if (minFrequency =? -1) || (frequency <? minFrequency)
     || ((frequency =? minFrequency) && Before (lastAccess item) oldestTime)
  then (key, frequency, lastAccess item)
  else (evictKey, minFrequency, oldestTime).

Definition evictLFU_scan (l : list (string * lfuItem)) : string * Z * Time :=
  foldl evictLFU_step (""%string, -1, 0) l.

Definition evictLFU (it : MapIter) (c : LFUCache) : LFUCache :=
  if decide (size (items c) = 0%nat) then c
  else
    let '(evictKey, _, _) := evictLFU_scan (range it (items c)) in
    if decide (evictKey <> ""%string)
    then add_evictions 1 (with_items (delete evictKey (items c)) c)
    else c.

Definition SetWithTTL (it : MapIter) (h : heap) (c : LFUCache) (key : string)
    (value : slice) (ttl : Duration) (now : Time) : heap * LFUCache * option error :=
  if decide (key = "") then (h, c, Some ErrKeyEmpty)
  else if closed c then (h, c, Some ErrCacheClosed)
  else
    let expiresAt :=
      if 0 <? ttl then Add now ttl
      else if 0 <? defaultTTL c then Add now (defaultTTL c)
      else 0 in
    let '(h, valueCopy) := make h (slice_len value) in
    let h := copy h valueCopy value in
    match items c !! key with
    | Some existingItem =>
        let existingItem :=
          {| key := LFU.key existingItem; value := valueCopy; expiresAt := expiresAt;
             frequency := frequency existingItem; lastAccess := now |} in
        (h, with_items (<[key := existingItem]> (items c)) c, None)
    | None =>
        let c := if maxSize c <=? Z.of_nat (size (items c)) then evictLFU it c else c in
        let newItem :=
          {| key := key; value := valueCopy; expiresAt := expiresAt;
             frequency := 1; lastAccess := now |} in
        (h, with_items (<[key := newItem]> (items c)) c, None)
    end.

Definition Set_ (it : MapIter) (h : heap) (c : LFUCache) (key : string) (value : slice)
    (now : Time) : heap * LFUCache * option error :=
  SetWithTTL it h c key value (defaultTTL c) now.

Definition Delete (c : LFUCache) (key : string) : LFUCache * bool :=
  if decide (key = "") then (c, false)
  else
    match items c !! key with
    | Some _ => (with_items (delete key (items c)) c, true)
    | None => (c, false)
    end.

Definition Clear (c : LFUCache) : LFUCache :=
  {| items := ∅; maxSize := maxSize c; defaultTTL := defaultTTL c; closed := closed c;
     hits := 0; misses := 0; evictions := 0 |}.

Definition Stats_ (c : LFUCache) : Stats :=
  CalculateHitRate
    {| Hits := hits c; Misses := misses c; Keys := Z.of_nat (size (items c));
       Evictions := evictions c; HitRate := 0%float |}.

Definition Close (c : LFUCache) : LFUCache :=
  if closed c then c
  else {| items := items c; maxSize := maxSize c; defaultTTL := defaultTTL c;
          closed := true; hits := hits c; misses := misses c; evictions := evictions c |}.

Definition removeExpired (it : MapIter) (c : LFUCache) (now : Time) : LFUCache :=
  let expiredKeys :=
    foldl (fun acc '(key, item) => if isExpired now item then acc ++ [key] else acc)
          [] (range it (items c)) in
  let c := with_items (foldl (fun m key => delete key m) (items c) expiredKeys) c in
  if (0 <? length expiredKeys)%nat
  then add_evictions (Z.of_nat (length expiredKeys)) c
  else c.

End LFU.

(** ** The configurable engine: [MemoryCache] ([memory.go]) *)

Module Memory.

Record Item := {
  Value : slice;
  ExpiresAt : Time;
  LastAccess : Time;
  AccessCount : Z;
  CreatedAt : Time
}.

Definition IsExpired (now : Time) (item : Item) : bool := After now (ExpiresAt item).

Definition Touch (now : Time) (item : Item) : Item :=
  {| Value := Value item; ExpiresAt := ExpiresAt item; LastAccess := now;
     AccessCount := AddInt64 (AccessCount item) 1; CreatedAt := CreatedAt item |}.

(** [stopped] records that [stopCh] has been closed. *)
Record MemoryCache := {
  data : gmap string Item;
  config : Config;
  stopped : bool;
  hits : Z;
  misses : Z;
  evictions : Z
}.

Definition with_data (m : gmap string Item) (c : MemoryCache) : MemoryCache :=
  {| data := m; config := config c; stopped := stopped c;
     hits := hits c; misses := misses c; evictions := evictions c |}.

Definition add_hit (c : MemoryCache) : MemoryCache :=
  {| data := data c; config := config c; stopped := stopped c;
     hits := AddInt64 (hits c) 1; misses := misses c; evictions := evictions c |}.

Definition add_miss (c : MemoryCache) : MemoryCache :=
  {| data := data c; config := config c; stopped := stopped c;
     hits := hits c; misses := AddInt64 (misses c) 1; evictions := evictions c |}.

Definition add_evictions (n : Z) (c : MemoryCache) : MemoryCache :=
  {| data := data c; config := config c; stopped := stopped c;
     hits := hits c; misses := misses c; evictions := AddInt64 (evictions c) n |}.

Definition NewMemoryCache (config : Config) : MemoryCache :=
  {| data := ∅; config := config; stopped := false; hits := 0; misses := 0; evictions := 0 |}.

Definition Get (h : heap) (c : MemoryCache) (key : string) (now : Time)
  : heap * MemoryCache * (slice * bool) :=
  match data c !! key with
  | None => (h, add_miss c, (nil_slice, false))
  | Some item =>
      let '(c, exists_) :=
        if IsExpired now item then
          match data c !! key with
          | Some item =>
              if IsExpired now item then (with_data (delete key (data c)) c, false)
              else (c, true)
          | None => (c, false)
          end
        else (c, true) in
      if negb exists_ then (h, add_miss c, (nil_slice, false))
      else
        match data c !! key with
        | Some item =>
            if negb (IsExpired now item) then
              let item := Touch now item in
              let c := with_data (<[key := item]> (data c)) c in
              let c := add_hit c in
              let '(h, value) := make h (slice_len (Value item)) in
              let h := copy h value (Value item) in
              (h, c, (value, true))
            else (h, add_miss c, (nil_slice, false))
        | None => (h, add_miss c, (nil_slice, false))
        end
  end.

(** The scans of [evictLRU] and [evictFIFO]: the loop state is
    [(oldestKey, oldestTime, first)]. *)
Definition evictOldest_step (stamp : Item -> Time) (st : string * Time * bool)
    (e : string * Item) : string * Time * bool :=
  let '(oldestKey, oldestTime, first) := st in
  let '(key, item) := e in
  if first || Before (stamp item) oldestTime
  then (key, stamp item, false)
  else (oldestKey, oldestTime, first).

Definition evictOldest_scan (stamp : Item -> Time) (l : list (string * Item))
  : string * Time * bool :=
  foldl (evictOldest_step stamp) (""%string, 0, true) l.

Definition evictLRU (it : MapIter) (c : MemoryCache) : MemoryCache :=
  let '(oldestKey, _, _) := evictOldest_scan LastAccess (range it (data c)) in
  if decide (oldestKey <> ""%string)
  then add_evictions 1 (with_data (delete oldestKey (data c)) c)
  else c.

(** The scan of [evictLFU]: the loop state is [(evictKey, minAccess)]. *)
Definition evictLFU_step (st : string * Z) (e : string * Item) : string * Z :=
  let '(evictKey, minAccess) := st in
  let '(key, item) := e in
  let accessCount := AccessCount item in
  if (minAccess =? -1) || (accessCount <? minAccess)
  then (key, accessCount)
  else (evictKey, minAccess).

Definition evictLFU_scan (l : list (string * Item)) : string * Z :=
  foldl evictLFU_step (""%string, -1) l.

Definition evictLFU (it : MapIter) (c : MemoryCache) : MemoryCache :=
  let '(evictKey, _) := evictLFU_scan (range it (data c)) in
  if decide (evictKey <> ""%string)
  then add_evictions 1 (with_data (delete evictKey (data c)) c)
  else c.

Definition evictFIFO (it : MapIter) (c : MemoryCache) : MemoryCache :=
  let '(oldestKey, _, _) := evictOldest_scan CreatedAt (range it (data c)) in
  if decide (oldestKey <> ""%string)
  then add_evictions 1 (with_data (delete oldestKey (data c)) c)
  else c.

Definition evict (it : MapIter) (c : MemoryCache) : MemoryCache :=
  if decide (size (data c) = 0%nat) then c
  else if EvictionPolicy_ (config c) =? LRU then evictLRU it c
  else if EvictionPolicy_ (config c) =? LFU then evictLFU it c
  else if EvictionPolicy_ (config c) =? FIFO then evictFIFO it c
  else evictLRU it c.

Definition SetWithTTL (it : MapIter) (h : heap) (c : MemoryCache) (key : string)
    (value : slice) (ttl : Duration) (now : Time) : heap * MemoryCache * option error :=
  let expiresAt :=
    if 0 <? ttl then Add now ttl
    else if 0 <? DefaultTTL (config c) then Add now (DefaultTTL (config c))
    else Add now (100 * 365 * 24 * Hour) in
  let c :=
    if (0 <? MaxSize (config c)) && (MaxSize (config c) <=? Z.of_nat (size (data c)))
    then
      match data c !! key with
      | Some _ => c
      | None => evict it c
      end
    else c in
  let '(h, valueCopy) := make h (slice_len value) in
  let h := copy h valueCopy value in
  (h,
   with_data (<[key := {| Value := valueCopy; ExpiresAt := expiresAt; LastAccess := now;
                          AccessCount := 1; CreatedAt := now |}]> (data c)) c,
   None).

Definition Set_ (it : MapIter) (h : heap) (c : MemoryCache) (key : string) (value : slice)
    (now : Time) : heap * MemoryCache * option error :=
  SetWithTTL it h c key value (DefaultTTL (config c)) now.

Definition Delete (c : MemoryCache) (key : string) : MemoryCache * bool :=
  match data c !! key with
  | Some _ => (with_data (delete key (data c)) c, true)
  | None => (c, false)
  end.

Definition Clear (c : MemoryCache) : MemoryCache :=
  {| data := ∅; config := config c; stopped := stopped c;
     hits := 0; misses := 0; evictions := 0 |}.

Definition Stats_ (c : MemoryCache) : Stats :=
  CalculateHitRate
    {| Hits := hits c; Misses := misses c; Keys := Z.of_nat (size (data c));
       Evictions := evictions c; HitRate := 0%float |}.

(** [c.once.Do(func() { close(c.stopCh) })] *)
Definition Close (c : MemoryCache) : MemoryCache :=
  if stopped c then c
  else {| data := data c; config := config c; stopped := true;
          hits := hits c; misses := misses c; evictions := evictions c |}.

(** One pass of the sweep: entries are deleted while the map is ranged
    over; the loop state is [(c.data, expired)]. *)
Definition removeExpired (it : MapIter) (c : MemoryCache) (now : Time) : MemoryCache :=
  let '(m, expired) :=
    foldl (fun '(m, expired) '(key, item) =>
             if IsExpired now item then (delete key m, expired + 1) else (m, expired))
          (data c, 0) (range it (data c)) in
  let c := with_data m c in
  if 0 <? expired then add_evictions expired c else c.

End Memory.

(** ** The recency engine: [LRUCache] ([memory/lru.go])

    The doubly linked list is kept as the source keeps it: nodes with raw
    [prev]/[next] pointers.  [nodes] is the arena of every [lruItem]
    allocated so far and a pointer is [None] (nil) or the index of a node.
    A nil dereference is a run-time panic: the list primitives return
    [None] for it. *)

Module LRU.

Definition ptr := option nat.

Record lruItem := {
  key : string;
  value : slice;
  expiresAt : Time;
  prev : ptr;
  next : ptr
}.

Definition with_value (v : slice) (e : Time) (n : lruItem) : lruItem :=
  {| key := key n; value := v; expiresAt := e; prev := prev n; next := next n |}.

Definition with_prev (p : ptr) (n : lruItem) : lruItem :=
  {| key := key n; value := value n; expiresAt := expiresAt n; prev := p; next := next n |}.

Definition with_next (p : ptr) (n : lruItem) : lruItem :=
  {| key := key n; value := value n; expiresAt := expiresAt n; prev := prev n; next := p |}.

Definition isExpired (now : Time) (item : lruItem) : bool :=
  negb (IsZero (expiresAt item)) && After now (expiresAt item).

Record LRUCache := {
  nodes : list lruItem;
  items : gmap string nat;
  head : ptr;
  tail : ptr;
  maxSize : Z;
  defaultTTL : Duration;
  closed : bool;
  hits : Z;
  misses : Z;
  evictions : Z
}.

Definition with_nodes (ns : list lruItem) (c : LRUCache) : LRUCache :=
  {| nodes := ns; items := items c; head := head c; tail := tail c;
     maxSize := maxSize c; defaultTTL := defaultTTL c; closed := closed c;
     hits := hits c; misses := misses c; evictions := evictions c |}.

Definition with_items (m : gmap string nat) (c : LRUCache) : LRUCache :=
  {| nodes := nodes c; items := m; head := head c; tail := tail c;
     maxSize := maxSize c; defaultTTL := defaultTTL c; closed := closed c;
     hits := hits c; misses := misses c; evictions := evictions c |}.

Definition add_hit (c : LRUCache) : LRUCache :=
  {| nodes := nodes c; items := items c; head := head c; tail := tail c;
     maxSize := maxSize c; defaultTTL := defaultTTL c; closed := closed c;
     hits := AddInt64 (hits c) 1; misses := misses c; evictions := evictions c |}.

Definition add_miss (c : LRUCache) : LRUCache :=
  {| nodes := nodes c; items := items c; head := head c; tail := tail c;
     maxSize := maxSize c; defaultTTL := defaultTTL c; closed := closed c;
     hits := hits c; misses := AddInt64 (misses c) 1; evictions := evictions c |}.

Definition add_evictions (n : Z) (c : LRUCache) : LRUCache :=
  {| nodes := nodes c; items := items c; head := head c; tail := tail c;
     maxSize := maxSize c; defaultTTL := defaultTTL c; closed := closed c;
     hits := hits c; misses := misses c; evictions := AddInt64 (evictions c) n |}.

(** [p.f]: reading a field through a pointer. *)
Definition load (c : LRUCache) (p : ptr) : option lruItem :=
  a ← p; nodes c !! a.

(** [p.f = v]: writing a field through a pointer. *)
Definition store (c : LRUCache) (p : ptr) (f : lruItem -> lruItem) : option LRUCache :=
  a ← p; n ← nodes c !! a; Some (with_nodes (<[a := f n]> (nodes c)) c).

(** [&lruItem{...}] *)
Definition alloc (c : LRUCache) (n : lruItem) : LRUCache * ptr :=
  (with_nodes (nodes c ++ [n]) c, Some (length (nodes c))).

Definition NewLRUWithTTL (maxSize : Z) (defaultTTL : Duration) : LRUCache :=
  let maxSize := if maxSize <=? 0 then 1000 else maxSize in
  let sentinel := {| key := ""; value := nil_slice; expiresAt := 0;
                     prev := None; next := None |} in
  {| nodes := [with_next (Some 1%nat) sentinel; with_prev (Some 0%nat) sentinel];
     items := ∅; head := Some 0%nat; tail := Some 1%nat;
     maxSize := maxSize; defaultTTL := defaultTTL; closed := false;
     hits := 0; misses := 0; evictions := 0 |}.

Definition NewLRU (maxSize : Z) : LRUCache := NewLRUWithTTL maxSize 0.

Definition addToHead (c : LRUCache) (item : ptr) : option LRUCache :=
  (* item.prev = c.head *)
  c ← store c item (with_prev (head c));
  (* item.next = c.head.next *)
  hd ← load c (head c);
  c ← store c item (with_next (next hd));
  (* c.head.next.prev = item *)
  hd ← load c (head c);
  c ← store c (next hd) (with_prev item);
  (* c.head.next = item *)
  store c (head c) (with_next item).

Definition removeFromList (c : LRUCache) (item : ptr) : option LRUCache :=
  (* item.prev.next = item.next *)
  it ← load c item;
  c ← store c (prev it) (with_next (next it));
  (* item.next.prev = item.prev *)
  it ← load c item;
  store c (next it) (with_prev (prev it)).

Definition moveToHead (c : LRUCache) (item : ptr) : option LRUCache :=
  c ← removeFromList c item;
  addToHead c item.

Definition removeItem (c : LRUCache) (item : ptr) : option LRUCache :=
  it ← load c item;
  let c := with_items (delete (key it) (items c)) c in
  removeFromList c item.

Definition evictTail (c : LRUCache) : option LRUCache :=
  tl ← load c (tail c);
  let lastItem := prev tl in
  if decide (lastItem <> head c) then
    c ← removeItem c lastItem;
    Some (add_evictions 1 c)
  else Some c.

Definition Get (h : heap) (c : LRUCache) (key : string) (now : Time)
  : option (heap * LRUCache * (slice * bool)) :=
  if decide (key = "") then Some (h, add_miss c, (nil_slice, false))
  else
    match items c !! key with
    | None => Some (h, add_miss c, (nil_slice, false))
    | Some a =>
        let item := Some a in
        it ← load c item;
        if isExpired now it then
          c ← removeItem c item;
          Some (h, add_miss c, (nil_slice, false))
        else
          c ← moveToHead c item;
          let c := add_hit c in
          it ← load c item;
          let '(h, value) := make h (slice_len (value it)) in
          let h := copy h value (LRU.value it) in
          Some (h, c, (value, true))
    end.

Definition SetWithTTL (h : heap) (c : LRUCache) (key : string) (value : slice)
    (ttl : Duration) (now : Time) : option (heap * LRUCache * option error) :=
  if decide (key = "") then Some (h, c, Some ErrKeyEmpty)
  else if closed c then Some (h, c, Some ErrCacheClosed)
  else
    let expiresAt :=
      if 0 <? ttl then Add now ttl
      else if 0 <? defaultTTL c then Add now (defaultTTL c)
      else 0 in
    let '(h, valueCopy) := make h (slice_len value) in
    let h := copy h valueCopy value in
    match items c !! key with
    | Some a =>
        let existingItem := Some a in
        c ← store c existingItem (with_value valueCopy expiresAt);
        c ← moveToHead c existingItem;
        Some (h, c, None)
    | None =>
        let '(c, newItem) :=
          alloc c {| key := key; value := valueCopy; expiresAt := expiresAt;
                     prev := None; next := None |} in
        c ← (if maxSize c <=? Z.of_nat (size (items c)) then evictTail c else Some c);
        a ← newItem;
        let c := with_items (<[key := a]> (items c)) c in
        c ← addToHead c newItem;
        Some (h, c, None)
    end.

Definition Set_ (h : heap) (c : LRUCache) (key : string) (value : slice) (now : Time)
  : option (heap * LRUCache * option error) :=
  SetWithTTL h c key value (defaultTTL c) now.

Definition Delete (c : LRUCache) (key : string) : option (LRUCache * bool) :=
  if decide (key = "") then Some (c, false)
  else
    match items c !! key with
    | None => Some (c, false)
    | Some a => c ← removeItem c (Some a); Some (c, true)
    end.

Definition Clear (c : LRUCache) : option LRUCache :=
  let c := with_items ∅ c in
  c ← store c (head c) (with_next (tail c));
  c ← store c (tail c) (with_prev (head c));
  Some {| nodes := nodes c; items := items c; head := head c; tail := tail c;
          maxSize := maxSize c; defaultTTL := defaultTTL c; closed := closed c;
          hits := 0; misses := 0; evictions := 0 |}.

Definition Stats_ (c : LRUCache) : Stats :=
  CalculateHitRate
    {| Hits := hits c; Misses := misses c; Keys := Z.of_nat (size (items c));
       Evictions := evictions c; HitRate := 0%float |}.

Definition Close (c : LRUCache) : LRUCache :=
  if closed c then c
  else {| nodes := nodes c; items := items c; head := head c; tail := tail c;
          maxSize := maxSize c; defaultTTL := defaultTTL c; closed := true;
          hits := hits c; misses := misses c; evictions := evictions c |}.

(** The second loop of [removeExpired]. *)
Fixpoint removeKeys (c : LRUCache) (keys : list string) : option LRUCache :=
  match keys with
  | [] => Some c
  | key :: keys =>
      match items c !! key with
      | Some a => c ← removeItem c (Some a); removeKeys c keys
      | None => removeKeys c keys
      end
  end.

Definition removeExpired (it : MapIter) (c : LRUCache) (now : Time) : option LRUCache :=
  expiredKeys ←
    foldl (fun acc '(key, a) =>
             acc ← acc; n ← load c (Some a);
             Some (if isExpired now n then acc ++ [key] else acc))
          (Some []) (range it (items c));
  c ← removeKeys c expiredKeys;
  Some (if (0 <? length expiredKeys)%nat
        then add_evictions (Z.of_nat (length expiredKeys)) c
        else c).

End LRU.

(** ** Representation invariant of [LRUCache]

    The list between the two sentinels, read from [head.next] to
    [tail.prev], is a sequence [l] of node addresses (most recently used
    first); the map holds exactly the nodes of [l], each under its own
    [key]. *)

Module LRUInv.
Import LRU.

Definition prev_of (ns : list lruItem) (a : nat) : ptr := n ← ns !! a; prev n.
Definition next_of (ns : list lruItem) (a : nat) : ptr := n ← ns !! a; next n.
Definition key_of (ns : list lruItem) (a : nat) : option string := key <$> ns !! a.

Fixpoint linked (ns : list lruItem) (chain : list nat) : Prop :=
  match chain with
  | a :: rest =>
      match rest with
      | b :: _ => next_of ns a = Some b /\ prev_of ns b = Some a /\ linked ns rest
      | [] => True
      end
  | [] => True
  end.

Record repr (c : LRUCache) (l : list nat) : Prop := {
  repr_head : head c = Some 0%nat;
  repr_tail : tail c = Some 1%nat;
  repr_nodup : NoDup (0%nat :: l ++ [1%nat]);
  repr_linked : linked (nodes c) (0%nat :: l ++ [1%nat]);
  repr_items : forall k a, items c !! k = Some a <-> a ∈ l /\ key_of (nodes c) a = Some k
}.

Definition wf (c : LRUCache) : Prop := exists l, repr c l.

(** The payload of a node: everything but its links. *)
Definition payload (n : lruItem) : string * slice * Time := (key n, value n, expiresAt n).

Definition same_payload (ns ns' : list lruItem) : Prop :=
  forall a, payload <$> ns !! a = payload <$> ns' !! a.

(** What the cache holds under a key: the value slice and the expiry of
    the node the map points to. *)
Definition entry (c : LRUCache) (k : string) : option (slice * Time) :=
  a ← items c !! k; n ← nodes c !! a; Some (value n, expiresAt n).

(** Whether the node at address [a] is expired at [now]. *)
Definition expired_at (c : LRUCache) (now : Time) (a : nat) : bool :=
  match nodes c !! a with
  | Some n => isExpired now n
  | None => false
  end.

(** The outcome of inserting the new key [k], stored at node [a]: either
    nothing is evicted, or the node [x] at the tail of the list leaves with
    its key [kx] and one eviction is counted. *)
Definition inserted (c : LRUCache) (l : list nat) (k : string) (a : nat)
    (c' : LRUCache) (l' : list nat) : Prop :=
  ((Z.of_nat (size (items c)) < maxSize c \/ l = []) /\
   c' = with_nodes (nodes c') (with_items (<[k := a]> (items c)) c) /\ l' = a :: l)
  \/
  (maxSize c <= Z.of_nat (size (items c)) /\
   exists l0 x kx,
     l = l0 ++ [x] /\ key_of (nodes c) x = Some kx /\
     c' = with_nodes (nodes c')
            (with_items (<[k := a]> (delete kx (items c))) (add_evictions 1 c)) /\
     l' = a :: l0).

(** [key] is resident and unexpired at [now], and its node holds the value
    slice [s]. *)
Definition live (c : LRUCache) (key : string) (now : Time) (s : slice) : Prop :=
  key <> ""%string /\
  exists a n, items c !! key = Some a /\ nodes c !! a = Some n /\
              value n = s /\ isExpired now n = false.

(** The cache accepts writes. *)
Definition writable (c : LRUCache) : Prop := closed c = false /\ wf c.

End LRUInv.

(** ** Invariant and eviction order of [LFUCache] *)

Module LFUInv.
Import LFU.

(** Keys are never empty ([SetWithTTL] refuses the empty key) and
    frequencies start at 1. *)
Definition wf (c : LFUCache) : Prop :=
  forall k item, items c !! k = Some item -> k <> ""%string /\ 0 < frequency item.

(** [x] is at least as good a victim as [y]: lower frequency, or the same
    frequency and not accessed later. *)
Definition victim_le (x y : lfuItem) : Prop :=
  frequency x < frequency y \/
  (frequency x = frequency y /\ lastAccess x <= lastAccess y).

Definition live (c : LFUCache) (key : string) (now : Time) (s : slice) : Prop :=
  key <> ""%string /\
  exists item, items c !! key = Some item /\ value item = s /\ isExpired now item = false.

Definition writable (c : LFUCache) : Prop := closed c = false.

End LFUInv.

Module SimpleInv.
Import Simple.

Definition live (c : SimpleCache) (key : string) (now : Time) (s : slice) : Prop :=
  key <> ""%string /\
  exists item, items c !! key = Some item /\ value item = s /\ isExpired now item = false.

Definition writable (c : SimpleCache) : Prop := closed c = false.

End SimpleInv.

Module MemoryInv.
Import Memory.

Definition live (c : MemoryCache) (key : string) (now : Time) (s : slice) : Prop :=
  exists item, data c !! key = Some item /\ Value item = s /\ IsExpired now item = false.

(** The empty key is not resident and access counts start at 1. *)
Definition wf (c : MemoryCache) : Prop :=
  forall k item, data c !! k = Some item -> k <> ""%string /\ 0 < AccessCount item.


End MemoryInv.

(** ** The interface [cache.Cache] and its implementations

    Every method takes the heap of byte arrays and the clock reading; a
    result of [None] is a run-time panic. *)

Record Cache (T : Type) := {
  Get : heap -> T -> string -> Time -> option (heap * T * (slice * bool));
  Set_ : heap -> T -> string -> slice -> Time -> option (heap * T * option error);
  SetWithTTL :
    heap -> T -> string -> slice -> Duration -> Time -> option (heap * T * option error);
  Delete : T -> string -> option (T * bool);
  Clear : T -> option T;
  Stats_ : T -> Stats;
  Close : T -> option T
}.

Arguments Get {T}.
Arguments Set_ {T}.
Arguments SetWithTTL {T}.
Arguments Delete {T}.
Arguments Clear {T}.
Arguments Stats_ {T}.
Arguments Close {T}.

Definition SimpleCache_Cache : Cache Simple.SimpleCache :=
  {| Get h c key now := Some (Simple.Get h c key now);
     Set_ h c key value now := Some (Simple.Set_ h c key value now);
     SetWithTTL h c key value ttl now := Some (Simple.SetWithTTL h c key value ttl now);
     Delete c key := Some (Simple.Delete c key);
     Clear c := Some (Simple.Clear c);
     Stats_ := Simple.Stats_;
     Close c := Some (Simple.Close c) |}.

Definition LRUCache_Cache : Cache LRU.LRUCache :=
  {| Get := LRU.Get;
     Set_ := LRU.Set_;
     SetWithTTL := LRU.SetWithTTL;
     Delete := LRU.Delete;
     Clear := LRU.Clear;
     Stats_ := LRU.Stats_;
     Close c := Some (LRU.Close c) |}.

Definition LFUCache_Cache (it : MapIter) : Cache LFU.LFUCache :=
  {| Get h c key now := Some (LFU.Get h c key now);
     Set_ h c key value now := Some (LFU.Set_ it h c key value now);
     SetWithTTL h c key value ttl now := Some (LFU.SetWithTTL it h c key value ttl now);
     Delete c key := Some (LFU.Delete c key);
     Clear c := Some (LFU.Clear c);
     Stats_ := LFU.Stats_;
     Close c := Some (LFU.Close c) |}.

Definition MemoryCache_Cache (it : MapIter) : Cache Memory.MemoryCache :=
  {| Get h c key now := Some (Memory.Get h c key now);
     Set_ h c key value now := Some (Memory.Set_ it h c key value now);
     SetWithTTL h c key value ttl now := Some (Memory.SetWithTTL it h c key value ttl now);
     Delete c key := Some (Memory.Delete c key);
     Clear c := Some (Memory.Clear c);
     Stats_ := Memory.Stats_;
     Close c := Some (Memory.Close c) |}.

(** ** Test scenarios of the repository, over the interface *)

(** [TestDataSafety]: store [original], overwrite the caller's buffer with
    [X], read, overwrite the returned buffer with [Y], read again.  The
    result is the error of [Set] and what each [Get] returned. *)
Definition DataSafety {T : Type} (E : Cache T) (h : heap) (c : T) (key : string)
    (original : slice) (now : Time) (X Y : list byte)
  : option (option error * (list byte * bool) * (list byte * bool)) :=
  '(h, c, err) ← Set_ E h c key original now;
  let h := slice_write h original X in
  '(h, c, (cached, ok1)) ← Get E h c key now;
  let seen1 := slice_bytes h cached in
  let h := slice_write h cached Y in
  '(h, c, (cached2, ok2)) ← Get E h c key now;
  Some (err, (seen1, ok1), (slice_bytes h cached2, ok2)).

(** [TestLRUEviction]: insert A, B, C, read A, insert D, then look all four
    keys up.  [t i] is the clock reading of the [i]-th call.  The result is
    the four [exists] flags, and the [Evictions] and [Keys] of [Stats]
    taken right after the insertion of D. *)
Definition LRUOrder {T : Type} (E : Cache T) (h : heap) (c : T)
    (vA vB vC vD : slice) (t : nat -> Time)
  : option (bool * bool * bool * bool * Z * Z) :=
  '(h, c, _) ← Set_ E h c "A" vA (t 0%nat);
  '(h, c, _) ← Set_ E h c "B" vB (t 1%nat);
  '(h, c, _) ← Set_ E h c "C" vC (t 2%nat);
  '(h, c, _) ← Get E h c "A" (t 3%nat);
  '(h, c, _) ← Set_ E h c "D" vD (t 4%nat);
  let stats := Stats_ E c in
  '(h, c, (_, existsA)) ← Get E h c "A" (t 5%nat);
  '(h, c, (_, existsB)) ← Get E h c "B" (t 6%nat);
  '(h, c, (_, existsC)) ← Get E h c "C" (t 7%nat);
  '(h, c, (_, existsD)) ← Get E h c "D" (t 8%nat);
  Some (existsA, existsB, existsC, existsD, Evictions stats, Keys stats).

(** ** The error contract of [Set] and [SetWithTTL]

    [closed] reads the engine's closed flag.  The empty key is refused with
    [ErrKeyEmpty] (checked first, nothing is mutated); a closed cache
    refuses any other key with [ErrCacheClosed]; otherwise the write
    succeeds with a nil error.  [Close] leaves the cache closed. *)
Definition SetErrors {T : Type} (E : Cache T) (closed : T -> bool) (h : heap) (c : T)
    (key : string) (value : slice) (ttl : Duration) (now : Time) : Prop :=
  (key = ""%string ->
     SetWithTTL E h c key value ttl now = Some (h, c, Some ErrKeyEmpty) /\
     Set_ E h c key value now = Some (h, c, Some ErrKeyEmpty)) /\
  (key <> ""%string -> closed c = true ->
     SetWithTTL E h c key value ttl now = Some (h, c, Some ErrCacheClosed) /\
     Set_ E h c key value now = Some (h, c, Some ErrCacheClosed)) /\
  (key <> ""%string -> closed c = false ->
     (exists h' c', SetWithTTL E h c key value ttl now = Some (h', c', None)) /\
     (exists h' c', Set_ E h c key value now = Some (h', c', None))) /\
  (exists c', Close E c = Some c' /\ closed c' = true).

(** ** Concrete states used in examples *)

(** An [LFUCache] of capacity 2 holding "a" (written at 1000) and "b"
    (written at 2000), neither read since. *)
Definition lfu_ab : LFU.LFUCache :=
  {| LFU.items :=
       {[ "a"%string := {| LFU.key := "a"; LFU.value := Slice 0 0 0; LFU.expiresAt := 0;
                           LFU.frequency := 1; LFU.lastAccess := 1000 |};
          "b"%string := {| LFU.key := "b"; LFU.value := Slice 1 0 0; LFU.expiresAt := 0;
                           LFU.frequency := 1; LFU.lastAccess := 2000 |} ]};
     LFU.maxSize := 2; LFU.defaultTTL := 0; LFU.closed := false;
     LFU.hits := 0; LFU.misses := 0; LFU.evictions := 0 |}.

(** The same contents in a [MemoryCache] of capacity 2 with policy LFU. *)
Definition memory_ab : Memory.MemoryCache :=
  {| Memory.data :=
       {[ "a"%string := {| Memory.Value := Slice 0 0 0;
                           Memory.ExpiresAt := far_deadline 0 0 1000;
                           Memory.LastAccess := 1000; Memory.AccessCount := 1;
                           Memory.CreatedAt := 1000 |};
          "b"%string := {| Memory.Value := Slice 1 0 0;
                           Memory.ExpiresAt := far_deadline 0 0 2000;
                           Memory.LastAccess := 2000; Memory.AccessCount := 1;
                           Memory.CreatedAt := 2000 |} ]};
     Memory.config := {| MaxSize := 2; DefaultTTL := 0; CleanupInterval := 0;
                         EvictionPolicy_ := LFU |};
     Memory.stopped := false;
     Memory.hits := 0; Memory.misses := 0; Memory.evictions := 0 |}.

(** A sequence of [SetWithTTL] calls, each with its key, value, TTL and
    clock reading. *)
Definition SetMany {T : Type} (E : Cache T) (h : heap) (c : T)
    (writes : list (string * slice * Duration * Time)) : option (heap * T) :=
  foldl (fun st '(key, value, ttl, now) =>
           '(h, c) ← st;
           '(h, c, _) ← SetWithTTL E h c key value ttl now;
           Some (h, c))
        (Some (h, c)) writes.

(** The key "key_i" and the write of an empty value under it at clock
    reading [1000 + i]. *)
Definition distinct_key (i : nat) : string := "key_" +:+ pretty i.
Definition distinct_write (i : nat) : string * slice * Duration * Time :=
  (distinct_key i, nil_slice, 0, 1000 + Z.of_nat i).

(** [n] writes of an empty value under the distinct keys "key_0", "key_1",
    ..., at consecutive clock readings. *)
Definition distinct_writes (n : nat) : list (string * slice * Duration * Time) :=
  distinct_write <$> seq 0 n.

(** [Keys] and [Evictions] of [Stats] after a sequence of writes. *)
Definition StatsAfter {T : Type} (E : Cache T) (h : heap) (c : T)
    (writes : list (string * slice * Duration * Time)) : option (Z * Z) :=
  '(h, c) ← SetMany E h c writes;
  Some (Keys (Stats_ E c), Evictions (Stats_ E c)).

(** ** Calls on an [LFUCache]

    Everything that can happen to an [LFUCache]: the calls of the
    interface, and a tick of the sweep run by the [cleanup] goroutine. *)
Inductive Call :=
| CallGet (key : string) (now : Time)
| CallSet (key : string) (value : slice) (now : Time)
| CallSetWithTTL (key : string) (value : slice) (ttl : Duration) (now : Time)
| CallDelete (key : string)
| CallClear
| CallClose
| CallSweep (now : Time).

Definition LFU_step (it : MapIter) (st : heap * LFU.LFUCache) (call : Call)
  : heap * LFU.LFUCache :=
  let '(h, c) := st in
  match call with
  | CallGet key now => (LFU.Get h c key now).1
  | CallSet key value now => (LFU.Set_ it h c key value now).1
  | CallSetWithTTL key value ttl now => (LFU.SetWithTTL it h c key value ttl now).1
  | CallDelete key => (h, (LFU.Delete c key).1)
  | CallClear => (h, LFU.Clear c)
  | CallClose => (h, LFU.Close c)
  | CallSweep now => (h, LFU.removeExpired it c now)
  end.

(** ** States for the sweep

    The cache after one write of an empty value under [key]. *)
Definition stored {T : Type} (E : Cache T) (c : T) (key : string) (ttl : Duration)
    (now : Time) : T :=
  match SetWithTTL E [] c key nil_slice ttl now with
  | Some (_, c', _) => c'
  | None => c
  end.

(** A cache of each engine holding "ttl_key", written at 1000 with a TTL
    of 100ms. *)
Definition simple_ttl : Simple.SimpleCache :=
  stored SimpleCache_Cache Simple.NewSimple "ttl_key" (100 * Millisecond) 1000.
Definition lru_ttl : LRU.LRUCache :=
  stored LRUCache_Cache (LRU.NewLRU 3) "ttl_key" (100 * Millisecond) 1000.
Definition lfu_ttl : LFU.LFUCache :=
  stored (LFUCache_Cache keyOrder) (LFU.NewLFU 3) "ttl_key" (100 * Millisecond) 1000.
Definition memory_ttl : Memory.MemoryCache :=
  stored (MemoryCache_Cache keyOrder) (Memory.NewMemoryCache DefaultConfig) "ttl_key"
    (100 * Millisecond) 1000.

(** The same caches built with a default TTL of one minute: with a
    positive default TTL the constructors of package [memory] start the
    [cleanup] goroutine, so these caches are swept in the background.
    ([memory_ttl] is built with [DefaultConfig], whose [CleanupInterval] is
    positive.) *)
Definition simple_swept : Simple.SimpleCache :=
  stored SimpleCache_Cache (Simple.NewSimpleWithTTL (1 * Minute)) "ttl_key"
    (100 * Millisecond) 1000.
Definition lru_swept : LRU.LRUCache :=
  stored LRUCache_Cache (LRU.NewLRUWithTTL 3 (1 * Minute)) "ttl_key"
    (100 * Millisecond) 1000.
Definition lfu_swept : LFU.LFUCache :=
  stored (LFUCache_Cache keyOrder) (LFU.NewLFUWithTTL 3 (1 * Minute)) "ttl_key"
    (100 * Millisecond) 1000.


(** ** The hit rate

    What [Stats] must report for a cache that has counted [hits] hits and
    [misses] misses: the two counters, and the percentage of hits computed
    in float64, or exactly 0 before the first access. *)
Definition HitRateSpec (hits misses : Z) (s : Stats) : Prop :=
  Hits s = hits /\ Misses s = misses /\
  (0 < hits + misses ->
   HitRate s
   = (float64_of_int64 hits / float64_of_int64 (hits + misses) * 100)%float) /\
  (hits + misses = 0 -> HitRate s = 0%float).

(** ** Inserting into a bounded cache

    The outcome of inserting the new key [k] into a cache of capacity
    [maxSize], in terms of the sets of resident keys before and after and of
    the evictions counter: below capacity the key is added; at capacity one
    resident key leaves and one eviction is counted. *)
Definition InsertOutcome (maxSize : Z) (k : string) (keys keys' : gset string)
    (evictions evictions' : Z) : Prop :=
  (Z.of_nat (size keys) < maxSize /\ keys' = {[k]} ∪ keys /\ evictions' = evictions) \/
  (maxSize <= Z.of_nat (size keys) /\
   exists victim, victim ∈ keys /\ keys' = {[k]} ∪ keys ∖ {[victim]} /\
                  evictions' = AddInt64 evictions 1).

(** ** Everything that can happen to a cache

    A call of the interface or a tick of the sweep goroutine ([sweep] is the
    engine's [removeExpired]), for any engine.  The heap is threaded
    through; [None] is a run-time panic. *)
Definition call_step {T : Type} (E : Cache T) (sweep : T -> Time -> option T)
    (h : heap) (c : T) (call : Call) : option (heap * T) :=
  match call with
  | CallGet key now => '(h, c, _) ← Get E h c key now; Some (h, c)
  | CallSet key value now => '(h, c, _) ← Set_ E h c key value now; Some (h, c)
  | CallSetWithTTL key value ttl now =>
      '(h, c, _) ← SetWithTTL E h c key value ttl now; Some (h, c)
  | CallDelete key => '(c, _) ← Delete E c key; Some (h, c)
  | CallClear => c ← Clear E c; Some (h, c)
  | CallClose => c ← Close E c; Some (h, c)
  | CallSweep now => c ← sweep c now; Some (h, c)
  end.

(** The slice handed to a call is a slice of the heap it is called in. *)
Definition call_valid (h : heap) (call : Call) : Prop :=
  match call with
  | CallSet _ value _ | CallSetWithTTL _ value _ _ => slice_valid h value
  | _ => True
  end.

(** The calls that do not name the empty key. *)
Definition call_key_nonempty (call : Call) : Prop :=
  match call with
  | CallSet key _ _ | CallSetWithTTL key _ _ _ => key <> ""%string
  | _ => True
  end.

Definition any_call (call : Call) : Prop := True.

(** The states a cache built as [c0] can be in when the program makes the
    [allowed] calls only.  Between two calls the program may have done
    anything to the heap, and every step ranges over the map in an order
    of its own. *)
Inductive Reachable {T : Type} (E : MapIter -> Cache T)
    (sweep : MapIter -> T -> Time -> option T) (allowed : Call -> Prop) (c0 : T)
  : T -> Prop :=
| Reachable_new : Reachable E sweep allowed c0 c0
| Reachable_step (it : MapIter) (h h' : heap) (c c' : T) (call : Call) :
    Reachable E sweep allowed c0 c -> call_valid h call -> allowed call ->
    call_step (E it) (sweep it) h c call = Some (h', c') ->
    Reachable E sweep allowed c0 c'.

(** ** What a cache holds

    The entry under a key as a caller can know it: the value slice and the
    expiry. *)
Definition Simple_entry (c : Simple.SimpleCache) (k : string) : option (slice * Time) :=
  item ← Simple.items c !! k; Some (Simple.value item, Simple.expiresAt item).

Definition LFU_entry (c : LFU.LFUCache) (k : string) : option (slice * Time) :=
  item ← LFU.items c !! k; Some (LFU.value item, LFU.expiresAt item).

Definition Memory_entry (c : Memory.MemoryCache) (k : string) : option (slice * Time) :=
  item ← Memory.data c !! k; Some (Memory.Value item, Memory.ExpiresAt item).

(** An expiry [e] of the [memory] package has passed at [now] (the zero
    time never passes). *)
Definition passed (now e : Time) : bool := negb (IsZero e) && After now e.

(** ** The recency list of [LRUCache]

    The keys met on the way from [head.next] to [tail] along the [next]
    pointers: most recently used first.  The walk stops at a nil or
    dangling pointer, and after as many steps as there are nodes. *)
Module LRUList.
Import LRU.

Fixpoint walk (ns : list lruItem) (stop : ptr) (fuel : nat) (p : ptr) : list string :=
  match fuel with
  | O => []
  | S fuel =>
      if decide (p = stop) then []
      else
        match p ≫= (fun a => ns !! a) with
        | Some n => key n :: walk ns stop fuel (next n)
        | None => []
        end
  end.

Definition recency (c : LRUCache) : list string :=
  match load c (head c) with
  | Some hd => walk (nodes c) (tail c) (length (nodes c)) (next hd)
  | None => []
  end.

End LRUList.

(** ** Hashing and sharding helpers ([internal/hash.go])

    [int] is the 64-bit integer of the platforms Go's [sync/atomic] int64
    code runs on; [uint64] values are integers in [0, 2^64). *)
Module Hash.

Definition offset64 : Z := 14695981039346656037.
Definition prime64 : Z := 1099511628211.

(** One step of FNV-1a on [w] bits: xor the byte in, multiply by the
    prime. *)
Definition fnv1a_step (w prime : Z) (hash : Z) (b : byte) : Z :=
  (Z.lxor hash (Z.of_N (Byte.to_N b)) * prime) mod 2 ^ w.

(** [h := fnv.New64a(); h.Write([]byte(s)); h.Sum64()] *)
Definition Hash64 (s : string) : Z :=
  foldl (fnv1a_step 64 prime64) offset64 (String.list_byte_of_string s).

(** [int(hash) & (shardCount - 1)] *)
Definition ShardIndex (key : string) (shardCount : Z) : Z :=
  if shardCount <=? 1 then 0
  else Z.land (wrap64 (Hash64 key)) (wrap64 (shardCount - 1)).

(** [n > 0 && (n&(n-1)) == 0] *)
Definition IsPowerOfTwo (n : Z) : bool :=
  (0 <? n) && (Z.land n (wrap64 (n - 1)) =? 0).

(** The loop [for power < n { power <<= 1 }]; [fuel] bounds the number of
    iterations and [None] is "still running". *)
Fixpoint NextPowerOfTwo_loop (fuel : nat) (power n : Z) : option Z :=
  match fuel with
  | O => None
  | S fuel =>
      if power <? n then NextPowerOfTwo_loop fuel (wrap64 (Z.shiftl power 1)) n
      else Some power
  end.

Definition NextPowerOfTwo (fuel : nat) (n : Z) : option Z :=
  if n <=? 1 then Some 1
  else if IsPowerOfTwo n then Some n
  else NextPowerOfTwo_loop fuel 1 n.

End Hash.

(** ** What the calls of the interface do, as a caller can observe it

    [entry c k] is the value slice and the expiry that the cache [c] holds
    under [k]; the counters are read through [Stats]. *)

(** A [Get] counts exactly one hit or one miss, and agrees with its
    result; it never counts an eviction, never touches another key, and
    leaves the value and the expiry of its own key as they were, unless it
    drops the entry. *)
Definition GetAccounting {T : Type} (E : Cache T)
    (entry : T -> string -> option (slice * Time))
    (h : heap) (c : T) (key : string) (now : Time) : Prop :=
  exists h' c' s ok,
    Get E h c key now = Some (h', c', (s, ok)) /\
    Evictions (Stats_ E c') = Evictions (Stats_ E c) /\
    (if ok
     then Hits (Stats_ E c') = AddInt64 (Hits (Stats_ E c)) 1 /\
          Misses (Stats_ E c') = Misses (Stats_ E c)
     else Misses (Stats_ E c') = AddInt64 (Misses (Stats_ E c)) 1 /\
          Hits (Stats_ E c') = Hits (Stats_ E c) /\ h' = h /\ s = nil_slice) /\
    (forall k, k <> key -> entry c' k = entry c k) /\
    (entry c' key = entry c key \/ entry c' key = None).

(** [Delete] reports whether the key was resident (expired or not), removes
    that entry and nothing else, changes no counter, and a [Get] of the key
    that follows is a miss. *)
Definition DeleteSpec {T : Type} (E : Cache T)
    (entry : T -> string -> option (slice * Time)) (c : T) (key : string) : Prop :=
  exists c' deleted,
    Delete E c key = Some (c', deleted) /\
    (deleted = true -> is_Some (entry c key)) /\
    (key <> ""%string -> is_Some (entry c key) -> deleted = true) /\
    (deleted = false -> c' = c) /\
    (forall k, entry c' k = if decide (k = key) then
                              if deleted then None else entry c key
                            else entry c k) /\
    Hits (Stats_ E c') = Hits (Stats_ E c) /\
    Misses (Stats_ E c') = Misses (Stats_ E c) /\
    Evictions (Stats_ E c') = Evictions (Stats_ E c) /\
    Keys (Stats_ E c') = Keys (Stats_ E c) - (if deleted then 1 else 0) /\
    forall h now, exists c'', Get E h c' key now = Some (h, c'', (nil_slice, false)).

(** [Clear] drops every entry and zeroes the statistics; it keeps the
    closed flag; every [Get] that follows is a miss. *)
Definition ClearSpec {T : Type} (E : Cache T)
    (entry : T -> string -> option (slice * Time)) (closed : T -> bool) (c : T) : Prop :=
  exists c',
    Clear E c = Some c' /\
    (forall k, entry c' k = None) /\
    Stats_ E c' = {| Hits := 0; Misses := 0; Keys := 0; Evictions := 0; HitRate := 0 |} /\
    closed c' = closed c /\
    forall h key now, exists c'', Get E h c' key now = Some (h, c'', (nil_slice, false)).

(** [Close] only raises the closed flag, once: entries and statistics stay,
    and every [Get] is served as it would have been. *)
Definition CloseSpec {T : Type} (E : Cache T)
    (entry : T -> string -> option (slice * Time)) (closed : T -> bool) (c : T) : Prop :=
  exists c',
    Close E c = Some c' /\
    closed c' = true /\
    Close E c' = Some c' /\
    (forall k, entry c' k = entry c k) /\
    Stats_ E c' = Stats_ E c /\
    forall h key now h1 c1 r,
      Get E h c key now = Some (h1, c1, r) ->
      exists c1', Close E c1 = Some c1' /\ Get E h c' key now = Some (h1, c1', r).

(** A [Get] of a resident key in the engines that honour the expiry:
    [expired now e] tells whether the expiry [e] has passed.  The entry is
    returned as a fresh copy and kept as it is, or dropped with a miss. *)
Definition ResidentGet {T : Type} (E : Cache T)
    (entry : T -> string -> option (slice * Time)) (expired : Time -> Time -> bool)
    (h : heap) (c : T) (key : string) (now : Time) (v : slice) (e : Time) : Prop :=
  if expired now e then
    exists c', Get E h c key now = Some (h, c', (nil_slice, false)) /\
               entry c' key = None /\
               Keys (Stats_ E c') = Keys (Stats_ E c) - 1
  else
    exists h' c' s,
      Get E h c key now = Some (h', c', (s, true)) /\
      entry c' key = Some (v, e) /\
      Keys (Stats_ E c') = Keys (Stats_ E c) /\
      (slice_valid h v ->
       h' = h ++ [slice_bytes h v] /\ s = Slice (length h) 0 (slice_len v)).

(** A write to a resident key replaces its value and expiry in place:
    nothing is evicted and no other entry changes.  [expiry c ttl now] is
    the expiry the engine computes. *)
Definition OverwriteSpec {T : Type} (E : Cache T)
    (entry : T -> string -> option (slice * Time)) (expiry : T -> Duration -> Time -> Time)
    (h : heap) (c : T) (key : string) (v : slice) (ttl : Duration) (now : Time) : Prop :=
  exists c',
    SetWithTTL E h c key v ttl now = Some (h ++ [slice_bytes h v], c', None) /\
    entry c' key = Some (Slice (length h) 0 (slice_len v), expiry c ttl now) /\
    (forall k, k <> key -> entry c' k = entry c k) /\
    Keys (Stats_ E c') = Keys (Stats_ E c) /\
    Evictions (Stats_ E c') = Evictions (Stats_ E c) /\
    Hits (Stats_ E c') = Hits (Stats_ E c) /\
    Misses (Stats_ E c') = Misses (Stats_ E c).

(** Store under [key] at [t0], read at [t]: the bytes read and the flag. *)
Definition SetThenGet {T : Type} (E : Cache T) (h : heap) (c : T) (key : string)
    (v : slice) (ttl : Duration) (t0 t : Time) : option (list byte * bool) :=
  '(h, c, _) ← SetWithTTL E h c key v ttl t0;
  '(h, c, (s, ok)) ← Get E h c key t;
  Some (slice_bytes h s, ok).

(** The entry under [k] is resident in the [LRUCache] and its expiry has
    passed at [now]. *)
Definition LRU_stale (c : LRU.LRUCache) (now : Time) (k : string) : bool :=
  match LRUInv.entry c k with
  | Some (_, e) => passed now e
  | None => false
  end.

(** ** The capacity invariants

    An [LRUCache] of capacity [m] whose list is well formed and that holds
    at most [m] keys. *)
Definition LRU_bounded (m : Z) (c : LRU.LRUCache) : Prop :=
  LRUInv.wf c /\ LRU.maxSize c = m /\ Z.of_nat (size (LRU.items c)) <= m.

(** An [LFUCache] of capacity [m] without an entry under the empty key
    that holds at most [m] keys. *)
Definition LFU_bounded (m : Z) (c : LFU.LFUCache) : Prop :=
  LFU.items c !! ""%string = None /\ LFU.maxSize c = m /\
  Z.of_nat (size (LFU.items c)) <= m.

(** A [MemoryCache] built with [cfg], without an entry under the empty
    key, that holds at most [MaxSize] keys when [MaxSize] is positive. *)
Definition Memory_bounded (cfg : Config) (c : Memory.MemoryCache) : Prop :=
  Memory.config c = cfg /\ Memory.data c !! ""%string = None /\
  (0 < MaxSize cfg -> Z.of_nat (size (Memory.data c)) <= MaxSize cfg).

(** The capacity that [NewLRUWithTTL] and [NewLFUWithTTL] give a cache
    asked for with [maxSize]. *)
Definition capacity (maxSize : Z) : Z := if maxSize <=? 0 then 1000 else maxSize.

(** The stamp that the eviction of a [MemoryCache] compares under a policy
    other than LFU: the creation time under FIFO, the time of the last
    access under LRU and under any unknown policy. *)
Definition Memory_stamp (policy : EvictionPolicy) : Memory.Item -> Time :=
  if policy =? FIFO then Memory.CreatedAt else Memory.LastAccess.

(** The contents of [memory_ab] in a full [MemoryCache] of another
    policy. *)
Definition memory_full (policy : EvictionPolicy) : Memory.MemoryCache :=
  {| Memory.data := Memory.data memory_ab;
     Memory.config := {| MaxSize := 2; DefaultTTL := 0; CleanupInterval := 0;
                         EvictionPolicy_ := policy |};
     Memory.stopped := false;
     Memory.hits := 0; Memory.misses := 0; Memory.evictions := 0 |}.

(** ** The string cache of the HTTP server ([internal/cache])

    [cmd/server] stores request bodies as strings in this cache.  Values
    are Go strings (immutable), so no heap is needed; the clock is sampled
    once per operation.  [Get] returns [None] for a nil dereference. *)
Module Legacy.

Record CacheItem := {
  Value : string;
  ExpiresAt : Time
}.

(** [time.Now().After(item.ExpiresAt)] *)
Definition IsExpired (now : Time) (item : CacheItem) : bool := After now (ExpiresAt item).

Record SimpleCache := {
  data : gmap string CacheItem;
  hits : Z;
  misses : Z;
  evictions : Z
}.

Record Stats := {
  Hits : Z;
  Misses : Z;
  Keys : Z;
  Evictions : Z
}.

Definition with_data (m : gmap string CacheItem) (c : SimpleCache) : SimpleCache :=
  {| data := m; hits := hits c; misses := misses c; evictions := evictions c |}.

Definition add_hit (c : SimpleCache) : SimpleCache :=
  {| data := data c; hits := AddInt64 (hits c) 1; misses := misses c;
     evictions := evictions c |}.

Definition add_miss (c : SimpleCache) : SimpleCache :=
  {| data := data c; hits := hits c; misses := AddInt64 (misses c) 1;
     evictions := evictions c |}.

Definition New : SimpleCache := {| data := ∅; hits := 0; misses := 0; evictions := 0 |}.

(** [Get].  [item] is a pointer: the second lookup, under the write lock,
    assigns both [item] and [exists]; [!exists || item.IsExpired()]
    dereferences [item] only when [exists] holds. *)
Definition Get (c : SimpleCache) (key : string) (now : Time)
  : option (SimpleCache * (string * bool)) :=
  match data c !! key with
  | None => Some (add_miss c, (""%string, false))
  | Some item =>
      let '(c, item, exists_) :=
        if IsExpired now item then
          match data c !! key with
          | Some item' =>
              if IsExpired now item'
              then (with_data (delete key (data c)) c, Some item', false)
              else (c, Some item', true)
          | None => (c, None, false)
          end
        else (c, Some item, true) in
      if negb exists_ then Some (add_miss c, (""%string, false))
      else
        item ← item;
        if IsExpired now item then Some (add_miss c, (""%string, false))
        else Some (add_hit c, (Value item, true))
  end.

Definition SetWithTTL (c : SimpleCache) (key value : string) (ttl : Duration) (now : Time)
  : SimpleCache :=
  let expiresAt :=
    if 0 <? ttl then Add now ttl
    else Add now (100 * 365 * 24 * Hour) in
  with_data (<[key := {| Value := value; ExpiresAt := expiresAt |}]> (data c)) c.

Definition Set_ (c : SimpleCache) (key value : string) (now : Time) : SimpleCache :=
  SetWithTTL c key value 0 now.

Definition Delete (c : SimpleCache) (key : string) : SimpleCache * bool :=
  match data c !! key with
  | Some _ => (with_data (delete key (data c)) c, true)
  | None => (c, false)
  end.

(** One pass of the sweep: entries are deleted while the map is ranged
    over; the loop state is [(c.data, expired)]. *)
Definition removeExpired (it : MapIter) (c : SimpleCache) (now : Time) : SimpleCache :=
  let '(m, expired) :=
    foldl (fun '(m, expired) '(key, item) =>
             if IsExpired now item then (delete key m, expired + 1) else (m, expired))
          (data c, 0) (range it (data c)) in
  let c := with_data m c in
  if 0 <? expired
  then {| data := data c; hits := hits c; misses := misses c;
          evictions := AddInt64 (evictions c) expired |}
  else c.

Definition Stats_ (c : SimpleCache) : Stats :=
  {| Hits := hits c; Misses := misses c; Keys := Z.of_nat (size (data c));
     Evictions := evictions c |}.

Definition Clear (c : SimpleCache) : SimpleCache :=
  {| data := ∅; hits := 0; misses := 0; evictions := 0 |}.

(** Store under [key] at [t0], read at [t]. *)
Definition SetThenGet (c : SimpleCache) (key value : string) (ttl : Duration)
    (t0 t : Time) : option (SimpleCache * (string * bool)) :=
  Get (SetWithTTL c key value ttl t0) key t.

End Legacy.

(** * Facts *)

(** ** int64 arithmetic *)

Lemma wrap64_id (z : Z) : int64_range z -> wrap64 z = z.
Proof.
  unfold int64_range, min_int64, max_int64, wrap64. intros Hz.
  rewrite Z.mod_small; lia.
Qed.

Lemma AddInt64_exact (x d : Z) : int64_range (x + d) -> AddInt64 x d = x + d.
Proof. apply wrap64_id. Qed.

Lemma AddInt64_succ (x : Z) : int64_range x -> x < max_int64 -> AddInt64 x 1 = x + 1.
Proof.
  intros [Hlo Hhi] Hlt. apply AddInt64_exact. unfold int64_range in *. lia.
Qed.

(** The guarded addition of the sweeps,
    [if n > 0 { atomic.AddInt64(&c.evictions, int64(n)) }], is the plain
    addition on a counter that is an int64. *)
Lemma AddInt64_guarded (x : Z) (n : nat) :
  int64_range x ->
  (if (0 <? n)%nat then AddInt64 x (Z.of_nat n) else x) = AddInt64 x (Z.of_nat n).
Proof.
  intros Hx. destruct n as [|n]; [|reflexivity].
  unfold AddInt64. cbn [Nat.ltb Nat.leb Z.of_nat]. by rewrite Z.add_0_r, wrap64_id.
Qed.

(** ** The option monad of run-time panics *)

Lemma bind_Some {A B : Type} (f : A -> option B) (x : A) : Some x ≫= f = f x.
Proof. done. Qed.

(** ** Slices *)

Section slices.
Implicit Types (h : heap) (s : slice) (bs : list byte).

Lemma array_at_app_l h h' (a : loc) : (a < length h)%nat -> array_at (h ++ h') a = array_at h a.
Proof. intros Ha. unfold array_at. by rewrite lookup_app_l. Qed.

Lemma array_at_app_new h bs : array_at (h ++ [bs]) (length h) = bs.
Proof. unfold array_at. by rewrite list_lookup_middle. Qed.

Lemma slice_bytes_app_l h h' s : slice_valid h s -> slice_bytes (h ++ h') s = slice_bytes h s.
Proof.
  destruct s as [|a o n]; unfold slice_bytes; simpl; [done|].
  intros [Ha _]. by rewrite array_at_app_l.
Qed.

Lemma slice_valid_app_l h h' s : slice_valid h s -> slice_valid (h ++ h') s.
Proof.
  destruct s as [|a o n]; simpl; [done|]. intros [Ha Hlen].
  rewrite array_at_app_l, length_app by done. lia.
Qed.

Lemma slice_bytes_length h s : slice_valid h s -> length (slice_bytes h s) = slice_len s.
Proof.
  destruct s as [|a o n]; unfold slice_bytes; simpl; [done|]. intros [_ Hlen].
  rewrite length_take, length_drop. lia.
Qed.

Lemma slice_bytes_whole h bs :
  slice_bytes (h ++ [bs]) (Slice (length h) 0 (length bs)) = bs.
Proof. unfold slice_bytes. rewrite array_at_app_new. simpl. by rewrite firstn_all. Qed.

Lemma slice_valid_whole h bs : slice_valid (h ++ [bs]) (Slice (length h) 0 (length bs)).
Proof. simpl. rewrite array_at_app_new, length_app. simpl. lia. Qed.

(** [v := make([]byte, len(s)); copy(v, s)] appends one array holding the
    bytes of [s]. *)
Lemma make_copy h s :
  slice_valid h s ->
  copy (make h (slice_len s)).1 (make h (slice_len s)).2 s = h ++ [slice_bytes h s].
Proof.
  intros Hs. unfold make, copy. simpl.
  rewrite slice_bytes_app_l by done. simpl.
  rewrite (slice_bytes_length h s Hs), Nat.min_id.
  rewrite alter_app_r_alt, Nat.sub_diag by lia. simpl.
  rewrite take_ge by (rewrite slice_bytes_length; [lia|done]).
  rewrite drop_ge by (rewrite length_replicate; lia).
  by rewrite app_nil_r.
Qed.

Lemma make_copy' h s :
  slice_valid h s ->
  copy (h ++ [replicate (slice_len s) x00]) (Slice (length h) 0 (slice_len s)) s
  = h ++ [slice_bytes h s].
Proof. apply make_copy. Qed.

Lemma slice_write_length h s bs : length (slice_write h s bs) = length h.
Proof. destruct s; simpl; [done|]. by rewrite length_alter. Qed.

Lemma slice_write_array_ne h (a a' : loc) o n bs :
  a <> a' -> array_at (slice_write h (Slice a o n) bs) a' = array_at h a'.
Proof. intros Hne. unfold array_at. simpl. by rewrite list_lookup_alter_ne. Qed.

(** Writing through a slice leaves the bytes seen through slices of other
    arrays unchanged. *)
Lemma slice_write_bytes_ne h s bs (a' : loc) o' n' :
  (forall a o n, s = Slice a o n -> a <> a') ->
  slice_bytes (slice_write h s bs) (Slice a' o' n') = slice_bytes h (Slice a' o' n').
Proof.
  intros Hne. destruct s as [|a o n]; [done|].
  unfold slice_bytes. rewrite slice_write_array_ne; [done|]. by eapply Hne.
Qed.

Lemma slice_write_valid h s bs s' : slice_valid h s' -> slice_valid (slice_write h s bs) s'.
Proof.
  destruct s' as [|a' o' n']; [done|]. intros [Ha Hlen].
  split; [by rewrite slice_write_length|].
  destruct s as [|a o n]; [done|].
  destruct (decide (a = a')) as [->|Hne]; [|by rewrite slice_write_array_ne].
  unfold array_at in *. simpl.
  destruct (lookup_lt_is_Some_2 h a' Ha) as [arr Harr].
  rewrite list_lookup_alter_eq, Harr in *. simpl in *.
  rewrite !length_app, !length_take, length_drop. lia.
Qed.

End slices.

(** ** Ranging over a map: collecting and deleting keys *)

Section sweeps.
Context {A : Type}.
Implicit Types (m : gmap string A) (P : A -> bool) (L : list (string * A)).

Lemma elem_of_range (it : MapIter) m k x : (k, x) ∈ range it m <-> m !! k = Some x.
Proof. rewrite (range_perm it A m). apply elem_of_map_to_list. Qed.

Lemma NoDup_range_keys (it : MapIter) m : NoDup (range it m).*1.
Proof. rewrite (range_perm it A m). apply NoDup_fst_map_to_list. Qed.

Lemma range_nil (it : MapIter) m : range it m = [] <-> m = ∅.
Proof.
  split.
  - intros Hnil. apply map_to_list_empty_iff.
    apply Permutation_nil_r. rewrite <- Hnil. symmetry. apply range_perm.
  - intros ->. apply Permutation_nil_r. rewrite (range_perm it A ∅).
    by rewrite map_to_list_empty.
Qed.

Lemma range_length (it : MapIter) m : length (range it m) = size m.
Proof. rewrite (range_perm it A m). apply length_map_to_list. Qed.

(** The first loop of a sweep: the keys of the entries satisfying [P], in
    iteration order. *)
Lemma collect_keys P L acc :
  foldl (fun acc '(key, item) => if P item then acc ++ [key] else acc) acc L
  = acc ++ (filter (fun e => P e.2 = true) L).*1.
Proof.
  revert acc. induction L as [|[k x] L IH]; intros acc; simpl.
  - by rewrite app_nil_r.
  - rewrite IH. destruct (P x) eqn:HP.
    + rewrite filter_cons_True by done. simpl. by rewrite <- app_assoc.
    + rewrite filter_cons_False; [done|]. simpl. by rewrite HP.
Qed.

Lemma lookup_foldl_delete m (ks : list string) k :
  foldl (fun m key => delete key m) m ks !! k = if decide (k ∈ ks) then None else m !! k.
Proof.
  revert m. induction ks as [|k0 ks IH]; intros m; cbn [foldl].
  - case_decide; [set_solver|done].
  - rewrite IH. destruct (decide (k = k0)) as [->|Hne].
    + rewrite lookup_delete_eq. repeat case_decide; try done; set_solver.
    + rewrite lookup_delete_ne by done. repeat case_decide; try done; set_solver.
Qed.

Lemma size_foldl_delete m (ks : list string) :
  NoDup ks -> (forall k, k ∈ ks -> is_Some (m !! k)) ->
  (size (foldl (fun m key => delete key m) m ks) + length ks = size m)%nat.
Proof.
  revert m. induction ks as [|k0 ks IH]; intros m Hnd Hin; simpl; [lia|].
  apply NoDup_cons in Hnd as [Hk0 Hnd].
  destruct (Hin k0) as [x Hx]; [set_solver|].
  assert (size m <> 0%nat) by (apply map_size_ne_0_lookup; eauto).
  pose proof (map_size_delete_Some k0 m) as Hdel.
  specialize (IH (delete k0 m) Hnd).
  rewrite Hdel in IH by eauto.
  cut (size (foldl (fun m key => delete key m) (delete k0 m) ks) + length ks
       = Nat.pred (size m))%nat; [lia|].
  apply IH. intros k Hk. rewrite lookup_delete_ne by (intros ->; done).
  apply Hin. set_solver.
Qed.

Lemma elem_of_collected (it : MapIter) P m k :
  k ∈ (filter (fun e => P e.2 = true) (range it m)).*1
  <-> exists x, m !! k = Some x /\ P x = true.
Proof.
  rewrite list_elem_of_fmap. split.
  - intros ([k' x] & -> & [HP Hin%elem_of_range]%list_elem_of_filter). eauto.
  - intros (x & Hx & HP). exists (k, x). split; [done|].
    apply list_elem_of_filter. split; [done|]. by apply elem_of_range.
Qed.

(** The two loops of a sweep together: exactly the entries satisfying [P]
    are gone. *)
Lemma sweep_lookup (it : MapIter) P m k :
  foldl (fun m key => delete key m) m (filter (fun e => P e.2 = true) (range it m)).*1 !! k
  = x ← m !! k; if P x then None else Some x.
Proof.
  rewrite lookup_foldl_delete. case_decide as Hk.
  - apply elem_of_collected in Hk as (x & -> & HP). simpl. by rewrite HP.
  - destruct (m !! k) as [x|] eqn:Hx; [|done]. simpl.
    destruct (P x) eqn:HP; [|done]. exfalso. apply Hk, elem_of_collected. eauto.
Qed.

Lemma sweep_filter (it : MapIter) P m :
  foldl (fun m key => delete key m) m (filter (fun e => P e.2 = true) (range it m)).*1
  = filter (fun e => P e.2 = false) m.
Proof.
  apply map_eq. intros k. rewrite sweep_lookup, map_lookup_filter.
  destruct (m !! k) as [x|]; [|done]. simpl.
  destruct (P x) eqn:HP.
  - by rewrite option_guard_False by (simpl; congruence).
  - by rewrite option_guard_True by (simpl; congruence).
Qed.

Lemma sweep_count (it : MapIter) P m :
  (size (filter (fun e => P e.2 = false) m)
   + length (filter (fun e => P e.2 = true) (range it m)).*1 = size m)%nat.
Proof.
  rewrite <- (sweep_filter it). apply size_foldl_delete.
  - assert ((filter (fun e : string * A => P e.2 = true) (range it m)).*1
            `sublist_of` (range it m).*1) as Hsub.
    { apply fmap_sublist, sublist_filter. }
    eapply sublist_NoDup; [apply NoDup_range_keys|exact Hsub].
  - intros k (x & Hx & _)%elem_of_collected. eauto.
Qed.

End sweeps.

(** ** Arrays owned by a cache

    A cached value is always a whole array allocated by the cache itself.
    Such an array is untouched by later allocations and by writes through
    slices of other arrays. *)

Section ownership.
Implicit Types (h : heap) (s : slice) (bs : list byte) (a : nat).

Lemma owned_new h bs : (h ++ [bs]) !! length h = Some bs.
Proof. by rewrite list_lookup_middle. Qed.

Lemma owned_app h h' a bs : h !! a = Some bs -> (h ++ h') !! a = Some bs.
Proof. intros Ha. by apply lookup_app_l_Some. Qed.

Lemma owned_write h s X a bs :
  disjoint_from s a -> h !! a = Some bs -> slice_write h s X !! a = Some bs.
Proof.
  destruct s as [|a' o n]; simpl; [done|]. intros Hne Ha.
  by rewrite list_lookup_alter_ne.
Qed.

Lemma owned_bytes h a bs : h !! a = Some bs -> slice_bytes h (Slice a 0 (length bs)) = bs.
Proof.
  intros Ha. unfold slice_bytes, array_at. rewrite Ha. simpl. by rewrite firstn_all.
Qed.

Lemma owned_valid h a bs : h !! a = Some bs -> slice_valid h (Slice a 0 (length bs)).
Proof.
  intros Ha. simpl. split; [by eapply lookup_lt_Some|].
  unfold array_at. rewrite Ha. simpl. lia.
Qed.

Lemma valid_disjoint_new h s : slice_valid h s -> disjoint_from s (length h).
Proof. destruct s as [|a o n]; simpl; [done|]. intros [Ha _]. lia. Qed.

Lemma fresh_disjoint h a bs o n :
  h !! a = Some bs -> disjoint_from (Slice (length h) o n) a.
Proof. intros Ha%lookup_lt_Some. simpl. lia. Qed.

End ownership.

Lemma range_singleton {A : Type} (it : MapIter) (k : string) (x : A) :
  range it ({[k := x]} : gmap string A) = [(k, x)].
Proof.
  apply Permutation_singleton_r. rewrite (range_perm it A).
  by rewrite map_to_list_singleton.
Qed.

(** ** Statistics *)

Lemma CalculateHitRate_counters (s : Stats) :
  Hits (CalculateHitRate s) = Hits s /\ Misses (CalculateHitRate s) = Misses s /\
  Keys (CalculateHitRate s) = Keys s /\ Evictions (CalculateHitRate s) = Evictions s.
Proof. unfold CalculateHitRate. by destruct (0 <? _). Qed.

(** [CalculateHitRate] on counters whose sum is an int64. *)
Lemma CalculateHitRate_rate (s : Stats) :
  int64_range (Hits s + Misses s) ->
  HitRate (CalculateHitRate s)
  = if 0 <? Hits s + Misses s
    then (float64_of_int64 (Hits s) / float64_of_int64 (Hits s + Misses s) * 100)%float
    else HitRate s.
Proof.
  intros Hr. unfold CalculateHitRate. cbv zeta. rewrite (wrap64_id _ Hr).
  by destruct (0 <? _).
Qed.

(** ** Expiry *)

Lemma deadline_live ttl defaultTTL now :
  negb (IsZero (deadline ttl defaultTTL now)) && After now (deadline ttl defaultTTL now) = false.
Proof.
  unfold deadline, IsZero, After, Add.
  destruct (Z.ltb_spec 0 ttl); [|destruct (Z.ltb_spec 0 defaultTTL)].
  - apply andb_false_iff. right. apply Z.ltb_ge. lia.
  - apply andb_false_iff. right. apply Z.ltb_ge. lia.
  - done.
Qed.

(** Past the deadline of a positive TTL the entry is expired (the clock is
    after the zero instant). *)
Lemma deadline_passed ttl defaultTTL now now' :
  0 < now -> 0 < ttl -> now + ttl < now' ->
  negb (IsZero (deadline ttl defaultTTL now)) && After now' (deadline ttl defaultTTL now) = true.
Proof.
  intros Hnow Httl Hlate. unfold deadline, IsZero, After, Add.
  rewrite (proj2 (Z.ltb_lt 0 ttl)) by done.
  apply andb_true_iff. split.
  - apply negb_true_iff, Z.eqb_neq. lia.
  - apply Z.ltb_lt. lia.
Qed.

(** ** The unbounded engine *)

Module SimpleFacts.
Import Simple.

Section operations.
Implicit Types (h : heap) (c : SimpleCache) (k : string) (v : slice).

Lemma Simple_SetWithTTL_empty_key h c v ttl now :
  SetWithTTL h c "" v ttl now = (h, c, Some ErrKeyEmpty).
Proof. done. Qed.

Lemma Simple_SetWithTTL_closed h c k v ttl now :
  k <> ""%string -> closed c = true ->
  SetWithTTL h c k v ttl now = (h, c, Some ErrCacheClosed).
Proof. intros Hk Hc. unfold SetWithTTL. rewrite decide_False by done. by rewrite Hc. Qed.

Lemma Simple_SetWithTTL_ok h c k v ttl now :
  k <> ""%string -> closed c = false -> slice_valid h v ->
  SetWithTTL h c k v ttl now =
    (h ++ [slice_bytes h v],
     with_items (<[k := {| value := Slice (length h) 0 (slice_len v);
                           expiresAt := deadline ttl (defaultTTL c) now |}]> (items c)) c,
     None).
Proof.
  intros Hk Hc Hv. unfold SetWithTTL. rewrite decide_False by done. rewrite Hc.
  unfold make. by rewrite make_copy' by done.
Qed.

Lemma hit_copy h c item :
  slice_valid h (value item) ->
  hit h c item =
    (h ++ [slice_bytes h (value item)], add_hit c,
     (Slice (length h) 0 (slice_len (value item)), true)).
Proof. intros Hv. unfold hit, make. by rewrite make_copy' by done. Qed.

Lemma Simple_Get_empty_key h c now : Get h c "" now = (h, add_miss c, (nil_slice, false)).
Proof. done. Qed.

Lemma Simple_Get_absent h c k now :
  items c !! k = None -> Get h c k now = (h, add_miss c, (nil_slice, false)).
Proof. intros Hk. unfold Get. case_decide; [done|]. by rewrite Hk. Qed.

Lemma Simple_Get_live h c k item now :
  k <> ""%string -> items c !! k = Some item -> isExpired now item = false ->
  slice_valid h (value item) ->
  Get h c k now =
    (h ++ [slice_bytes h (value item)], add_hit c,
     (Slice (length h) 0 (slice_len (value item)), true)).
Proof.
  intros Hk Hi He Hv. unfold Get. rewrite decide_False by done.
  rewrite Hi, He. by apply hit_copy.
Qed.

(** A read of an expired entry deletes it from the map, and then still
    counts a hit and returns the bytes of the expired entry: the [exists]
    cleared inside the locked block is not the one tested after it. *)
Lemma Simple_Get_expired h c k item now :
  k <> ""%string -> items c !! k = Some item -> isExpired now item = true ->
  slice_valid h (value item) ->
  Get h c k now =
    (h ++ [slice_bytes h (value item)],
     add_hit (with_items (delete k (items c)) c),
     (Slice (length h) 0 (slice_len (value item)), true)).
Proof.
  intros Hk Hi He Hv. unfold Get. rewrite decide_False by done.
  rewrite Hi, He. simpl. by apply hit_copy.
Qed.

Lemma Simple_removeExpired_items it c now :
  items (removeExpired it c now) = filter (fun e => isExpired now e.2 = false) (items c).
Proof. unfold removeExpired. simpl. rewrite collect_keys. simpl. apply sweep_filter. Qed.

Lemma Simple_removeExpired_counters it c now :
  hits (removeExpired it c now) = hits c /\ misses (removeExpired it c now) = misses c /\
  closed (removeExpired it c now) = closed c /\
  defaultTTL (removeExpired it c now) = defaultTTL c.
Proof. done. Qed.

End operations.
End SimpleFacts.

(** ** The frequency engine *)

Module LFUFacts.
Import LFU LFUInv.

Section operations.
Implicit Types (h : heap) (c : LFUCache) (k : string) (v : slice) (it : MapIter).

Lemma victim_le_refl x : victim_le x x.
Proof. right. lia. Qed.

(** The scan of [evictLFU] ends on an entry that is minimal for
    (frequency, lastAccess). *)
Lemma LFU_evictLFU_scan_min (l : list (string * lfuItem)) :
  l <> [] ->
  (forall e, e ∈ l -> frequency e.2 <> -1) ->
  exists k item,
    (k, item) ∈ l /\
    evictLFU_scan l = (k, frequency item, lastAccess item) /\
    forall e, e ∈ l -> victim_le item e.2.
Proof.
  induction l as [|[kx x] l IH] using rev_ind; [done|].
  intros _ Hfreq. unfold evictLFU_scan. rewrite foldl_app. simpl.
  destruct (decide (l = [])) as [->|Hne].
  - simpl. exists kx, x. split_and!; [set_solver|done|].
    intros e ->%list_elem_of_singleton. apply victim_le_refl.
  - destruct IH as (k & item & Hin & Hscan & Hmin); [done|intros e He; apply Hfreq; set_solver|].
    unfold evictLFU_scan in Hscan. rewrite Hscan. simpl.
    assert (frequency item <> -1) as Hf by (apply (Hfreq (k, item)); set_solver).
    rewrite (proj2 (Z.eqb_neq _ _) Hf). simpl.
    unfold Before.
    destruct (Z.ltb_spec (frequency x) (frequency item)) as [Hlt|Hge]; simpl.
    + exists kx, x. split_and!; [set_solver|done|].
      intros e [He| ->%list_elem_of_singleton]%elem_of_app; [|apply victim_le_refl].
      destruct (Hmin e He) as [?|[? ?]]; left; simpl in *; lia.
    + destruct (Z.eqb_spec (frequency x) (frequency item)) as [Heq|Hneq]; simpl;
        [destruct (Z.ltb_spec (lastAccess x) (lastAccess item)) as [Hla|Hla]|].
      * exists kx, x. split_and!; [set_solver|done|].
        intros e [He| ->%list_elem_of_singleton]%elem_of_app; [|apply victim_le_refl].
        destruct (Hmin e He) as [?|[? ?]]; [left|right]; simpl in *; lia.
      * exists k, item. split_and!; [set_solver|done|].
        intros e [He| ->%list_elem_of_singleton]%elem_of_app; [by apply Hmin|].
        right. simpl. lia.
      * exists k, item. split_and!; [set_solver|done|].
        intros e [He| ->%list_elem_of_singleton]%elem_of_app; [by apply Hmin|].
        left. simpl. lia.
Qed.

(** On a non-empty well-formed cache [evictLFU] removes exactly one entry,
    minimal for (frequency, lastAccess), and counts one eviction. *)
Lemma LFU_evictLFU_victim it c :
  wf c -> items c <> ∅ ->
  exists victim item,
    items c !! victim = Some item /\
    evictLFU it c = add_evictions 1 (with_items (delete victim (items c)) c) /\
    forall k' item', items c !! k' = Some item' -> victim_le item item'.
Proof.
  intros Hwf Hne.
  destruct (LFU_evictLFU_scan_min (range it (items c))) as (k & item & Hin & Hscan & Hmin).
  - by rewrite range_nil.
  - intros [k x] Hx%elem_of_range. destruct (Hwf _ _ Hx) as [_ Hf]. simpl. lia.
  - apply elem_of_range in Hin. exists k, item. split_and!; [done| |].
    + unfold evictLFU. rewrite decide_False by (by rewrite map_size_empty_iff).
      rewrite Hscan. rewrite decide_True; [done|]. by apply (Hwf _ _ Hin).
    + intros k' item' Hk'. apply (Hmin (k', item')). by apply elem_of_range.
Qed.

Lemma LFU_SetWithTTL_empty_key it h c v ttl now :
  SetWithTTL it h c "" v ttl now = (h, c, Some ErrKeyEmpty).
Proof. done. Qed.

Lemma LFU_SetWithTTL_closed it h c k v ttl now :
  k <> ""%string -> closed c = true ->
  SetWithTTL it h c k v ttl now = (h, c, Some ErrCacheClosed).
Proof. intros Hk Hc. unfold SetWithTTL. rewrite decide_False by done. by rewrite Hc. Qed.

(** Overwriting a resident key keeps its frequency. *)
Lemma LFU_SetWithTTL_existing it h c k item v ttl now :
  k <> ""%string -> closed c = false -> slice_valid h v ->
  items c !! k = Some item ->
  SetWithTTL it h c k v ttl now =
    (h ++ [slice_bytes h v],
     with_items (<[k := {| key := key item; value := Slice (length h) 0 (slice_len v);
                           expiresAt := deadline ttl (defaultTTL c) now;
                           frequency := frequency item; lastAccess := now |}]> (items c)) c,
     None).
Proof.
  intros Hk Hc Hv Hi. unfold SetWithTTL. rewrite decide_False by done. rewrite Hc.
  unfold make. rewrite make_copy' by done. by rewrite Hi.
Qed.

Lemma LFU_SetWithTTL_new it h c k v ttl now :
  k <> ""%string -> closed c = false -> slice_valid h v ->
  items c !! k = None ->
  SetWithTTL it h c k v ttl now =
    let c1 := if maxSize c <=? Z.of_nat (size (items c)) then evictLFU it c else c in
    (h ++ [slice_bytes h v],
     with_items (<[k := {| key := k; value := Slice (length h) 0 (slice_len v);
                           expiresAt := deadline ttl (defaultTTL c) now;
                           frequency := 1; lastAccess := now |}]> (items c1)) c1,
     None).
Proof.
  intros Hk Hc Hv Hi. unfold SetWithTTL. rewrite decide_False by done. rewrite Hc.
  unfold make. rewrite make_copy' by done. rewrite Hi.
  assert (defaultTTL (if maxSize c <=? Z.of_nat (size (items c)) then evictLFU it c else c)
          = defaultTTL c) as Hd.
  { destruct (maxSize c <=? _); [|done]. unfold evictLFU.
    case_decide; [done|]. destruct (evictLFU_scan _) as [[? ?] ?]. by case_decide. }
  done.
Qed.

Lemma LFU_Get_empty_key h c now : Get h c "" now = (h, add_miss c, (nil_slice, false)).
Proof. done. Qed.

Lemma LFU_Get_absent h c k now :
  items c !! k = None -> Get h c k now = (h, add_miss c, (nil_slice, false)).
Proof. intros Hk. unfold Get. case_decide; [done|]. by rewrite Hk. Qed.

Lemma LFU_Get_live h c k item now :
  k <> ""%string -> items c !! k = Some item -> isExpired now item = false ->
  slice_valid h (value item) ->
  Get h c k now =
    (h ++ [slice_bytes h (value item)],
     add_hit (with_items (<[k := touch now item]> (items c)) c),
     (Slice (length h) 0 (slice_len (value item)), true)).
Proof.
  intros Hk Hi He Hv. unfold Get. rewrite decide_False by done.
  rewrite Hi, He. unfold make. simpl. by rewrite make_copy' by done.
Qed.

Lemma LFU_Get_expired h c k item now :
  k <> ""%string -> items c !! k = Some item -> isExpired now item = true ->
  Get h c k now = (h, add_miss (with_items (delete k (items c)) c), (nil_slice, false)).
Proof.
  intros Hk Hi He. unfold Get. rewrite decide_False by done. by rewrite Hi, He.
Qed.

Lemma LFU_removeExpired_items it c now :
  items (removeExpired it c now) = filter (fun e => isExpired now e.2 = false) (items c).
Proof.
  unfold removeExpired. rewrite collect_keys. simpl.
  rewrite <- (sweep_filter it). by destruct (0 <? _)%nat.
Qed.

Lemma LFU_removeExpired_evictions it c now :
  let deleted := (size (items c) - size (items (removeExpired it c now)))%nat in
  evictions (removeExpired it c now) =
    if (0 <? deleted)%nat then AddInt64 (evictions c) (Z.of_nat deleted) else evictions c.
Proof.
  intros deleted.
  assert (deleted = length (filter (fun e => isExpired now e.2 = true) (range it (items c))).*1)
    as ->.
  { unfold deleted. rewrite LFU_removeExpired_items.
    pose proof (sweep_count it (isExpired now) (items c)). lia. }
  unfold removeExpired. rewrite collect_keys. simpl.
  by destruct (0 <? _)%nat.
Qed.

End operations.
End LFUFacts.

(** ** The configurable engine *)

Module MemoryFacts.
Import Memory.

Section operations.
Implicit Types (h : heap) (c : MemoryCache) (k : string) (v : slice) (it : MapIter).

Lemma far_deadline_live ttl defaultTTL now :
  After now (far_deadline ttl defaultTTL now) = false.
Proof.
  unfold far_deadline, After, Add, Hour, Minute, Second, Millisecond.
  apply Z.ltb_ge.
  destruct (Z.ltb_spec 0 ttl); [lia|]. destruct (Z.ltb_spec 0 defaultTTL); lia.
Qed.

(** The scan of [evictLRU] ([stamp] = [LastAccess]) and of [evictFIFO]
    ([stamp] = [CreatedAt]) ends on an entry with the least stamp. *)
Lemma Memory_evictOldest_scan_min (stamp : Item -> Time) (l : list (string * Item)) :
  l <> [] ->
  exists k item,
    (k, item) ∈ l /\
    evictOldest_scan stamp l = (k, stamp item, false) /\
    forall e, e ∈ l -> stamp item <= stamp e.2.
Proof.
  induction l as [|[kx x] l IH] using rev_ind; [done|].
  intros _. unfold evictOldest_scan. rewrite foldl_app. simpl.
  destruct (decide (l = [])) as [->|Hne].
  - simpl. exists kx, x. split_and!; [set_solver|done|].
    intros e ->%list_elem_of_singleton. simpl. lia.
  - destruct IH as (k & item & Hin & Hscan & Hmin); [done|].
    unfold evictOldest_scan in Hscan. rewrite Hscan. simpl. unfold Before.
    destruct (Z.ltb_spec (stamp x) (stamp item)) as [Hlt|Hge].
    + exists kx, x. split_and!; [set_solver|done|].
      intros e [He| ->%list_elem_of_singleton]%elem_of_app; simpl; [|lia].
      specialize (Hmin e He). lia.
    + exists k, item. split_and!; [set_solver|done|].
      intros e [He| ->%list_elem_of_singleton]%elem_of_app; simpl; [by apply Hmin|lia].
Qed.

(** The scan of [evictLFU] ends on an entry with the least access count;
    it does not look at [LastAccess]. *)
Lemma Memory_evictLFU_scan_min (l : list (string * Item)) :
  l <> [] ->
  (forall e, e ∈ l -> AccessCount e.2 <> -1) ->
  exists k item,
    (k, item) ∈ l /\
    evictLFU_scan l = (k, AccessCount item) /\
    forall e, e ∈ l -> AccessCount item <= AccessCount e.2.
Proof.
  induction l as [|[kx x] l IH] using rev_ind; [done|].
  intros _ Hcnt. unfold evictLFU_scan. rewrite foldl_app. simpl.
  destruct (decide (l = [])) as [->|Hne].
  - simpl. exists kx, x. split_and!; [set_solver|done|].
    intros e ->%list_elem_of_singleton. simpl. lia.
  - destruct IH as (k & item & Hin & Hscan & Hmin); [done|intros e He; apply Hcnt; set_solver|].
    unfold evictLFU_scan in Hscan. rewrite Hscan. simpl.
    assert (AccessCount item <> -1) as Hf by (apply (Hcnt (k, item)); set_solver).
    rewrite (proj2 (Z.eqb_neq _ _) Hf). simpl.
    destruct (Z.ltb_spec (AccessCount x) (AccessCount item)) as [Hlt|Hge].
    + exists kx, x. split_and!; [set_solver|done|].
      intros e [He| ->%list_elem_of_singleton]%elem_of_app; simpl; [|lia].
      specialize (Hmin e He). lia.
    + exists k, item. split_and!; [set_solver|done|].
      intros e [He| ->%list_elem_of_singleton]%elem_of_app; simpl; [by apply Hmin|lia].
Qed.

Lemma Memory_SetWithTTL_spec it h c k v ttl now :
  slice_valid h v ->
  SetWithTTL it h c k v ttl now =
    let c1 :=
      if (0 <? MaxSize (config c)) && (MaxSize (config c) <=? Z.of_nat (size (data c)))
      then match data c !! k with Some _ => c | None => evict it c end
      else c in
    (h ++ [slice_bytes h v],
     with_data (<[k := {| Value := Slice (length h) 0 (slice_len v);
                          ExpiresAt := far_deadline ttl (DefaultTTL (config c)) now;
                          LastAccess := now; AccessCount := 1; CreatedAt := now |}]>
                  (data c1)) c1,
     None).
Proof.
  intros Hv. unfold SetWithTTL, make. by rewrite make_copy' by done.
Qed.

Lemma Memory_SetWithTTL_no_error it h c k v ttl now : (SetWithTTL it h c k v ttl now).2 = None.
Proof. done. Qed.

Lemma Memory_Get_absent h c k now :
  data c !! k = None -> Get h c k now = (h, add_miss c, (nil_slice, false)).
Proof. intros Hk. unfold Get. by rewrite Hk. Qed.

Lemma Memory_Get_live h c k item now :
  data c !! k = Some item -> IsExpired now item = false ->
  slice_valid h (Value item) ->
  Get h c k now =
    (h ++ [slice_bytes h (Value item)],
     add_hit (with_data (<[k := Touch now item]> (data c)) c),
     (Slice (length h) 0 (slice_len (Value item)), true)).
Proof.
  intros Hi He Hv. unfold Get. rewrite Hi, He.
  cbv beta iota zeta delta [negb]. rewrite Hi, He.
  unfold make. cbv beta iota zeta delta [negb]. by rewrite make_copy' by done.
Qed.

Lemma Memory_Get_expired h c k item now :
  data c !! k = Some item -> IsExpired now item = true ->
  Get h c k now = (h, add_miss (with_data (delete k (data c)) c), (nil_slice, false)).
Proof. intros Hi He. unfold Get. by rewrite Hi, He. Qed.

Lemma Memory_removeExpired_fold (P : Item -> bool) (L : list (string * Item))
    (m : gmap string Item) (n : Z) :
  foldl (fun '(m, expired) '(key, item) =>
           if P item then (delete key m, expired + 1) else (m, expired)) (m, n) L
  = (foldl (fun m key => delete key m) m (filter (fun e => P e.2 = true) L).*1,
     n + Z.of_nat (length (filter (fun e => P e.2 = true) L).*1)).
Proof.
  revert m n. induction L as [|[k x] L IH]; intros m n; cbn [foldl].
  - cbn. f_equal. lia.
  - destruct (P x) eqn:HP.
    + rewrite filter_cons_True by done. rewrite IH, fmap_cons.
      cbn [foldl length fst]. f_equal. rewrite Nat2Z.inj_succ. lia.
    + rewrite filter_cons_False by (simpl; congruence). by rewrite IH.
Qed.

Lemma Memory_removeExpired_data it c now :
  data (removeExpired it c now) = filter (fun e => IsExpired now e.2 = false) (data c).
Proof.
  unfold removeExpired. rewrite (Memory_removeExpired_fold (IsExpired now)).
  rewrite <- (sweep_filter it). by destruct (0 <? _).
Qed.

Lemma Memory_removeExpired_evictions it c now :
  let deleted := (size (data c) - size (data (removeExpired it c now)))%nat in
  evictions (removeExpired it c now) =
    if (0 <? deleted)%nat then AddInt64 (evictions c) (Z.of_nat deleted) else evictions c.
Proof.
  intros deleted.
  assert (deleted = length (filter (fun e => IsExpired now e.2 = true) (range it (data c))).*1)
    as ->.
  { unfold deleted. rewrite Memory_removeExpired_data.
    pose proof (sweep_count it (IsExpired now) (data c)). lia. }
  unfold removeExpired. rewrite (Memory_removeExpired_fold (IsExpired now)).
  rewrite Z.add_0_l.
  destruct (length _) as [|n] eqn:Hn; [done|].
  by rewrite (proj2 (Z.ltb_lt 0 (Z.of_nat (S n)))) by lia.
Qed.

End operations.
End MemoryFacts.

(** ** Victims of [MemoryCache] *)

Module MemoryEvict.
Import Memory.

Section victims.
Implicit Types (c : MemoryCache) (it : MapIter).

(** Eviction by least stamp ([evictLRU], [evictFIFO]) when the empty key is
    not resident. *)
Lemma evictOldest_victim (stamp : Item -> Time) it c :
  data c <> ∅ -> data c !! ""%string = None ->
  exists victim item,
    data c !! victim = Some item /\
    (evictOldest_scan stamp (range it (data c))).1.1 = victim /\
    victim <> ""%string /\
    forall k' item', data c !! k' = Some item' -> stamp item <= stamp item'.
Proof.
  intros Hne Hempty.
  destruct (MemoryFacts.Memory_evictOldest_scan_min stamp (range it (data c)))
    as (k & item & Hin & Hscan & Hmin); [by rewrite range_nil|].
  apply elem_of_range in Hin. exists k, item. split_and!; [done|by rewrite Hscan| |].
  - intros ->. congruence.
  - intros k' item' Hk'. apply (Hmin (k', item')). by apply elem_of_range.
Qed.

Lemma evictLRU_victim it c :
  data c <> ∅ -> data c !! ""%string = None ->
  exists victim item,
    data c !! victim = Some item /\
    evictLRU it c = add_evictions 1 (with_data (delete victim (data c)) c) /\
    forall k' item', data c !! k' = Some item' -> LastAccess item <= LastAccess item'.
Proof.
  intros Hne Hempty.
  destruct (evictOldest_victim LastAccess it c Hne Hempty)
    as (victim & item & Hv & Hscan & Hnonempty & Hmin).
  exists victim, item. split_and!; [done| |done].
  unfold evictLRU. destruct (evictOldest_scan _ _) as [[k t] f]. simpl in Hscan. subst k.
  by rewrite decide_True.
Qed.

Lemma evictFIFO_victim it c :
  data c <> ∅ -> data c !! ""%string = None ->
  exists victim item,
    data c !! victim = Some item /\
    evictFIFO it c = add_evictions 1 (with_data (delete victim (data c)) c) /\
    forall k' item', data c !! k' = Some item' -> CreatedAt item <= CreatedAt item'.
Proof.
  intros Hne Hempty.
  destruct (evictOldest_victim CreatedAt it c Hne Hempty)
    as (victim & item & Hv & Hscan & Hnonempty & Hmin).
  exists victim, item. split_and!; [done| |done].
  unfold evictFIFO. destruct (evictOldest_scan _ _) as [[k t] f]. simpl in Hscan. subst k.
  by rewrite decide_True.
Qed.

(** Eviction by least access count: ties are left to the iteration
    order. *)
Lemma evictLFU_victim it c :
  data c <> ∅ ->
  (forall k item, data c !! k = Some item -> k <> ""%string /\ 0 < AccessCount item) ->
  exists victim item,
    data c !! victim = Some item /\
    evictLFU it c = add_evictions 1 (with_data (delete victim (data c)) c) /\
    forall k' item', data c !! k' = Some item' -> AccessCount item <= AccessCount item'.
Proof.
  intros Hne Hwf.
  destruct (MemoryFacts.Memory_evictLFU_scan_min (range it (data c)))
    as (k & item & Hin & Hscan & Hmin).
  - by rewrite range_nil.
  - intros [k x] Hx%elem_of_range. destruct (Hwf _ _ Hx) as [_ Hf]. simpl. lia.
  - apply elem_of_range in Hin. exists k, item. split_and!; [done| |].
    + unfold evictLFU. rewrite Hscan. rewrite decide_True; [done|]. by apply (Hwf _ _ Hin).
    + intros k' item' Hk'. apply (Hmin (k', item')). by apply elem_of_range.
Qed.

End victims.
End MemoryEvict.

(** ** The linked list of [LRUCache] *)

Module LRUFacts.
Import LRU LRUInv.

#[local] Arguments store : simpl never.
#[local] Arguments load : simpl never.

Section list_surgery.
Implicit Types (ns : list lruItem) (c : LRUCache) (a b x : nat) (l chain : list nat).

Lemma store_alter c a n f :
  nodes c !! a = Some n -> store c (Some a) f = Some (with_nodes (alter f a (nodes c)) c).
Proof.
  intros Ha. unfold store. simpl. rewrite Ha. simpl.
  f_equal. f_equal. apply list_eq. intros i.
  destruct (decide (i = a)) as [->|Hne].
  - rewrite list_lookup_insert_eq by (by eapply lookup_lt_Some).
    by rewrite list_lookup_alter_eq, Ha.
  - by rewrite list_lookup_insert_ne, list_lookup_alter_ne.
Qed.

Lemma load_Some c a : load c (Some a) = nodes c !! a.
Proof. done. Qed.

Lemma next_of_alter_next ns a b q :
  next_of (alter (with_next q) a ns) b =
  if decide (a = b) then (_ ← ns !! a; q) else next_of ns b.
Proof.
  unfold next_of. case_decide as Hab.
  - subst. rewrite list_lookup_alter_eq. by destruct (ns !! b).
  - by rewrite list_lookup_alter_ne.
Qed.

Lemma prev_of_alter_prev ns a b q :
  prev_of (alter (with_prev q) a ns) b =
  if decide (a = b) then (_ ← ns !! a; q) else prev_of ns b.
Proof.
  unfold prev_of. case_decide as Hab.
  - subst. rewrite list_lookup_alter_eq. by destruct (ns !! b).
  - by rewrite list_lookup_alter_ne.
Qed.

Lemma next_of_alter_prev ns a b q : next_of (alter (with_prev q) a ns) b = next_of ns b.
Proof.
  unfold next_of. destruct (decide (a = b)) as [->|Hab].
  - rewrite list_lookup_alter_eq. by destruct (ns !! b).
  - by rewrite list_lookup_alter_ne.
Qed.

Lemma prev_of_alter_next ns a b q : prev_of (alter (with_next q) a ns) b = prev_of ns b.
Proof.
  unfold prev_of. destruct (decide (a = b)) as [->|Hab].
  - rewrite list_lookup_alter_eq. by destruct (ns !! b).
  - by rewrite list_lookup_alter_ne.
Qed.

Lemma same_payload_refl ns : same_payload ns ns.
Proof. by intros a. Qed.

Lemma same_payload_trans ns1 ns2 ns3 :
  same_payload ns1 ns2 -> same_payload ns2 ns3 -> same_payload ns1 ns3.
Proof. intros H1 H2 a. by rewrite H1. Qed.

Lemma same_payload_alter ns a f :
  (forall n, payload (f n) = payload n) -> same_payload ns (alter f a ns).
Proof.
  intros Hf b. destruct (decide (a = b)) as [->|Hab].
  - rewrite list_lookup_alter_eq. destruct (ns !! b); simpl; [|done]. by rewrite Hf.
  - by rewrite list_lookup_alter_ne.
Qed.

Lemma same_payload_key ns ns' a : same_payload ns ns' -> key_of ns' a = key_of ns a.
Proof.
  intros H. specialize (H a). unfold key_of.
  unfold payload in H.
  destruct (ns !! a), (ns' !! a); simpl in *; congruence.
Qed.

(** [linked] only reads the [next] links of all but the last element and
    the [prev] links of all but the first. *)
Lemma linked_frame ns ns' chain :
  linked ns chain ->
  (forall a, a ∈ removelast chain -> next_of ns' a = next_of ns a) ->
  (forall b, b ∈ List.tl chain -> prev_of ns' b = prev_of ns b) ->
  linked ns' chain.
Proof.
  induction chain as [|a [|b rest] IH]; [done..|].
  intros (Hn & Hp & Hl) Hnext Hprev. split_and!.
  - rewrite Hnext; [done|]. simpl. apply list_elem_of_here.
  - rewrite Hprev; [done|]. simpl. apply list_elem_of_here.
  - apply IH; [done|..].
    + intros a' Ha'. apply Hnext. simpl. by apply list_elem_of_further.
    + intros b' Hb'. apply Hprev. simpl. by apply list_elem_of_further.
Qed.

Lemma linked_app ns l1 a l2 :
  linked ns (l1 ++ a :: l2) <-> linked ns (l1 ++ [a]) /\ linked ns (a :: l2).
Proof.
  induction l1 as [|x [|y l1] IH].
  - simpl. tauto.
  - simpl. tauto.
  - change (linked ns (x :: y :: (l1 ++ a :: l2)) <->
            linked ns (x :: y :: (l1 ++ [a])) /\ linked ns (a :: l2)).
    change (linked ns ((y :: l1) ++ a :: l2) <->
            linked ns ((y :: l1) ++ [a]) /\ linked ns (a :: l2)) in IH.
    simpl in *. tauto.
Qed.

Lemma linked_cons2 ns a b rest :
  linked ns (a :: b :: rest) <->
  next_of ns a = Some b /\ prev_of ns b = Some a /\ linked ns (b :: rest).
Proof. done. Qed.

Lemma linked_allocated ns chain a :
  linked ns chain -> (2 <= length chain)%nat -> a ∈ chain -> is_Some (ns !! a).
Proof.
  induction chain as [|x [|y rest] IH]; simpl; [lia..|].
  intros (Hn & Hp & Hl) _ Ha.
  assert (is_Some (ns !! x)) as Hx.
  { unfold next_of in Hn. destruct (ns !! x); [eauto|done]. }
  assert (is_Some (ns !! y)) as Hy.
  { unfold prev_of in Hp. destruct (ns !! y); [eauto|done]. }
  apply elem_of_cons in Ha as [->|Ha]; [done|].
  destruct rest as [|z rest].
  - apply list_elem_of_singleton in Ha. by subst.
  - apply IH; [done|simpl; lia|done].
Qed.

Lemma elem_of_removelast a chain : a ∈ removelast chain -> a ∈ chain.
Proof.
  induction chain as [|x [|y rest] IH]; simpl; [set_solver..|].
  intros [->|Ha]%elem_of_cons; [apply list_elem_of_here|].
  apply list_elem_of_further. by apply IH.
Qed.

Lemma elem_of_tl b chain : b ∈ List.tl chain -> b ∈ chain.
Proof. destruct chain; simpl; [done|]. apply list_elem_of_further. Qed.

Lemma with_nodes_nodes ns c : nodes (with_nodes ns c) = ns.
Proof. done. Qed.

Lemma with_nodes_twice ns ns' c : with_nodes ns' (with_nodes ns c) = with_nodes ns' c.
Proof. done. Qed.

Lemma store_nodes c a n f :
  nodes c !! a = Some n ->
  store c (Some a) f = Some (with_nodes (alter f a (nodes c)) c).
Proof. apply store_alter. Qed.

(** Unlinking the node [x] that sits between [p] and [n]. *)
Lemma removeFromList_chain c l1 p x n l2 :
  NoDup (l1 ++ p :: x :: n :: l2) ->
  linked (nodes c) (l1 ++ p :: x :: n :: l2) ->
  exists ns',
    removeFromList c (Some x) = Some (with_nodes ns' c) /\
    linked ns' (l1 ++ p :: n :: l2) /\
    same_payload (nodes c) ns' /\
    length ns' = length (nodes c).
Proof.
  intros Hnd Hl.
  apply linked_app in Hl as [Hl1 Hl2].
  apply linked_cons2 in Hl2 as (Hpx & Hxp & Hl2).
  apply linked_cons2 in Hl2 as (Hxn & Hnx & Hl2).
  apply NoDup_app in Hnd as (Hnd1 & Hnd12 & Hnd2).
  apply NoDup_cons in Hnd2 as [Hp Hnd2].
  apply NoDup_cons in Hnd2 as [Hx Hnd2].
  apply NoDup_cons in Hnd2 as [Hn Hnd2].
  assert (p <> x) as Hpx_ne by set_solver.
  assert (p <> n) as Hpn_ne by set_solver.
  assert (x <> n) as Hxn_ne by set_solver.
  destruct (nodes c !! x) as [it|] eqn:Hit; [|by unfold next_of in Hxn; rewrite Hit in Hxn].
  destruct (nodes c !! p) as [pn|] eqn:Hpn; [|by unfold next_of in Hpx; rewrite Hpn in Hpx].
  destruct (nodes c !! n) as [nn|] eqn:Hnn; [|by unfold prev_of in Hnx; rewrite Hnn in Hnx].
  assert (prev it = Some p) as Hprev by (by unfold prev_of in Hxp; rewrite Hit in Hxp).
  assert (next it = Some n) as Hnext by (by unfold next_of in Hxn; rewrite Hit in Hxn).
  set (ns1 := alter (with_next (Some n)) p (nodes c)).
  set (ns2 := alter (with_prev (Some p)) n ns1).
  exists ns2. split_and!.
  - unfold removeFromList. rewrite load_Some, Hit. simpl.
    rewrite Hprev, Hnext. erewrite store_nodes by done. simpl.
    fold ns1. rewrite load_Some, with_nodes_nodes.
    assert (ns1 !! x = Some it) as ->.
    { unfold ns1. by rewrite list_lookup_alter_ne. }
    simpl. rewrite Hprev, Hnext.
    assert (ns1 !! n = Some nn) as Hnn1.
    { unfold ns1. by rewrite list_lookup_alter_ne. }
    erewrite store_nodes by (simpl; exact Hnn1). done.
  - apply linked_app. split.
    + eapply linked_frame; [exact Hl1|..].
      * intros a Ha. rewrite removelast_last in Ha.
        unfold ns2, ns1. rewrite next_of_alter_prev, next_of_alter_next.
        rewrite decide_False; [done|]. intros ->. set_solver.
      * intros b Hin%elem_of_tl.
        unfold ns2, ns1. rewrite prev_of_alter_prev, prev_of_alter_next.
        rewrite decide_False; [done|]. intros ->. set_solver.
    + apply linked_cons2. split_and!.
      * unfold ns2, ns1. rewrite next_of_alter_prev, next_of_alter_next.
        rewrite decide_True by done. by rewrite Hpn.
      * unfold ns2. rewrite prev_of_alter_prev. rewrite decide_True by done.
        unfold ns1. rewrite list_lookup_alter_ne by done. by rewrite Hnn.
      * eapply linked_frame; [exact Hl2|..].
        -- intros a Ha%elem_of_removelast.
           unfold ns2, ns1. rewrite next_of_alter_prev, next_of_alter_next.
           rewrite decide_False; [done|]. intros ->. set_solver.
        -- intros b Hb. simpl in Hb.
           unfold ns2, ns1. rewrite prev_of_alter_prev, prev_of_alter_next.
           rewrite decide_False; [done|]. intros ->. set_solver.
  - eapply same_payload_trans; apply same_payload_alter; by intros [].
  - unfold ns2, ns1. by rewrite !length_alter.
Qed.

(** Linking the node [x], not on the list, right after [hd]. *)
Lemma addToHead_chain c hd x n l2 :
  head c = Some hd ->
  NoDup (hd :: n :: l2) ->
  x ∉ hd :: n :: l2 ->
  is_Some (nodes c !! x) ->
  linked (nodes c) (hd :: n :: l2) ->
  exists ns',
    addToHead c (Some x) = Some (with_nodes ns' c) /\
    linked ns' (hd :: x :: n :: l2) /\
    same_payload (nodes c) ns' /\
    length ns' = length (nodes c).
Proof.
  intros Hhead Hnd Hx [it Hit] Hl.
  apply linked_cons2 in Hl as (Hhn & Hnh & Hl).
  apply NoDup_cons in Hnd as [Hhd Hnd].
  apply NoDup_cons in Hnd as [Hn Hnd].
  assert (x <> hd) as Hxh by set_solver.
  assert (x <> n) as Hxn by set_solver.
  assert (hd <> n) as Hhn_ne by set_solver.
  destruct (nodes c !! hd) as [hdn|] eqn:Hhdn; [|by unfold next_of in Hhn; rewrite Hhdn in Hhn].
  destruct (nodes c !! n) as [nn|] eqn:Hnn; [|by unfold prev_of in Hnh; rewrite Hnn in Hnh].
  assert (next hdn = Some n) as Hnext by (by unfold next_of in Hhn; rewrite Hhdn in Hhn).
  set (ns1 := alter (with_prev (Some hd)) x (nodes c)).
  set (ns2 := alter (with_next (Some n)) x ns1).
  set (ns3 := alter (with_prev (Some x)) n ns2).
  set (ns4 := alter (with_next (Some x)) hd ns3).
  assert (ns1 !! hd = Some hdn) as H1 by (unfold ns1; by rewrite list_lookup_alter_ne).
  assert (ns2 !! hd = Some hdn) as H2 by (unfold ns2; by rewrite list_lookup_alter_ne).
  assert (ns3 !! hd = Some hdn) as H3 by (unfold ns3; by rewrite list_lookup_alter_ne).
  assert (is_Some (ns1 !! x)) as [it1 Hit1].
  { unfold ns1. rewrite list_lookup_alter_eq, Hit. eauto. }
  assert (ns2 !! n = Some nn) as Hnn2.
  { unfold ns2, ns1. by rewrite !list_lookup_alter_ne. }
  exists ns4. split_and!.
  - unfold addToHead. rewrite Hhead.
    erewrite store_nodes by done. simpl. fold ns1.
    rewrite Hhead, load_Some, with_nodes_nodes, H1. simpl. rewrite Hnext.
    erewrite store_nodes by (simpl; exact Hit1). simpl. fold ns2.
    rewrite Hhead, load_Some, with_nodes_nodes, H2. simpl. rewrite Hnext.
    erewrite store_nodes by (simpl; exact Hnn2). simpl. fold ns3.
    rewrite Hhead.
    erewrite store_nodes by (simpl; exact H3). done.
  - apply linked_cons2. split; [|split; [|apply linked_cons2; split_and!]].
    + unfold ns4. rewrite next_of_alter_next, decide_True by done. by rewrite H3.
    + unfold ns4, ns3, ns2, ns1.
      rewrite prev_of_alter_next, prev_of_alter_prev, decide_False by done.
      rewrite prev_of_alter_next, prev_of_alter_prev, decide_True by done.
      by rewrite Hit.
    + unfold ns4, ns3, ns2.
      rewrite next_of_alter_next, decide_False by done.
      rewrite next_of_alter_prev, next_of_alter_next, decide_True by done.
      by rewrite Hit1.
    + unfold ns4, ns3.
      rewrite prev_of_alter_next, prev_of_alter_prev, decide_True by done.
      by rewrite Hnn2.
    + eapply linked_frame; [exact Hl|..].
      * intros a Ha%elem_of_removelast.
        unfold ns4, ns3, ns2, ns1.
        rewrite next_of_alter_next, decide_False by (intros ->; set_solver).
        rewrite next_of_alter_prev, next_of_alter_next, decide_False by (intros ->; set_solver).
        by rewrite next_of_alter_prev.
      * intros b Hb. simpl in Hb.
        unfold ns4, ns3, ns2, ns1.
        rewrite prev_of_alter_next, prev_of_alter_prev, decide_False by (intros ->; set_solver).
        rewrite prev_of_alter_next, prev_of_alter_prev, decide_False by (intros ->; set_solver).
        done.
  - unfold ns4, ns3, ns2, ns1.
    repeat (eapply same_payload_trans; [|apply same_payload_alter; by intros []]).
    apply same_payload_refl.
  - unfold ns4, ns3, ns2, ns1. by rewrite !length_alter.
Qed.

Lemma snoc_view (a : nat) l : exists l' p, a :: l = l' ++ [p].
Proof.
  revert a. induction l as [|b l IH]; intros a.
  - by exists [], a.
  - destruct (IH b) as (l' & p & Heq). exists (a :: l'), p. simpl. by rewrite Heq.
Qed.

Lemma snoc_or_nil l : l = [] \/ exists l0 x, l = l0 ++ [x].
Proof. destruct l as [|a l]; [by left|right]. apply snoc_view. Qed.

Lemma cons_view l (a : nat) : exists n l', l ++ [a] = n :: l'.
Proof. destruct l as [|b l]; simpl; eauto. Qed.

(** [removeFromList] on a node of the list between the sentinels. *)
Lemma removeFromList_between c l1 x l2 :
  NoDup (0%nat :: (l1 ++ x :: l2) ++ [1%nat]) ->
  linked (nodes c) (0%nat :: (l1 ++ x :: l2) ++ [1%nat]) ->
  exists ns',
    removeFromList c (Some x) = Some (with_nodes ns' c) /\
    linked ns' (0%nat :: (l1 ++ l2) ++ [1%nat]) /\
    same_payload (nodes c) ns' /\
    length ns' = length (nodes c).
Proof.
  destruct (snoc_view 0%nat l1) as (f1 & p & Hf1).
  destruct (cons_view l2 1%nat) as (n & f2 & Hf2).
  assert (forall y, 0%nat :: (l1 ++ y) ++ [1%nat] = f1 ++ p :: y ++ [1%nat]) as Hchain.
  { intros y. rewrite <- app_assoc, app_comm_cons, Hf1, <- app_assoc. done. }
  rewrite (Hchain (x :: l2)), (Hchain l2). simpl. rewrite Hf2.
  apply removeFromList_chain.
Qed.

(** [addToHead] of a node outside the list between the sentinels. *)
Lemma addToHead_between c x l :
  head c = Some 0%nat ->
  NoDup (0%nat :: l ++ [1%nat]) ->
  x ∉ 0%nat :: l ++ [1%nat] ->
  is_Some (nodes c !! x) ->
  linked (nodes c) (0%nat :: l ++ [1%nat]) ->
  exists ns',
    addToHead c (Some x) = Some (with_nodes ns' c) /\
    linked ns' (0%nat :: (x :: l) ++ [1%nat]) /\
    same_payload (nodes c) ns' /\
    length ns' = length (nodes c).
Proof.
  destruct (cons_view l 1%nat) as (n & f2 & Hf2). simpl. rewrite Hf2.
  apply addToHead_chain.
Qed.

Lemma repr_allocated c l a : repr c l -> a ∈ 0%nat :: l ++ [1%nat] -> is_Some (nodes c !! a).
Proof.
  intros Hr Ha. eapply linked_allocated; [apply Hr| |done].
  simpl. rewrite length_app. simpl. lia.
Qed.

Lemma repr_allocated' c l a : repr c l -> a ∈ l -> is_Some (nodes c !! a).
Proof. intros Hr Ha. eapply repr_allocated; [done|]. set_solver. Qed.

Lemma repr_lookup c l k a :
  repr c l -> items c !! k = Some a ->
  a ∈ l /\ exists it, nodes c !! a = Some it /\ key it = k.
Proof.
  intros Hr Hk. apply (repr_items _ _ Hr) in Hk as [Ha Hkey]. split; [done|].
  unfold key_of in Hkey. destruct (nodes c !! a) as [it|]; simplify_eq/=. eauto.
Qed.

Lemma NoDup_chain_remove l1 (x : nat) l2 :
  NoDup (0%nat :: (l1 ++ x :: l2) ++ [1%nat]) ->
  NoDup (0%nat :: (l1 ++ l2) ++ [1%nat]) /\ x ∉ 0%nat :: (l1 ++ l2) ++ [1%nat].
Proof.
  intros Hnd.
  assert (0%nat :: (l1 ++ x :: l2) ++ [1%nat] ≡ₚ x :: 0%nat :: (l1 ++ l2) ++ [1%nat]) as Hp.
  { rewrite <- !app_assoc. simpl. rewrite <- Permutation_middle. apply perm_swap. }
  rewrite Hp in Hnd. apply NoDup_cons in Hnd. tauto.
Qed.

(** [removeItem] of a listed node: the node leaves the list and its key
    leaves the map. *)
Lemma removeItem_repr c l1 x l2 k :
  repr c (l1 ++ x :: l2) ->
  key_of (nodes c) x = Some k ->
  exists ns',
    removeItem c (Some x) = Some (with_nodes ns' (with_items (delete k (items c)) c)) /\
    repr (with_nodes ns' (with_items (delete k (items c)) c)) (l1 ++ l2) /\
    same_payload (nodes c) ns' /\
    length ns' = length (nodes c).
Proof.
  intros Hr Hk.
  destruct (removeFromList_between (with_items (delete k (items c)) c) l1 x l2)
    as (ns' & Hrm & Hl & Hsp & Hlen); [apply Hr..|].
  exists ns'. split_and!; [|split|done..].
  - unfold removeItem. rewrite load_Some.
    unfold key_of in Hk. destruct (nodes c !! x) as [it|]; simplify_eq/=. exact Hrm.
  - apply Hr.
  - apply Hr.
  - by apply (NoDup_chain_remove l1 x l2), Hr.
  - exact Hl.
  - intros k' a. simpl.
    destruct (NoDup_chain_remove l1 x l2 (repr_nodup _ _ Hr)) as [_ Hx].
    rewrite (same_payload_key _ _ a Hsp).
    destruct (decide (k = k')) as [<-|Hne].
    + rewrite lookup_delete_eq. split; [done|]. intros [Ha Hka].
      assert (items c !! k = Some a) as H1 by (apply Hr; set_solver).
      assert (items c !! k = Some x) as H2 by (apply Hr; set_solver).
      assert (a = x) by congruence. set_solver.
    + rewrite lookup_delete_ne by done. rewrite (repr_items _ _ Hr).
      split; intros [Ha Hka]; (split; [|done]).
      * apply elem_of_app in Ha as [Ha|[->|Ha]%elem_of_cons]; [set_solver| |set_solver].
        congruence.
      * set_solver.
Qed.

(** [repr] reads the links and keys of the nodes on the chain, and the
    map. *)
Lemma repr_ext c c' l :
  repr c l ->
  head c' = head c -> tail c' = tail c -> items c' = items c ->
  (forall a, a ∈ 0%nat :: l ++ [1%nat] ->
     prev_of (nodes c') a = prev_of (nodes c) a /\
     next_of (nodes c') a = next_of (nodes c) a /\
     key_of (nodes c') a = key_of (nodes c) a) ->
  repr c' l.
Proof.
  intros Hr Hh Ht Hi Hsame. split.
  - rewrite Hh. apply Hr.
  - rewrite Ht. apply Hr.
  - apply Hr.
  - eapply linked_frame; [apply Hr|..].
    + intros a Ha%elem_of_removelast. by apply Hsame.
    + intros a Ha%elem_of_tl. by apply Hsame.
  - intros k a. rewrite Hi, (repr_items _ _ Hr). split; intros [Ha Hk]; (split; [done|]).
    + rewrite <- Hk. apply Hsame. set_solver.
    + rewrite <- Hk. symmetry. apply Hsame. set_solver.
Qed.

Lemma repr_counters c c' l :
  repr c l ->
  nodes c' = nodes c -> head c' = head c -> tail c' = tail c -> items c' = items c ->
  repr c' l.
Proof. intros Hr Hn Hh Ht Hi. eapply repr_ext; try done. intros a _. by rewrite Hn. Qed.

Lemma repr_alloc c l n :
  repr c l ->
  repr (with_nodes (nodes c ++ [n]) c) l /\ length (nodes c) ∉ 0%nat :: l ++ [1%nat].
Proof.
  intros Hr. split.
  - eapply repr_ext; [done..|]. intros a Ha. simpl.
    destruct (repr_allocated _ _ _ Hr Ha) as [it Hit].
    unfold prev_of, next_of, key_of.
    by rewrite lookup_app_l by (by eapply lookup_lt_Some).
  - intros Ha. destruct (repr_allocated _ _ _ Hr Ha) as [it Hit].
    apply lookup_lt_Some in Hit. lia.
Qed.

Lemma moveToHead_repr c l1 x l2 :
  repr c (l1 ++ x :: l2) ->
  exists ns',
    moveToHead c (Some x) = Some (with_nodes ns' c) /\
    repr (with_nodes ns' c) (x :: l1 ++ l2) /\
    same_payload (nodes c) ns' /\
    length ns' = length (nodes c).
Proof.
  intros Hr.
  destruct (removeFromList_between c l1 x l2) as (ns1 & Hrm & Hl1 & Hsp1 & Hlen1);
    [apply Hr..|].
  destruct (NoDup_chain_remove l1 x l2 (repr_nodup _ _ Hr)) as [Hnd Hx].
  destruct (addToHead_between (with_nodes ns1 c) x (l1 ++ l2))
    as (ns2 & Hadd & Hl2 & Hsp2 & Hlen2); [apply Hr|done|done| |done|].
  { apply lookup_lt_is_Some_2. simpl. rewrite Hlen1. apply lookup_lt_is_Some_1.
    eapply repr_allocated'; [done|]. set_solver. }
  exists ns2. split_and!.
  - unfold moveToHead. rewrite Hrm. simpl. exact Hadd.
  - split; [apply Hr|apply Hr| |exact Hl2|].
    + change (NoDup (0%nat :: x :: (l1 ++ l2) ++ [1%nat])).
      rewrite (Permutation_swap x 0%nat). by apply NoDup_cons.
    + intros k a. simpl. rewrite (repr_items _ _ Hr).
      assert (same_payload (nodes c) ns2) as Hsp by (by eapply same_payload_trans).
      rewrite (same_payload_key _ _ a Hsp).
      assert (a ∈ l1 ++ x :: l2 <-> a ∈ x :: l1 ++ l2) as -> by set_solver.
      done.
  - by eapply same_payload_trans.
  - simpl in *. congruence.
Qed.

Lemma evictTail_nil c : repr c [] -> evictTail c = Some c.
Proof.
  intros Hr. unfold evictTail.
  destruct (repr_linked _ _ Hr) as (_ & Hp & _).
  rewrite (repr_tail _ _ Hr), (repr_head _ _ Hr), load_Some.
  unfold prev_of in Hp. destruct (nodes c !! 1%nat) as [tl|]; simplify_eq/=.
  rewrite Hp. by rewrite decide_False by (by intros []).
Qed.

Lemma evictTail_snoc c l x k :
  repr c (l ++ [x]) ->
  key_of (nodes c) x = Some k ->
  exists ns',
    evictTail c =
      Some (add_evictions 1 (with_nodes ns' (with_items (delete k (items c)) c))) /\
    repr (add_evictions 1 (with_nodes ns' (with_items (delete k (items c)) c))) l /\
    same_payload (nodes c) ns' /\
    length ns' = length (nodes c).
Proof.
  intros Hr Hk.
  destruct (removeItem_repr c l x [] k Hr Hk) as (ns' & Hrm & Hr' & Hsp & Hlen).
  rewrite app_nil_r in Hr'.
  exists ns'. split_and!; [|by eapply repr_counters|done..].
  unfold evictTail.
  pose proof (repr_linked _ _ Hr) as Hl.
  rewrite <- app_assoc in Hl.
  change (linked (nodes c) ((0%nat :: l) ++ x :: [1%nat])) in Hl.
  apply linked_app in Hl as [_ (_ & Hp & _)].
  rewrite (repr_tail _ _ Hr), (repr_head _ _ Hr), load_Some.
  unfold prev_of in Hp. destruct (nodes c !! 1%nat) as [tl|]; simplify_eq/=.
  rewrite Hp. rewrite decide_True; [by rewrite Hrm|].
  intros [= ->]. pose proof (repr_nodup _ _ Hr) as Hnd.
  apply NoDup_cons in Hnd as [Hnd _]. set_solver.
Qed.

End list_surgery.

(** *** The operations of [LRUCache] on a well-formed cache *)

Section operations.
Implicit Types (h : heap) (c : LRUCache) (l : list nat) (k : string) (v : slice).

Lemma NewLRUWithTTL_repr maxSize defaultTTL : repr (NewLRUWithTTL maxSize defaultTTL) [].
Proof.
  split; try done.
  - simpl. apply NoDup_cons. split; [set_solver|]. apply NoDup_singleton.
  - intros k a. simpl. rewrite lookup_empty. split; [done|]. intros [Ha _]. set_solver.
Qed.

Lemma entry_same c c' k :
  items c' = items c -> same_payload (nodes c) (nodes c') -> entry c' k = entry c k.
Proof.
  intros Hi Hsp. unfold entry. rewrite Hi.
  destruct (items c !! k) as [a|]; simpl; [|done].
  specialize (Hsp a). unfold payload in Hsp.
  destruct (nodes c !! a), (nodes c' !! a); simpl in *; congruence.
Qed.

Lemma LRU_Get_empty_key h c now : Get h c "" now = Some (h, add_miss c, (nil_slice, false)).
Proof. done. Qed.

Lemma LRU_Get_absent h c k now :
  items c !! k = None -> Get h c k now = Some (h, add_miss c, (nil_slice, false)).
Proof. intros Hk. unfold Get. case_decide; [done|]. by rewrite Hk. Qed.

(** A read of a live entry: the node moves to the head of the list, a hit
    is counted and a fresh copy of the bytes is returned. *)
Lemma LRU_Get_hit h c l k a it now :
  repr c l -> k <> ""%string ->
  items c !! k = Some a -> nodes c !! a = Some it ->
  isExpired now it = false -> slice_valid h (value it) ->
  exists ns' l',
    Get h c k now =
      Some (h ++ [slice_bytes h (value it)], add_hit (with_nodes ns' c),
            (Slice (length h) 0 (slice_len (value it)), true)) /\
    repr (add_hit (with_nodes ns' c)) l' /\
    same_payload (nodes c) ns' /\
    l' ≡ₚ l.
Proof.
  intros Hr Hk Hka Hit Hexp Hv.
  destruct (repr_lookup _ _ _ _ Hr Hka) as [Ha _].
  apply list_elem_of_split in Ha as (l1 & l2 & ->).
  destruct (moveToHead_repr c l1 a l2 Hr) as (ns' & Hmv & Hr' & Hsp & Hlen).
  exists ns', (a :: l1 ++ l2). split_and!.
  - unfold Get. rewrite decide_False by done. rewrite Hka. simpl.
    rewrite load_Some, Hit. simpl. rewrite Hexp, Hmv. simpl.
    rewrite load_Some. simpl.
    pose proof (Hsp a) as Ha. rewrite Hit in Ha. simpl in Ha.
    destruct (ns' !! a) as [it'|]; [|done]. simpl in *.
    assert (value it' = value it) as -> by (unfold payload in Ha; congruence).
    do 3 f_equal. by apply make_copy.
  - by eapply repr_counters.
  - done.
  - by rewrite Permutation_middle.
Qed.

(** A read of an expired entry: the node is unlinked, the key leaves the
    map and a miss is counted. *)
Lemma LRU_Get_expired h c l k a it now :
  repr c l -> k <> ""%string ->
  items c !! k = Some a -> nodes c !! a = Some it ->
  isExpired now it = true ->
  exists ns' l',
    Get h c k now =
      Some (h, add_miss (with_nodes ns' (with_items (delete k (items c)) c)),
            (nil_slice, false)) /\
    repr (add_miss (with_nodes ns' (with_items (delete k (items c)) c))) l' /\
    same_payload (nodes c) ns'.
Proof.
  intros Hr Hk Hka Hit Hexp.
  destruct (repr_lookup _ _ _ _ Hr Hka) as [Ha (it0 & Hit0 & Hkey)].
  apply list_elem_of_split in Ha as (l1 & l2 & ->).
  assert (key_of (nodes c) a = Some k) as Hkof by (unfold key_of; by rewrite Hit0; subst).
  destruct (removeItem_repr c l1 a l2 k Hr Hkof) as (ns' & Hrm & Hr' & Hsp & Hlen).
  exists ns', (l1 ++ l2). split_and!; [|by eapply repr_counters|done].
  unfold Get. rewrite decide_False by done. rewrite Hka. simpl.
  rewrite load_Some, Hit. simpl. by rewrite Hexp, Hrm.
Qed.

Lemma repr_with_value c l a v e :
  repr c l -> repr (with_nodes (alter (with_value v e) a (nodes c)) c) l.
Proof.
  intros Hr. eapply repr_ext; [done..|]. intros b _. simpl.
  unfold prev_of, next_of, key_of.
  destruct (decide (a = b)) as [->|Hne].
  - rewrite list_lookup_alter_eq. by destruct (nodes c !! b).
  - by rewrite list_lookup_alter_ne.
Qed.

(** Overwriting a resident key: value and expiry of its node are replaced
    and the node moves to the head; nothing is evicted. *)
Lemma LRU_SetWithTTL_existing h c l k a v ttl now :
  repr c l -> k <> ""%string -> closed c = false ->
  items c !! k = Some a -> slice_valid h v ->
  exists ns' l',
    SetWithTTL h c k v ttl now = Some (h ++ [slice_bytes h v], with_nodes ns' c, None) /\
    repr (with_nodes ns' c) l' /\
    l' ≡ₚ l /\
    same_payload
      (alter (with_value (Slice (length h) 0 (slice_len v)) (deadline ttl (defaultTTL c) now))
             a (nodes c)) ns'.
Proof.
  intros Hr Hk Hopen Hka Hv.
  destruct (repr_lookup _ _ _ _ Hr Hka) as [Ha (it & Hit & Hkey)].
  apply list_elem_of_split in Ha as (l1 & l2 & ->).
  set (e := deadline ttl (defaultTTL c) now).
  set (vc := Slice (length h) 0 (slice_len v)).
  pose proof (repr_with_value c _ a vc e Hr) as Hr1.
  destruct (moveToHead_repr _ l1 a l2 Hr1) as (ns' & Hmv & Hr' & Hsp & Hlen).
  exists ns', (a :: l1 ++ l2). split_and!.
  - unfold SetWithTTL. rewrite decide_False by done. rewrite Hopen.
    unfold make. rewrite make_copy' by done. rewrite Hka.
    erewrite store_nodes by done. simpl.
    unfold vc, e, deadline in Hmv |- *. rewrite Hmv. done.
  - exact Hr'.
  - by rewrite Permutation_middle.
  - exact Hsp.
Qed.

Lemma insert_head_repr c l k a n :
  repr c l -> items c !! k = None ->
  a ∉ 0%nat :: l ++ [1%nat] -> nodes c !! a = Some n -> key n = k ->
  exists ns',
    addToHead (with_items (<[k := a]> (items c)) c) (Some a)
      = Some (with_nodes ns' (with_items (<[k := a]> (items c)) c)) /\
    repr (with_nodes ns' (with_items (<[k := a]> (items c)) c)) (a :: l) /\
    same_payload (nodes c) ns' /\
    length ns' = length (nodes c).
Proof.
  intros Hr Hk Ha Hn Hkey.
  destruct (addToHead_between (with_items (<[k := a]> (items c)) c) a l)
    as (ns' & Hadd & Hl & Hsp & Hlen); [apply Hr|apply Hr|done|by eexists|apply Hr|].
  exists ns'. split_and!; [done| |done..].
  split; [apply Hr|apply Hr| |exact Hl|].
  - change (NoDup (0%nat :: a :: l ++ [1%nat])).
    rewrite (Permutation_swap a 0%nat). apply NoDup_cons. split; [done|apply Hr].
  - intros k' b. simpl. rewrite (same_payload_key _ _ b Hsp).
    assert (key_of (nodes c) a = Some k) as Hka by (unfold key_of; by rewrite Hn; subst).
    destruct (decide (k = k')) as [<-|Hne].
    + rewrite lookup_insert_eq. split.
      * intros [= <-]. split; [set_solver|done].
      * intros [[->|Hb]%elem_of_cons Hkb]; [done|].
        assert (items c !! k = Some b) as Hcontra by (by apply Hr). congruence.
    + rewrite lookup_insert_ne by done. rewrite (repr_items _ _ Hr).
      split; intros [Hb Hkb]; (split; [|done]); [set_solver|].
      apply elem_of_cons in Hb as [->|Hb]; [simpl in Hkb; congruence|done].
Qed.

Lemma LRU_SetWithTTL_new h c l k v ttl now :
  repr c l -> k <> ""%string -> closed c = false ->
  items c !! k = None -> slice_valid h v ->
  exists c' l',
    SetWithTTL h c k v ttl now = Some (h ++ [slice_bytes h v], c', None) /\
    repr c' l' /\
    same_payload
      (nodes c ++ [{| key := k; value := Slice (length h) 0 (slice_len v);
                      expiresAt := deadline ttl (defaultTTL c) now;
                      prev := None; next := None |}]) (nodes c') /\
    inserted c l k (length (nodes c)) c' l'.
Proof.
  intros Hr Hk Hopen Hka Hv.
  set (newItem := {| key := k; value := Slice (length h) 0 (slice_len v);
                     expiresAt := deadline ttl (defaultTTL c) now;
                     prev := None; next := None |}).
  set (a := length (nodes c)).
  set (c0 := with_nodes (nodes c ++ [newItem]) c).
  destruct (repr_alloc c l newItem Hr) as [Hr0 Ha]. fold c0 a in Hr0, Ha.
  assert (nodes c0 !! a = Some newItem) as Hna.
  { unfold c0, a. simpl. by rewrite list_lookup_middle. }
  assert (SetWithTTL h c k v ttl now =
          c1 ← (if maxSize c <=? Z.of_nat (size (items c)) then evictTail c0 else Some c0);
          c2 ← addToHead (with_items (<[k := a]> (items c1)) c1) (Some a);
          Some (h ++ [slice_bytes h v], c2, None)) as ->.
  { unfold SetWithTTL. rewrite decide_False by done. rewrite Hopen.
    unfold make. rewrite make_copy' by done. rewrite Hka. done. }
  destruct (Z.leb_spec (maxSize c) (Z.of_nat (size (items c)))) as [Hfull|Hroom];
    [destruct (snoc_or_nil l) as [->|(l0 & x & ->)]|].
  - (* full, but nothing on the list *)
    rewrite (evictTail_nil c0 Hr0), bind_Some.
    destruct (insert_head_repr c0 [] k a newItem Hr0 Hka Ha Hna eq_refl)
      as (ns' & Hadd & Hr' & Hsp & Hlen).
    rewrite Hadd, bind_Some. eexists _, _. split_and!; [done|exact Hr'|exact Hsp|].
    left. split_and!; [by right|done..].
  - (* full: the tail node is evicted *)
    destruct (repr_allocated' c (l0 ++ [x]) x Hr) as [itx Hitx]; [set_solver|].
    assert (key_of (nodes c0) x = Some (key itx)) as Hkx.
    { unfold key_of, c0. simpl. rewrite lookup_app_l by (by eapply lookup_lt_Some).
      by rewrite Hitx. }
    destruct (evictTail_snoc c0 l0 x (key itx) Hr0 Hkx) as (ns1 & Hev & Hr1 & Hsp1 & Hlen1).
    rewrite Hev, bind_Some.
    set (c1 := add_evictions 1 (with_nodes ns1 (with_items (delete (key itx) (items c0)) c0))) in *.
    assert (exists n, nodes c1 !! a = Some n /\ key n = k) as (n & Hn1 & Hkn).
    { pose proof (Hsp1 a) as Hpa. rewrite Hna in Hpa. simpl in *.
      destruct (ns1 !! a) as [n|]; [|done]. exists n. split; [done|].
      unfold payload in Hpa. simpl in Hpa. congruence. }
    destruct (insert_head_repr c1 l0 k a n Hr1) as (ns' & Hadd & Hr' & Hsp & Hlen);
      [simpl; apply lookup_delete_None; by right|set_solver|done|done|].
    rewrite Hadd, bind_Some. eexists _, _.
    split_and!; [done|exact Hr'|by eapply same_payload_trans|].
    right. split; [done|]. exists l0, x, (key itx). split_and!; try done.
    unfold key_of. by rewrite Hitx.
  - (* room left *)
    rewrite bind_Some.
    destruct (insert_head_repr c0 l k a newItem Hr0 Hka Ha Hna eq_refl)
      as (ns' & Hadd & Hr' & Hsp & Hlen).
    rewrite Hadd, bind_Some. eexists _, _. split_and!; [done|exact Hr'|exact Hsp|].
    left. split_and!; [by left|done..].
Qed.

Lemma with_nodes_items_id c : with_nodes (nodes c) (with_items (items c) c) = c.
Proof. by destruct c. Qed.

(** The second loop of the sweep. *)
Lemma removeKeys_repr c l (keys : list string) :
  repr c l ->
  exists ns' l',
    removeKeys c keys =
      Some (with_nodes ns' (with_items (foldl (fun m key => delete key m) (items c) keys) c)) /\
    repr (with_nodes ns' (with_items (foldl (fun m key => delete key m) (items c) keys) c)) l' /\
    same_payload (nodes c) ns'.
Proof.
  revert c l. induction keys as [|key keys IH]; intros c l Hr.
  - exists (nodes c), l. simpl. rewrite with_nodes_items_id. split_and!; [done..|].
    apply same_payload_refl.
  - cbn [removeKeys foldl]. destruct (items c !! key) as [a|] eqn:Hka.
    + destruct (repr_lookup _ _ _ _ Hr Hka) as [Ha (n & Hn & Hkey)].
      apply list_elem_of_split in Ha as (l1 & l2 & ->).
      assert (key_of (nodes c) a = Some key) as Hkof by (unfold key_of; by rewrite Hn; subst).
      destruct (removeItem_repr c l1 a l2 key Hr Hkof) as (ns1 & Hrm & Hr1 & Hsp1 & _).
      rewrite Hrm, bind_Some.
      destruct (IH _ _ Hr1) as (ns' & l' & Hrk & Hr' & Hsp').
      exists ns', l'. split_and!; [exact Hrk|exact Hr'|by eapply same_payload_trans].
    + rewrite (delete_id (items c) key) by done. by apply (IH c l).
Qed.

(** The first loop of the sweep. *)
Lemma collect_expired c now (L : list (string * nat)) acc :
  (forall k a, (k, a) ∈ L -> is_Some (nodes c !! a)) ->
  foldl (fun acc '(key, a) =>
           acc ← acc; n ← load c (Some a);
           Some (if isExpired now n then acc ++ [key] else acc)) (Some acc) L
  = Some (acc ++ (filter (fun e => expired_at c now e.2 = true) L).*1).
Proof.
  revert acc. induction L as [|[k a] L IH]; intros acc Hall; cbn [foldl].
  - by rewrite app_nil_r.
  - destruct (Hall k a) as [n Hn]; [apply list_elem_of_here|].
    rewrite bind_Some, load_Some, Hn, bind_Some.
    rewrite IH by (intros k' a' Hin; apply (Hall k' a'); by apply list_elem_of_further).
    destruct (isExpired now n) eqn:He.
    + rewrite filter_cons_True by (unfold expired_at; simpl; by rewrite Hn).
      simpl. by rewrite <- app_assoc.
    + rewrite filter_cons_False; [done|]. unfold expired_at. simpl. rewrite Hn. congruence.
Qed.

(** One pass of the sweep on a well-formed cache: the expired entries leave
    the map and the list, and their number is added to [evictions]. *)
Lemma LRU_removeExpired_repr it c l now :
  repr c l ->
  exists c' l',
    removeExpired it c now = Some c' /\
    repr c' l' /\
    items c' = filter (fun e => expired_at c now e.2 = false) (items c) /\
    same_payload (nodes c) (nodes c') /\
    (let deleted := (size (items c) - size (items c'))%nat in
     evictions c' =
       if (0 <? deleted)%nat then AddInt64 (evictions c) (Z.of_nat deleted)
       else evictions c) /\
    hits c' = hits c /\ misses c' = misses c /\ closed c' = closed c /\
    maxSize c' = maxSize c /\ defaultTTL c' = defaultTTL c.
Proof.
  intros Hr. unfold removeExpired.
  rewrite (collect_expired c now _ []); cycle 1.
  { intros k a Hka%elem_of_range. destruct (repr_lookup _ _ _ _ Hr Hka) as [_ (n & Hn & _)].
    eauto. }
  rewrite bind_Some, app_nil_l.
  set (ks := (filter (fun e => expired_at c now e.2 = true) (range it (items c))).*1).
  destruct (removeKeys_repr c l ks Hr) as (ns' & l' & Hrk & Hr' & Hsp).
  rewrite Hrk, bind_Some.
  assert (foldl (fun m key => delete key m) (items c) ks
          = filter (fun e => expired_at c now e.2 = false) (items c)) as Hfilter.
  { apply (sweep_filter it (expired_at c now)). }
  assert ((size (items c) - size (filter (fun e => expired_at c now e.2 = false) (items c)))%nat
          = length ks) as Hcount.
  { pose proof (sweep_count it (expired_at c now) (items c)). fold ks in H. lia. }
  destruct (0 <? length ks)%nat eqn:Hpos; (eexists _, l'; split; [done|]).
  - split_and!; try done.
    + by eapply repr_counters.
    + cbn [items add_evictions with_nodes with_items evictions].
      by rewrite Hfilter, Hcount, Hpos.
  - split_and!; try done.
    cbn [items add_evictions with_nodes with_items evictions].
    by rewrite Hfilter, Hcount, Hpos.
Qed.

End operations.
End LRUFacts.

Module LRULive.
Import LRU LRUInv LRUFacts.

Lemma payload_lookup ns ns' a n :
  same_payload ns ns' -> ns !! a = Some n ->
  exists n', ns' !! a = Some n' /\ payload n' = payload n.
Proof.
  intros Hsp Hn. specialize (Hsp a). rewrite Hn in Hsp. simpl in Hsp.
  destruct (ns' !! a) as [n'|]; [|done]. exists n'. split; [done|].
  simpl in Hsp. congruence.
Qed.

Lemma payload_expired now n n' : payload n' = payload n -> isExpired now n' = isExpired now n.
Proof. unfold payload, isExpired. intros [= _ _ ->]. done. Qed.

Lemma inserted_items c l k a c' l' : inserted c l k a c' l' -> items c' !! k = Some a.
Proof.
  intros [(_ & -> & _)|(_ & l0 & x & kx & _ & _ & -> & _)]; simpl; apply lookup_insert_eq.
Qed.

Lemma inserted_closed c l k a c' l' : inserted c l k a c' l' -> closed c' = closed c.
Proof. by intros [(_ & -> & _)|(_ & l0 & x & kx & _ & _ & -> & _)]. Qed.

Lemma LRU_Set_stores h c key v now :
  writable c -> key <> ""%string -> slice_valid h v ->
  exists c',
    Set_ h c key v now = Some (h ++ [slice_bytes h v], c', None) /\
    writable c' /\ live c' key now (Slice (length h) 0 (slice_len v)).
Proof.
  intros [Hopen [l Hr]] Hkey Hv. unfold Set_.
  destruct (items c !! key) as [a|] eqn:Hka.
  - destruct (LRU_SetWithTTL_existing h c l key a v (defaultTTL c) now Hr Hkey Hopen Hka Hv)
      as (ns' & l' & -> & Hr' & _ & Hsp).
    destruct (repr_lookup _ _ _ _ Hr Hka) as [_ (n & Hn & _)].
    eapply (payload_lookup _ _ a) in Hsp as (n' & Hn' & Hp);
      [|by rewrite list_lookup_alter_eq, Hn].
    eexists. split; [done|]. split; [split; [done|by exists l']|].
    split; [done|]. exists a, n'. split_and!; [done|done|..].
    + unfold payload in Hp. simpl in Hp. congruence.
    + rewrite (payload_expired _ _ _ Hp). apply deadline_live.
  - destruct (LRU_SetWithTTL_new h c l key v (defaultTTL c) now Hr Hkey Hopen Hka Hv)
      as (c' & l' & -> & Hr' & Hsp & Hins).
    eapply (payload_lookup _ _ (length (nodes c))) in Hsp as (n' & Hn' & Hp);
      [|by apply list_lookup_middle].
    eexists. split; [done|]. split; [split|split; [done|]].
    + by rewrite (inserted_closed _ _ _ _ _ _ Hins).
    + by exists l'.
    + exists (length (nodes c)), n'. split_and!; [by eapply inserted_items|done|..].
      * unfold payload in Hp. simpl in Hp. congruence.
      * rewrite (payload_expired _ _ _ Hp). apply deadline_live.
Qed.

Lemma LRU_Get_copies h c key now s :
  writable c -> live c key now s -> slice_valid h s ->
  exists c',
    Get h c key now
      = Some (h ++ [slice_bytes h s], c', (Slice (length h) 0 (slice_len s), true)) /\
    writable c' /\ live c' key now s.
Proof.
  intros [Hopen [l Hr]] (Hkey & a & n & Hka & Hn & <- & Hexp) Hv.
  destruct (LRU_Get_hit h c l key a n now Hr Hkey Hka Hn Hexp Hv) as (ns' & l' & -> & Hr' & Hsp & _).
  destruct (payload_lookup _ ns' a _ Hsp Hn) as (n' & Hn' & Hp).
  eexists. split; [done|]. split; [split; [done|by exists l']|].
  split; [done|]. exists a, n'. split_and!; [done|done|..].
  - unfold payload in Hp. congruence.
  - by rewrite (payload_expired _ _ _ Hp).
Qed.

End LRULive.

(** * The contract of the engines *)

(** ** Round trip and private copies *)

Section data_safety.
Context {T : Type} (E : Cache T).
(** [ok c]: the cache accepts writes; [live c key now s]: [key] is resident,
    unexpired at [now], and its value is the slice [s]. *)
Context (ok : T -> Prop) (live : T -> string -> Time -> slice -> Prop).

Hypothesis Set_stores : forall h c key v now,
  ok c -> key <> ""%string -> slice_valid h v ->
  exists c',
    Set_ E h c key v now = Some (h ++ [slice_bytes h v], c', None) /\
    ok c' /\ live c' key now (Slice (length h) 0 (slice_len v)).

Hypothesis Get_copies : forall h c key now s,
  ok c -> live c key now s -> slice_valid h s ->
  exists c',
    Get E h c key now
      = Some (h ++ [slice_bytes h s], c', (Slice (length h) 0 (slice_len s), true)) /\
    ok c' /\ live c' key now s.

Lemma DataSafety_generic h c key original now X Y :
  ok c -> key <> ""%string -> slice_valid h original ->
  DataSafety E h c key original now X Y
  = Some (None, (slice_bytes h original, true), (slice_bytes h original, true)).
Proof.
  intros Hok Hkey Hv. unfold DataSafety.
  destruct (Set_stores h c key original now Hok Hkey Hv) as (c1 & -> & Hok1 & Hlive1).
  rewrite bind_Some. cbv beta iota zeta.
  set (bs := slice_bytes h original) in *.
  assert (slice_len original = length bs) as Hn
    by (symmetry; by apply slice_bytes_length).
  rewrite Hn in Hlive1.
  set (h1 := slice_write (h ++ [bs]) original X).
  assert (h1 !! length h = Some bs) as Hown1.
  { apply owned_write; [by apply valid_disjoint_new|apply owned_new]. }
  destruct (Get_copies h1 c1 key now _ Hok1 Hlive1 (owned_valid _ _ _ Hown1))
    as (c2 & -> & Hok2 & Hlive2).
  rewrite bind_Some. cbv beta iota zeta.
  rewrite (owned_bytes h1 _ _ Hown1). cbn [slice_len].
  rewrite slice_bytes_whole.
  set (h2 := slice_write (h1 ++ [bs]) (Slice (length h1) 0 (length bs)) Y).
  assert (h2 !! length h = Some bs) as Hown2.
  { apply owned_write; [by eapply fresh_disjoint|by apply owned_app]. }
  destruct (Get_copies h2 c2 key now _ Hok2 Hlive2 (owned_valid _ _ _ Hown2))
    as (c3 & -> & Hok3 & Hlive3).
  rewrite bind_Some. cbv beta iota zeta.
  rewrite (owned_bytes h2 _ _ Hown2). cbn [slice_len].
  by rewrite slice_bytes_whole.
Qed.

End data_safety.

Lemma Simple_Set_stores h c key v now :
  SimpleInv.writable c -> key <> ""%string -> slice_valid h v ->
  exists c',
    Set_ SimpleCache_Cache h c key v now = Some (h ++ [slice_bytes h v], c', None) /\
    SimpleInv.writable c' /\ SimpleInv.live c' key now (Slice (length h) 0 (slice_len v)).
Proof.
  intros Hopen Hkey Hv. simpl. unfold Simple.Set_.
  rewrite SimpleFacts.Simple_SetWithTTL_ok by done.
  eexists. split; [done|]. split; [done|]. split; [done|].
  eexists. split; [apply lookup_insert_eq|]. split; [done|]. apply deadline_live.
Qed.

Lemma Simple_Get_copies h c key now s :
  SimpleInv.writable c -> SimpleInv.live c key now s -> slice_valid h s ->
  exists c',
    Get SimpleCache_Cache h c key now
      = Some (h ++ [slice_bytes h s], c', (Slice (length h) 0 (slice_len s), true)) /\
    SimpleInv.writable c' /\ SimpleInv.live c' key now s.
Proof.
  intros Hopen (Hkey & item & Hi & <- & He) Hv. simpl.
  rewrite (SimpleFacts.Simple_Get_live h c key item now) by done.
  eexists. split; [done|]. split; [done|]. split; [done|]. by exists item.
Qed.

Lemma LFU_evict_closed it c : LFU.closed (LFU.evictLFU it c) = LFU.closed c.
Proof.
  unfold LFU.evictLFU. case_decide; [done|].
  destruct (LFU.evictLFU_scan _) as [[? ?] ?]. by case_decide.
Qed.

Lemma LFU_Set_stores it h c key v now :
  LFUInv.writable c -> key <> ""%string -> slice_valid h v ->
  exists c',
    Set_ (LFUCache_Cache it) h c key v now = Some (h ++ [slice_bytes h v], c', None) /\
    LFUInv.writable c' /\ LFUInv.live c' key now (Slice (length h) 0 (slice_len v)).
Proof.
  intros Hopen Hkey Hv. simpl. unfold LFU.Set_.
  destruct (LFU.items c !! key) as [item|] eqn:Hi.
  - rewrite (LFUFacts.LFU_SetWithTTL_existing it h c key item) by done.
    eexists. split; [done|]. split; [done|]. split; [done|].
    eexists. split; [apply lookup_insert_eq|]. split; [done|]. apply deadline_live.
  - rewrite (LFUFacts.LFU_SetWithTTL_new it h c key) by done. cbv zeta.
    eexists. split; [done|]. split; [|split; [done|]].
    + unfold LFUInv.writable. simpl. destruct (_ <=? _); [|done].
      by rewrite LFU_evict_closed.
    + eexists. split; [apply lookup_insert_eq|]. split; [done|]. apply deadline_live.
Qed.

Lemma LFU_Get_copies it h c key now s :
  LFUInv.writable c -> LFUInv.live c key now s -> slice_valid h s ->
  exists c',
    Get (LFUCache_Cache it) h c key now
      = Some (h ++ [slice_bytes h s], c', (Slice (length h) 0 (slice_len s), true)) /\
    LFUInv.writable c' /\ LFUInv.live c' key now s.
Proof.
  intros Hopen (Hkey & item & Hi & <- & He) Hv. simpl.
  rewrite (LFUFacts.LFU_Get_live h c key item now) by done.
  eexists. split; [done|]. split; [done|]. split; [done|].
  exists (LFU.touch now item). split; [apply lookup_insert_eq|]. by split.
Qed.

Lemma Memory_Set_stores it h c key v now :
  True -> key <> ""%string -> slice_valid h v ->
  exists c',
    Set_ (MemoryCache_Cache it) h c key v now = Some (h ++ [slice_bytes h v], c', None) /\
    True /\ MemoryInv.live c' key now (Slice (length h) 0 (slice_len v)).
Proof.
  intros _ _ Hv. simpl. unfold Memory.Set_.
  rewrite MemoryFacts.Memory_SetWithTTL_spec by done. cbv zeta.
  eexists. split; [done|]. split; [done|].
  eexists. split; [apply lookup_insert_eq|]. split; [done|].
  apply MemoryFacts.far_deadline_live.
Qed.

Lemma Memory_Get_copies it h c key now s :
  True -> MemoryInv.live c key now s -> slice_valid h s ->
  exists c',
    Get (MemoryCache_Cache it) h c key now
      = Some (h ++ [slice_bytes h s], c', (Slice (length h) 0 (slice_len s), true)) /\
    True /\ MemoryInv.live c' key now s.
Proof.
  intros _ (item & Hi & <- & He) Hv. simpl.
  rewrite (MemoryFacts.Memory_Get_live h c key item now) by done.
  eexists. split; [done|]. split; [done|].
  exists (Memory.Touch now item). split; [apply lookup_insert_eq|]. by split.
Qed.

(** C1.  Round trip with private copies, for each of the four engines: on
    an open cache and for a non-empty key, [Set(key, original)] returns no
    error; a [Get(key)] that follows immediately returns the bytes of
    [original] and [true], even when the caller has overwritten its own
    buffer after [Set]; and a second [Get(key)] still returns those bytes
    after the caller has overwritten the slice the first [Get] returned. *)
Theorem round_trip_private_copies (it : MapIter) (h : heap) (key : string)
    (original : slice) (now : Time) (X Y : list byte)
    (cs : Simple.SimpleCache) (cl : LRU.LRUCache) (cf : LFU.LFUCache)
    (cm : Memory.MemoryCache) :
  key <> ""%string ->
  slice_valid h original ->
  Simple.closed cs = false ->
  LRU.closed cl = false -> LRUInv.wf cl ->
  LFU.closed cf = false ->
  let expected :=
    Some (None, (slice_bytes h original, true), (slice_bytes h original, true)) in
  DataSafety SimpleCache_Cache h cs key original now X Y = expected /\
  DataSafety LRUCache_Cache h cl key original now X Y = expected /\
  DataSafety (LFUCache_Cache it) h cf key original now X Y = expected /\
  DataSafety (MemoryCache_Cache it) h cm key original now X Y = expected.
Proof.
  intros Hkey Hv Hs Hl Hwf Hf expected. split_and!.
  - apply (DataSafety_generic _ SimpleInv.writable SimpleInv.live);
      [apply Simple_Set_stores|apply Simple_Get_copies|done..].
  - apply (DataSafety_generic _ LRUInv.writable LRUInv.live);
      [apply LRULive.LRU_Set_stores|apply LRULive.LRU_Get_copies|by split|done..].
  - apply (DataSafety_generic _ LFUInv.writable LFUInv.live);
      [apply LFU_Set_stores|apply LFU_Get_copies|done..].
  - apply (DataSafety_generic _ (fun _ => True) MemoryInv.live);
      [apply Memory_Set_stores|apply Memory_Get_copies|done..].
Qed.

Lemma round_trip_private_copies_witness :
  let h := [String.list_byte_of_string "original data"] in
  let original := Slice 0 0 13 in
  let expected :=
    Some (None, (String.list_byte_of_string "original data", true),
                (String.list_byte_of_string "original data", true)) in
  ("safety"%string <> ""%string /\ slice_valid h original /\
   LRUInv.wf (LRU.NewLRU 3)) /\
  DataSafety SimpleCache_Cache h Simple.NewSimple "safety" original 1000
     [x58] [x59] = expected /\
  DataSafety LRUCache_Cache h (LRU.NewLRU 3) "safety" original 1000
     [x58] [x59] = expected /\
  DataSafety (LFUCache_Cache keyOrder) h (LFU.NewLFU 3) "safety" original 1000
     [x58] [x59] = expected /\
  DataSafety (MemoryCache_Cache keyOrder) h (Memory.NewMemoryCache DefaultConfig)
     "safety" original 1000 [x58] [x59] = expected.
Proof.
  assert ("safety"%string <> ""%string) as Hkey by done.
  assert (slice_valid [String.list_byte_of_string "original data"] (Slice 0 0 13)) as Hv
    by (simpl; lia).
  assert (LRUInv.wf (LRU.NewLRU 3)) as Hwf
    by (eexists; apply LRUFacts.NewLRUWithTTL_repr).
  split; [done|].
  exact (round_trip_private_copies keyOrder _ "safety" (Slice 0 0 13) 1000 [x58] [x59]
           Simple.NewSimple (LRU.NewLRU 3) (LFU.NewLFU 3)
           (Memory.NewMemoryCache DefaultConfig) Hkey Hv eq_refl eq_refl Hwf eq_refl).
Defined.

(** ** Errors of [Set] and [SetWithTTL] *)

Lemma Simple_SetErrors h c key value ttl now :
  slice_valid h value ->
  SetErrors SimpleCache_Cache Simple.closed h c key value ttl now.
Proof.
  intros Hv. split_and!.
  - by intros ->.
  - intros Hk Hc. simpl. unfold Simple.Set_.
    by rewrite !SimpleFacts.Simple_SetWithTTL_closed by done.
  - intros Hk Hc. simpl. unfold Simple.Set_.
    rewrite !SimpleFacts.Simple_SetWithTTL_ok by done. split; eauto.
  - eexists. split; [done|]. simpl. unfold Simple.Close. by destruct (Simple.closed c) eqn:Hc.
Qed.

Lemma LFU_SetErrors it h c key value ttl now :
  slice_valid h value ->
  SetErrors (LFUCache_Cache it) LFU.closed h c key value ttl now.
Proof.
  intros Hv. split_and!.
  - by intros ->.
  - intros Hk Hc. simpl. unfold LFU.Set_.
    by rewrite !LFUFacts.LFU_SetWithTTL_closed by done.
  - intros Hk Hc. simpl. unfold LFU.Set_.
    destruct (LFU.items c !! key) as [item|] eqn:Hi.
    + rewrite !(LFUFacts.LFU_SetWithTTL_existing it h c key item) by done. split; eauto.
    + rewrite !(LFUFacts.LFU_SetWithTTL_new it h c key) by done. cbv zeta. split; eauto.
  - eexists. split; [done|]. simpl. unfold LFU.Close. by destruct (LFU.closed c) eqn:Hc.
Qed.

Lemma LRU_SetWithTTL_closed h c key value ttl now :
  key <> ""%string -> LRU.closed c = true ->
  LRU.SetWithTTL h c key value ttl now = Some (h, c, Some ErrCacheClosed).
Proof. intros Hk Hc. unfold LRU.SetWithTTL. rewrite decide_False by done. by rewrite Hc. Qed.

Lemma LRU_SetWithTTL_succeeds h c key value ttl now :
  LRUInv.wf c -> key <> ""%string -> LRU.closed c = false -> slice_valid h value ->
  exists h' c', LRU.SetWithTTL h c key value ttl now = Some (h', c', None) /\ LRUInv.wf c'.
Proof.
  intros [l Hr] Hk Hc Hv. destruct (LRU.items c !! key) as [a|] eqn:Hka.
  - destruct (LRUFacts.LRU_SetWithTTL_existing h c l key a value ttl now)
      as (ns' & l' & -> & Hr' & _); [done..|].
    eexists _, _. split; [done|]. by exists l'.
  - destruct (LRUFacts.LRU_SetWithTTL_new h c l key value ttl now)
      as (c' & l' & -> & Hr' & _); [done..|].
    eexists _, _. split; [done|]. by exists l'.
Qed.

Lemma LRU_SetErrors h c key value ttl now :
  LRUInv.wf c -> slice_valid h value ->
  SetErrors LRUCache_Cache LRU.closed h c key value ttl now.
Proof.
  intros Hwf Hv. split_and!.
  - by intros ->.
  - intros Hk Hc. simpl. unfold LRU.Set_. by rewrite !LRU_SetWithTTL_closed by done.
  - intros Hk Hc. simpl. unfold LRU.Set_. split.
    + destruct (LRU_SetWithTTL_succeeds h c key value ttl now) as (h' & c' & -> & _); eauto.
    + destruct (LRU_SetWithTTL_succeeds h c key value (LRU.defaultTTL c) now)
        as (h' & c' & -> & _); eauto.
  - eexists. split; [done|]. simpl. unfold LRU.Close. by destruct (LRU.closed c) eqn:Hc.
Qed.

(** C2, as amended.  [SimpleCache], [LRUCache] and [LFUCache] refuse the
    empty key with [ErrKeyEmpty] without mutating anything, refuse any other
    key with [ErrCacheClosed] once closed, and return a nil error otherwise.
    [MemoryCache] has neither check: its [Set] and [SetWithTTL] store the
    entry and return a nil error for every key, closed or not. *)
Theorem set_errors (it : MapIter) (h : heap) (key : string) (value : slice)
    (ttl : Duration) (now : Time)
    (cs : Simple.SimpleCache) (cl : LRU.LRUCache) (cf : LFU.LFUCache)
    (cm : Memory.MemoryCache) :
  slice_valid h value ->
  LRUInv.wf cl ->
  SetErrors SimpleCache_Cache Simple.closed h cs key value ttl now /\
  SetErrors LRUCache_Cache LRU.closed h cl key value ttl now /\
  SetErrors (LFUCache_Cache it) LFU.closed h cf key value ttl now /\
  (exists h' c',
     SetWithTTL (MemoryCache_Cache it) h cm key value ttl now = Some (h', c', None) /\
     is_Some (Memory.data c' !! key)) /\
  (exists h' c',
     Set_ (MemoryCache_Cache it) h cm key value now = Some (h', c', None) /\
     is_Some (Memory.data c' !! key)).
Proof.
  intros Hv Hwf. split_and!.
  - by apply Simple_SetErrors.
  - by apply LRU_SetErrors.
  - by apply LFU_SetErrors.
  - simpl. rewrite MemoryFacts.Memory_SetWithTTL_spec by done. cbv zeta.
    eexists _, _. split; [done|]. simpl. rewrite lookup_insert_eq. eauto.
  - simpl. unfold Memory.Set_. rewrite MemoryFacts.Memory_SetWithTTL_spec by done. cbv zeta.
    eexists _, _. split; [done|]. simpl. rewrite lookup_insert_eq. eauto.
Qed.

Lemma set_errors_witness :
  (slice_valid [] nil_slice /\ LRUInv.wf (LRU.NewLRU 3)) /\
  SetErrors SimpleCache_Cache Simple.closed [] Simple.NewSimple "" nil_slice 0 1000 /\
  SetErrors LRUCache_Cache LRU.closed [] (LRU.NewLRU 3) "" nil_slice 0 1000 /\
  SetErrors (LFUCache_Cache keyOrder) LFU.closed [] (LFU.NewLFU 3) "" nil_slice 0 1000 /\
  (exists h' c',
     SetWithTTL (MemoryCache_Cache keyOrder) [] (Memory.NewMemoryCache DefaultConfig)
       "" nil_slice 0 1000 = Some (h', c', None) /\
     is_Some (Memory.data c' !! ""%string)) /\
  (exists h' c',
     Set_ (MemoryCache_Cache keyOrder) [] (Memory.NewMemoryCache DefaultConfig)
       "" nil_slice 1000 = Some (h', c', None) /\
     is_Some (Memory.data c' !! ""%string)).
Proof.
  assert (slice_valid [] nil_slice) as Hv by done.
  assert (LRUInv.wf (LRU.NewLRU 3)) as Hwf
    by (eexists; apply LRUFacts.NewLRUWithTTL_repr).
  split; [done|].
  exact (set_errors keyOrder [] "" nil_slice 0 1000 Simple.NewSimple (LRU.NewLRU 3)
           (LFU.NewLFU 3) (Memory.NewMemoryCache DefaultConfig) Hv Hwf).
Defined.

(** C2 fails on [MemoryCache]: the empty key is stored with a nil error,
    and so is a key written after [Close]. *)
Lemma set_errors_MemoryCache_counterexample :
  let E := MemoryCache_Cache keyOrder in
  let c := Memory.NewMemoryCache DefaultConfig in
  (exists h' c',
     Set_ E [] c "" nil_slice 1000 = Some (h', c', None) /\
     Keys (Stats_ E c') = 1) /\
  (exists c0 h' c',
     Close E c = Some c0 /\
     Set_ E [] c0 "k" nil_slice 1000 = Some (h', c', None) /\
     Keys (Stats_ E c') = 1).
Proof.
  split.
  - eexists _, _. split; [reflexivity|]. vm_compute. reflexivity.
  - eexists _, _, _. split; [reflexivity|]. split; [reflexivity|]. vm_compute. reflexivity.
Qed.

(** ** Capacity *)

Lemma InsertOutcome_size maxSize k (keys keys' : gset string) evictions evictions' :
  InsertOutcome maxSize k keys keys' evictions evictions' -> k ∉ keys ->
  (Z.of_nat (size keys) < maxSize /\ size keys' = S (size keys) /\
   evictions' = evictions) \/
  (maxSize <= Z.of_nat (size keys) /\ size keys' = size keys /\
   evictions' = AddInt64 evictions 1).
Proof.
  intros [(Hroom & -> & ->)|(Hfull & victim & Hin & -> & ->)] Hk.
  - left. split_and!; [done| |done].
    rewrite size_union by set_solver. by rewrite size_singleton.
  - right. split_and!; [done| |done].
    rewrite size_union by set_solver. rewrite size_singleton.
    rewrite size_difference by set_solver. rewrite size_singleton.
    assert (size keys <> 0%nat); [|lia].
    intros Hz. apply size_empty_iff in Hz. set_solver.
Qed.

(** An insertion keeps the number of resident keys within a positive
    capacity. *)
Lemma InsertOutcome_bound maxSize k (keys keys' : gset string) evictions evictions' :
  InsertOutcome maxSize k keys keys' evictions evictions' -> k ∉ keys ->
  Z.of_nat (size keys) <= maxSize -> Z.of_nat (size keys') <= maxSize.
Proof.
  intros Hout Hk Hle.
  destruct (InsertOutcome_size _ _ _ _ _ _ Hout Hk) as [(? & -> & _)|(? & -> & _)]; lia.
Qed.

(** Inserting a new key into an [LFUCache] of positive capacity. *)
Lemma LFU_insert it h c k v ttl now :
  LFUInv.wf c -> LFU.closed c = false -> 0 < LFU.maxSize c ->
  k <> ""%string -> slice_valid h v -> LFU.items c !! k = None ->
  exists h' c',
    LFU.SetWithTTL it h c k v ttl now = (h', c', None) /\
    LFUInv.wf c' /\ LFU.closed c' = false /\ LFU.maxSize c' = LFU.maxSize c /\
    InsertOutcome (LFU.maxSize c) k (dom (LFU.items c)) (dom (LFU.items c'))
      (LFU.evictions c) (LFU.evictions c').
Proof.
  intros Hwf Hopen Hpos Hk Hv Hnew.
  rewrite LFUFacts.LFU_SetWithTTL_new by done. cbv zeta.
  destruct (LFU.maxSize c <=? Z.of_nat (size (LFU.items c))) eqn:Hfull.
  - apply Z.leb_le in Hfull.
    assert (LFU.items c <> ∅) as Hne.
    { intros Hempty. rewrite Hempty, map_size_empty in Hfull. lia. }
    destruct (LFUFacts.LFU_evictLFU_victim it c Hwf Hne) as (victim & item & Hvi & -> & _).
    eexists _, _. split; [reflexivity|]. cbn. split_and!; [|done..|].
    + intros k' item' Hk'. cbn in Hk'.
      apply lookup_insert_Some in Hk' as [[<- <-]|[_ Hk']]; [split; [done|simpl; lia]|].
      apply lookup_delete_Some in Hk' as [_ Hk']. by apply (Hwf k').
    + right. rewrite size_dom. split; [done|]. exists victim.
      split; [by apply elem_of_dom_2 in Hvi|]. by rewrite dom_insert_L, dom_delete_L.
  - apply Z.leb_gt in Hfull. eexists _, _. split; [reflexivity|]. cbn. split_and!; [|done..|].
    + intros k' item' Hk'. cbn in Hk'.
      apply lookup_insert_Some in Hk' as [[<- <-]|[_ Hk']]; [split; [done|simpl; lia]|].
      by apply (Hwf k').
    + left. rewrite size_dom. split; [done|]. by rewrite dom_insert_L.
Qed.

Lemma LRU_repr_nil c : LRUInv.repr c [] -> LRU.items c = ∅.
Proof.
  intros Hr. apply map_empty. intros k. apply eq_None_not_Some. intros [a Ha].
  apply (LRUInv.repr_items _ _ Hr) in Ha as [Ha _]. set_solver.
Qed.

(** Inserting a new key into an [LRUCache] of positive capacity. *)
Lemma LRU_insert h c k v ttl now :
  LRUInv.wf c -> LRU.closed c = false -> 0 < LRU.maxSize c ->
  k <> ""%string -> slice_valid h v -> LRU.items c !! k = None ->
  exists h' c',
    LRU.SetWithTTL h c k v ttl now = Some (h', c', None) /\
    LRUInv.wf c' /\ LRU.closed c' = false /\ LRU.maxSize c' = LRU.maxSize c /\
    InsertOutcome (LRU.maxSize c) k (dom (LRU.items c)) (dom (LRU.items c'))
      (LRU.evictions c) (LRU.evictions c').
Proof.
  intros [l Hr] Hopen Hpos Hk Hv Hnew.
  destruct (LRUFacts.LRU_SetWithTTL_new h c l k v ttl now Hr Hk Hopen Hnew Hv)
    as (c' & l' & Heq & Hr' & _ & Hins).
  exists (h ++ [slice_bytes h v]), c'. split; [done|]. split; [by exists l'|].
  destruct Hins as [(Hroom & Hc' & _)|(Hfull & l0 & x & kx & Hl & Hkx & Hc' & _)].
  - assert (Z.of_nat (size (LRU.items c)) < LRU.maxSize c) as Hlt.
    { destruct Hroom as [Hlt | ->]; [done|]. rewrite (LRU_repr_nil c Hr), map_size_empty. lia. }
    rewrite Hc'. cbn. split_and!; [done..|]. left. rewrite size_dom.
    split; [done|]. by rewrite dom_insert_L.
  - rewrite Hc'. cbn. split_and!; [done..|]. right. rewrite size_dom.
    split; [done|]. exists kx. split.
    + apply (elem_of_dom_2 _ _ x). apply (LRUInv.repr_items _ _ Hr). split; [|done].
      rewrite Hl. set_solver.
    + by rewrite dom_insert_L, dom_delete_L.
Qed.

(** Inserting a new key into a [MemoryCache] of positive capacity, when the
    empty key is not resident. *)
Lemma Memory_insert it h c k v ttl now :
  MemoryInv.wf c -> 0 < MaxSize (Memory.config c) ->
  k <> ""%string -> slice_valid h v -> Memory.data c !! k = None ->
  exists h' c',
    Memory.SetWithTTL it h c k v ttl now = (h', c', None) /\
    MemoryInv.wf c' /\ Memory.config c' = Memory.config c /\
    InsertOutcome (MaxSize (Memory.config c)) k (dom (Memory.data c))
      (dom (Memory.data c')) (Memory.evictions c) (Memory.evictions c').
Proof.
  intros Hwf Hpos Hk Hv Hnew.
  rewrite MemoryFacts.Memory_SetWithTTL_spec by done. cbv zeta.
  rewrite (proj2 (Z.ltb_lt _ _) Hpos), Hnew. cbn [andb].
  destruct (MaxSize (Memory.config c) <=? Z.of_nat (size (Memory.data c))) eqn:Hfull.
  - apply Z.leb_le in Hfull.
    assert (Memory.data c <> ∅) as Hne.
    { intros Hempty. rewrite Hempty, map_size_empty in Hfull. lia. }
    assert (Memory.data c !! ""%string = None) as Hempty.
    { apply eq_None_not_Some. intros [item Hitem]. by apply Hwf in Hitem as [? _]. }
    assert (exists victim item,
               Memory.data c !! victim = Some item /\
               Memory.evict it c
               = Memory.add_evictions 1
                   (Memory.with_data (delete victim (Memory.data c)) c))
      as (victim & item & Hvi & ->).
    { unfold Memory.evict. rewrite decide_False by (by rewrite map_size_empty_iff).
      destruct (MemoryEvict.evictLRU_victim it c Hne Hempty) as (v1 & i1 & ? & ? & _).
      destruct (MemoryEvict.evictLFU_victim it c Hne Hwf) as (v2 & i2 & ? & ? & _).
      destruct (MemoryEvict.evictFIFO_victim it c Hne Hempty) as (v3 & i3 & ? & ? & _).
      repeat destruct (_ =? _); eauto. }
    eexists _, _. split; [reflexivity|]. cbn. split_and!; [|done|].
    + intros k' item' Hk'. cbn in Hk'.
      apply lookup_insert_Some in Hk' as [[<- <-]|[_ Hk']]; [split; [done|simpl; lia]|].
      apply lookup_delete_Some in Hk' as [_ Hk']. by apply (Hwf k').
    + right. rewrite size_dom. split; [done|]. exists victim.
      split; [by apply elem_of_dom_2 in Hvi|]. by rewrite dom_insert_L, dom_delete_L.
  - apply Z.leb_gt in Hfull. eexists _, _. split; [reflexivity|]. cbn. split_and!; [|done|].
    + intros k' item' Hk'. cbn in Hk'.
      apply lookup_insert_Some in Hk' as [[<- <-]|[_ Hk']]; [split; [done|simpl; lia]|].
      by apply (Hwf k').
    + left. rewrite size_dom. split; [done|]. by rewrite dom_insert_L.
Qed.

(** *** Filling a bounded cache with distinct keys *)

Lemma distinct_writes_S n : distinct_writes (S n) = distinct_writes n ++ [distinct_write n].
Proof. unfold distinct_writes. by rewrite seq_S, fmap_app. Qed.

Lemma distinct_writes_keys n : (distinct_writes n).*1.*1.*1 = distinct_key <$> seq 0 n.
Proof. unfold distinct_writes. by rewrite <- !list_fmap_compose. Qed.

Lemma distinct_key_nonempty i : distinct_key i <> ""%string.
Proof. done. Qed.

#[local] Instance distinct_key_inj : Inj (=) (=) distinct_key.
Proof. intros i j Hij. unfold distinct_key in Hij. by simplify_eq. Qed.

Lemma NoDup_distinct_writes n : NoDup ((distinct_writes n).*1.*1.*1).
Proof. rewrite distinct_writes_keys. apply (NoDup_fmap_2 _). apply NoDup_seq. Qed.

Lemma distinct_key_fresh n : distinct_key n ∉ distinct_key <$> seq 0 n.
Proof.
  intros (i & Hi & Hin)%list_elem_of_fmap. apply (inj _) in Hi as <-.
  apply elem_of_seq in Hin. lia.
Qed.

Lemma SetMany_snoc {T : Type} (E : Cache T) h (c : T) writes key value ttl now :
  SetMany E h c (writes ++ [(key, value, ttl, now)])
  = '(h, c) ← SetMany E h c writes;
    '(h, c, _) ← SetWithTTL E h c key value ttl now;
    Some (h, c).
Proof. unfold SetMany. by rewrite foldl_app. Qed.

Section bounded.
Context {T : Type} (E : Cache T) (ok : T -> Prop).
Context (keys : T -> gset string) (maxSize evictions : T -> Z).

Hypothesis insert : forall h c k v ttl now,
  ok c -> k <> ""%string -> slice_valid h v -> k ∉ keys c ->
  exists h' c',
    SetWithTTL E h c k v ttl now = Some (h', c', None) /\
    ok c' /\ maxSize c' = maxSize c /\
    InsertOutcome (maxSize c) k (keys c) (keys c') (evictions c) (evictions c').
Hypothesis stats : forall c,
  Keys (Stats_ E c) = Z.of_nat (size (keys c)) /\ Evictions (Stats_ E c) = evictions c.

(** As long as the capacity is not exceeded, the writes of
    [distinct_writes] all stay and nothing is evicted. *)
Lemma bounded_fill (c0 : T) (n : nat) :
  ok c0 -> keys c0 = ∅ -> Z.of_nat n <= maxSize c0 ->
  exists h c,
    SetMany E [] c0 (distinct_writes n) = Some (h, c) /\
    ok c /\ maxSize c = maxSize c0 /\ evictions c = evictions c0 /\
    keys c = list_to_set (distinct_key <$> seq 0 n).
Proof.
  intros Hok Hempty. induction n as [|n IH]; intros Hn.
  - exists [], c0. split_and!; [done..|]. by rewrite Hempty.
  - destruct IH as (h & c & Hmany & Hokc & Hmax & Hev & Hkeys); [lia|].
    assert (size (keys c) = n) as Hsize.
    { rewrite Hkeys, size_list_to_set, length_fmap, length_seq; [done|].
      apply (NoDup_fmap_2 _), NoDup_seq. }
    assert (distinct_key n ∉ keys c) as Hfresh.
    { rewrite Hkeys, elem_of_list_to_set. apply distinct_key_fresh. }
    destruct (insert h c (distinct_key n) nil_slice 0 (1000 + Z.of_nat n) Hokc)
      as (h' & c' & Hset & Hok' & Hmax' & Hout); [done..|].
    exists h', c'. rewrite distinct_writes_S. unfold distinct_write.
    rewrite SetMany_snoc, Hmany, bind_Some. cbv beta iota. rewrite Hset, bind_Some.
    cbv beta iota. split; [done|]. split; [done|]. split; [congruence|].
    destruct Hout as [(_ & Hk' & Hev')|(Hfull & _)]; [|lia].
    split; [congruence|]. rewrite Hk', Hkeys, seq_S, fmap_app. cbn. set_solver.
Qed.

(** The next distinct write evicts. *)
Lemma bounded_overflow (c0 : T) (n : nat) :
  ok c0 -> keys c0 = ∅ -> Z.of_nat n = maxSize c0 ->
  StatsAfter E [] c0 (distinct_writes (S n))
  = Some (maxSize c0, AddInt64 (evictions c0) 1).
Proof.
  intros Hok Hempty Hn.
  destruct (bounded_fill c0 n Hok Hempty) as (h & c & Hmany & Hokc & Hmax & Hev & Hkeys);
    [lia|].
  assert (size (keys c) = n) as Hsize.
  { rewrite Hkeys, size_list_to_set, length_fmap, length_seq; [done|].
    apply (NoDup_fmap_2 _), NoDup_seq. }
  assert (distinct_key n ∉ keys c) as Hfresh.
  { rewrite Hkeys, elem_of_list_to_set. apply distinct_key_fresh. }
  destruct (insert h c (distinct_key n) nil_slice 0 (1000 + Z.of_nat n) Hokc)
    as (h' & c' & Hset & Hok' & Hmax' & Hout); [done..|].
  apply InsertOutcome_size in Hout as [(Hroom & _)|(_ & Hsize' & Hev')]; [lia| |done].
  unfold StatsAfter. rewrite distinct_writes_S. unfold distinct_write.
  rewrite SetMany_snoc, Hmany, bind_Some. cbv beta iota. rewrite Hset, !bind_Some.
  cbv beta iota. destruct (stats c') as [-> ->]. do 2 f_equal; [lia|congruence].
Qed.

End bounded.

Lemma LRU_overflow (n : nat) (maxSize : Z) (ttl : Duration) :
  let c0 := LRU.NewLRUWithTTL maxSize ttl in
  Z.of_nat n = LRU.maxSize c0 ->
  StatsAfter LRUCache_Cache [] c0 (distinct_writes (S n)) = Some (LRU.maxSize c0, 1).
Proof.
  intros c0 Hn.
  assert (0 < LRU.maxSize c0) as Hpos by (cbn; destruct (maxSize <=? 0) eqn:?; lia).
  apply (bounded_overflow LRUCache_Cache
           (fun c => LRUInv.wf c /\ LRU.closed c = false /\ 0 < LRU.maxSize c)
           (fun c => dom (LRU.items c)) LRU.maxSize LRU.evictions); [| |..].
  - intros h c k v ttl' now (Hwf & Hopen & Hmax) Hk Hv Hnew.
    destruct (LRU_insert h c k v ttl' now) as (h' & c' & ? & ? & ? & Hmax' & ?); [try done..|].
    { by apply not_elem_of_dom. }
    exists h', c'. split_and!; [done..|lia|done|done].
  - intros c. cbn [Stats_ LRUCache_Cache]. unfold LRU.Stats_.
    destruct (CalculateHitRate_counters
                {| Hits := LRU.hits c; Misses := LRU.misses c;
                   Keys := Z.of_nat (size (LRU.items c));
                   Evictions := LRU.evictions c; HitRate := 0%float |})
      as (_ & _ & -> & ->).
    by rewrite size_dom.
  - split_and!; [|done..]. eexists. apply LRUFacts.NewLRUWithTTL_repr.
  - done.
  - done.
Qed.

Lemma LFU_overflow it (n : nat) (maxSize : Z) (ttl : Duration) :
  let c0 := LFU.NewLFUWithTTL maxSize ttl in
  Z.of_nat n = LFU.maxSize c0 ->
  StatsAfter (LFUCache_Cache it) [] c0 (distinct_writes (S n)) = Some (LFU.maxSize c0, 1).
Proof.
  intros c0 Hn.
  assert (0 < LFU.maxSize c0) as Hpos by (cbn; destruct (maxSize <=? 0) eqn:?; lia).
  apply (bounded_overflow (LFUCache_Cache it)
           (fun c => LFUInv.wf c /\ LFU.closed c = false /\ 0 < LFU.maxSize c)
           (fun c => dom (LFU.items c)) LFU.maxSize LFU.evictions); [| |..].
  - intros h c k v ttl' now (Hwf & Hopen & Hmax) Hk Hv Hnew.
    destruct (LFU_insert it h c k v ttl' now) as (h' & c' & Hset & ? & ? & Hmax' & ?);
      [try done..|].
    { by apply not_elem_of_dom. }
    exists h', c'. cbn [SetWithTTL LFUCache_Cache]. rewrite Hset.
    split_and!; [done..|lia|done|done].
  - intros c. cbn [Stats_ LFUCache_Cache]. unfold LFU.Stats_.
    destruct (CalculateHitRate_counters
                {| Hits := LFU.hits c; Misses := LFU.misses c;
                   Keys := Z.of_nat (size (LFU.items c));
                   Evictions := LFU.evictions c; HitRate := 0%float |})
      as (_ & _ & -> & ->).
    by rewrite size_dom.
  - split_and!; [|done..]. intros k item Hk. unfold c0 in Hk. cbn in Hk.
    by rewrite lookup_empty in Hk.
  - done.
  - done.
Qed.

(** When the only candidate is the entry under the empty key, no policy of
    [MemoryCache] evicts: each scan returns the key [""], which the guard
    [if oldestKey != ""] takes for "no victim found". *)
Lemma Memory_evict_only_empty_key it c item :
  Memory.data c = {[ ""%string := item ]} -> Memory.evict it c = c.
Proof.
  intros Hd. unfold Memory.evict.
  rewrite decide_False by (rewrite Hd, map_size_singleton; lia).
  assert (Memory.evictLRU it c = c) as HLRU.
  { unfold Memory.evictLRU. rewrite Hd, range_singleton. by simpl. }
  assert (Memory.evictLFU it c = c) as HLFU.
  { unfold Memory.evictLFU. rewrite Hd, range_singleton. by simpl. }
  assert (Memory.evictFIFO it c = c) as HFIFO.
  { unfold Memory.evictFIFO. rewrite Hd, range_singleton. by simpl. }
  by repeat destruct (_ =? _).
Qed.

(** C3 at its failing input.  A [MemoryCache] of capacity 1, under any
    eviction policy and any iteration order: after [Set("", _)] and
    [Set("a", _)] two keys are resident and no eviction was counted. *)
Theorem MemoryCache_empty_key_defeats_capacity (it : MapIter) (policy : EvictionPolicy) :
  let cfg := {| MaxSize := 1; DefaultTTL := 0; CleanupInterval := 0;
                EvictionPolicy_ := policy |} in
  let E := MemoryCache_Cache it in
  exists h1 c1 h2 c2,
    Set_ E [] (Memory.NewMemoryCache cfg) "" nil_slice 1000 = Some (h1, c1, None) /\
    Set_ E h1 c1 "a" nil_slice 2000 = Some (h2, c2, None) /\
    Keys (Stats_ E c2) = 2 /\
    Evictions (Stats_ E c2) = 0.
Proof.
  intros cfg E.
  set (item0 := {| Memory.Value := Slice 0 0 0; Memory.ExpiresAt := far_deadline 0 0 1000;
                   Memory.LastAccess := 1000; Memory.AccessCount := 1;
                   Memory.CreatedAt := 1000 |}).
  set (item1 := {| Memory.Value := Slice 1 0 0; Memory.ExpiresAt := far_deadline 0 0 2000;
                   Memory.LastAccess := 2000; Memory.AccessCount := 1;
                   Memory.CreatedAt := 2000 |}).
  set (c1 := Memory.with_data {[ ""%string := item0 ]} (Memory.NewMemoryCache cfg)).
  set (c2 := Memory.with_data (<["a"%string := item1]> {[ ""%string := item0 ]}) c1).
  exists [[]], c1, [[]; []], c2.
  assert (Memory.evict it c1 = c1) as Hevict
    by (by apply (Memory_evict_only_empty_key it c1 item0)).
  split_and!.
  - cbn [Set_ E MemoryCache_Cache]. unfold Memory.Set_.
    rewrite MemoryFacts.Memory_SetWithTTL_spec by done. cbv zeta.
    cbn [Memory.data Memory.config Memory.NewMemoryCache MaxSize DefaultTTL cfg].
    rewrite map_size_empty.
    change ((0 <? 1) && (1 <=? Z.of_nat 0)) with false. cbv iota.
    reflexivity.
  - cbn [Set_ E MemoryCache_Cache]. unfold Memory.Set_.
    rewrite MemoryFacts.Memory_SetWithTTL_spec by done. cbv zeta.
    cbn [Memory.data Memory.config c1 Memory.with_data Memory.NewMemoryCache
         MaxSize DefaultTTL cfg].
    rewrite map_size_singleton, lookup_singleton_ne by done.
    change ((0 <? 1) && (1 <=? Z.of_nat 1)) with true. cbv iota.
    fold cfg. fold (Memory.NewMemoryCache cfg). fold c1.
    by rewrite Hevict.
  - cbn [Stats_ E MemoryCache_Cache]. unfold Memory.Stats_.
    etransitivity; [apply CalculateHitRate_counters|].
    cbn [Keys Memory.data c2 Memory.with_data].
    rewrite map_size_insert_None by (by rewrite lookup_singleton_ne).
    by rewrite map_size_singleton.
  - cbn [Stats_ E MemoryCache_Cache]. unfold Memory.Stats_.
    etransitivity; [apply CalculateHitRate_counters|]. done.
Qed.


(** ** Lazy expiry *)

(** C4 at its failing input.  [SimpleCache]: an entry stored with a TTL of
    100ms is read 150ms later; the read returns the expired bytes with
    [true] and counts a hit, not a miss (it does delete the entry). *)
Theorem SimpleCache_Get_after_TTL_hits :
  let h := [String.list_byte_of_string "ttl_value"] in
  let E := SimpleCache_Cache in
  exists h1 c1 h2 c2 cached,
    SetWithTTL E h Simple.NewSimple "ttl_key" (Slice 0 0 9) (100 * Millisecond) 1000
      = Some (h1, c1, None) /\
    Get E h1 c1 "ttl_key" (1000 + 150 * Millisecond) = Some (h2, c2, (cached, true)) /\
    slice_bytes h2 cached = String.list_byte_of_string "ttl_value" /\
    Hits (Stats_ E c2) = 1 /\ Misses (Stats_ E c2) = 0 /\ Keys (Stats_ E c2) = 0.
Proof.
  eexists _, _, _, _, _. split; [reflexivity|]. split; [reflexivity|].
  vm_compute. done.
Qed.

(** ** The victim of the LFU policy *)

(** The scan of [MemoryCache.evictLFU] settles on the first entry, in the
    order of the iteration, whose access count is minimal: the entries met
    before it have a strictly greater count. *)
Lemma Memory_evictLFU_scan_first (l : list (string * Memory.Item)) :
  l <> [] ->
  (forall e, e ∈ l -> Memory.AccessCount e.2 <> -1) ->
  exists l1 k item l2,
    l = l1 ++ (k, item) :: l2 /\
    Memory.evictLFU_scan l = (k, Memory.AccessCount item) /\
    (forall e, e ∈ l1 -> Memory.AccessCount item < Memory.AccessCount e.2) /\
    (forall e, e ∈ l2 -> Memory.AccessCount item <= Memory.AccessCount e.2).
Proof.
  induction l as [|[kx x] l IH] using rev_ind; [done|]. intros _ Hcount.
  unfold Memory.evictLFU_scan. rewrite foldl_app. cbn [foldl].
  destruct (decide (l = [])) as [->|Hne].
  - exists [], kx, x, []. cbn. split_and!; [done|done|set_solver|set_solver].
  - destruct IH as (l1 & k & item & l2 & -> & Hscan & Hbefore & Hafter);
      [done|intros e He; apply Hcount; set_solver|].
    unfold Memory.evictLFU_scan in Hscan. rewrite Hscan. unfold Memory.evictLFU_step.
    assert (Memory.AccessCount item <> -1) as Hitem
      by (apply (Hcount (k, item)); set_solver).
    rewrite (proj2 (Z.eqb_neq _ _) Hitem). cbn [orb].
    destruct (Z.ltb_spec (Memory.AccessCount x) (Memory.AccessCount item)) as [Hlt|Hge].
    + exists (l1 ++ (k, item) :: l2), kx, x, []. split_and!; [done|done| |set_solver].
      intros e [He|[->|He]%elem_of_cons]%elem_of_app.
      * specialize (Hbefore e He). lia.
      * done.
      * specialize (Hafter e He). lia.
    + exists l1, k, item, (l2 ++ [(kx, x)]). split_and!; [|done|done|].
      * by rewrite <- app_assoc.
      * intros e [He| ->%list_elem_of_singleton]%elem_of_app; [by apply Hafter|done].
Qed.

(** C5, as amended.  Inserting a new key into a full cache under the LFU
    policy evicts one resident entry whose frequency counter is minimal.
    In [LFUCache] the victim is moreover minimal for [lastAccess] among the
    entries of that frequency.  In [MemoryCache] (policy LFU, no empty key
    resident) ties on the counter are not broken by [LastAccess]: the
    victim is the first entry of minimal counter in iteration order, that
    is, every entry that [range] yields before the victim has a strictly
    greater counter. *)
Theorem LFU_victim_minimal (it : MapIter) (h : heap) (key : string) (v : slice)
    (ttl : Duration) (now : Time) (cf : LFU.LFUCache) (cm : Memory.MemoryCache) :
  key <> ""%string -> slice_valid h v ->
  LFUInv.wf cf -> LFU.closed cf = false -> LFU.items cf !! key = None ->
  0 < LFU.maxSize cf <= Z.of_nat (size (LFU.items cf)) ->
  EvictionPolicy_ (Memory.config cm) = LFU -> Memory.data cm !! key = None ->
  0 < MaxSize (Memory.config cm) <= Z.of_nat (size (Memory.data cm)) ->
  (forall k item, Memory.data cm !! k = Some item ->
                  k <> ""%string /\ 0 < Memory.AccessCount item) ->
  (exists victim item newItem h' c',
     LFU.SetWithTTL it h cf key v ttl now = (h', c', None) /\
     LFU.items cf !! victim = Some item /\
     LFU.items c' = <[key := newItem]> (delete victim (LFU.items cf)) /\
     LFU.evictions c' = AddInt64 (LFU.evictions cf) 1 /\
     forall k' item', LFU.items cf !! k' = Some item' -> LFUInv.victim_le item item')
  /\
  (exists victim item newItem h' c',
     Memory.SetWithTTL it h cm key v ttl now = (h', c', None) /\
     Memory.data cm !! victim = Some item /\
     Memory.data c' = <[key := newItem]> (delete victim (Memory.data cm)) /\
     Memory.evictions c' = AddInt64 (Memory.evictions cm) 1 /\
     (forall k' item', Memory.data cm !! k' = Some item' ->
                       Memory.AccessCount item <= Memory.AccessCount item') /\
     exists before after,
       range it (Memory.data cm) = before ++ (victim, item) :: after /\
       forall e, e ∈ before -> Memory.AccessCount item < Memory.AccessCount e.2).
Proof.
  intros Hkey Hv Hwf Hopen Hnew [Hpos Hfull] Hpol Hnewm [Hposm Hfullm] Hwfm. split.
  - assert (LFU.items cf <> ∅) as Hne.
    { intros Hempty. rewrite Hempty, map_size_empty in Hfull. lia. }
    destruct (LFUFacts.LFU_evictLFU_victim it cf Hwf Hne) as (victim & item & Hvi & Hev & Hmin).
    exists victim, item. eexists _, _, _.
    rewrite LFUFacts.LFU_SetWithTTL_new by done. cbv zeta.
    rewrite (proj2 (Z.leb_le _ _) Hfull), Hev.
    split; [reflexivity|]. by split_and!.
  - assert (Memory.data cm <> ∅) as Hne.
    { intros Hempty. rewrite Hempty, map_size_empty in Hfullm. lia. }
    destruct (Memory_evictLFU_scan_first (range it (Memory.data cm)))
      as (before & victim & item & after & Hsplit & Hscan & Hbefore & Hafter).
    { by rewrite range_nil. }
    { intros [k x] Hx%elem_of_range. destruct (Hwfm _ _ Hx) as [_ Hc]. simpl. lia. }
    assert (Memory.data cm !! victim = Some item) as Hvi.
    { apply (elem_of_range it). rewrite Hsplit. set_solver. }
    assert (Memory.evictLFU it cm
            = Memory.add_evictions 1
                (Memory.with_data (delete victim (Memory.data cm)) cm)) as Hev.
    { unfold Memory.evictLFU. rewrite Hscan. rewrite decide_True; [done|].
      by apply (Hwfm _ _ Hvi). }
    exists victim, item. eexists _, _, _.
    rewrite MemoryFacts.Memory_SetWithTTL_spec by done. cbv zeta.
    rewrite (proj2 (Z.ltb_lt _ _) Hposm), (proj2 (Z.leb_le _ _) Hfullm), Hnewm.
    cbn [andb].
    assert (Memory.evict it cm = Memory.evictLFU it cm) as ->.
    { unfold Memory.evict. rewrite decide_False by (by rewrite map_size_empty_iff).
      by rewrite Hpol. }
    rewrite Hev. split; [reflexivity|]. split_and!; [done..| |].
    + intros k' item' Hk'%(elem_of_range it). rewrite Hsplit in Hk'.
      apply elem_of_app in Hk' as [Hk'|[Heq|Hk']%elem_of_cons].
      * specialize (Hbefore _ Hk'). simpl in Hbefore. lia.
      * by simplify_eq.
      * by apply (Hafter _ Hk').
    + by exists before, after.
Qed.

Lemma lfu_ab_wf : LFUInv.wf lfu_ab.
Proof.
  intros k item Hk. unfold lfu_ab in Hk. simpl in Hk.
  apply lookup_insert_Some in Hk as [[<- <-]|[_ Hk]]; [split; [done|simpl; lia]|].
  apply lookup_singleton_Some in Hk as [<- <-]. split; [done|simpl; lia].
Qed.

Lemma memory_ab_wf k item :
  Memory.data memory_ab !! k = Some item -> k <> ""%string /\ 0 < Memory.AccessCount item.
Proof.
  intros Hk. unfold memory_ab in Hk. simpl in Hk.
  apply lookup_insert_Some in Hk as [[<- <-]|[_ Hk]]; [split; [done|simpl; lia]|].
  apply lookup_singleton_Some in Hk as [<- <-]. split; [done|simpl; lia].
Qed.

Lemma LFU_victim_minimal_witness :
  (exists victim item newItem h' c',
     LFU.SetWithTTL keyOrder [] lfu_ab "c" nil_slice 0 3000 = (h', c', None) /\
     LFU.items lfu_ab !! victim = Some item /\
     LFU.items c' = <["c"%string := newItem]> (delete victim (LFU.items lfu_ab)) /\
     LFU.evictions c' = AddInt64 (LFU.evictions lfu_ab) 1 /\
     forall k' item', LFU.items lfu_ab !! k' = Some item' -> LFUInv.victim_le item item')
  /\
  (exists victim item newItem h' c',
     Memory.SetWithTTL keyOrder [] memory_ab "c" nil_slice 0 3000 = (h', c', None) /\
     Memory.data memory_ab !! victim = Some item /\
     Memory.data c' = <["c"%string := newItem]> (delete victim (Memory.data memory_ab)) /\
     Memory.evictions c' = AddInt64 (Memory.evictions memory_ab) 1 /\
     (forall k' item', Memory.data memory_ab !! k' = Some item' ->
                       Memory.AccessCount item <= Memory.AccessCount item') /\
     exists before after,
       range keyOrder (Memory.data memory_ab) = before ++ (victim, item) :: after /\
       forall e, e ∈ before -> Memory.AccessCount item < Memory.AccessCount e.2).
Proof.
  apply (LFU_victim_minimal keyOrder [] "c" nil_slice 0 3000 lfu_ab memory_ab).
  - done.
  - done.
  - exact lfu_ab_wf.
  - reflexivity.
  - reflexivity.
  - vm_compute. split; [reflexivity|]. intros Hc. discriminate Hc.
  - reflexivity.
  - reflexivity.
  - vm_compute. split; [reflexivity|]. intros Hc. discriminate Hc.
  - exact memory_ab_wf.
Defined.

(** C5 fails on [MemoryCache]: "a" and "b" have the same access count and
    "a" was accessed first, yet with the map ranged over in the order
    [reverseOrder] the insertion of "c" evicts "b" and keeps "a". *)
Lemma LFU_tie_break_MemoryCache_counterexample :
  let E := MemoryCache_Cache reverseOrder in
  exists h1 c1 h2 itemA itemB h' c',
    Set_ E [] (Memory.NewMemoryCache (Memory.config memory_ab)) "a" nil_slice 1000
      = Some (h1, c1, None) /\
    Set_ E h1 c1 "b" nil_slice 2000 = Some (h2, memory_ab, None) /\
    Memory.data memory_ab !! "a"%string = Some itemA /\
    Memory.data memory_ab !! "b"%string = Some itemB /\
    Memory.AccessCount itemA = Memory.AccessCount itemB /\
    Memory.LastAccess itemA < Memory.LastAccess itemB /\
    Set_ E h2 memory_ab "c" nil_slice 3000 = Some (h', c', None) /\
    Memory.data c' !! "b"%string = None /\
    Memory.data c' !! "a"%string = Some itemA /\
    Evictions (Stats_ E c') = 1.
Proof.
  eexists _, _, _, _, _, _, _. split; [reflexivity|]. split; [vm_compute; reflexivity|].
  split; [reflexivity|]. split; [reflexivity|].
  split; [reflexivity|]. split; [reflexivity|]. split; [reflexivity|].
  vm_compute. done.
Qed.

(** ** Capacity [<= 0] *)

Lemma Memory_SetWithTTL_unbounded it h c key v ttl now :
  MaxSize (Memory.config c) <= 0 ->
  exists h' item,
    Memory.SetWithTTL it h c key v ttl now
      = (h', Memory.with_data (<[key := item]> (Memory.data c)) c, None).
Proof.
  intros Hmax. unfold Memory.SetWithTTL.
  rewrite (proj2 (Z.ltb_ge _ _) Hmax). cbn [andb]. unfold make. eauto.
Qed.

Lemma Memory_SetMany_unbounded it writes h c :
  MaxSize (Memory.config c) <= 0 ->
  exists h' c',
    SetMany (MemoryCache_Cache it) h c writes = Some (h', c') /\
    Memory.evictions c' = Memory.evictions c /\
    Memory.config c' = Memory.config c /\
    dom (Memory.data c') = dom (Memory.data c) ∪ list_to_set (writes.*1.*1.*1).
Proof.
  revert h c. induction writes as [|[[[key v] ttl] now] writes IH]; intros h c Hmax.
  - exists h, c. split_and!; [done..|]. simpl. set_solver.
  - destruct (Memory_SetWithTTL_unbounded it h c key v ttl now Hmax) as (h1 & item & Hset).
    destruct (IH h1 (Memory.with_data (<[key := item]> (Memory.data c)) c) Hmax)
      as (h' & c' & Hmany & Hev & Hcfg & Hdom).
    exists h', c'. split_and!; [|done..|].
    + unfold SetMany in *. cbn [foldl]. rewrite bind_Some.
      cbn [SetWithTTL MemoryCache_Cache]. rewrite Hset, bind_Some. exact Hmany.
    + rewrite Hdom. simpl. rewrite dom_insert_L. set_solver.
Qed.

(** C6, as amended.  Only [MemoryCache] treats a capacity [<= 0] as
    unbounded: no sequence of writes ever evicts, and every key written
    stays resident.  [NewLRUWithTTL] and [NewLFUWithTTL] replace a capacity
    [<= 0] by the default capacity 1000.  [SimpleCache] has no capacity and
    reports no evictions. *)
Theorem nonpositive_capacity (it : MapIter) (n : Z) (ttl : Duration) (h : heap)
    (cm : Memory.MemoryCache) (writes : list (string * slice * Duration * Time))
    (cs : Simple.SimpleCache) :
  n <= 0 ->
  MaxSize (Memory.config cm) <= 0 ->
  (exists h' c',
     SetMany (MemoryCache_Cache it) h cm writes = Some (h', c') /\
     Evictions (Stats_ (MemoryCache_Cache it) c') = Evictions (Stats_ (MemoryCache_Cache it) cm) /\
     dom (Memory.data c') = dom (Memory.data cm) ∪ list_to_set (writes.*1.*1.*1)) /\
  LRU.maxSize (LRU.NewLRUWithTTL n ttl) = 1000 /\
  LFU.maxSize (LFU.NewLFUWithTTL n ttl) = 1000 /\
  Evictions (Stats_ SimpleCache_Cache cs) = 0.
Proof.
  intros Hn Hmax. split_and!.
  - destruct (Memory_SetMany_unbounded it writes h cm Hmax) as (h' & c' & Hmany & Hev & _ & Hdom).
    exists h', c'. split_and!; [done| |done].
    cbn [Stats_ MemoryCache_Cache]. unfold Memory.Stats_.
    destruct (CalculateHitRate_counters
                {| Hits := Memory.hits c'; Misses := Memory.misses c';
                   Keys := Z.of_nat (size (Memory.data c'));
                   Evictions := Memory.evictions c'; HitRate := 0%float |})
      as (_ & _ & _ & ->).
    destruct (CalculateHitRate_counters
                {| Hits := Memory.hits cm; Misses := Memory.misses cm;
                   Keys := Z.of_nat (size (Memory.data cm));
                   Evictions := Memory.evictions cm; HitRate := 0%float |})
      as (_ & _ & _ & ->).
    done.
  - simpl. by rewrite (proj2 (Z.leb_le _ _) Hn).
  - simpl. by rewrite (proj2 (Z.leb_le _ _) Hn).
  - cbn [Stats_ SimpleCache_Cache]. unfold Simple.Stats_.
    etransitivity; [apply CalculateHitRate_counters|done].
Qed.

Lemma nonpositive_capacity_witness :
  let cfg := {| MaxSize := 0; DefaultTTL := 0; CleanupInterval := 0;
                EvictionPolicy_ := LRU |} in
  let E := MemoryCache_Cache keyOrder in
  (exists h' c',
     SetMany E [] (Memory.NewMemoryCache cfg) (distinct_writes 3) = Some (h', c') /\
     Evictions (Stats_ E c') = Evictions (Stats_ E (Memory.NewMemoryCache cfg)) /\
     dom (Memory.data c')
       = dom (Memory.data (Memory.NewMemoryCache cfg))
         ∪ list_to_set ((distinct_writes 3).*1.*1.*1)) /\
  LRU.maxSize (LRU.NewLRUWithTTL 0 0) = 1000 /\
  LFU.maxSize (LFU.NewLFUWithTTL 0 0) = 1000 /\
  Evictions (Stats_ SimpleCache_Cache Simple.NewSimple) = 0.
Proof.
  intros cfg E.
  apply (nonpositive_capacity keyOrder 0 0 [] (Memory.NewMemoryCache cfg)
           (distinct_writes 3) Simple.NewSimple); simpl; lia.
Defined.

(** C6 fails on [LRUCache] and [LFUCache]: built with capacity 0, the cache
    holds 1000 keys after 1001 distinct insertions and has counted one
    eviction. *)
Lemma nonpositive_capacity_counterexample :
  NoDup ((distinct_writes 1001).*1.*1.*1) /\
  StatsAfter LRUCache_Cache [] (LRU.NewLRU 0) (distinct_writes 1001) = Some (1000, 1) /\
  StatsAfter (LFUCache_Cache keyOrder) [] (LFU.NewLFU 0) (distinct_writes 1001)
    = Some (1000, 1).
Proof.
  split; [|split].
  - apply NoDup_distinct_writes.
  - by apply (LRU_overflow 1000 0 0).
  - by apply (LFU_overflow keyOrder 1000 0 0).
Qed.

(** ** The frequency counter *)

Lemma LFU_evictLFU_lookup it c k x :
  LFU.items (LFU.evictLFU it c) !! k = Some x -> LFU.items c !! k = Some x.
Proof.
  unfold LFU.evictLFU. case_decide; [done|].
  destruct (LFU.evictLFU_scan _) as [[ek ?] ?]. case_decide; [|done].
  simpl. by intros [_ ?]%lookup_delete_Some.
Qed.

Lemma LFU_SetWithTTL_frequency it h c k v ttl now key item item' :
  LFU.items c !! key = Some item ->
  LFU.items (LFU.SetWithTTL it h c k v ttl now).1.2 !! key = Some item' ->
  LFU.frequency item' = LFU.frequency item.
Proof.
  intros Hi. unfold LFU.SetWithTTL.
  case_decide as Hk; [simpl; congruence|].
  destruct (LFU.closed c); [simpl; congruence|].
  unfold make. destruct (LFU.items c !! k) as [existing|] eqn:Hex; simpl.
  - destruct (decide (k = key)) as [->|Hne].
    + rewrite lookup_insert_eq. intros [= <-]. simpl. congruence.
    + rewrite lookup_insert_ne by done. congruence.
  - assert (k <> key) as Hne by congruence.
    rewrite lookup_insert_ne by done.
    destruct (_ <=? _); [|congruence].
    intros Hev%LFU_evictLFU_lookup. congruence.
Qed.

(** One call changes the frequency of a key that stays resident by
    nothing, or by one [atomic.AddInt64(&item.frequency, 1)]. *)
Lemma LFU_step_frequency it h c call h' c' key item item' :
  LFU_step it (h, c) call = (h', c') ->
  LFU.items c !! key = Some item -> LFU.items c' !! key = Some item' ->
  LFU.frequency item' = LFU.frequency item \/
  LFU.frequency item' = AddInt64 (LFU.frequency item) 1.
Proof.
  intros Hstep Hi Hi'. destruct call as [k now|k v now|k v ttl now|k| | |now]; simpl in Hstep.
  - (* Get *)
    unfold LFU.Get in Hstep. case_decide as Hk; [simplify_eq/=; left; congruence|].
    destruct (LFU.items c !! k) as [it0|] eqn:Hk0; [|simplify_eq/=; left; congruence].
    destruct (LFU.isExpired now it0).
    + simplify_eq/=. apply lookup_delete_Some in Hi' as [_ Hi']. left. congruence.
    + unfold make in Hstep. simplify_eq/=.
      destruct (decide (k = key)) as [->|Hne].
      * rewrite lookup_insert_eq in Hi'. simplify_eq/=. by right.
      * rewrite lookup_insert_ne in Hi' by done. left. congruence.
  - (* Set *)
    left. unfold LFU.Set_ in Hstep.
    eapply (LFU_SetWithTTL_frequency it h c k v (LFU.defaultTTL c) now); [done|].
    by rewrite Hstep.
  - (* SetWithTTL *)
    left. eapply (LFU_SetWithTTL_frequency it h c k v ttl now); [done|]. by rewrite Hstep.
  - (* Delete *)
    left. unfold LFU.Delete in Hstep. case_decide; [simplify_eq/=; congruence|].
    destruct (LFU.items c !! k); simplify_eq/=; [|congruence].
    apply lookup_delete_Some in Hi' as [_ Hi']. congruence.
  - (* Clear *)
    simplify_eq/=.
  - (* Close *)
    left. unfold LFU.Close in Hstep. destruct (LFU.closed c); simplify_eq/=; congruence.
  - (* sweep *)
    left. simplify_eq/=. rewrite LFUFacts.LFU_removeExpired_items in Hi'.
    apply map_lookup_filter_Some in Hi' as [Hi' _]. congruence.
Qed.

(** C7, as amended.  In [LFUCache] the frequency counter of a key never
    decreases while the key stays resident (short of the int64 overflow of
    the counter): every call leaves it unchanged or adds one; a successful
    [Get] adds exactly one; overwriting the key keeps the counter and
    replaces value, expiry and [lastAccess].  In [MemoryCache] a
    successful [Get] adds exactly one as well, but a write replaces the
    entry by a fresh one whose counter is 1. *)
Theorem frequency_monotone (it : MapIter) (h : heap) (c : LFU.LFUCache) (key : string)
    (item : LFU.lfuItem) (cm : Memory.MemoryCache) (itemM : Memory.Item) :
  LFU.items c !! key = Some item ->
  int64_range (LFU.frequency item) -> LFU.frequency item < max_int64 ->
  Memory.data cm !! key = Some itemM ->
  int64_range (Memory.AccessCount itemM) -> Memory.AccessCount itemM < max_int64 ->
  (forall call h' c' item',
     LFU_step it (h, c) call = (h', c') -> LFU.items c' !! key = Some item' ->
     LFU.frequency item <= LFU.frequency item') /\
  (forall now h' c' cached,
     LFU.Get h c key now = (h', c', (cached, true)) ->
     exists item', LFU.items c' !! key = Some item' /\
                   LFU.frequency item' = LFU.frequency item + 1) /\
  (forall v ttl now h' c',
     LFU.SetWithTTL it h c key v ttl now = (h', c', None) ->
     exists item', LFU.items c' !! key = Some item' /\
                   LFU.frequency item' = LFU.frequency item /\
                   LFU.lastAccess item' = now /\
                   LFU.expiresAt item' = deadline ttl (LFU.defaultTTL c) now /\
                   LFU.value item' = Slice (length h) 0 (slice_len v)) /\
  (forall now h' c' cached,
     Memory.Get h cm key now = (h', c', (cached, true)) ->
     exists item', Memory.data c' !! key = Some item' /\
                   Memory.AccessCount item' = Memory.AccessCount itemM + 1) /\
  (forall v ttl now h' c',
     Memory.SetWithTTL it h cm key v ttl now = (h', c', None) ->
     exists item', Memory.data c' !! key = Some item' /\ Memory.AccessCount item' = 1).
Proof.
  intros Hi Hrange Hmax Him Hrangem Hmaxm. split_and!.
  - intros call h' c' item' Hstep Hi'.
    destruct (LFU_step_frequency it h c call h' c' key item item' Hstep Hi Hi') as [->| ->].
    + lia.
    + rewrite AddInt64_succ by done. lia.
  - intros now h' c' cached. unfold LFU.Get. case_decide; [done|]. rewrite Hi.
    destruct (LFU.isExpired now item); [done|]. unfold make. intros [= <- <- <-].
    eexists. simpl. rewrite lookup_insert_eq. split; [done|]. simpl.
    by apply AddInt64_succ.
  - intros v ttl now h' c'. unfold LFU.SetWithTTL. case_decide; [done|].
    destruct (LFU.closed c); [done|]. unfold make. rewrite Hi. intros [= <- <-].
    eexists. simpl. rewrite lookup_insert_eq. by split_and!.
  - intros now h' c' cached. unfold Memory.Get. rewrite Him.
    destruct (Memory.IsExpired now itemM) eqn:He; [simpl; congruence|].
    cbv beta iota zeta delta [negb]. rewrite Him, He. unfold make. intros [= <- <- <-].
    eexists. simpl. rewrite lookup_insert_eq. split; [done|]. simpl.
    by apply AddInt64_succ.
  - intros v ttl now h' c'. unfold Memory.SetWithTTL, make. intros [= <- <-].
    eexists. simpl. rewrite lookup_insert_eq. by split.
Qed.

Lemma frequency_monotone_witness :
  let item := {| LFU.key := "a"; LFU.value := Slice 0 0 0; LFU.expiresAt := 0;
                 LFU.frequency := 1; LFU.lastAccess := 1000 |} in
  let itemM := {| Memory.Value := Slice 0 0 0; Memory.ExpiresAt := far_deadline 0 0 1000;
                  Memory.LastAccess := 1000; Memory.AccessCount := 1;
                  Memory.CreatedAt := 1000 |} in
  (forall call h' c' item',
     LFU_step keyOrder ([], lfu_ab) call = (h', c') ->
     LFU.items c' !! "a"%string = Some item' ->
     LFU.frequency item <= LFU.frequency item') /\
  (forall now h' c' cached,
     LFU.Get [] lfu_ab "a" now = (h', c', (cached, true)) ->
     exists item', LFU.items c' !! "a"%string = Some item' /\
                   LFU.frequency item' = LFU.frequency item + 1) /\
  (forall v ttl now h' c',
     LFU.SetWithTTL keyOrder [] lfu_ab "a" v ttl now = (h', c', None) ->
     exists item', LFU.items c' !! "a"%string = Some item' /\
                   LFU.frequency item' = LFU.frequency item /\
                   LFU.lastAccess item' = now /\
                   LFU.expiresAt item' = deadline ttl (LFU.defaultTTL lfu_ab) now /\
                   LFU.value item' = Slice (length ([] : list (list byte))) 0 (slice_len v)) /\
  (forall now h' c' cached,
     Memory.Get [] memory_ab "a" now = (h', c', (cached, true)) ->
     exists item', Memory.data c' !! "a"%string = Some item' /\
                   Memory.AccessCount item' = Memory.AccessCount itemM + 1) /\
  (forall v ttl now h' c',
     Memory.SetWithTTL keyOrder [] memory_ab "a" v ttl now = (h', c', None) ->
     exists item', Memory.data c' !! "a"%string = Some item' /\
                   Memory.AccessCount item' = 1).
Proof.
  intros item itemM.
  apply (frequency_monotone keyOrder [] lfu_ab "a" item memory_ab itemM).
  - reflexivity.
  - unfold int64_range, min_int64, max_int64. simpl. lia.
  - unfold max_int64. simpl. lia.
  - reflexivity.
  - unfold int64_range, min_int64, max_int64. simpl. lia.
  - unfold max_int64. simpl. lia.
Defined.

(** C7 fails on [MemoryCache]: the counter of "k" is 2 after one read, and
    back to 1 after the key is overwritten. *)
Lemma frequency_reset_MemoryCache_counterexample :
  let E := MemoryCache_Cache keyOrder in
  exists h1 c1 h2 c2 cached h3 c3 item2 item3,
    Set_ E [] (Memory.NewMemoryCache DefaultConfig) "k" nil_slice 1000 = Some (h1, c1, None) /\
    Get E h1 c1 "k" 2000 = Some (h2, c2, (cached, true)) /\
    Memory.data c2 !! "k"%string = Some item2 /\ Memory.AccessCount item2 = 2 /\
    Set_ E h2 c2 "k" nil_slice 3000 = Some (h3, c3, None) /\
    Memory.data c3 !! "k"%string = Some item3 /\ Memory.AccessCount item3 = 1.
Proof.
  eexists _, _, _, _, _, _, _, _, _.
  split; [reflexivity|]. split; [vm_compute; reflexivity|].
  split; [vm_compute; reflexivity|]. split; [reflexivity|].
  split; [reflexivity|]. split; [vm_compute; reflexivity|]. reflexivity.
Qed.

(** ** The LRU order *)

Section memory_lru_order.
Implicit Types (h : heap) (c : Memory.MemoryCache) (it : MapIter) (cfg : Config)
  (m : gmap string Memory.Item).






End memory_lru_order.






(** The clock hypothesis of the [MemoryCache] half is used: when every call
    of the scenario reads the same instant, all [LastAccess] stamps are
    equal, [evictLRU] settles on the first entry of the iteration, and
    under [keyOrder] that entry is C. *)
Remark Memory_LRUOrder_stalled_clock :
  let cfg := {| MaxSize := 3; DefaultTTL := 5 * Minute; CleanupInterval := 0;
                EvictionPolicy_ := LRU |} in
  LRUOrder (MemoryCache_Cache keyOrder) [] (Memory.NewMemoryCache cfg)
    nil_slice nil_slice nil_slice nil_slice (fun _ => 1000)
  = Some (true, true, false, true, 1, 3).
Proof. vm_compute. reflexivity. Qed.

(** ** The sweep *)

Lemma lru_ttl_wf : LRUInv.wf lru_ttl.
Proof.
  destruct (LRU_SetWithTTL_succeeds [] (LRU.NewLRU 3) "ttl_key" nil_slice
              (100 * Millisecond) 1000) as (h' & c' & Heq & Hwf); try done.
  - eexists. apply LRUFacts.NewLRUWithTTL_repr.
  - unfold lru_ttl, stored. cbn [SetWithTTL LRUCache_Cache]. by rewrite Heq.
Qed.

Lemma lru_swept_wf : LRUInv.wf lru_swept.
Proof.
  destruct (LRU_SetWithTTL_succeeds [] (LRU.NewLRUWithTTL 3 (1 * Minute)) "ttl_key"
              nil_slice (100 * Millisecond) 1000) as (h' & c' & Heq & Hwf); try done.
  - eexists. apply LRUFacts.NewLRUWithTTL_repr.
  - unfold lru_swept, stored. cbn [SetWithTTL LRUCache_Cache]. by rewrite Heq.
Qed.

(** C9, as amended.  One pass of the sweep deletes exactly the entries
    that are expired at the moment of the pass and keeps every other entry
    as it was.  [LRUCache] (on a well-formed list, where the pass does not
    panic and leaves a well-formed list), [LFUCache] and [MemoryCache] add
    the number of entries deleted to their evictions counter.  [SimpleCache]
    has no such counter: its [Stats] report 0 evictions after the pass. *)
Theorem sweep_deletes_expired (it : MapIter) (now : Time) (cs : Simple.SimpleCache)
    (cl : LRU.LRUCache) (cf : LFU.LFUCache) (cm : Memory.MemoryCache) :
  LRUInv.wf cl ->
  int64_range (LRU.evictions cl) -> int64_range (LFU.evictions cf) ->
  int64_range (Memory.evictions cm) ->
  (let c' := Simple.removeExpired it cs now in
   Simple.items c'
     = filter (fun e => Simple.isExpired now e.2 = false) (Simple.items cs) /\
   Evictions (Stats_ SimpleCache_Cache c') = 0) /\
  (exists c',
     LRU.removeExpired it cl now = Some c' /\ LRUInv.wf c' /\
     LRU.items c'
       = filter (fun e => LRUInv.expired_at cl now e.2 = false) (LRU.items cl) /\
     LRUInv.same_payload (LRU.nodes cl) (LRU.nodes c') /\
     Evictions (Stats_ LRUCache_Cache c')
       = AddInt64 (Evictions (Stats_ LRUCache_Cache cl))
           (Z.of_nat (size (LRU.items cl) - size (LRU.items c')))) /\
  (let c' := LFU.removeExpired it cf now in
   LFU.items c' = filter (fun e => LFU.isExpired now e.2 = false) (LFU.items cf) /\
   Evictions (Stats_ (LFUCache_Cache it) c')
     = AddInt64 (Evictions (Stats_ (LFUCache_Cache it) cf))
         (Z.of_nat (size (LFU.items cf) - size (LFU.items c')))) /\
  (let c' := Memory.removeExpired it cm now in
   Memory.data c' = filter (fun e => Memory.IsExpired now e.2 = false) (Memory.data cm) /\
   Evictions (Stats_ (MemoryCache_Cache it) c')
     = AddInt64 (Evictions (Stats_ (MemoryCache_Cache it) cm))
         (Z.of_nat (size (Memory.data cm) - size (Memory.data c')))).
Proof.
  intros [l Hr] Hl Hf Hm.
  assert (forall s, Evictions (CalculateHitRate s) = Evictions s) as Hstats
    by (intros s; apply CalculateHitRate_counters).
  split; [|split; [|split]].
  - split; [apply SimpleFacts.Simple_removeExpired_items|].
    cbn [Stats_ SimpleCache_Cache]. unfold Simple.Stats_. by rewrite Hstats.
  - destruct (LRUFacts.LRU_removeExpired_repr it cl l now Hr)
      as (c' & l' & Heq & Hr' & Hitems & Hsp & Hev & _).
    exists c'. split; [done|]. split; [by exists l'|]. split; [done|]. split; [done|].
    cbn [Stats_ LRUCache_Cache]. unfold LRU.Stats_. rewrite !Hstats. cbn [Evictions].
    cbv zeta in Hev. rewrite Hev. by apply AddInt64_guarded.
  - split; [apply LFUFacts.LFU_removeExpired_items|].
    cbn [Stats_ LFUCache_Cache]. unfold LFU.Stats_. rewrite !Hstats. cbn [Evictions].
    pose proof (LFUFacts.LFU_removeExpired_evictions it cf now) as Hev.
    cbv zeta in Hev. rewrite Hev. by apply AddInt64_guarded.
  - split; [apply MemoryFacts.Memory_removeExpired_data|].
    cbn [Stats_ MemoryCache_Cache]. unfold Memory.Stats_. rewrite !Hstats. cbn [Evictions].
    pose proof (MemoryFacts.Memory_removeExpired_evictions it cm now) as Hev.
    cbv zeta in Hev. rewrite Hev. by apply AddInt64_guarded.
Qed.

Lemma sweep_deletes_expired_witness :
  let now := 1000 + 150 * Millisecond in
  (LRUInv.wf lru_swept /\ int64_range (LRU.evictions lru_swept) /\
   int64_range (LFU.evictions lfu_swept) /\ int64_range (Memory.evictions memory_ttl)) /\
  (let c' := Simple.removeExpired keyOrder simple_swept now in
   Simple.items c'
     = filter (fun e => Simple.isExpired now e.2 = false) (Simple.items simple_swept) /\
   Evictions (Stats_ SimpleCache_Cache c') = 0) /\
  (exists c',
     LRU.removeExpired keyOrder lru_swept now = Some c' /\ LRUInv.wf c' /\
     LRU.items c'
       = filter (fun e => LRUInv.expired_at lru_swept now e.2 = false) (LRU.items lru_swept) /\
     LRUInv.same_payload (LRU.nodes lru_swept) (LRU.nodes c') /\
     Evictions (Stats_ LRUCache_Cache c')
       = AddInt64 (Evictions (Stats_ LRUCache_Cache lru_swept))
           (Z.of_nat (size (LRU.items lru_swept) - size (LRU.items c')))) /\
  (let c' := LFU.removeExpired keyOrder lfu_swept now in
   LFU.items c' = filter (fun e => LFU.isExpired now e.2 = false) (LFU.items lfu_swept) /\
   Evictions (Stats_ (LFUCache_Cache keyOrder) c')
     = AddInt64 (Evictions (Stats_ (LFUCache_Cache keyOrder) lfu_swept))
         (Z.of_nat (size (LFU.items lfu_swept) - size (LFU.items c')))) /\
  (let c' := Memory.removeExpired keyOrder memory_ttl now in
   Memory.data c'
     = filter (fun e => Memory.IsExpired now e.2 = false) (Memory.data memory_ttl) /\
   Evictions (Stats_ (MemoryCache_Cache keyOrder) c')
     = AddInt64 (Evictions (Stats_ (MemoryCache_Cache keyOrder) memory_ttl))
         (Z.of_nat (size (Memory.data memory_ttl) - size (Memory.data c')))).
Proof.
  assert (int64_range 0) as H0 by (unfold int64_range, min_int64, max_int64; lia).
  split; [split; [exact lru_swept_wf|by repeat split]|].
  exact (sweep_deletes_expired keyOrder (1000 + 150 * Millisecond) simple_swept lru_swept
           lfu_swept memory_ttl lru_swept_wf H0 H0 H0).
Defined.

(** The pass on the four swept caches that hold the expired "ttl_key": the key is
    gone from each, and the evictions reported are 1 except for
    [SimpleCache]. *)
Example sweep_ttl_key :
  let now := 1000 + 150 * Millisecond in
  let report {T} (E : Cache T) (c : option T) :=
    c ← c; Some (Keys (Stats_ E c), Evictions (Stats_ E c)) in
  report SimpleCache_Cache (Some (Simple.removeExpired keyOrder simple_swept now))
    = Some (0, 0) /\
  report LRUCache_Cache (LRU.removeExpired keyOrder lru_swept now) = Some (0, 1) /\
  report (LFUCache_Cache keyOrder) (Some (LFU.removeExpired keyOrder lfu_swept now))
    = Some (0, 1) /\
  report (MemoryCache_Cache keyOrder) (Some (Memory.removeExpired keyOrder memory_ttl now))
    = Some (0, 1).
Proof. vm_compute. done. Qed.

(** C9 fails on [SimpleCache].  [simple_swept] is built by
    [NewSimpleWithTTL] with a default TTL of one minute, so its [cleanup]
    goroutine runs; the pass deletes the one expired entry and the
    evictions reported stay 0. *)
Lemma sweep_evictions_SimpleCache_counterexample :
  let E := SimpleCache_Cache in
  let c' := Simple.removeExpired keyOrder simple_swept (1000 + 150 * Millisecond) in
  0 < Simple.defaultTTL simple_swept /\
  size (Simple.items simple_swept) = 1%nat /\ size (Simple.items c') = 0%nat /\
  Evictions (Stats_ E simple_swept) = 0 /\ Evictions (Stats_ E c') = 0 /\
  Evictions (Stats_ E c') <> Evictions (Stats_ E simple_swept) + 1.
Proof. vm_compute. repeat split; done. Qed.

(** ** The hit rate *)

Lemma HitRateSpec_CalculateHitRate (hits misses keys evictions : Z) :
  int64_range (hits + misses) ->
  HitRateSpec hits misses
    (CalculateHitRate {| Hits := hits; Misses := misses; Keys := keys;
                         Evictions := evictions; HitRate := 0%float |}).
Proof.
  intros Hr. set (s := Build_Stats _ _ _ _ _).
  pose proof (CalculateHitRate_counters s) as (Hh & Hm & _).
  split; [done|]. split; [done|]. rewrite (CalculateHitRate_rate s Hr). cbn [Hits Misses s].
  split.
  - intros Hpos. by rewrite (proj2 (Z.ltb_lt _ _) Hpos).
  - intros Hz. by rewrite Hz.
Qed.

(** C10.  For every engine, as long as the sum of the two counters is an
    int64 (it has not wrapped around), [Stats] reports the hit and miss
    counters and a hit rate of [hits / (hits + misses) * 100], computed in
    float64, when [hits + misses > 0], and a hit rate of exactly 0 when
    both counters are 0. *)
Theorem hit_rate (it : MapIter) (cs : Simple.SimpleCache) (cl : LRU.LRUCache)
    (cf : LFU.LFUCache) (cm : Memory.MemoryCache) :
  int64_range (Simple.hits cs + Simple.misses cs) ->
  int64_range (LRU.hits cl + LRU.misses cl) ->
  int64_range (LFU.hits cf + LFU.misses cf) ->
  int64_range (Memory.hits cm + Memory.misses cm) ->
  HitRateSpec (Simple.hits cs) (Simple.misses cs) (Stats_ SimpleCache_Cache cs) /\
  HitRateSpec (LRU.hits cl) (LRU.misses cl) (Stats_ LRUCache_Cache cl) /\
  HitRateSpec (LFU.hits cf) (LFU.misses cf) (Stats_ (LFUCache_Cache it) cf) /\
  HitRateSpec (Memory.hits cm) (Memory.misses cm) (Stats_ (MemoryCache_Cache it) cm).
Proof.
  intros Hs Hl Hf Hm. split_and!.
  - cbn [Stats_ SimpleCache_Cache]. by apply HitRateSpec_CalculateHitRate.
  - cbn [Stats_ LRUCache_Cache]. by apply HitRateSpec_CalculateHitRate.
  - cbn [Stats_ LFUCache_Cache]. by apply HitRateSpec_CalculateHitRate.
  - cbn [Stats_ MemoryCache_Cache]. by apply HitRateSpec_CalculateHitRate.
Qed.

Lemma hit_rate_witness :
  let cs := Simple.add_miss (Simple.add_hit Simple.NewSimple) in
  let cl := LRU.add_miss (LRU.add_hit (LRU.NewLRU 3)) in
  let cf := LFU.add_miss (LFU.add_hit (LFU.NewLFU 3)) in
  let cm := Memory.add_miss (Memory.add_hit (Memory.NewMemoryCache DefaultConfig)) in
  (int64_range (Simple.hits cs + Simple.misses cs) /\
   int64_range (LRU.hits cl + LRU.misses cl) /\
   int64_range (LFU.hits cf + LFU.misses cf) /\
   int64_range (Memory.hits cm + Memory.misses cm)) /\
  HitRateSpec 1 1 (Stats_ SimpleCache_Cache cs) /\
  HitRateSpec 1 1 (Stats_ LRUCache_Cache cl) /\
  HitRateSpec 1 1 (Stats_ (LFUCache_Cache keyOrder) cf) /\
  HitRateSpec 1 1 (Stats_ (MemoryCache_Cache keyOrder) cm).
Proof.
  assert (int64_range 2) as H2 by (unfold int64_range, min_int64, max_int64; lia).
  split; [by repeat split|].
  exact (hit_rate keyOrder
           (Simple.add_miss (Simple.add_hit Simple.NewSimple))
           (LRU.add_miss (LRU.add_hit (LRU.NewLRU 3)))
           (LFU.add_miss (LFU.add_hit (LFU.NewLFU 3)))
           (Memory.add_miss (Memory.add_hit (Memory.NewMemoryCache DefaultConfig)))
           H2 H2 H2 H2).
Defined.

(** The figures of the test [TestStats]: one hit and one miss give a hit
    rate of 50, in every engine; a new cache reports 0. *)
Example hit_rate_fifty :
  HitRate (Stats_ SimpleCache_Cache (Simple.add_miss (Simple.add_hit Simple.NewSimple)))
    = 50%float /\
  HitRate (Stats_ LRUCache_Cache (LRU.add_miss (LRU.add_hit (LRU.NewLRU 3)))) = 50%float /\
  HitRate (Stats_ (LFUCache_Cache keyOrder) (LFU.add_miss (LFU.add_hit (LFU.NewLFU 3))))
    = 50%float /\
  HitRate (Stats_ (MemoryCache_Cache keyOrder)
             (Memory.add_miss (Memory.add_hit (Memory.NewMemoryCache DefaultConfig))))
    = 50%float /\
  HitRate (Stats_ SimpleCache_Cache Simple.NewSimple) = 0%float /\
  HitRate (Stats_ LRUCache_Cache (LRU.NewLRU 3)) = 0%float /\
  HitRate (Stats_ (LFUCache_Cache keyOrder) (LFU.NewLFU 3)) = 0%float /\
  HitRate (Stats_ (MemoryCache_Cache keyOrder) (Memory.NewMemoryCache DefaultConfig))
    = 0%float.
Proof. vm_compute. done. Qed.

(** * The recency list of [LRUCache] ([memory/lru.go]) *)

Section lru_recency.
Import LRU LRUInv LRUFacts LRUList.
Implicit Types (c : LRUCache) (l : list nat) (ns : list lruItem) (k : string).

Lemma walk_linked ns t l : forall a fuel,
  linked ns (a :: l ++ [t]) -> NoDup (a :: l ++ [t]) -> (length l <= fuel)%nat ->
  walk ns (Some t) fuel (next_of ns a) = omap (key_of ns) l.
Proof.
  induction l as [|b l IH]; intros a fuel Hl Hnd Hfuel.
  - destruct Hl as (Hn & _). rewrite Hn. destruct fuel; [done|]. simpl.
    by rewrite decide_True.
  - change ((b :: l) ++ [t]) with (b :: l ++ [t]) in *.
    apply linked_cons2 in Hl as (Hn & Hp & Hl).
    destruct fuel as [|fuel]; [simpl in Hfuel; lia|].
    rewrite Hn. cbn [walk].
    apply NoDup_cons in Hnd as [_ Hnd].
    rewrite decide_False.
    2:{ intros [= ->]. apply NoDup_cons in Hnd as [Hb _]. set_solver. }
    cbn [mbind option_bind]. unfold prev_of in Hp.
    destruct (ns !! b) as [n|] eqn:Hb; [|done].
    cbn [omap list_omap]. unfold key_of at 1. rewrite Hb. cbn [fmap option_fmap option_map].
    f_equal. replace (next n) with (next_of ns b) by (unfold next_of; by rewrite Hb).
    apply IH; [done|done|simpl in Hfuel; lia].
Qed.

Lemma repr_length c l : repr c l -> (length l + 2 <= length (nodes c))%nat.
Proof.
  intros Hr.
  assert (0%nat :: l ++ [1%nat] ⊆+ seq 0 (length (nodes c))) as Hsub.
  { apply NoDup_submseteq; [apply Hr|]. intros a Ha. apply elem_of_seq.
    destruct (repr_allocated _ _ _ Hr Ha) as [n Hn]. apply lookup_lt_Some in Hn. lia. }
  apply submseteq_length in Hsub. rewrite length_seq in Hsub. simpl in Hsub.
  rewrite length_app in Hsub. simpl in Hsub. lia.
Qed.

(** On a well-formed cache the walk reads the keys of the list. *)
Lemma recency_repr c l : repr c l -> recency c = omap (key_of (nodes c)) l.
Proof.
  intros Hr. unfold recency. rewrite (repr_head _ _ Hr), load_Some.
  destruct (repr_allocated c l 0%nat Hr) as [hd Hhd]; [set_solver|]. rewrite Hhd.
  rewrite (repr_tail _ _ Hr).
  replace (next hd) with (next_of (nodes c) 0%nat) by (unfold next_of; by rewrite Hhd).
  apply walk_linked; [apply Hr|apply Hr|]. pose proof (repr_length c l Hr). lia.
Qed.

Lemma keys_resident c l k :
  repr c l -> k ∈ omap (key_of (nodes c)) l <-> is_Some (items c !! k).
Proof.
  intros Hr. rewrite list_elem_of_omap. split.
  - intros (a & Ha & Hk). exists a. by apply (repr_items _ _ Hr).
  - intros [a Ha]. exists a. by apply (repr_items _ _ Hr).
Qed.

Lemma keys_NoDup c l : repr c l -> NoDup (omap (key_of (nodes c)) l).
Proof.
  intros Hr.
  assert (NoDup l) as Hnd.
  { pose proof (repr_nodup _ _ Hr) as H. apply NoDup_cons in H as [_ H].
    by apply NoDup_app in H as [H _]. }
  assert (forall a b k, a ∈ l -> b ∈ l -> key_of (nodes c) a = Some k ->
                        key_of (nodes c) b = Some k -> a = b) as Hinj.
  { intros a b k Ha Hb Hka Hkb.
    assert (items c !! k = Some a) as H1 by (by apply (repr_items _ _ Hr)).
    assert (items c !! k = Some b) as H2 by (by apply (repr_items _ _ Hr)).
    congruence. }
  clear Hr. induction l as [|a l IH]; [constructor|].
  apply NoDup_cons in Hnd as [Ha Hnd]. cbn [omap list_omap].
  destruct (key_of (nodes c) a) as [k|] eqn:Hk.
  - apply NoDup_cons. split.
    + intros (b & Hb & Hkb)%list_elem_of_omap.
      assert (a = b) by (apply (Hinj a b k); set_solver). set_solver.
    + apply IH; [done|]. intros x y k' Hx Hy. apply Hinj; set_solver.
  - apply IH; [done|]. intros x y k' Hx Hy. apply Hinj; set_solver.
Qed.

Lemma omap_key_ext ns ns' l :
  (forall a, a ∈ l -> key_of ns' a = key_of ns a) ->
  omap (key_of ns') l = omap (key_of ns) l.
Proof.
  induction l as [|a l IH]; intros Hext; [done|]. cbn [omap list_omap].
  rewrite (Hext a) by set_solver. rewrite IH by (intros; apply Hext; set_solver). done.
Qed.

Lemma omap_key_payload ns ns' l :
  same_payload ns ns' -> omap (key_of ns') l = omap (key_of ns) l.
Proof. intros Hsp. apply omap_key_ext. intros a _. by apply same_payload_key. Qed.

Lemma filter_ne_absent (L : list string) k : k ∉ L -> filter (fun x => x <> k) L = L.
Proof.
  induction L as [|x L IH]; intros Hk; [done|].
  rewrite filter_cons_True by set_solver. rewrite IH by set_solver. done.
Qed.

Lemma filter_ne_middle (L1 L2 : list string) k :
  NoDup (L1 ++ k :: L2) -> filter (fun x => x <> k) (L1 ++ k :: L2) = L1 ++ L2.
Proof.
  intros Hnd. apply NoDup_app in Hnd as (_ & Hdisj & [Hk _]%NoDup_cons).
  rewrite filter_app, filter_cons_False by (by intros ?).
  rewrite !filter_ne_absent; [done|done|]. intros Hin. by apply (Hdisj k Hin), list_elem_of_here.
Qed.

(** The keys of a list split at the node of [k]. *)
Lemma keys_split c l1 a l2 k :
  repr c (l1 ++ a :: l2) -> key_of (nodes c) a = Some k ->
  recency c = omap (key_of (nodes c)) l1 ++ k :: omap (key_of (nodes c)) l2 /\
  filter (fun x => x <> k) (recency c)
  = omap (key_of (nodes c)) l1 ++ omap (key_of (nodes c)) l2.
Proof.
  intros Hr Hk. pose proof (keys_NoDup _ _ Hr) as Hnd.
  rewrite (recency_repr _ _ Hr). rewrite omap_app in Hnd |- *.
  cbn [omap list_omap] in Hnd |- *. rewrite Hk in Hnd |- *.
  split; [done|]. by apply filter_ne_middle.
Qed.

Lemma repr_key_of c l k a :
  repr c l -> items c !! k = Some a -> a ∈ l /\ key_of (nodes c) a = Some k.
Proof. intros Hr Hk. by apply (repr_items _ _ Hr). Qed.

(** A read of a live entry, whatever the heap. *)
Lemma Get_live_order h c l k s now :
  repr c l -> live c k now s ->
  exists h' ns' s',
    Get h c k now = Some (h', add_hit (with_nodes ns' c), (s', true)) /\
    (exists l', repr (add_hit (with_nodes ns' c)) l') /\
    same_payload (nodes c) ns' /\
    recency (add_hit (with_nodes ns' c)) = k :: filter (fun x => x <> k) (recency c).
Proof.
  intros Hr (Hk & a & it & Hka & Hit & _ & Hexp).
  destruct (repr_key_of _ _ _ _ Hr Hka) as [Ha Hkey].
  apply list_elem_of_split in Ha as (l1 & l2 & ->).
  destruct (moveToHead_repr c l1 a l2 Hr) as (ns' & Hmv & Hr' & Hsp & Hlen).
  assert (repr (add_hit (with_nodes ns' c)) (a :: l1 ++ l2)) as Hr''
    by (by eapply repr_counters).
  assert (exists h' s', Get h c k now = Some (h', add_hit (with_nodes ns' c), (s', true)))
    as (h' & s' & Hget).
  { unfold Get. rewrite decide_False by done. rewrite Hka. cbv zeta.
    rewrite load_Some, Hit, bind_Some, Hexp, Hmv, bind_Some, load_Some.
    cbn [nodes add_hit with_nodes].
    pose proof (Hsp a) as Hpa. rewrite Hit in Hpa.
    destruct (ns' !! a) as [it'|]; [|done]. rewrite bind_Some. unfold make. eauto. }
  exists h', ns', s'. split_and!; [done|by eexists|done|].
  rewrite (recency_repr _ _ Hr''). cbn [nodes add_hit with_nodes].
  rewrite (omap_key_payload _ _ _ Hsp).
  destruct (keys_split c l1 a l2 k Hr Hkey) as [_ ->].
  cbn [omap list_omap]. rewrite Hkey. by rewrite omap_app.
Qed.

(** A write to a resident key. *)
Lemma Set_existing_order h c l k a v ttl now :
  repr c l -> k <> ""%string -> closed c = false ->
  items c !! k = Some a -> slice_valid h v ->
  exists ns',
    SetWithTTL h c k v ttl now = Some (h ++ [slice_bytes h v], with_nodes ns' c, None) /\
    (exists l', repr (with_nodes ns' c) l') /\
    recency (with_nodes ns' c) = k :: filter (fun x => x <> k) (recency c) /\
    entry (with_nodes ns' c) k
    = Some (Slice (length h) 0 (slice_len v), deadline ttl (defaultTTL c) now) /\
    (forall k', k' <> k -> entry (with_nodes ns' c) k' = entry c k').
Proof.
  intros Hr Hk Hopen Hka Hv.
  destruct (repr_key_of _ _ _ _ Hr Hka) as [Ha Hkey].
  apply list_elem_of_split in Ha as (l1 & l2 & ->).
  set (e := deadline ttl (defaultTTL c) now).
  set (vc := Slice (length h) 0 (slice_len v)).
  pose proof (repr_with_value c _ a vc e Hr) as Hr1.
  destruct (moveToHead_repr _ l1 a l2 Hr1) as (ns' & Hmv & Hr' & Hsp & Hlen).
  rewrite with_nodes_twice in Hr'. cbn [nodes with_nodes] in Hsp.
  destruct (repr_allocated' c _ a Hr) as [it Hit]; [set_solver|].
  exists ns'. split_and!.
  - unfold SetWithTTL. rewrite decide_False by done. rewrite Hopen.
    unfold make. rewrite make_copy' by done. rewrite Hka.
    erewrite store_nodes by done. simpl.
    unfold vc, e, deadline in Hmv |- *. by rewrite Hmv.
  - by eexists.
  - rewrite (recency_repr _ _ Hr'). cbn [nodes with_nodes] in *.
    rewrite (omap_key_payload _ _ _ Hsp).
    assert (forall b, key_of (alter (with_value vc e) a (nodes c)) b = key_of (nodes c) b)
      as Hkeys.
    { intros b. unfold key_of. destruct (decide (a = b)) as [->|Hne].
      - rewrite list_lookup_alter_eq. by destruct (nodes c !! b).
      - by rewrite list_lookup_alter_ne. }
    rewrite (omap_key_ext (nodes c)) by (intros; apply Hkeys).
    destruct (keys_split c l1 a l2 k Hr Hkey) as [_ ->].
    cbn [omap list_omap]. rewrite Hkey. by rewrite omap_app.
  - unfold entry. cbn [items nodes with_nodes]. rewrite Hka, bind_Some.
    pose proof (Hsp a) as Hpa. rewrite list_lookup_alter_eq, Hit in Hpa.
    destruct (ns' !! a) as [it'|]; [|done]. simpl in Hpa |- *.
    unfold payload in Hpa. simpl in Hpa. congruence.
  - intros k' Hne. unfold entry. cbn [items nodes with_nodes].
    destruct (items c !! k') as [b|] eqn:Hkb; [|done]. rewrite !bind_Some.
    assert (b <> a).
    { intros ->. destruct (repr_key_of _ _ _ _ Hr Hkb) as [_ Hkb']. congruence. }
    pose proof (Hsp b) as Hpb. rewrite list_lookup_alter_ne in Hpb by done.
    destruct (nodes c !! b) as [n|], (ns' !! b) as [n'|]; try done.
    simpl in Hpb |- *. unfold payload in Hpb. congruence.
Qed.

(** Unlinking the node of a resident key. *)
Lemma removeItem_order c l k a :
  repr c l -> items c !! k = Some a ->
  exists ns',
    removeItem c (Some a) = Some (with_nodes ns' (with_items (delete k (items c)) c)) /\
    (exists l', repr (with_nodes ns' (with_items (delete k (items c)) c)) l') /\
    same_payload (nodes c) ns' /\
    recency (with_nodes ns' (with_items (delete k (items c)) c))
    = filter (fun x => x <> k) (recency c).
Proof.
  intros Hr Hka. destruct (repr_key_of _ _ _ _ Hr Hka) as [Ha Hkey].
  apply list_elem_of_split in Ha as (l1 & l2 & ->).
  destruct (removeItem_repr c l1 a l2 k Hr Hkey) as (ns' & Hrm & Hr' & Hsp & Hlen).
  exists ns'. split_and!; [done|by eexists|done|].
  rewrite (recency_repr _ _ Hr'). cbn [nodes with_nodes with_items].
  rewrite (omap_key_payload _ _ _ Hsp).
  destruct (keys_split c l1 a l2 k Hr Hkey) as [_ ->]. by rewrite omap_app.
Qed.

Lemma entry_delete c ns' k k' :
  same_payload (nodes c) ns' ->
  entry (with_nodes ns' (with_items (delete k (items c)) c)) k'
  = if decide (k' = k) then None else entry c k'.
Proof.
  intros Hsp. unfold entry. cbn [items nodes with_nodes with_items].
  destruct (decide (k' = k)) as [->|Hne].
  - by rewrite lookup_delete_eq.
  - rewrite lookup_delete_ne by done. destruct (items c !! k') as [b|]; [|done].
    rewrite !bind_Some. pose proof (Hsp b) as Hpb.
    destruct (nodes c !! b) as [n|], (ns' !! b) as [n'|]; try done.
    simpl in Hpb |- *. unfold payload in Hpb. congruence.
Qed.

(** A write under a new key: the key enters at the front; at capacity the
    last key of the list leaves. *)
Lemma Set_new_order h c l k v ttl now :
  repr c l -> k <> ""%string -> closed c = false -> 0 < maxSize c ->
  items c !! k = None -> slice_valid h v ->
  exists c',
    SetWithTTL h c k v ttl now = Some (h ++ [slice_bytes h v], c', None) /\
    (exists l', repr c' l') /\
    entry c' k = Some (Slice (length h) 0 (slice_len v), deadline ttl (defaultTTL c) now) /\
    ((Z.of_nat (size (items c)) < maxSize c /\
      recency c' = k :: recency c /\ evictions c' = evictions c /\
      forall k', k' <> k -> entry c' k' = entry c k') \/
     (maxSize c <= Z.of_nat (size (items c)) /\
      exists victim,
        last (recency c) = Some victim /\
        recency c' = k :: removelast (recency c) /\
        evictions c' = AddInt64 (evictions c) 1 /\
        entry c' victim = None /\
        forall k', k' <> k -> k' <> victim -> entry c' k' = entry c k')).
Proof.
  intros Hr Hk Hopen Hpos Hnew Hv.
  destruct (LRU_SetWithTTL_new h c l k v ttl now Hr Hk Hopen Hnew Hv)
    as (c' & l' & Heq & Hr' & Hsp & Hins).
  set (newItem := {| key := k; value := Slice (length h) 0 (slice_len v);
                     expiresAt := deadline ttl (defaultTTL c) now;
                     prev := None; next := None |}) in *.
  set (a := length (nodes c)) in *.
  assert (key_of (nodes c') a = Some k) as Hka.
  { rewrite (same_payload_key _ _ a Hsp). unfold key_of, a.
    by rewrite list_lookup_middle. }
  assert (forall b, is_Some (nodes c !! b) -> payload <$> nodes c' !! b = payload <$> nodes c !! b)
    as Hold.
  { intros b Hb. rewrite <- (Hsp b). by rewrite lookup_app_l by (by apply lookup_lt_is_Some_1). }
  assert (forall b, b ∈ l -> key_of (nodes c') b = key_of (nodes c) b) as Hkeys.
  { intros b Hb. unfold key_of.
    pose proof (Hold b (repr_allocated' _ _ _ Hr Hb)) as Hp.
    destruct (nodes c' !! b) as [n'|], (nodes c !! b) as [n|]; try done.
    simpl in *. unfold payload in Hp. congruence. }
  assert (forall k' b, items c !! k' = Some b ->
            (n ← nodes c' !! b; Some (value n, expiresAt n))
            = (n ← nodes c !! b; Some (value n, expiresAt n))) as Hentry.
  { intros k' b Hkb. destruct (repr_key_of _ _ _ _ Hr Hkb) as [Hb _].
    pose proof (Hold b (repr_allocated' _ _ _ Hr Hb)) as Hp.
    destruct (nodes c' !! b) as [n'|], (nodes c !! b) as [n|]; try done.
    simpl in *. unfold payload in Hp. congruence. }
  assert (entry c' k = Some (value newItem, expiresAt newItem)) as Hek.
  { unfold entry. rewrite (LRULive.inserted_items _ _ _ _ _ _ Hins), bind_Some.
    pose proof (Hsp a) as Hpa. unfold a in Hpa at 1. rewrite list_lookup_middle in Hpa by done.
    destruct (nodes c' !! a) as [n'|]; [|done]. unfold payload, newItem in Hpa |- *.
    simpl in Hpa |- *. congruence. }
  exists c'. split; [done|]. split; [by eexists|]. split; [done|].
  destruct Hins as [(Hroom & Hc' & ->)|(Hfull & l0 & x & kx & -> & Hkx & Hc' & ->)].
  - left.
    assert (Z.of_nat (size (items c)) < maxSize c) as Hlt.
    { destruct Hroom as [Hlt | ->]; [done|].
      assert (items c = ∅) as ->; [|rewrite map_size_empty; lia].
      apply map_empty. intros k'. apply eq_None_not_Some. intros [b Hb].
      apply (repr_items _ _ Hr) in Hb as [Hb _]. set_solver. }
    split; [done|]. split; [|split].
    + rewrite (recency_repr _ _ Hr'), (recency_repr _ _ Hr). cbn [omap list_omap].
      rewrite Hka. f_equal. by apply omap_key_ext.
    + by rewrite Hc'.
    + intros k' Hne. unfold entry. rewrite Hc'. cbn [items nodes with_nodes with_items].
      rewrite lookup_insert_ne by done.
      destruct (items c !! k') as [b|] eqn:Hkb; [|done]. rewrite !bind_Some. by eapply Hentry.
  - right. split; [done|]. exists kx.
    assert (recency c = omap (key_of (nodes c)) l0 ++ [kx]) as Hrec.
    { rewrite (recency_repr _ _ Hr), omap_app. cbn [omap list_omap]. by rewrite Hkx. }
    assert (items c !! kx = Some x) as Hix.
    { apply (repr_items _ _ Hr). split; [set_solver|done]. }
    split_and!.
    + rewrite Hrec. apply last_snoc.
    + rewrite Hrec, removelast_last, (recency_repr _ _ Hr'). cbn [omap list_omap].
      rewrite Hka. f_equal. apply omap_key_ext. intros b Hb. apply Hkeys. set_solver.
    + by rewrite Hc'.
    + unfold entry. rewrite Hc'. cbn [items nodes with_nodes with_items].
      rewrite lookup_insert_ne by congruence. by rewrite lookup_delete_eq.
    + intros k' Hne Hnv. unfold entry. rewrite Hc'. cbn [items nodes with_nodes with_items].
      rewrite lookup_insert_ne, lookup_delete_ne by done.
      destruct (items c !! k') as [b|] eqn:Hkb; [|done]. rewrite !bind_Some. by eapply Hentry.
Qed.

(** [Clear] relinks the two sentinels. *)
Lemma Clear_repr c l :
  repr c l ->
  exists ns',
    Clear c = Some {| nodes := ns'; items := ∅; head := head c; tail := tail c;
                      maxSize := maxSize c; defaultTTL := defaultTTL c;
                      closed := closed c; hits := 0; misses := 0; evictions := 0 |} /\
    repr {| nodes := ns'; items := ∅; head := head c; tail := tail c;
            maxSize := maxSize c; defaultTTL := defaultTTL c;
            closed := closed c; hits := 0; misses := 0; evictions := 0 |} [].
Proof.
  intros Hr.
  destruct (repr_allocated c l 0%nat Hr) as [hd Hhd]; [set_solver|].
  destruct (repr_allocated c l 1%nat Hr) as [tl Htl]; [set_solver|].
  exists (alter (with_prev (Some 0%nat)) 1%nat (alter (with_next (Some 1%nat)) 0%nat (nodes c))).
  split.
  - unfold Clear. cbv zeta. cbn [head tail with_items].
    rewrite (repr_head _ _ Hr), (repr_tail _ _ Hr).
    erewrite store_alter by (cbn [nodes with_items]; exact Hhd). rewrite bind_Some.
    cbn [head tail with_nodes with_items nodes].
    rewrite (repr_head _ _ Hr), (repr_tail _ _ Hr).
    erewrite store_alter.
    2:{ cbn [nodes with_nodes]. rewrite list_lookup_alter_ne by done. exact Htl. }
    rewrite bind_Some.
    cbn [nodes items head tail maxSize defaultTTL closed with_nodes with_items].
    by rewrite ?(repr_head _ _ Hr), ?(repr_tail _ _ Hr).
  - rewrite (repr_head _ _ Hr), (repr_tail _ _ Hr). split; cbn [head tail nodes items].
    + done.
    + done.
    + simpl. apply NoDup_cons. split; [set_solver|]. apply NoDup_singleton.
    + simpl. split; [|split; [|done]].
      * unfold next_of. rewrite list_lookup_alter_ne by done.
        by rewrite list_lookup_alter_eq, Hhd.
      * unfold prev_of. rewrite list_lookup_alter_eq, list_lookup_alter_ne by done.
        by rewrite Htl.
    + intros k a. rewrite lookup_empty. split; [done|]. intros [Ha _]. set_solver.
Qed.

End lru_recency.

(** * The calls of the interface, engine by engine *)

Lemma Simple_Stats_Hits c : Hits (Simple.Stats_ c) = Simple.hits c.
Proof. apply CalculateHitRate_counters. Qed.
Lemma Simple_Stats_Misses c : Misses (Simple.Stats_ c) = Simple.misses c.
Proof. apply CalculateHitRate_counters. Qed.
Lemma Simple_Stats_Keys c : Keys (Simple.Stats_ c) = Z.of_nat (size (Simple.items c)).
Proof. apply CalculateHitRate_counters. Qed.
Lemma Simple_Stats_Evictions c : Evictions (Simple.Stats_ c) = 0.
Proof. apply CalculateHitRate_counters. Qed.

Lemma LFU_Stats_Hits c : Hits (LFU.Stats_ c) = LFU.hits c.
Proof. apply CalculateHitRate_counters. Qed.
Lemma LFU_Stats_Misses c : Misses (LFU.Stats_ c) = LFU.misses c.
Proof. apply CalculateHitRate_counters. Qed.
Lemma LFU_Stats_Keys c : Keys (LFU.Stats_ c) = Z.of_nat (size (LFU.items c)).
Proof. apply CalculateHitRate_counters. Qed.
Lemma LFU_Stats_Evictions c : Evictions (LFU.Stats_ c) = LFU.evictions c.
Proof. apply CalculateHitRate_counters. Qed.

Lemma LRU_Stats_Hits c : Hits (LRU.Stats_ c) = LRU.hits c.
Proof. apply CalculateHitRate_counters. Qed.
Lemma LRU_Stats_Misses c : Misses (LRU.Stats_ c) = LRU.misses c.
Proof. apply CalculateHitRate_counters. Qed.
Lemma LRU_Stats_Keys c : Keys (LRU.Stats_ c) = Z.of_nat (size (LRU.items c)).
Proof. apply CalculateHitRate_counters. Qed.
Lemma LRU_Stats_Evictions c : Evictions (LRU.Stats_ c) = LRU.evictions c.
Proof. apply CalculateHitRate_counters. Qed.

Lemma Memory_Stats_Hits c : Hits (Memory.Stats_ c) = Memory.hits c.
Proof. apply CalculateHitRate_counters. Qed.
Lemma Memory_Stats_Misses c : Misses (Memory.Stats_ c) = Memory.misses c.
Proof. apply CalculateHitRate_counters. Qed.
Lemma Memory_Stats_Keys c : Keys (Memory.Stats_ c) = Z.of_nat (size (Memory.data c)).
Proof. apply CalculateHitRate_counters. Qed.
Lemma Memory_Stats_Evictions c : Evictions (Memory.Stats_ c) = Memory.evictions c.
Proof. apply CalculateHitRate_counters. Qed.

Create Rewrite HintDb stats.
#[local] Hint Rewrite Simple_Stats_Hits Simple_Stats_Misses Simple_Stats_Keys
  Simple_Stats_Evictions LFU_Stats_Hits LFU_Stats_Misses LFU_Stats_Keys LFU_Stats_Evictions
  LRU_Stats_Hits LRU_Stats_Misses LRU_Stats_Keys LRU_Stats_Evictions
  Memory_Stats_Hits Memory_Stats_Misses Memory_Stats_Keys Memory_Stats_Evictions : stats.

(** Rewrites the counters of [Stats] to the fields of the engine. *)
Ltac stats_fields :=
  cbn [Stats_ SimpleCache_Cache LRUCache_Cache LFUCache_Cache MemoryCache_Cache];
  autorewrite with stats.

Lemma size_delete_Some {A} (m : gmap string A) k :
  is_Some (m !! k) -> Z.of_nat (size (delete k m)) = Z.of_nat (size m) - 1.
Proof.
  intros Hk. rewrite map_size_delete_Some by done.
  assert (size m <> 0%nat); [|lia].
  intros Hz. apply map_size_empty_iff in Hz. destruct Hk as [x Hx].
  by rewrite Hz, lookup_empty in Hx.
Qed.

(** ** [Get] *)

Lemma Simple_GetAccounting h c key now :
  GetAccounting SimpleCache_Cache Simple_entry h c key now.
Proof.
  unfold GetAccounting. cbn [Get SimpleCache_Cache]. unfold Simple.Get.
  destruct (decide (key = "")) as [->|Hk].
  { eexists _, _, _, false. split; [reflexivity|]. stats_fields. by split_and!; [..|left]. }
  destruct (Simple.items c !! key) as [item|] eqn:Hi.
  2:{ eexists _, _, _, false. split; [reflexivity|]. stats_fields. by split_and!; [..|left]. }
  cbv zeta. unfold Simple.hit, make. cbn [negb].
  destruct (Simple.isExpired now item) eqn:He.
  - eexists _, _, _, true. split; [reflexivity|]. stats_fields. split_and!; [done..| |].
    + intros k Hne. unfold Simple_entry. cbn. by rewrite lookup_delete_ne.
    + right. unfold Simple_entry. cbn. by rewrite lookup_delete_eq.
  - eexists _, _, _, true. split; [reflexivity|]. stats_fields. by split_and!; [..|left].
Qed.

Lemma LFU_GetAccounting it h c key now :
  GetAccounting (LFUCache_Cache it) LFU_entry h c key now.
Proof.
  unfold GetAccounting. cbn [Get LFUCache_Cache]. unfold LFU.Get.
  destruct (decide (key = "")) as [->|Hk].
  { eexists _, _, _, false. split; [reflexivity|]. stats_fields. by split_and!; [..|left]. }
  destruct (LFU.items c !! key) as [item|] eqn:Hi.
  2:{ eexists _, _, _, false. split; [reflexivity|]. stats_fields. by split_and!; [..|left]. }
  unfold make. destruct (LFU.isExpired now item) eqn:He.
  - eexists _, _, _, false. split; [reflexivity|]. stats_fields. split_and!; [done..| |].
    + intros k Hne. unfold LFU_entry. cbn. by rewrite lookup_delete_ne.
    + right. unfold LFU_entry. cbn. by rewrite lookup_delete_eq.
  - eexists _, _, _, true. split; [reflexivity|]. stats_fields. split_and!; [done..| |].
    + intros k Hne. unfold LFU_entry. cbn. by rewrite lookup_insert_ne.
    + left. unfold LFU_entry. cbn. by rewrite lookup_insert_eq, Hi.
Qed.

Lemma Memory_GetAccounting it h c key now :
  GetAccounting (MemoryCache_Cache it) Memory_entry h c key now.
Proof.
  unfold GetAccounting. cbn [Get MemoryCache_Cache].
  destruct (Memory.data c !! key) as [item|] eqn:Hi.
  2:{ rewrite MemoryFacts.Memory_Get_absent by done.
      eexists _, _, _, false. split; [reflexivity|]. stats_fields. by split_and!; [..|left]. }
  destruct (Memory.IsExpired now item) eqn:He.
  - rewrite (MemoryFacts.Memory_Get_expired h c key item) by done.
    eexists _, _, _, false. split; [reflexivity|]. stats_fields. split_and!; [done..| |].
    + intros k Hne. unfold Memory_entry. cbn. by rewrite lookup_delete_ne.
    + right. unfold Memory_entry. cbn. by rewrite lookup_delete_eq.
  - assert (exists h' s,
               Memory.Get h c key now
               = (h', Memory.add_hit
                        (Memory.with_data (<[key := Memory.Touch now item]> (Memory.data c)) c),
                  (s, true))) as (h' & s & ->).
    { unfold Memory.Get. rewrite Hi, He. cbv beta iota zeta delta [negb]. rewrite Hi, He.
      unfold make. eauto. }
    eexists _, _, _, true. split; [reflexivity|]. stats_fields. split_and!; [done..| |].
    + intros k Hne. unfold Memory_entry. cbn. by rewrite lookup_insert_ne.
    + left. unfold Memory_entry. cbn. by rewrite lookup_insert_eq, Hi.
Qed.

Lemma LRU_entry_is_Some c l k :
  LRUInv.repr c l -> is_Some (LRUInv.entry c k) <-> is_Some (LRU.items c !! k).
Proof.
  intros Hr. unfold LRUInv.entry. split.
  - intros [x Hx]. destruct (LRU.items c !! k); [by eexists|done].
  - intros [a Ha]. rewrite Ha, bind_Some.
    destruct (LRUFacts.repr_lookup _ _ _ _ Hr Ha) as (_ & n & -> & _). by eexists.
Qed.

Lemma LRU_entry_None c l k :
  LRUInv.repr c l -> LRUInv.entry c k = None <-> LRU.items c !! k = None.
Proof.
  intros Hr. rewrite !eq_None_not_Some. by rewrite (LRU_entry_is_Some c l k Hr).
Qed.

Lemma LRU_GetAccounting h c key now :
  LRUInv.wf c -> GetAccounting LRUCache_Cache LRUInv.entry h c key now.
Proof.
  intros [l Hr]. unfold GetAccounting. cbn [Get LRUCache_Cache].
  destruct (decide (key = "")) as [->|Hk].
  { rewrite LRUFacts.LRU_Get_empty_key.
    eexists _, _, _, false. split; [reflexivity|]. stats_fields. by split_and!; [..|left]. }
  destruct (LRU.items c !! key) as [a|] eqn:Hka.
  2:{ rewrite LRUFacts.LRU_Get_absent by done.
      eexists _, _, _, false. split; [reflexivity|]. stats_fields. by split_and!; [..|left]. }
  destruct (LRUFacts.repr_lookup _ _ _ _ Hr Hka) as (_ & it & Hit & _).
  destruct (LRU.isExpired now it) eqn:He.
  - destruct (LRUFacts.LRU_Get_expired h c l key a it now) as (ns' & l' & -> & _ & Hsp);
      [done..|].
    eexists _, _, _, false. split; [reflexivity|]. stats_fields.
    split_and!; [done..| |].
    + intros k Hne. change (LRUInv.entry (LRU.add_miss ?c) k) with (LRUInv.entry c k).
      rewrite entry_delete by done. by rewrite decide_False.
    + right. change (LRUInv.entry (LRU.add_miss ?c) key) with (LRUInv.entry c key).
      rewrite entry_delete by done. by rewrite decide_True.
  - destruct (Get_live_order h c l key (LRU.value it) now Hr) as (h' & ns' & s' & -> & _ & Hsp & _).
    { split; [done|]. by exists a, it. }
    eexists _, _, _, true. split; [reflexivity|]. stats_fields.
    assert (forall k, LRUInv.entry (LRU.add_hit (LRU.with_nodes ns' c)) k = LRUInv.entry c k)
      as Hentry by (intros k; by apply LRUFacts.entry_same).
    split_and!; [done..| |].
    + intros k _. apply Hentry.
    + left. apply Hentry.
Qed.

(** X1.  Every [Get], in each of the four engines, counts exactly one hit
    or one miss, in agreement with the flag it returns, and never counts an
    eviction; a miss returns nil and allocates nothing.  A [Get] leaves
    every other key alone and changes neither the value nor the expiry of
    its own key: it keeps the entry as it is or drops it. *)
Theorem Get_counts_once (it : MapIter) (h : heap) (key : string) (now : Time)
    (cs : Simple.SimpleCache) (cl : LRU.LRUCache) (cf : LFU.LFUCache)
    (cm : Memory.MemoryCache) :
  LRUInv.wf cl ->
  GetAccounting SimpleCache_Cache Simple_entry h cs key now /\
  GetAccounting LRUCache_Cache LRUInv.entry h cl key now /\
  GetAccounting (LFUCache_Cache it) LFU_entry h cf key now /\
  GetAccounting (MemoryCache_Cache it) Memory_entry h cm key now.
Proof.
  intros Hwf. split_and!.
  - apply Simple_GetAccounting.
  - by apply LRU_GetAccounting.
  - apply LFU_GetAccounting.
  - apply Memory_GetAccounting.
Qed.

Lemma Get_counts_once_witness :
  LRUInv.wf lru_ttl /\
  GetAccounting SimpleCache_Cache Simple_entry [] simple_ttl "ttl_key" 2000 /\
  GetAccounting LRUCache_Cache LRUInv.entry [] lru_ttl "ttl_key" 2000 /\
  GetAccounting (LFUCache_Cache keyOrder) LFU_entry [] lfu_ttl "ttl_key" 2000 /\
  GetAccounting (MemoryCache_Cache keyOrder) Memory_entry [] memory_ttl "ttl_key" 2000.
Proof.
  split; [exact lru_ttl_wf|].
  exact (Get_counts_once keyOrder [] "ttl_key" 2000 simple_ttl lru_ttl lfu_ttl memory_ttl
           lru_ttl_wf).
Defined.

(** ** [Delete] *)

Lemma Simple_DeleteSpec c key : DeleteSpec SimpleCache_Cache Simple_entry c key.
Proof.
  unfold DeleteSpec. cbn [Delete Get SimpleCache_Cache]. unfold Simple.Delete.
  destruct (decide (key = "")) as [->|Hk].
  { exists c, false. split; [done|]. stats_fields. split_and!; try done.
    - intros k. by case_decide; subst.
    - lia.
    - intros h now. rewrite SimpleFacts.Simple_Get_empty_key. eauto. }
  destruct (Simple.items c !! key) as [item|] eqn:Hi.
  - eexists _, true. split; [done|]. stats_fields. cbn [Simple.items Simple.with_items
      Simple.hits Simple.misses]. split_and!; try done.
    + intros _. unfold Simple_entry. rewrite Hi. by eexists.
    + intros k. unfold Simple_entry. cbn. case_decide; subst.
      * by rewrite lookup_delete_eq.
      * by rewrite lookup_delete_ne.
    + apply size_delete_Some. by eexists.
    + intros h now. rewrite SimpleFacts.Simple_Get_absent by (cbn; apply lookup_delete_eq).
      eauto.
  - exists c, false. split; [done|]. stats_fields. split_and!; try done.
    + intros _ [x Hx]. unfold Simple_entry in Hx. by rewrite Hi in Hx.
    + intros k. by case_decide; subst.
    + lia.
    + intros h now. rewrite SimpleFacts.Simple_Get_absent by done. eauto.
Qed.

Lemma LFU_DeleteSpec it c key : DeleteSpec (LFUCache_Cache it) LFU_entry c key.
Proof.
  unfold DeleteSpec. cbn [Delete Get LFUCache_Cache]. unfold LFU.Delete.
  destruct (decide (key = "")) as [->|Hk].
  { exists c, false. split; [done|]. stats_fields. split_and!; try done.
    - intros k. by case_decide; subst.
    - lia.
    - intros h now. rewrite LFUFacts.LFU_Get_empty_key. eauto. }
  destruct (LFU.items c !! key) as [item|] eqn:Hi.
  - eexists _, true. split; [done|]. stats_fields. cbn [LFU.items LFU.with_items
      LFU.hits LFU.misses LFU.evictions]. split_and!; try done.
    + intros _. unfold LFU_entry. rewrite Hi. by eexists.
    + intros k. unfold LFU_entry. cbn. case_decide; subst.
      * by rewrite lookup_delete_eq.
      * by rewrite lookup_delete_ne.
    + apply size_delete_Some. by eexists.
    + intros h now. rewrite LFUFacts.LFU_Get_absent by (cbn; apply lookup_delete_eq).
      eauto.
  - exists c, false. split; [done|]. stats_fields. split_and!; try done.
    + intros _ [x Hx]. unfold LFU_entry in Hx. by rewrite Hi in Hx.
    + intros k. by case_decide; subst.
    + lia.
    + intros h now. rewrite LFUFacts.LFU_Get_absent by done. eauto.
Qed.

Lemma Memory_DeleteSpec it c key : DeleteSpec (MemoryCache_Cache it) Memory_entry c key.
Proof.
  unfold DeleteSpec. cbn [Delete Get MemoryCache_Cache]. unfold Memory.Delete.
  destruct (Memory.data c !! key) as [item|] eqn:Hi.
  - eexists _, true. split; [done|]. stats_fields. cbn [Memory.data Memory.with_data
      Memory.hits Memory.misses Memory.evictions]. split_and!; try done.
    + intros _. unfold Memory_entry. rewrite Hi. by eexists.
    + intros k. unfold Memory_entry. cbn. case_decide; subst.
      * by rewrite lookup_delete_eq.
      * by rewrite lookup_delete_ne.
    + apply size_delete_Some. by eexists.
    + intros h now. rewrite MemoryFacts.Memory_Get_absent by (cbn; apply lookup_delete_eq).
      eauto.
  - exists c, false. split; [done|]. stats_fields. split_and!; try done.
    + intros _ [x Hx]. unfold Memory_entry in Hx. by rewrite Hi in Hx.
    + intros k. by case_decide; subst.
    + lia.
    + intros h now. rewrite MemoryFacts.Memory_Get_absent by done. eauto.
Qed.

Lemma LRU_DeleteSpec c key :
  LRUInv.wf c -> DeleteSpec LRUCache_Cache LRUInv.entry c key.
Proof.
  intros [l Hr]. unfold DeleteSpec. cbn [Delete Get LRUCache_Cache]. unfold LRU.Delete.
  destruct (decide (key = "")) as [->|Hk].
  { exists c, false. split; [done|]. stats_fields. split_and!; try done.
    - intros k. by case_decide; subst.
    - lia.
    - intros h now. rewrite LRUFacts.LRU_Get_empty_key. eauto. }
  destruct (LRU.items c !! key) as [a|] eqn:Hka.
  - destruct (removeItem_order c l key a Hr Hka) as (ns' & -> & _ & Hsp & _).
    rewrite bind_Some.
    eexists _, true. split; [done|]. stats_fields. cbn [LRU.items LRU.with_items
      LRU.with_nodes LRU.hits LRU.misses LRU.evictions]. split_and!; try done.
    + intros _. apply (LRU_entry_is_Some c l key Hr). by eexists.
    + intros k. by apply entry_delete.
    + apply size_delete_Some. by eexists.
    + intros h now. rewrite LRUFacts.LRU_Get_absent by (cbn; apply lookup_delete_eq).
      eauto.
  - exists c, false. split; [done|]. stats_fields. split_and!; try done.
    + intros _ Hsome. apply (LRU_entry_is_Some c l key Hr) in Hsome as [x Hx]. congruence.
    + intros k. by case_decide; subst.
    + lia.
    + intros h now. rewrite LRUFacts.LRU_Get_absent by done. eauto.
Qed.

(** X6.  [Delete], in each of the four engines, returns true exactly when
    the (non-empty) key is resident, expired or not; it removes that entry
    and no other, changes none of the counters of [Stats] but [Keys], and a
    [Get] of the key that follows is a miss.  [SimpleCache], [LRUCache] and
    [LFUCache] refuse the empty key; [MemoryCache] deletes it like any
    other key. *)
Theorem Delete_removes_the_entry (it : MapIter) (key : string)
    (cs : Simple.SimpleCache) (cl : LRU.LRUCache) (cf : LFU.LFUCache)
    (cm : Memory.MemoryCache) :
  LRUInv.wf cl ->
  (DeleteSpec SimpleCache_Cache Simple_entry cs key /\
   DeleteSpec LRUCache_Cache LRUInv.entry cl key /\
   DeleteSpec (LFUCache_Cache it) LFU_entry cf key /\
   DeleteSpec (MemoryCache_Cache it) Memory_entry cm key) /\
  (Delete SimpleCache_Cache cs "" = Some (cs, false) /\
   Delete LRUCache_Cache cl "" = Some (cl, false) /\
   Delete (LFUCache_Cache it) cf "" = Some (cf, false) /\
   Delete (MemoryCache_Cache it) cm ""
   = Some (Memory.with_data (delete ""%string (Memory.data cm)) cm,
           bool_decide (is_Some (Memory.data cm !! ""%string)))).
Proof.
  intros Hwf. split; [split_and!|split_and!; try done].
  - apply Simple_DeleteSpec.
  - by apply LRU_DeleteSpec.
  - apply LFU_DeleteSpec.
  - apply Memory_DeleteSpec.
  - cbn [Delete MemoryCache_Cache]. unfold Memory.Delete.
    destruct (Memory.data cm !! ""%string) as [item|] eqn:Hi.
    + by rewrite bool_decide_eq_true_2 by (by eexists).
    + rewrite bool_decide_eq_false_2 by (by intros [x Hx]).
      rewrite delete_id by done. by destruct cm.
Qed.

Lemma Delete_removes_the_entry_witness :
  LRUInv.wf lru_ttl /\
  (DeleteSpec SimpleCache_Cache Simple_entry simple_ttl "ttl_key" /\
   DeleteSpec LRUCache_Cache LRUInv.entry lru_ttl "ttl_key" /\
   DeleteSpec (LFUCache_Cache keyOrder) LFU_entry lfu_ttl "ttl_key" /\
   DeleteSpec (MemoryCache_Cache keyOrder) Memory_entry memory_ttl "ttl_key") /\
  (Delete SimpleCache_Cache simple_ttl "" = Some (simple_ttl, false) /\
   Delete LRUCache_Cache lru_ttl "" = Some (lru_ttl, false) /\
   Delete (LFUCache_Cache keyOrder) lfu_ttl "" = Some (lfu_ttl, false) /\
   Delete (MemoryCache_Cache keyOrder) memory_ttl ""
   = Some (Memory.with_data (delete ""%string (Memory.data memory_ttl)) memory_ttl,
           bool_decide (is_Some (Memory.data memory_ttl !! ""%string)))).
Proof.
  split; [exact lru_ttl_wf|].
  exact (Delete_removes_the_entry keyOrder "ttl_key" simple_ttl lru_ttl lfu_ttl memory_ttl
           lru_ttl_wf).
Defined.

(** ** [Clear] *)

Lemma Simple_ClearSpec c : ClearSpec SimpleCache_Cache Simple_entry Simple.closed c.
Proof.
  unfold ClearSpec. cbn [Clear Get Stats_ SimpleCache_Cache].
  eexists. split; [reflexivity|]. split; [done|]. split; [|split; [done|]].
  - unfold Simple.Stats_, Simple.Clear. cbn [Simple.items Simple.hits Simple.misses].
    by rewrite map_size_empty.
  - intros h key now. rewrite SimpleFacts.Simple_Get_absent by done. eauto.
Qed.

Lemma LFU_ClearSpec it c : ClearSpec (LFUCache_Cache it) LFU_entry LFU.closed c.
Proof.
  unfold ClearSpec. cbn [Clear Get Stats_ LFUCache_Cache].
  eexists. split; [reflexivity|]. split; [done|]. split; [|split; [done|]].
  - unfold LFU.Stats_, LFU.Clear. cbn [LFU.items LFU.hits LFU.misses LFU.evictions].
    by rewrite map_size_empty.
  - intros h key now. rewrite LFUFacts.LFU_Get_absent by done. eauto.
Qed.

Lemma Memory_ClearSpec it c :
  ClearSpec (MemoryCache_Cache it) Memory_entry Memory.stopped c.
Proof.
  unfold ClearSpec. cbn [Clear Get Stats_ MemoryCache_Cache].
  eexists. split; [reflexivity|]. split; [done|]. split; [|split; [done|]].
  - unfold Memory.Stats_, Memory.Clear.
    cbn [Memory.data Memory.hits Memory.misses Memory.evictions].
    by rewrite map_size_empty.
  - intros h key now. rewrite MemoryFacts.Memory_Get_absent by done. eauto.
Qed.

Lemma LRU_ClearSpec c :
  LRUInv.wf c ->
  ClearSpec LRUCache_Cache LRUInv.entry LRU.closed c /\
  exists c', Clear LRUCache_Cache c = Some c' /\ LRUInv.repr c' [].
Proof.
  intros [l Hr]. destruct (Clear_repr c l Hr) as (ns' & Hclear & Hr').
  split; [|eauto]. unfold ClearSpec. cbn [Clear Get Stats_ LRUCache_Cache].
  eexists. split; [exact Hclear|]. split; [done|]. split; [|split; [done|]].
  - unfold LRU.Stats_. cbn [LRU.items LRU.hits LRU.misses LRU.evictions].
    by rewrite map_size_empty.
  - intros h key now. rewrite LRUFacts.LRU_Get_absent by done. eauto.
Qed.

(** X7.  [Clear], in each of the four engines, drops every entry and sets
    hits, misses, evictions, the key count and the hit rate of [Stats] to
    0; it does not reopen a closed cache; every [Get] that follows is a
    miss.  In [LRUCache] it relinks the two sentinels: the list is empty
    and well formed again. *)
Theorem Clear_resets (it : MapIter) (cs : Simple.SimpleCache) (cl : LRU.LRUCache)
    (cf : LFU.LFUCache) (cm : Memory.MemoryCache) :
  LRUInv.wf cl ->
  ClearSpec SimpleCache_Cache Simple_entry Simple.closed cs /\
  ClearSpec LRUCache_Cache LRUInv.entry LRU.closed cl /\
  (exists c', Clear LRUCache_Cache cl = Some c' /\ LRUList.recency c' = [] /\ LRUInv.wf c') /\
  ClearSpec (LFUCache_Cache it) LFU_entry LFU.closed cf /\
  ClearSpec (MemoryCache_Cache it) Memory_entry Memory.stopped cm.
Proof.
  intros Hwf. destruct (LRU_ClearSpec cl Hwf) as (Hspec & c' & Hclear & Hr').
  split_and!.
  - apply Simple_ClearSpec.
  - done.
  - exists c'. split; [done|]. split; [by rewrite (recency_repr _ _ Hr')|by eexists].
  - apply LFU_ClearSpec.
  - apply Memory_ClearSpec.
Qed.

Lemma Clear_resets_witness :
  LRUInv.wf lru_ttl /\
  ClearSpec SimpleCache_Cache Simple_entry Simple.closed simple_ttl /\
  ClearSpec LRUCache_Cache LRUInv.entry LRU.closed lru_ttl /\
  (exists c', Clear LRUCache_Cache lru_ttl = Some c' /\ LRUList.recency c' = [] /\
              LRUInv.wf c') /\
  ClearSpec (LFUCache_Cache keyOrder) LFU_entry LFU.closed lfu_ttl /\
  ClearSpec (MemoryCache_Cache keyOrder) Memory_entry Memory.stopped memory_ttl.
Proof.
  split; [exact lru_ttl_wf|].
  exact (Clear_resets keyOrder simple_ttl lru_ttl lfu_ttl memory_ttl lru_ttl_wf).
Defined.

(** ** [Close] *)

Lemma Simple_Get_Close h c key now :
  Simple.Get h (Simple.Close c) key now
  = let '(h1, c1, r) := Simple.Get h c key now in (h1, Simple.Close c1, r).
Proof.
  unfold Simple.Get, Simple.Close, Simple.hit, make.
  destruct c as [items ttl closed hits misses]. cbn.
  destruct closed; repeat case_match; simplify_eq/=; first [done | congruence].
Qed.

Lemma LFU_Get_Close h c key now :
  LFU.Get h (LFU.Close c) key now
  = let '(h1, c1, r) := LFU.Get h c key now in (h1, LFU.Close c1, r).
Proof.
  unfold LFU.Get, LFU.Close, make.
  destruct c as [items maxSize ttl closed hits misses evictions]. cbn.
  destruct closed; repeat case_match; simplify_eq/=; first [done | congruence].
Qed.

Lemma Memory_Get_Close h c key now :
  Memory.Get h (Memory.Close c) key now
  = let '(h1, c1, r) := Memory.Get h c key now in (h1, Memory.Close c1, r).
Proof.
  unfold Memory.Get, Memory.Close, make.
  destruct c as [data config stopped hits misses evictions]. cbn.
  destruct stopped; repeat case_match; simplify_eq/=; first [done | congruence].
Qed.

Section lru_close.
Import LRU.
Implicit Types (c : LRUCache) (p : ptr).

Lemma Close_fields c :
  nodes (Close c) = nodes c /\ items (Close c) = items c /\ head (Close c) = head c /\
  tail (Close c) = tail c /\ maxSize (Close c) = maxSize c /\
  defaultTTL (Close c) = defaultTTL c /\ hits (Close c) = hits c /\
  misses (Close c) = misses c /\ evictions (Close c) = evictions c /\
  closed (Close c) = true.
Proof. unfold Close. by destruct (closed c) eqn:Hc. Qed.

Lemma load_Close c p : load (Close c) p = load c p.
Proof. unfold load. by destruct (Close_fields c) as (-> & _). Qed.

Lemma store_Close c p f : store (Close c) p f = Close <$> store c p f.
Proof.
  destruct c as [ns its hd tl ms ttl cl hi mi ev]. unfold store, Close.
  destruct cl; cbn; destruct p as [a|]; cbn; try done; by destruct (ns !! a).
Qed.

Lemma with_items_Close c m : with_items m (Close c) = Close (with_items m c).
Proof. destruct c as [ns its hd tl ms ttl cl hi mi ev]. unfold Close. by destruct cl. Qed.

Lemma add_hit_Close c : add_hit (Close c) = Close (add_hit c).
Proof. destruct c as [ns its hd tl ms ttl cl hi mi ev]. unfold Close. by destruct cl. Qed.

Lemma add_miss_Close c : add_miss (Close c) = Close (add_miss c).
Proof. destruct c as [ns its hd tl ms ttl cl hi mi ev]. unfold Close. by destruct cl. Qed.

Lemma head_Close c : head (Close c) = head c.
Proof. apply Close_fields. Qed.

Lemma items_Close c : items (Close c) = items c.
Proof. apply Close_fields. Qed.

Lemma removeFromList_Close c p :
  removeFromList (Close c) p = Close <$> removeFromList c p.
Proof.
  unfold removeFromList. rewrite load_Close. destruct (load c p) as [it|]; [|done].
  rewrite !bind_Some, store_Close. destruct (store c (prev it) _) as [c1|]; [|done].
  cbn [fmap option_fmap option_map]. rewrite !bind_Some, load_Close.
  destruct (load c1 p) as [it1|]; [|done]. rewrite !bind_Some. apply store_Close.
Qed.

Lemma addToHead_Close c p : addToHead (Close c) p = Close <$> addToHead c p.
Proof.
  unfold addToHead. rewrite store_Close, head_Close.
  destruct (store c p _) as [c1|]; [|done].
  cbn [fmap option_fmap option_map]. rewrite !bind_Some, load_Close, head_Close.
  destruct (load c1 (head c1)) as [hd|]; [|done]. rewrite !bind_Some, store_Close.
  destruct (store c1 p _) as [c2|]; [|done].
  cbn [fmap option_fmap option_map]. rewrite !bind_Some, load_Close, head_Close.
  destruct (load c2 (head c2)) as [hd2|]; [|done]. rewrite !bind_Some, store_Close.
  destruct (store c2 (next hd2) _) as [c3|]; [|done].
  cbn [fmap option_fmap option_map]. rewrite !bind_Some, head_Close. apply store_Close.
Qed.

Lemma moveToHead_Close c p : moveToHead (Close c) p = Close <$> moveToHead c p.
Proof.
  unfold moveToHead. rewrite removeFromList_Close.
  destruct (removeFromList c p) as [c1|]; [|done].
  cbn [fmap option_fmap option_map]. rewrite !bind_Some. apply addToHead_Close.
Qed.

Lemma removeItem_Close c p : removeItem (Close c) p = Close <$> removeItem c p.
Proof.
  unfold removeItem. rewrite load_Close. destruct (load c p) as [it|]; [|done].
  rewrite !bind_Some. cbv zeta. rewrite items_Close, with_items_Close.
  apply removeFromList_Close.
Qed.

Lemma LRU_Get_Close h c key now :
  Get h (Close c) key now
  = '(h1, c1, r) ← Get h c key now; Some (h1, Close c1, r).
Proof.
  unfold Get. destruct (decide (key = "")) as [->|Hk].
  { by rewrite bind_Some, add_miss_Close. }
  rewrite items_Close. destruct (items c !! key) as [a|]; [|by rewrite bind_Some, add_miss_Close].
  cbv zeta. rewrite load_Close. destruct (load c (Some a)) as [it|]; [|done].
  rewrite !bind_Some. destruct (isExpired now it).
  - rewrite removeItem_Close. destruct (removeItem c (Some a)) as [c1|]; [|done].
    cbn [fmap option_fmap option_map]. by rewrite !bind_Some, add_miss_Close.
  - rewrite moveToHead_Close. destruct (moveToHead c (Some a)) as [c1|]; [|done].
    cbn [fmap option_fmap option_map]. rewrite !bind_Some. cbv zeta.
    rewrite add_hit_Close, load_Close.
    destruct (load (add_hit c1) (Some a)) as [it1|]; [|done]. rewrite !bind_Some.
    unfold make. by rewrite bind_Some.
Qed.

End lru_close.

Lemma Simple_CloseSpec c : CloseSpec SimpleCache_Cache Simple_entry Simple.closed c.
Proof.
  unfold CloseSpec. cbn [Close Get Stats_ SimpleCache_Cache].
  exists (Simple.Close c).
  assert (Simple.Close (Simple.Close c) = Simple.Close c /\
          Simple.closed (Simple.Close c) = true /\
          Simple.items (Simple.Close c) = Simple.items c /\
          Simple.Stats_ (Simple.Close c) = Simple.Stats_ c) as (Hidem & Hcl & Hitems & Hstats).
  { unfold Simple.Close. by destruct (Simple.closed c) eqn:Hc; rewrite ?Hc. }
  split; [done|]. split; [done|]. split; [by rewrite Hidem|].
  split; [by intros k; unfold Simple_entry; rewrite Hitems|]. split; [done|].
  intros h key now h1 c1 r [= Hget]. exists (Simple.Close c1). split; [done|].
  by rewrite Simple_Get_Close, Hget.
Qed.

Lemma LFU_CloseSpec it c : CloseSpec (LFUCache_Cache it) LFU_entry LFU.closed c.
Proof.
  unfold CloseSpec. cbn [Close Get Stats_ LFUCache_Cache].
  exists (LFU.Close c).
  assert (LFU.Close (LFU.Close c) = LFU.Close c /\
          LFU.closed (LFU.Close c) = true /\
          LFU.items (LFU.Close c) = LFU.items c /\
          LFU.Stats_ (LFU.Close c) = LFU.Stats_ c) as (Hidem & Hcl & Hitems & Hstats).
  { unfold LFU.Close. by destruct (LFU.closed c) eqn:Hc; rewrite ?Hc. }
  split; [done|]. split; [done|]. split; [by rewrite Hidem|].
  split; [by intros k; unfold LFU_entry; rewrite Hitems|]. split; [done|].
  intros h key now h1 c1 r [= Hget]. exists (LFU.Close c1). split; [done|].
  by rewrite LFU_Get_Close, Hget.
Qed.

Lemma Memory_CloseSpec it c :
  CloseSpec (MemoryCache_Cache it) Memory_entry Memory.stopped c.
Proof.
  unfold CloseSpec. cbn [Close Get Stats_ MemoryCache_Cache].
  exists (Memory.Close c).
  assert (Memory.Close (Memory.Close c) = Memory.Close c /\
          Memory.stopped (Memory.Close c) = true /\
          Memory.data (Memory.Close c) = Memory.data c /\
          Memory.Stats_ (Memory.Close c) = Memory.Stats_ c)
    as (Hidem & Hcl & Hitems & Hstats).
  { unfold Memory.Close. by destruct (Memory.stopped c) eqn:Hc; rewrite ?Hc. }
  split; [done|]. split; [done|]. split; [by rewrite Hidem|].
  split; [by intros k; unfold Memory_entry; rewrite Hitems|]. split; [done|].
  intros h key now h1 c1 r [= Hget]. exists (Memory.Close c1). split; [done|].
  by rewrite Memory_Get_Close, Hget.
Qed.

Lemma LRU_CloseSpec c : CloseSpec LRUCache_Cache LRUInv.entry LRU.closed c.
Proof.
  unfold CloseSpec. cbn [Close Get Stats_ LRUCache_Cache].
  exists (LRU.Close c).
  assert (LRU.Close (LRU.Close c) = LRU.Close c /\
          LRU.closed (LRU.Close c) = true /\
          LRU.items (LRU.Close c) = LRU.items c /\
          LRU.nodes (LRU.Close c) = LRU.nodes c /\
          LRU.Stats_ (LRU.Close c) = LRU.Stats_ c)
    as (Hidem & Hcl & Hitems & Hnodes & Hstats).
  { unfold LRU.Close. by destruct (LRU.closed c) eqn:Hc; rewrite ?Hc. }
  split; [done|]. split; [done|]. split; [by rewrite Hidem|].
  split; [by intros k; unfold LRUInv.entry; rewrite Hitems, Hnodes|]. split; [done|].
  intros h key now h1 c1 r Hget. exists (LRU.Close c1). split; [done|].
  by rewrite LRU_Get_Close, Hget.
Qed.

(** X8.  [Close], in each of the four engines, only raises the closed flag
    ([stopCh] closed), and a second [Close] changes nothing: every entry
    and the statistics stay, and every [Get] on the closed cache returns
    what it would have returned on the open one. *)
Theorem Close_keeps_serving_reads (it : MapIter) (cs : Simple.SimpleCache)
    (cl : LRU.LRUCache) (cf : LFU.LFUCache) (cm : Memory.MemoryCache) :
  CloseSpec SimpleCache_Cache Simple_entry Simple.closed cs /\
  CloseSpec LRUCache_Cache LRUInv.entry LRU.closed cl /\
  CloseSpec (LFUCache_Cache it) LFU_entry LFU.closed cf /\
  CloseSpec (MemoryCache_Cache it) Memory_entry Memory.stopped cm.
Proof.
  split_and!.
  - apply Simple_CloseSpec.
  - apply LRU_CloseSpec.
  - apply LFU_CloseSpec.
  - apply Memory_CloseSpec.
Qed.

(** ** [Get] of a resident key *)

Lemma LFU_ResidentGet it h c key now v e :
  key <> ""%string -> LFU_entry c key = Some (v, e) ->
  ResidentGet (LFUCache_Cache it) LFU_entry passed h c key now v e.
Proof.
  intros Hk Hentry. unfold LFU_entry in Hentry.
  destruct (LFU.items c !! key) as [item|] eqn:Hi; [|done]. simplify_eq/=.
  unfold ResidentGet. change (passed now (LFU.expiresAt item)) with (LFU.isExpired now item).
  cbn [Get LFUCache_Cache]. destruct (LFU.isExpired now item) eqn:He.
  - rewrite (LFUFacts.LFU_Get_expired h c key item) by done.
    eexists. split; [done|]. stats_fields. split.
    + unfold LFU_entry. cbn. by rewrite lookup_delete_eq.
    + cbn. apply size_delete_Some. by eexists.
  - assert (exists h' s,
               LFU.Get h c key now
               = (h', LFU.add_hit
                        (LFU.with_items (<[key := LFU.touch now item]> (LFU.items c)) c),
                  (s, true)) /\
               (slice_valid h (LFU.value item) ->
                h' = h ++ [slice_bytes h (LFU.value item)] /\
                s = Slice (length h) 0 (slice_len (LFU.value item))))
      as (h' & s & -> & Hv).
    { unfold LFU.Get. rewrite decide_False by done. rewrite Hi, He. unfold make.
      eexists _, _. split; [reflexivity|]. intros Hv. split; [|done]. by apply make_copy'. }
    eexists _, _, _. split; [done|]. stats_fields. split_and!; [| |done].
    + unfold LFU_entry. cbn. by rewrite lookup_insert_eq.
    + cbn. f_equal. apply map_size_insert_Some. by eexists.
Qed.

Lemma Memory_ResidentGet it h c key now v e :
  Memory_entry c key = Some (v, e) ->
  ResidentGet (MemoryCache_Cache it) Memory_entry After h c key now v e.
Proof.
  intros Hentry. unfold Memory_entry in Hentry.
  destruct (Memory.data c !! key) as [item|] eqn:Hi; [|done]. simplify_eq/=.
  unfold ResidentGet. change (After now (Memory.ExpiresAt item)) with (Memory.IsExpired now item).
  cbn [Get MemoryCache_Cache]. destruct (Memory.IsExpired now item) eqn:He.
  - rewrite (MemoryFacts.Memory_Get_expired h c key item) by done.
    eexists. split; [done|]. stats_fields. split.
    + unfold Memory_entry. cbn. by rewrite lookup_delete_eq.
    + cbn. apply size_delete_Some. by eexists.
  - assert (exists h' s,
               Memory.Get h c key now
               = (h', Memory.add_hit
                        (Memory.with_data (<[key := Memory.Touch now item]> (Memory.data c)) c),
                  (s, true)) /\
               (slice_valid h (Memory.Value item) ->
                h' = h ++ [slice_bytes h (Memory.Value item)] /\
                s = Slice (length h) 0 (slice_len (Memory.Value item))))
      as (h' & s & -> & Hv).
    { unfold Memory.Get. rewrite Hi, He. cbv beta iota zeta delta [negb]. rewrite Hi, He.
      unfold make. eexists _, _. split; [reflexivity|]. intros Hv. split; [|done].
      by apply make_copy'. }
    eexists _, _, _. split; [done|]. stats_fields. split_and!; [| |done].
    + unfold Memory_entry. cbn. by rewrite lookup_insert_eq.
    + cbn. f_equal. apply map_size_insert_Some. by eexists.
Qed.

Lemma LRU_ResidentGet h c key now v e :
  LRUInv.wf c -> key <> ""%string -> LRUInv.entry c key = Some (v, e) ->
  ResidentGet LRUCache_Cache LRUInv.entry passed h c key now v e.
Proof.
  intros [l Hr] Hk Hentry. unfold LRUInv.entry in Hentry.
  destruct (LRU.items c !! key) as [a|] eqn:Hka; [|done]. rewrite bind_Some in Hentry.
  destruct (LRU.nodes c !! a) as [n|] eqn:Hn; [|done]. simplify_eq/=.
  unfold ResidentGet. change (passed now (LRU.expiresAt n)) with (LRU.isExpired now n).
  cbn [Get LRUCache_Cache]. destruct (LRU.isExpired now n) eqn:He.
  - destruct (LRUFacts.LRU_Get_expired h c l key a n now) as (ns' & l' & -> & _ & Hsp);
      [done..|].
    eexists. split; [done|]. stats_fields. split.
    + change (LRUInv.entry (LRU.add_miss ?c) key) with (LRUInv.entry c key).
      rewrite entry_delete by done. by rewrite decide_True.
    + cbn. apply size_delete_Some. by eexists.
  - destruct (Get_live_order h c l key (LRU.value n) now Hr)
      as (h' & ns' & s' & Hget & _ & Hsp & _).
    { split; [done|]. by exists a, n. }
    exists h', (LRU.add_hit (LRU.with_nodes ns' c)), s'. split; [done|]. stats_fields.
    split_and!.
    + rewrite (LRUFacts.entry_same c) by done. unfold LRUInv.entry.
      by rewrite Hka, bind_Some, Hn.
    + done.
    + intros Hv.
      destruct (LRUFacts.LRU_Get_hit h c l key a n now) as (ns2 & l2 & Hget2 & _); [done..|].
      rewrite Hget in Hget2. by simplify_eq.
Qed.

(** X2.  In [LRUCache], [LFUCache] and [MemoryCache] a [Get] of a resident
    key is a hit exactly when the expiry has not passed: the entry is still
    served at the instant of its expiry and dropped, with a miss, strictly
    after it; the zero expiry of the [memory] package never passes.  A hit
    returns a copy in a new array and changes neither the value nor the
    expiry: reading does not extend the life of an entry. *)
Theorem Get_honours_expiry (it : MapIter) (h : heap) (key : string) (now : Time)
    (cl : LRU.LRUCache) (cf : LFU.LFUCache) (cm : Memory.MemoryCache)
    (vl vf vm : slice) (el ef em : Time) :
  LRUInv.wf cl -> key <> ""%string ->
  LRUInv.entry cl key = Some (vl, el) ->
  LFU_entry cf key = Some (vf, ef) ->
  Memory_entry cm key = Some (vm, em) ->
  ResidentGet LRUCache_Cache LRUInv.entry passed h cl key now vl el /\
  ResidentGet (LFUCache_Cache it) LFU_entry passed h cf key now vf ef /\
  ResidentGet (MemoryCache_Cache it) Memory_entry After h cm key now vm em.
Proof.
  intros Hwf Hk Hl Hf Hm. split_and!.
  - by apply LRU_ResidentGet.
  - by apply LFU_ResidentGet.
  - by apply Memory_ResidentGet.
Qed.

Lemma Get_honours_expiry_witness :
  let e := 1000 + 100 * Millisecond in
  (LRUInv.wf lru_ttl /\ "ttl_key"%string <> ""%string /\
   LRUInv.entry lru_ttl "ttl_key" = Some (Slice 0 0 0, e) /\
   LFU_entry lfu_ttl "ttl_key" = Some (Slice 0 0 0, e) /\
   Memory_entry memory_ttl "ttl_key" = Some (Slice 0 0 0, e)) /\
  ResidentGet LRUCache_Cache LRUInv.entry passed [] lru_ttl "ttl_key" e (Slice 0 0 0) e /\
  ResidentGet (LFUCache_Cache keyOrder) LFU_entry passed [] lfu_ttl "ttl_key" e
    (Slice 0 0 0) e /\
  ResidentGet (MemoryCache_Cache keyOrder) Memory_entry After [] memory_ttl "ttl_key" e
    (Slice 0 0 0) e.
Proof.
  assert (LRUInv.entry lru_ttl "ttl_key" = Some (Slice 0 0 0, 1000 + 100 * Millisecond))
    as Hl by (vm_compute; reflexivity).
  assert (LFU_entry lfu_ttl "ttl_key" = Some (Slice 0 0 0, 1000 + 100 * Millisecond))
    as Hf by (vm_compute; reflexivity).
  assert (Memory_entry memory_ttl "ttl_key" = Some (Slice 0 0 0, 1000 + 100 * Millisecond))
    as Hm by (vm_compute; reflexivity).
  assert ("ttl_key"%string <> ""%string) as Hk by done.
  split; [by split_and!; [exact lru_ttl_wf|..]|].
  exact (Get_honours_expiry keyOrder [] "ttl_key" (1000 + 100 * Millisecond)
           lru_ttl lfu_ttl memory_ttl _ _ _ _ _ _ lru_ttl_wf Hk Hl Hf Hm).
Defined.

(** X3.  [SimpleCache.Get] of a resident, non-empty key always reports a
    hit and returns a copy of the stored bytes, whether or not the entry
    has expired.  An expired entry is deleted by that read, so the stale
    value is served once: the next [Get] of the key is a miss. *)
Theorem SimpleCache_Get_serves_stale_once (h : heap) (c : Simple.SimpleCache)
    (key : string) (now : Time) (v : slice) (e : Time) :
  key <> ""%string -> Simple_entry c key = Some (v, e) ->
  exists h' c' s,
    Get SimpleCache_Cache h c key now = Some (h', c', (s, true)) /\
    Hits (Stats_ SimpleCache_Cache c') = AddInt64 (Hits (Stats_ SimpleCache_Cache c)) 1 /\
    Misses (Stats_ SimpleCache_Cache c') = Misses (Stats_ SimpleCache_Cache c) /\
    (slice_valid h v -> h' = h ++ [slice_bytes h v] /\ s = Slice (length h) 0 (slice_len v)) /\
    (if passed now e
     then Simple_entry c' key = None /\
          forall h2 now2, exists c2,
            Get SimpleCache_Cache h2 c' key now2 = Some (h2, c2, (nil_slice, false))
     else Simple_entry c' key = Some (v, e)).
Proof.
  intros Hk Hentry. unfold Simple_entry in Hentry.
  destruct (Simple.items c !! key) as [item|] eqn:Hi; [|done]. simplify_eq/=.
  change (passed now (Simple.expiresAt item)) with (Simple.isExpired now item).
  cbn [Get SimpleCache_Cache].
  unfold Simple.Get at 1. rewrite decide_False by done. rewrite Hi. cbv zeta.
  unfold Simple.hit, make. cbn [negb].
  destruct (Simple.isExpired now item) eqn:He; rewrite ?He.
  - eexists _, _, _. split; [reflexivity|]. stats_fields. split_and!; [done..| | |].
    + intros Hv. split; [|done]. by apply make_copy'.
    + unfold Simple_entry. cbn. by rewrite lookup_delete_eq.
    + intros h2 now2. rewrite SimpleFacts.Simple_Get_absent by (cbn; apply lookup_delete_eq).
      eauto.
  - eexists _, _, _. split; [reflexivity|]. stats_fields. split_and!; [done..| |].
    + intros Hv. split; [|done]. by apply make_copy'.
    + unfold Simple_entry. cbn. by rewrite Hi.
Qed.

Lemma SimpleCache_Get_serves_stale_once_witness :
  let e := 1000 + 100 * Millisecond in
  let now := 1000 + 150 * Millisecond in
  ("ttl_key"%string <> ""%string /\
   Simple_entry simple_ttl "ttl_key" = Some (Slice 0 0 0, e)) /\
  exists h' c' s,
    Get SimpleCache_Cache [] simple_ttl "ttl_key" now = Some (h', c', (s, true)) /\
    Hits (Stats_ SimpleCache_Cache c')
    = AddInt64 (Hits (Stats_ SimpleCache_Cache simple_ttl)) 1 /\
    Misses (Stats_ SimpleCache_Cache c') = Misses (Stats_ SimpleCache_Cache simple_ttl) /\
    (slice_valid [] (Slice 0 0 0) ->
     h' = [] ++ [slice_bytes [] (Slice 0 0 0)] /\
     s = Slice (length ([] : list (list byte))) 0 (slice_len (Slice 0 0 0))) /\
    (if passed now e
     then Simple_entry c' "ttl_key" = None /\
          forall h2 now2, exists c2,
            Get SimpleCache_Cache h2 c' "ttl_key" now2 = Some (h2, c2, (nil_slice, false))
     else Simple_entry c' "ttl_key" = Some (Slice 0 0 0, e)).
Proof.
  assert (Simple_entry simple_ttl "ttl_key" = Some (Slice 0 0 0, 1000 + 100 * Millisecond))
    as Hs by (vm_compute; reflexivity).
  assert ("ttl_key"%string <> ""%string) as Hk by done.
  split; [by split|].
  exact (SimpleCache_Get_serves_stale_once [] simple_ttl "ttl_key"
           (1000 + 150 * Millisecond) _ _ Hk Hs).
Defined.

(** ** Writing to a resident key *)

Lemma Simple_OverwriteSpec h c key v ttl now :
  key <> ""%string -> Simple.closed c = false -> slice_valid h v ->
  is_Some (Simple_entry c key) ->
  OverwriteSpec SimpleCache_Cache Simple_entry
    (fun c ttl now => deadline ttl (Simple.defaultTTL c) now) h c key v ttl now.
Proof.
  intros Hk Hopen Hv Hres. unfold OverwriteSpec. cbn [SetWithTTL SimpleCache_Cache].
  rewrite SimpleFacts.Simple_SetWithTTL_ok by done.
  eexists. split; [done|]. stats_fields. split_and!; try done.
  - unfold Simple_entry. cbn. by rewrite lookup_insert_eq.
  - intros k Hne. unfold Simple_entry. cbn. by rewrite lookup_insert_ne.
  - cbn. f_equal. apply map_size_insert_Some. unfold Simple_entry in Hres.
    destruct (Simple.items c !! key); [by eexists|by destruct Hres].
Qed.

Lemma LFU_OverwriteSpec it h c key v ttl now :
  key <> ""%string -> LFU.closed c = false -> slice_valid h v ->
  is_Some (LFU_entry c key) ->
  OverwriteSpec (LFUCache_Cache it) LFU_entry
    (fun c ttl now => deadline ttl (LFU.defaultTTL c) now) h c key v ttl now.
Proof.
  intros Hk Hopen Hv Hres. unfold OverwriteSpec. cbn [SetWithTTL LFUCache_Cache].
  unfold LFU_entry in Hres. destruct (LFU.items c !! key) as [item|] eqn:Hi;
    [|by destruct Hres].
  rewrite (LFUFacts.LFU_SetWithTTL_existing it h c key item) by done.
  eexists. split; [done|]. stats_fields. split_and!; try done.
  - unfold LFU_entry. cbn. by rewrite lookup_insert_eq.
  - intros k Hne. unfold LFU_entry. cbn. by rewrite lookup_insert_ne.
  - cbn. f_equal. apply map_size_insert_Some. by eexists.
Qed.

Lemma Memory_OverwriteSpec it h c key v ttl now :
  slice_valid h v -> is_Some (Memory_entry c key) ->
  OverwriteSpec (MemoryCache_Cache it) Memory_entry
    (fun c ttl now => far_deadline ttl (DefaultTTL (Memory.config c)) now) h c key v ttl now.
Proof.
  intros Hv Hres. unfold OverwriteSpec. cbn [SetWithTTL MemoryCache_Cache].
  unfold Memory_entry in Hres. destruct (Memory.data c !! key) as [item|] eqn:Hi;
    [|by destruct Hres].
  rewrite MemoryFacts.Memory_SetWithTTL_spec by done. cbv zeta. rewrite Hi.
  assert ((if (0 <? MaxSize (Memory.config c))
              && (MaxSize (Memory.config c) <=? Z.of_nat (size (Memory.data c)))
           then c else c) = c) as -> by (by destruct (_ && _)).
  eexists. split; [done|]. stats_fields. split_and!; try done.
  - unfold Memory_entry. cbn. by rewrite lookup_insert_eq.
  - intros k Hne. unfold Memory_entry. cbn. by rewrite lookup_insert_ne.
  - cbn. f_equal. apply map_size_insert_Some. by eexists.
Qed.

Lemma LRU_OverwriteSpec h c key v ttl now :
  LRUInv.wf c -> key <> ""%string -> LRU.closed c = false -> slice_valid h v ->
  is_Some (LRUInv.entry c key) ->
  OverwriteSpec LRUCache_Cache LRUInv.entry
    (fun c ttl now => deadline ttl (LRU.defaultTTL c) now) h c key v ttl now.
Proof.
  intros [l Hr] Hk Hopen Hv Hres. unfold OverwriteSpec. cbn [SetWithTTL LRUCache_Cache].
  apply (LRU_entry_is_Some c l key Hr) in Hres as [a Hka].
  destruct (Set_existing_order h c l key a v ttl now) as (ns' & -> & _ & _ & Hek & Hother);
    [done..|].
  eexists. split; [done|]. stats_fields. by split_and!.
Qed.

(** X4.  A [SetWithTTL] on a resident key replaces the value and the expiry
    of that entry in place, in each of the four engines: no entry is
    evicted, even from a full cache, no other entry changes, and the
    counters of [Stats] stay as they are. *)
Theorem Overwrite_in_place (it : MapIter) (h : heap) (key : string) (v : slice)
    (ttl : Duration) (now : Time) (cs : Simple.SimpleCache) (cl : LRU.LRUCache)
    (cf : LFU.LFUCache) (cm : Memory.MemoryCache) :
  key <> ""%string -> slice_valid h v ->
  Simple.closed cs = false -> is_Some (Simple_entry cs key) ->
  LRUInv.wf cl -> LRU.closed cl = false -> is_Some (LRUInv.entry cl key) ->
  LFU.closed cf = false -> is_Some (LFU_entry cf key) ->
  is_Some (Memory_entry cm key) ->
  OverwriteSpec SimpleCache_Cache Simple_entry
    (fun c ttl now => deadline ttl (Simple.defaultTTL c) now) h cs key v ttl now /\
  OverwriteSpec LRUCache_Cache LRUInv.entry
    (fun c ttl now => deadline ttl (LRU.defaultTTL c) now) h cl key v ttl now /\
  OverwriteSpec (LFUCache_Cache it) LFU_entry
    (fun c ttl now => deadline ttl (LFU.defaultTTL c) now) h cf key v ttl now /\
  OverwriteSpec (MemoryCache_Cache it) Memory_entry
    (fun c ttl now => far_deadline ttl (DefaultTTL (Memory.config c)) now)
    h cm key v ttl now.
Proof.
  intros Hk Hv Hcs Hrs Hwf Hcl Hrl Hcf Hrf Hrm. split_and!.
  - by apply Simple_OverwriteSpec.
  - by apply LRU_OverwriteSpec.
  - by apply LFU_OverwriteSpec.
  - by apply Memory_OverwriteSpec.
Qed.

Lemma Overwrite_in_place_witness :
  ("ttl_key"%string <> ""%string /\ slice_valid [] nil_slice /\
   Simple.closed simple_ttl = false /\ is_Some (Simple_entry simple_ttl "ttl_key") /\
   LRUInv.wf lru_ttl /\ LRU.closed lru_ttl = false /\
   is_Some (LRUInv.entry lru_ttl "ttl_key") /\
   LFU.closed lfu_ttl = false /\ is_Some (LFU_entry lfu_ttl "ttl_key") /\
   is_Some (Memory_entry memory_ttl "ttl_key")) /\
  OverwriteSpec SimpleCache_Cache Simple_entry
    (fun c ttl now => deadline ttl (Simple.defaultTTL c) now)
    [] simple_ttl "ttl_key" nil_slice 0 2000 /\
  OverwriteSpec LRUCache_Cache LRUInv.entry
    (fun c ttl now => deadline ttl (LRU.defaultTTL c) now)
    [] lru_ttl "ttl_key" nil_slice 0 2000 /\
  OverwriteSpec (LFUCache_Cache keyOrder) LFU_entry
    (fun c ttl now => deadline ttl (LFU.defaultTTL c) now)
    [] lfu_ttl "ttl_key" nil_slice 0 2000 /\
  OverwriteSpec (MemoryCache_Cache keyOrder) Memory_entry
    (fun c ttl now => far_deadline ttl (DefaultTTL (Memory.config c)) now)
    [] memory_ttl "ttl_key" nil_slice 0 2000.
Proof.
  assert ("ttl_key"%string <> ""%string) as Hk by done.
  assert (slice_valid [] nil_slice) as Hv by done.
  assert (is_Some (Simple_entry simple_ttl "ttl_key")) as Hrs by (vm_compute; eauto).
  assert (is_Some (LRUInv.entry lru_ttl "ttl_key")) as Hrl by (vm_compute; eauto).
  assert (is_Some (LFU_entry lfu_ttl "ttl_key")) as Hrf by (vm_compute; eauto).
  assert (is_Some (Memory_entry memory_ttl "ttl_key")) as Hrm by (vm_compute; eauto).
  split; [split_and!; first [done | exact lru_ttl_wf]|].
  exact (Overwrite_in_place keyOrder [] "ttl_key" nil_slice 0 2000 simple_ttl lru_ttl
           lfu_ttl memory_ttl Hk Hv eq_refl Hrs lru_ttl_wf eq_refl Hrl eq_refl Hrf Hrm).
Defined.

(** ** Storing, then reading *)

(** What [SetThenGet] returns once the write is known to have stored the
    entry and the read to honour its expiry. *)
Lemma SetThenGet_resident {T : Type} (E : Cache T)
    (entry : T -> string -> option (slice * Time)) (expired : Time -> Time -> bool)
    h c c' key v ttl t0 t e :
  slice_valid h v ->
  SetWithTTL E h c key v ttl t0 = Some (h ++ [slice_bytes h v], c', None) ->
  ResidentGet E entry expired (h ++ [slice_bytes h v]) c' key t
    (Slice (length h) 0 (slice_len v)) e ->
  SetThenGet E h c key v ttl t0 t
  = Some (if expired t e then [] else slice_bytes h v, negb (expired t e)).
Proof.
  intros Hv Hset Hget. unfold SetThenGet. rewrite Hset, bind_Some.
  assert (slice_len v = length (slice_bytes h v)) as Hlen
    by (by rewrite slice_bytes_length).
  unfold ResidentGet in Hget. rewrite Hlen in Hget. clear Hset.
  generalize dependent (slice_bytes h v). intros bs Hget _.
  destruct (expired t e).
  - destruct Hget as (c2 & -> & _). by rewrite bind_Some.
  - destruct Hget as (h2 & c2 & s & -> & _ & _ & Hcopy). rewrite bind_Some.
    destruct Hcopy as [-> ->]; [apply slice_valid_whole|].
    cbn [negb slice_len]. do 2 f_equal.
    rewrite (slice_bytes_whole h bs). apply slice_bytes_whole.
Qed.

Lemma LRU_SetThenGet h c key v ttl t0 t :
  LRUInv.wf c -> key <> ""%string -> LRU.closed c = false -> 0 < LRU.maxSize c ->
  slice_valid h v ->
  SetThenGet LRUCache_Cache h c key v ttl t0 t
  = let e := deadline ttl (LRU.defaultTTL c) t0 in
    Some (if passed t e then [] else slice_bytes h v, negb (passed t e)).
Proof.
  intros [l Hr] Hk Hopen Hpos Hv. cbv zeta.
  assert (exists c', LRU.SetWithTTL h c key v ttl t0 = Some (h ++ [slice_bytes h v], c', None) /\
                     LRUInv.wf c' /\
                     LRUInv.entry c' key
                     = Some (Slice (length h) 0 (slice_len v),
                             deadline ttl (LRU.defaultTTL c) t0)) as (c' & Hset & Hwf & He).
  { destruct (LRU.items c !! key) as [a|] eqn:Hka.
    - destruct (Set_existing_order h c l key a v ttl t0) as (ns' & Heq & Hwf & _ & He & _);
        [done..|].
      by eexists.
    - destruct (Set_new_order h c l key v ttl t0) as (c' & Heq & Hwf & He & _); [done..|].
      by eexists. }
  apply (SetThenGet_resident LRUCache_Cache LRUInv.entry passed _ _ c'); [done..|].
  by apply LRU_ResidentGet.
Qed.

Lemma LFU_SetThenGet it h c key v ttl t0 t :
  key <> ""%string -> LFU.closed c = false -> slice_valid h v ->
  SetThenGet (LFUCache_Cache it) h c key v ttl t0 t
  = let e := deadline ttl (LFU.defaultTTL c) t0 in
    Some (if passed t e then [] else slice_bytes h v, negb (passed t e)).
Proof.
  intros Hk Hopen Hv. cbv zeta.
  assert (exists c', LFU.SetWithTTL it h c key v ttl t0 = (h ++ [slice_bytes h v], c', None) /\
                     LFU_entry c' key
                     = Some (Slice (length h) 0 (slice_len v),
                             deadline ttl (LFU.defaultTTL c) t0)) as (c' & Hset & He).
  { destruct (LFU.items c !! key) as [item|] eqn:Hi.
    - rewrite (LFUFacts.LFU_SetWithTTL_existing it h c key item) by done.
      eexists. split; [done|]. unfold LFU_entry. cbn. by rewrite lookup_insert_eq.
    - rewrite LFUFacts.LFU_SetWithTTL_new by done. cbv zeta.
      eexists. split; [done|]. unfold LFU_entry. cbn. by rewrite lookup_insert_eq. }
  apply (SetThenGet_resident (LFUCache_Cache it) LFU_entry passed _ _ c'); [done| |].
  - cbn [SetWithTTL LFUCache_Cache]. by rewrite Hset.
  - by apply LFU_ResidentGet.
Qed.

Lemma Memory_SetThenGet it h c key v ttl t0 t :
  slice_valid h v ->
  SetThenGet (MemoryCache_Cache it) h c key v ttl t0 t
  = let e := far_deadline ttl (DefaultTTL (Memory.config c)) t0 in
    Some (if After t e then [] else slice_bytes h v, negb (After t e)).
Proof.
  intros Hv. cbv zeta.
  assert (exists c', Memory.SetWithTTL it h c key v ttl t0
                     = (h ++ [slice_bytes h v], c', None) /\
                     Memory_entry c' key
                     = Some (Slice (length h) 0 (slice_len v),
                             far_deadline ttl (DefaultTTL (Memory.config c)) t0))
    as (c' & Hset & He).
  { rewrite MemoryFacts.Memory_SetWithTTL_spec by done. cbv zeta.
    eexists. split; [done|]. unfold Memory_entry. cbn. by rewrite lookup_insert_eq. }
  apply (SetThenGet_resident (MemoryCache_Cache it) Memory_entry After _ _ c'); [done| |].
  - cbn [SetWithTTL MemoryCache_Cache]. by rewrite Hset.
  - by apply Memory_ResidentGet.
Qed.

(** X5.  In [LRUCache], [LFUCache] and [MemoryCache], a value stored at
    [t0] and read at [t] comes back, byte for byte, exactly when the expiry
    computed at [t0] has not passed at [t]; after that the read is a miss.
    The expiry is [t0 + ttl] for a positive [ttl], else [t0] plus the
    default TTL when that is positive; without either the [memory] package
    keeps the entry for ever and [MemoryCache] for a hundred years. *)
Theorem Set_then_Get_until_expiry (it : MapIter) (h : heap) (key : string) (v : slice)
    (ttl : Duration) (t0 t : Time) (cl : LRU.LRUCache) (cf : LFU.LFUCache)
    (cm : Memory.MemoryCache) :
  key <> ""%string -> slice_valid h v ->
  LRUInv.wf cl -> LRU.closed cl = false -> 0 < LRU.maxSize cl ->
  LFU.closed cf = false ->
  SetThenGet LRUCache_Cache h cl key v ttl t0 t
  = (let e := deadline ttl (LRU.defaultTTL cl) t0 in
     Some (if passed t e then [] else slice_bytes h v, negb (passed t e))) /\
  SetThenGet (LFUCache_Cache it) h cf key v ttl t0 t
  = (let e := deadline ttl (LFU.defaultTTL cf) t0 in
     Some (if passed t e then [] else slice_bytes h v, negb (passed t e))) /\
  SetThenGet (MemoryCache_Cache it) h cm key v ttl t0 t
  = (let e := far_deadline ttl (DefaultTTL (Memory.config cm)) t0 in
     Some (if After t e then [] else slice_bytes h v, negb (After t e))).
Proof.
  intros Hk Hv Hwf Hcl Hpos Hcf. split_and!.
  - by apply LRU_SetThenGet.
  - by apply LFU_SetThenGet.
  - by apply Memory_SetThenGet.
Qed.

Lemma Set_then_Get_until_expiry_witness :
  ("k"%string <> ""%string /\ slice_valid [] nil_slice /\
   LRUInv.wf lru_ttl /\ LRU.closed lru_ttl = false /\ 0 < LRU.maxSize lru_ttl /\
   LFU.closed lfu_ttl = false) /\
  SetThenGet LRUCache_Cache [] lru_ttl "k" nil_slice Second 1000 2000
  = (let e := deadline Second (LRU.defaultTTL lru_ttl) 1000 in
     Some (if passed 2000 e then [] else slice_bytes [] nil_slice, negb (passed 2000 e))) /\
  SetThenGet (LFUCache_Cache keyOrder) [] lfu_ttl "k" nil_slice Second 1000 2000
  = (let e := deadline Second (LFU.defaultTTL lfu_ttl) 1000 in
     Some (if passed 2000 e then [] else slice_bytes [] nil_slice, negb (passed 2000 e))) /\
  SetThenGet (MemoryCache_Cache keyOrder) [] memory_ttl "k" nil_slice Second 1000 2000
  = (let e := far_deadline Second (DefaultTTL (Memory.config memory_ttl)) 1000 in
     Some (if After 2000 e then [] else slice_bytes [] nil_slice, negb (After 2000 e))).
Proof.
  assert ("k"%string <> ""%string) as Hk by done.
  assert (slice_valid [] nil_slice) as Hv by done.
  assert (0 < LRU.maxSize lru_ttl) as Hpos by (vm_compute; reflexivity).
  split; [split_and!; first [done | exact lru_ttl_wf]|].
  exact (Set_then_Get_until_expiry keyOrder [] "k" nil_slice Second 1000 2000
           lru_ttl lfu_ttl memory_ttl Hk Hv lru_ttl_wf eq_refl Hpos eq_refl).
Defined.

(** * The recency order of [LRUCache] *)

Section lru_order.
Import LRU LRUInv LRUFacts LRUList.

Lemma recency_size c l : repr c l -> length (recency c) = size (items c).
Proof.
  intros Hr. rewrite (recency_repr _ _ Hr).
  rewrite <- (size_dom (D := gset string)).
  rewrite <- (size_list_to_set (C := gset string)) by (by eapply keys_NoDup).
  f_equal. apply set_eq. intros k.
  by rewrite elem_of_list_to_set, elem_of_dom, (keys_resident _ _ _ Hr).
Qed.

(** The second loop of the sweep takes the keys out of the list and keeps
    the order of the others. *)
Lemma removeKeys_order c l (keys : list string) :
  repr c l ->
  exists c',
    removeKeys c keys = Some c' /\ (exists l', repr c' l') /\
    recency c' = filter (fun x => x ∉ keys) (recency c).
Proof.
  revert c l. induction keys as [|key keys IH]; intros c l Hr.
  - exists c. split_and!; [done|by exists l|].
    symmetry. clear. induction (recency c) as [|x L IHL]; [done|].
    rewrite filter_cons_True by set_solver. by rewrite IHL.
  - cbn [removeKeys]. destruct (items c !! key) as [a|] eqn:Hka.
    + destruct (removeItem_order c l key a Hr Hka) as (ns1 & -> & [l1 Hr1] & _ & Hrec1).
      rewrite bind_Some. destruct (IH _ _ Hr1) as (c' & -> & Hwf & Hrec).
      exists c'. split_and!; [done..|]. rewrite Hrec, Hrec1, list_filter_filter.
      apply list_filter_iff. intros x. set_solver.
    + destruct (IH _ _ Hr) as (c' & -> & Hwf & Hrec).
      exists c'. split_and!; [done..|]. rewrite Hrec.
      assert (key ∉ recency c) as Habs.
      { rewrite (recency_repr _ _ Hr), (keys_resident _ _ _ Hr), Hka. by intros [? ?]. }
      clear -Habs. induction (recency c) as [|x L IHL]; [done|].
      apply not_elem_of_cons in Habs as [Hne Habs].
      destruct (decide (x ∈ keys)).
      * rewrite !filter_cons_False by set_solver. by apply IHL.
      * rewrite !filter_cons_True by set_solver. f_equal. by apply IHL.
Qed.

(** X9.  The list of an [LRUCache] holds exactly the resident keys, each
    once: a key is on the walk from the head sentinel to the tail sentinel
    if and only if the map has an entry for it, and [Keys] of [Stats] is
    the length of that walk. *)
Theorem LRU_list_is_the_map (c : LRU.LRUCache) :
  LRUInv.wf c ->
  NoDup (LRUList.recency c) /\
  (forall k, k ∈ LRUList.recency c <-> is_Some (LRUInv.entry c k)) /\
  Keys (LRU.Stats_ c) = Z.of_nat (length (LRUList.recency c)).
Proof.
  intros [l Hr]. split_and!.
  - rewrite (recency_repr _ _ Hr). by eapply keys_NoDup.
  - intros k. rewrite (recency_repr _ _ Hr), (keys_resident _ _ _ Hr).
    by rewrite (LRU_entry_is_Some c l k Hr).
  - rewrite LRU_Stats_Keys. by rewrite (recency_size _ _ Hr).
Qed.

Lemma LRU_list_is_the_map_witness :
  LRUInv.wf lru_ttl /\
  NoDup (LRUList.recency lru_ttl) /\
  (forall k, k ∈ LRUList.recency lru_ttl <-> is_Some (LRUInv.entry lru_ttl k)) /\
  Keys (LRU.Stats_ lru_ttl) = Z.of_nat (length (LRUList.recency lru_ttl)).
Proof. split; [exact lru_ttl_wf|exact (LRU_list_is_the_map lru_ttl lru_ttl_wf)]. Defined.

(** X10.  A [Get] of a resident key of an [LRUCache] is a hit exactly when
    the expiry has not passed.  A hit moves the key to the front of the
    list; a read after the expiry takes the key out of the list.  Either
    way the other keys keep their relative order and the list stays well
    formed. *)
Theorem LRU_Get_moves_to_front (h : heap) (c : LRU.LRUCache) (key : string) (now : Time)
    (v : slice) (e : Time) :
  LRUInv.wf c -> key <> ""%string -> LRUInv.entry c key = Some (v, e) ->
  exists h' c' r,
    LRU.Get h c key now = Some (h', c', (r, negb (passed now e))) /\ LRUInv.wf c' /\
    LRUList.recency c' =
      if passed now e then filter (fun x => x <> key) (LRUList.recency c)
      else key :: filter (fun x => x <> key) (LRUList.recency c).
Proof.
  intros [l Hr] Hk Hentry. unfold entry in Hentry.
  destruct (items c !! key) as [a|] eqn:Hka; [|done]. rewrite bind_Some in Hentry.
  destruct (nodes c !! a) as [n|] eqn:Hn; [|done]. simplify_eq/=.
  change (passed now (expiresAt n)) with (isExpired now n).
  destruct (isExpired now n) eqn:He.
  - destruct (removeItem_order c l key a Hr Hka) as (ns' & Hrm & [l' Hr'] & Hsp & Hrec).
    exists h, (add_miss (with_nodes ns' (with_items (delete key (items c)) c))), nil_slice.
    split_and!.
    + unfold Get. rewrite decide_False by done. rewrite Hka. cbv zeta.
      rewrite load_Some, Hn. simpl. by rewrite He, Hrm.
    + exists l'. by eapply repr_counters.
    + by rewrite <- Hrec.
  - destruct (Get_live_order h c l key (value n) now Hr)
      as (h' & ns' & s' & Hget & Hwf & _ & Hrec).
    { split; [done|]. by exists a, n. }
    by exists h', (add_hit (with_nodes ns' c)), s'.
Qed.

Lemma LRU_Get_moves_to_front_witness :
  let e := 1000 + 100 * Millisecond in
  (LRUInv.wf lru_ttl /\ "ttl_key"%string <> ""%string /\
   LRUInv.entry lru_ttl "ttl_key" = Some (Slice 0 0 0, e)) /\
  exists h' c' r,
    LRU.Get [] lru_ttl "ttl_key" 2000 = Some (h', c', (r, negb (passed 2000 e))) /\
    LRUInv.wf c' /\
    LRUList.recency c' =
      if passed 2000 e then filter (fun x => x <> "ttl_key"%string) (LRUList.recency lru_ttl)
      else "ttl_key"%string
             :: filter (fun x => x <> "ttl_key"%string) (LRUList.recency lru_ttl).
Proof.
  assert (LRUInv.entry lru_ttl "ttl_key" = Some (Slice 0 0 0, 1000 + 100 * Millisecond))
    as Hl by (vm_compute; reflexivity).
  assert ("ttl_key"%string <> ""%string) as Hk by done.
  split; [by split_and!; [exact lru_ttl_wf|..]|].
  exact (LRU_Get_moves_to_front [] lru_ttl "ttl_key" 2000 _ _ lru_ttl_wf Hk Hl).
Defined.

(** X11.  An accepted [SetWithTTL] on an [LRUCache] puts its key at the front
    of the list.  A resident key is moved there; a new key is added there,
    and when the cache already holds [maxSize] keys the key at the end of
    the list, the least recently used one, is dropped and one eviction is
    counted.  The other keys keep their relative order. *)
Theorem LRU_Set_puts_in_front (h : heap) (c : LRU.LRUCache) (key : string) (v : slice)
    (ttl : Duration) (now : Time) :
  LRUInv.wf c -> key <> ""%string -> LRU.closed c = false -> 0 < LRU.maxSize c ->
  slice_valid h v ->
  exists c',
    LRU.SetWithTTL h c key v ttl now = Some (h ++ [slice_bytes h v], c', None) /\
    LRUInv.wf c' /\
    LRUList.recency c' =
      key :: (if decide (key ∈ LRUList.recency c)
              then filter (fun x => x <> key) (LRUList.recency c)
              else if decide (Z.of_nat (length (LRUList.recency c)) < LRU.maxSize c)
                   then LRUList.recency c
                   else removelast (LRUList.recency c)) /\
    LRU.evictions c' =
      (if decide (key ∈ LRUList.recency c) then LRU.evictions c
       else if decide (Z.of_nat (length (LRUList.recency c)) < LRU.maxSize c)
            then LRU.evictions c
            else AddInt64 (LRU.evictions c) 1).
Proof.
  intros [l Hr] Hk Hopen Hpos Hv.
  rewrite (recency_size _ _ Hr).
  assert (key ∈ recency c <-> is_Some (items c !! key)) as Hmem.
  { rewrite (recency_repr _ _ Hr). by apply keys_resident. }
  destruct (items c !! key) as [a|] eqn:Hka.
  - rewrite 2!(decide_True (P := key ∈ recency c)) by (apply Hmem; by eexists).
    destruct (Set_existing_order h c l key a v ttl now) as (ns' & Heq & Hwf & Hrec & _);
      [done..|].
    by exists (with_nodes ns' c).
  - rewrite 2!(decide_False (P := key ∈ recency c)) by (intros [x Hx]%Hmem; done).
    destruct (Set_new_order h c l key v ttl now) as (c' & Heq & Hwf & _ & Hcases); [done..|].
    exists c'. split; [done|]. split; [done|].
    destruct Hcases as [(Hroom & Hrec & Hev & _)|(Hfull & victim & _ & Hrec & Hev & _)].
    + by rewrite 2!decide_True by done.
    + by rewrite 2!decide_False by lia.
Qed.

Lemma LRU_Set_puts_in_front_witness :
  (LRUInv.wf lru_ttl /\ "other"%string <> ""%string /\ LRU.closed lru_ttl = false /\
   0 < LRU.maxSize lru_ttl /\ slice_valid [] nil_slice) /\
  exists c',
    LRU.SetWithTTL [] lru_ttl "other" nil_slice 0 2000
    = Some ([] ++ [slice_bytes [] nil_slice], c', None) /\
    LRUInv.wf c' /\
    LRUList.recency c' =
      "other"%string
        :: (if decide ("other"%string ∈ LRUList.recency lru_ttl)
            then filter (fun x => x <> "other"%string) (LRUList.recency lru_ttl)
            else if decide (Z.of_nat (length (LRUList.recency lru_ttl))
                            < LRU.maxSize lru_ttl)
                 then LRUList.recency lru_ttl
                 else removelast (LRUList.recency lru_ttl)) /\
    LRU.evictions c' =
      (if decide ("other"%string ∈ LRUList.recency lru_ttl) then LRU.evictions lru_ttl
       else if decide (Z.of_nat (length (LRUList.recency lru_ttl)) < LRU.maxSize lru_ttl)
            then LRU.evictions lru_ttl
            else AddInt64 (LRU.evictions lru_ttl) 1).
Proof.
  assert ("other"%string <> ""%string) as Hk by done.
  assert (0 < LRU.maxSize lru_ttl) as Hpos by (vm_compute; reflexivity).
  assert (slice_valid [] nil_slice) as Hv by done.
  split; [split_and!; first [done | exact lru_ttl_wf]|].
  exact (LRU_Set_puts_in_front [] lru_ttl "other" nil_slice 0 2000 lru_ttl_wf Hk eq_refl
           Hpos Hv).
Defined.

(** X12.  [Delete] on an [LRUCache] unlinks the node of the key and keeps
    the order of the other keys; the list stays well formed. *)
Theorem LRU_Delete_keeps_order (c : LRU.LRUCache) (key : string) :
  LRUInv.wf c ->
  exists c' deleted,
    LRU.Delete c key = Some (c', deleted) /\ LRUInv.wf c' /\
    LRUList.recency c' =
      if deleted then filter (fun x => x <> key) (LRUList.recency c)
      else LRUList.recency c.
Proof.
  intros [l Hr]. unfold Delete. destruct (decide (key = "")).
  { exists c, false. split_and!; [done|by exists l|done]. }
  destruct (items c !! key) as [a|] eqn:Hka.
  - destruct (removeItem_order c l key a Hr Hka) as (ns' & -> & Hwf & _ & Hrec).
    by eexists _, true.
  - exists c, false. split_and!; [done|by exists l|done].
Qed.

Lemma LRU_Delete_keeps_order_witness :
  LRUInv.wf lru_ttl /\
  exists c' deleted,
    LRU.Delete lru_ttl "ttl_key" = Some (c', deleted) /\ LRUInv.wf c' /\
    LRUList.recency c' =
      if deleted then filter (fun x => x <> "ttl_key"%string) (LRUList.recency lru_ttl)
      else LRUList.recency lru_ttl.
Proof.
  split; [exact lru_ttl_wf|exact (LRU_Delete_keeps_order lru_ttl "ttl_key" lru_ttl_wf)].
Defined.

(** X13.  A pass of the sweep over an [LRUCache] takes the keys whose expiry
    has passed out of the list and leaves the other keys in the order they
    were in: the sweep does not disturb the recency order. *)
Theorem LRU_sweep_keeps_order (it : MapIter) (c : LRU.LRUCache) (now : Time) :
  LRUInv.wf c ->
  exists c',
    LRU.removeExpired it c now = Some c' /\ LRUInv.wf c' /\
    LRUList.recency c' = filter (fun k => LRU_stale c now k = false) (LRUList.recency c).
Proof.
  intros [l Hr]. unfold removeExpired.
  rewrite (collect_expired c now _ []); cycle 1.
  { intros k a Hka%elem_of_range. destruct (repr_lookup _ _ _ _ Hr Hka) as [_ (n & Hn & _)].
    eauto. }
  rewrite bind_Some, app_nil_l.
  set (ks := (filter (fun e => expired_at c now e.2 = true) (range it (items c))).*1).
  destruct (removeKeys_order c l ks Hr) as (c' & -> & [l' Hr'] & Hrec).
  rewrite bind_Some.
  assert (forall k, k ∈ ks <-> LRU_stale c now k = true) as Hks.
  { intros k. unfold ks, LRU_stale, entry. rewrite list_elem_of_fmap. split.
    - intros ([k' a] & -> & [He Hin%elem_of_range]%list_elem_of_filter). simpl in *.
      rewrite Hin, bind_Some. unfold expired_at in He.
      destruct (nodes c !! a) as [n|]; [|done]. by rewrite bind_Some.
    - destruct (items c !! k) as [a|] eqn:Hka; [|done]. rewrite bind_Some.
      destruct (nodes c !! a) as [n|] eqn:Hn; [|done]. rewrite bind_Some. intros He.
      exists (k, a). split; [done|]. apply list_elem_of_filter. split.
      + unfold expired_at. simpl. by rewrite Hn.
      + by apply elem_of_range. }
  assert (recency c' = filter (fun k => LRU_stale c now k = false) (recency c)) as Hrec'.
  { rewrite Hrec. apply list_filter_iff. intros k. rewrite Hks.
    by destruct (LRU_stale c now k). }
  destruct (0 <? length ks)%nat; eexists; (split; [done|]); split; try done.
  - exists l'. by eapply repr_counters.
  - by exists l'.
Qed.

Lemma LRU_sweep_keeps_order_witness :
  LRUInv.wf lru_ttl /\
  exists c',
    LRU.removeExpired keyOrder lru_ttl (1000 + 150 * Millisecond) = Some c' /\
    LRUInv.wf c' /\
    LRUList.recency c'
    = filter (fun k => LRU_stale lru_ttl (1000 + 150 * Millisecond) k = false)
        (LRUList.recency lru_ttl).
Proof.
  split; [exact lru_ttl_wf|].
  exact (LRU_sweep_keeps_order keyOrder lru_ttl (1000 + 150 * Millisecond) lru_ttl_wf).
Defined.

End lru_order.

(** * What holds after any sequence of calls *)

Lemma Reachable_inv {T : Type} (E : MapIter -> Cache T) sweep allowed (c0 : T)
    (I : T -> Prop) :
  I c0 ->
  (forall it h h' c c' call, I c -> call_valid h call -> allowed call ->
     call_step (E it) (sweep it) h c call = Some (h', c') -> I c') ->
  forall c, Reachable E sweep allowed c0 c -> I c.
Proof. intros H0 Hstep c Hreach. induction Hreach; eauto. Qed.

Lemma size_insert_le {A} (m : gmap string A) k x :
  Z.of_nat (size (<[k := x]> m)) <= Z.of_nat (size m) + 1.
Proof.
  destruct (m !! k) eqn:Hk.
  - rewrite map_size_insert_Some by done. lia.
  - rewrite map_size_insert_None by done. lia.
Qed.

Lemma size_delete_le {A} (m : gmap string A) k :
  Z.of_nat (size (delete k m)) <= Z.of_nat (size m).
Proof. apply inj_le, map_subseteq_size, delete_subseteq. Qed.

Lemma size_filter_le {A} (P : string * A -> Prop) `{!forall x, Decision (P x)}
    (m : gmap string A) :
  Z.of_nat (size (filter P m)) <= Z.of_nat (size m).
Proof. apply inj_le, map_size_filter. Qed.

Lemma size_positive {A} (m : gmap string A) : 0 < Z.of_nat (size m) -> m <> ∅.
Proof. intros Hpos ->. rewrite map_size_empty in Hpos. lia. Qed.

(** ** [LRUCache] *)

Lemma capacity_pos maxSize : 0 < capacity maxSize.
Proof. unfold capacity. destruct (Z.leb_spec maxSize 0); lia. Qed.

Section lru_reach.
Import LRU LRUInv LRUFacts.
Variable m : Z.
Hypothesis m_pos : 0 < m.

Lemma LRU_bounded_counters c c' :
  LRU_bounded m c ->
  nodes c' = nodes c -> head c' = head c -> tail c' = tail c -> items c' = items c ->
  maxSize c' = maxSize c -> LRU_bounded m c'.
Proof.
  intros ([l Hr] & Hm & Hsz) Hn Hh Ht Hi Hm'. unfold LRU_bounded. rewrite Hi, Hm'.
  split; [|done]. exists l. by eapply repr_counters.
Qed.

Lemma LRU_Get_bounded h c key now :
  LRU_bounded m c ->
  exists h' c' r, Get h c key now = Some (h', c', r) /\ LRU_bounded m c'.
Proof.
  intros Hb. pose proof Hb as ([l Hr] & Hm & Hsz).
  assert (LRU_bounded m (add_miss c)) as Hmiss by (by eapply LRU_bounded_counters).
  destruct (decide (key = "")) as [->|Hk]; [by eexists _, _, _|].
  destruct (items c !! key) as [a|] eqn:Hka.
  - destruct (repr_lookup _ _ _ _ Hr Hka) as [_ (n & Hn & _)].
    destruct (isExpired now n) eqn:He.
    + destruct (LRU_Get_expired h c l key a n now) as (ns' & l' & -> & Hr' & _); [done..|].
      eexists _, _, _. split; [done|]. split; [by exists l'|]. cbn. split; [done|].
      pose proof (size_delete_le (items c) key). lia.
    + destruct (Get_live_order h c l key (value n) now Hr)
        as (h' & ns' & s' & -> & Hwf & _).
      { split; [done|]. by exists a, n. }
      eexists _, _, _. split; [done|]. by split.
  - rewrite LRU_Get_absent by done. by eexists _, _, _.
Qed.

Lemma LRU_SetWithTTL_bounded h c key v ttl now :
  LRU_bounded m c -> slice_valid h v ->
  exists h' c' err, SetWithTTL h c key v ttl now = Some (h', c', err) /\ LRU_bounded m c'.
Proof.
  intros Hb Hv. pose proof Hb as ([l Hr] & Hm & Hsz).
  destruct (decide (key = "")) as [->|Hk]; [by eexists _, _, _|].
  destruct (closed c) eqn:Hopen.
  { unfold SetWithTTL. rewrite decide_False by done. rewrite Hopen. by eexists _, _, _. }
  destruct (items c !! key) as [a|] eqn:Hka.
  - destruct (Set_existing_order h c l key a v ttl now) as (ns' & -> & Hwf & _); [done..|].
    eexists _, _, _. split; [done|]. by split.
  - destruct (LRU_insert h c key v ttl now) as (h' & c' & -> & Hwf & _ & Hm' & Hout);
      [by exists l|done|lia|done..|].
    eexists _, _, _. split; [done|]. split; [done|]. split; [congruence|].
    rewrite <- (size_dom (D := gset string)). rewrite <- Hm.
    eapply InsertOutcome_bound; [exact Hout|by apply not_elem_of_dom|].
    rewrite size_dom. lia.
Qed.

Lemma LRU_Delete_bounded c key :
  LRU_bounded m c ->
  exists c' deleted, Delete c key = Some (c', deleted) /\ LRU_bounded m c'.
Proof.
  intros Hb. pose proof Hb as ([l Hr] & Hm & Hsz). unfold Delete.
  destruct (decide (key = "")); [by eexists _, _|].
  destruct (items c !! key) as [a|] eqn:Hka; [|by eexists _, _].
  destruct (removeItem_order c l key a Hr Hka) as (ns' & -> & Hwf & _).
  eexists _, _. split; [done|]. split; [done|]. cbn. split; [done|].
  pose proof (size_delete_le (items c) key). lia.
Qed.

Lemma LRU_Clear_bounded c :
  LRU_bounded m c -> exists c', Clear c = Some c' /\ LRU_bounded m c'.
Proof.
  intros ([l Hr] & Hm & Hsz). destruct (Clear_repr c l Hr) as (ns' & -> & Hr').
  eexists. split; [done|]. split; [by eexists|]. cbn. rewrite map_size_empty. lia.
Qed.

Lemma LRU_Close_bounded c : LRU_bounded m c -> LRU_bounded m (Close c).
Proof.
  intros Hb. unfold Close. destruct (closed c); [done|]. by eapply LRU_bounded_counters.
Qed.

Lemma LRU_sweep_bounded it c now :
  LRU_bounded m c -> exists c', removeExpired it c now = Some c' /\ LRU_bounded m c'.
Proof.
  intros ([l Hr] & Hm & Hsz).
  destruct (LRU_removeExpired_repr it c l now Hr)
    as (c' & l' & -> & Hr' & Hi & _ & _ & _ & _ & _ & Hm' & _).
  exists c'. split; [done|]. split; [by exists l'|]. rewrite Hm', Hi. split; [done|].
  pose proof (size_filter_le (fun e => expired_at c now e.2 = false) (items c)). lia.
Qed.

End lru_reach.

Lemma LRU_bounded_new maxSize defaultTTL :
  LRU_bounded (capacity maxSize) (LRU.NewLRUWithTTL maxSize defaultTTL).
Proof.
  split; [eexists; apply LRUFacts.NewLRUWithTTL_repr|]. split; [done|]. cbn.
  rewrite map_size_empty. pose proof (capacity_pos maxSize). lia.
Qed.

Lemma LRU_step_bounded m it h c call :
  0 < m -> LRU_bounded m c -> call_valid h call ->
  exists h' c',
    call_step LRUCache_Cache (LRU.removeExpired it) h c call = Some (h', c') /\
    LRU_bounded m c'.
Proof.
  intros Hm Hb Hv. destruct call as [key now|key v now|key v ttl now|key| | |now];
    cbn [call_step Get Set_ SetWithTTL Delete Clear Close LRUCache_Cache call_valid] in *.
  - destruct (LRU_Get_bounded m h c key now Hb) as (h' & c' & [s ok] & -> & Hb').
    by eexists _, _.
  - destruct (LRU_SetWithTTL_bounded m Hm h c key v (LRU.defaultTTL c) now Hb Hv)
      as (h' & c' & err & Heq & Hb').
    unfold LRU.Set_. rewrite Heq. by eexists _, _.
  - destruct (LRU_SetWithTTL_bounded m Hm h c key v ttl now Hb Hv)
      as (h' & c' & err & -> & Hb').
    by eexists _, _.
  - destruct (LRU_Delete_bounded m c key Hb) as (c' & d & -> & Hb'). by eexists _, _.
  - destruct (LRU_Clear_bounded m Hm c Hb) as (c' & -> & Hb'). by eexists _, _.
  - eexists _, _. split; [done|]. by apply LRU_Close_bounded.
  - destruct (LRU_sweep_bounded m it c now Hb) as (c' & -> & Hb'). by eexists _, _.
Qed.

Lemma LRU_Reachable_bounded maxSize defaultTTL c :
  Reachable (fun _ => LRUCache_Cache) LRU.removeExpired any_call
    (LRU.NewLRUWithTTL maxSize defaultTTL) c ->
  LRU_bounded (capacity maxSize) c.
Proof.
  apply (Reachable_inv (fun _ => LRUCache_Cache) LRU.removeExpired any_call _
           (LRU_bounded (capacity maxSize))).
  - apply LRU_bounded_new.
  - intros it h h' c1 c2 call Hb Hv _ Hstep.
    destruct (LRU_step_bounded _ it h c1 call (capacity_pos maxSize) Hb Hv)
      as (h2 & c3 & Heq & Hb').
    rewrite Heq in Hstep. by simplify_eq.
Qed.

(** ** [LFUCache] *)

Section lfu_reach.
Import LFU.
Variable m : Z.
Hypothesis m_pos : 0 < m.

Lemma LFU_evictLFU_scan_mem (l : list (string * lfuItem)) :
  l <> [] -> (evictLFU_scan l).1.1 ∈ l.*1.
Proof.
  induction l as [|[kx x] l IH] using rev_ind; [done|]. intros _.
  unfold evictLFU_scan. rewrite foldl_app, fmap_app. cbn [foldl].
  destruct (decide (l = [])) as [->|Hne].
  - cbn. set_solver.
  - specialize (IH Hne). unfold evictLFU_scan in IH.
    destruct (foldl evictLFU_step ("", -1, 0) l) as [[k f] t]. unfold evictLFU_step.
    cbn [fst] in IH. destruct (_ || _ || _); cbn; set_solver.
Qed.

(** While the empty key is not resident, [evictLFU] on a non-empty cache
    deletes one entry, whatever the frequencies are. *)
Lemma LFU_evictLFU_deletes it c :
  items c !! ""%string = None -> items c <> ∅ ->
  exists victim,
    is_Some (items c !! victim) /\
    evictLFU it c = add_evictions 1 (with_items (delete victim (items c)) c).
Proof.
  intros Hempty Hne.
  pose proof (LFU_evictLFU_scan_mem (range it (items c))) as Hmem.
  unfold evictLFU. rewrite decide_False by (by rewrite map_size_empty_iff).
  destruct (evictLFU_scan (range it (items c))) as [[k f] t]. cbn [fst] in Hmem.
  apply list_elem_of_fmap in Hmem as ([k' x] & -> & Hin%elem_of_range);
    [|by rewrite range_nil].
  cbn [fst] in *. exists k'. split; [by eexists|].
  rewrite decide_True; [done|]. intros ->. congruence.
Qed.

Lemma LFU_Get_bounded h c key now :
  LFU_bounded m c -> LFU_bounded m (LFU.Get h c key now).1.2.
Proof.
  intros (Hempty & Hm & Hsz). unfold LFU_bounded, LFU.Get.
  destruct (decide (key = "")); [done|].
  destruct (items c !! key) as [item|] eqn:Hi; [|done].
  destruct (isExpired now item).
  - cbn. split; [by rewrite lookup_delete_ne|]. split; [done|].
    pose proof (size_delete_le (items c) key). lia.
  - cbv zeta. destruct (make h _) as [h1 value]. cbn.
    split; [by rewrite lookup_insert_ne|]. split; [done|].
    by rewrite map_size_insert_Some by done.
Qed.

Lemma LFU_SetWithTTL_bounded it h c key v ttl now :
  LFU_bounded m c -> slice_valid h v ->
  LFU_bounded m (LFU.SetWithTTL it h c key v ttl now).1.2.
Proof.
  intros Hb Hv. pose proof Hb as (Hempty & Hm & Hsz). unfold LFU_bounded.
  destruct (decide (key = "")) as [->|Hk]; [done|].
  destruct (closed c) eqn:Hopen.
  { by rewrite LFUFacts.LFU_SetWithTTL_closed by done. }
  destruct (items c !! key) as [item|] eqn:Hi.
  - rewrite (LFUFacts.LFU_SetWithTTL_existing it h c key item) by done. cbn.
    split; [by rewrite lookup_insert_ne|]. split; [done|].
    by rewrite map_size_insert_Some by done.
  - rewrite LFUFacts.LFU_SetWithTTL_new by done. cbv zeta.
    destruct (Z.leb_spec (maxSize c) (Z.of_nat (size (items c)))) as [Hfull|Hroom].
    + destruct (LFU_evictLFU_deletes it c) as (victim & Hvic & ->);
        [done|apply size_positive; lia|]. cbn.
      split; [rewrite lookup_insert_ne by done|split; [done|]].
      * destruct (decide (victim = "")) as [->|Hne];
          [by rewrite lookup_delete_eq|by rewrite lookup_delete_ne].
      * pose proof (size_insert_le (delete victim (items c)) key
                      {| key := key; value := Slice (length h) 0 (slice_len v);
                         expiresAt := deadline ttl (defaultTTL c) now;
                         frequency := 1; lastAccess := now |}).
        pose proof (size_delete_Some (items c) victim Hvic). lia.
    + cbn. split; [by rewrite lookup_insert_ne|]. split; [done|].
      rewrite map_size_insert_None by done. lia.
Qed.

Lemma LFU_Delete_bounded c key : LFU_bounded m c -> LFU_bounded m (LFU.Delete c key).1.
Proof.
  intros (Hempty & Hm & Hsz). unfold LFU_bounded, LFU.Delete.
  destruct (decide (key = "")); [done|].
  destruct (items c !! key); [|done]. cbn.
  split; [by rewrite lookup_delete_ne|]. split; [done|].
  pose proof (size_delete_le (items c) key). lia.
Qed.

Lemma LFU_sweep_bounded it c now :
  LFU_bounded m c -> LFU_bounded m (LFU.removeExpired it c now).
Proof.
  intros (Hempty & Hm & Hsz). unfold LFU_bounded.
  rewrite LFUFacts.LFU_removeExpired_items.
  assert (maxSize (removeExpired it c now) = maxSize c) as ->.
  { unfold removeExpired. by destruct (0 <? _)%nat. }
  split; [|split; [done|]].
  - apply map_lookup_filter_None. by left.
  - pose proof (size_filter_le (fun e => isExpired now e.2 = false) (items c)). lia.
Qed.

End lfu_reach.

Lemma LFU_bounded_new maxSize defaultTTL :
  LFU_bounded (capacity maxSize) (LFU.NewLFUWithTTL maxSize defaultTTL).
Proof.
  split; [done|]. split; [done|]. cbn. rewrite map_size_empty.
  pose proof (capacity_pos maxSize). lia.
Qed.

Lemma LFU_step_bounded m it h c call h' c' :
  0 < m -> LFU_bounded m c -> call_valid h call ->
  call_step (LFUCache_Cache it) (fun c now => Some (LFU.removeExpired it c now)) h c call
  = Some (h', c') ->
  LFU_bounded m c'.
Proof.
  intros Hm Hb Hv Hstep. destruct call as [key now|key v now|key v ttl now|key| | |now];
    cbn [call_step Get Set_ SetWithTTL Delete Clear Close LFUCache_Cache call_valid] in *.
  - pose proof (LFU_Get_bounded m h c key now Hb) as Hb'.
    destruct (LFU.Get h c key now) as [[h1 c1] [s ok]]. by simplify_eq/=.
  - pose proof (LFU_SetWithTTL_bounded m Hm it h c key v (LFU.defaultTTL c) now Hb Hv) as Hb'.
    unfold LFU.Set_ in Hstep.
    destruct (LFU.SetWithTTL it h c key v (LFU.defaultTTL c) now) as [[h1 c1] err].
    by simplify_eq/=.
  - pose proof (LFU_SetWithTTL_bounded m Hm it h c key v ttl now Hb Hv) as Hb'.
    destruct (LFU.SetWithTTL it h c key v ttl now) as [[h1 c1] err]. by simplify_eq/=.
  - pose proof (LFU_Delete_bounded m c key Hb) as Hb'.
    destruct (LFU.Delete c key) as [c1 d]. by simplify_eq/=.
  - simplify_eq/=. destruct Hb as (_ & Hmc & _). split; [done|]. split; [done|]. cbn.
    rewrite map_size_empty. lia.
  - simplify_eq/=. unfold LFU.Close. by destruct (LFU.closed c).
  - simplify_eq/=. by apply LFU_sweep_bounded.
Qed.

Lemma LFU_Reachable_bounded maxSize defaultTTL c :
  Reachable LFUCache_Cache (fun it c now => Some (LFU.removeExpired it c now)) any_call
    (LFU.NewLFUWithTTL maxSize defaultTTL) c ->
  LFU_bounded (capacity maxSize) c.
Proof.
  apply (Reachable_inv LFUCache_Cache (fun it c now => Some (LFU.removeExpired it c now))
           any_call _ (LFU_bounded (capacity maxSize))).
  - apply LFU_bounded_new.
  - intros it h h' c1 c2 call Hb Hv _ Hstep.
    by eapply (LFU_step_bounded _ it h c1 call h' c2 (capacity_pos maxSize)).
Qed.

(** ** [MemoryCache] *)

Section memory_reach.
Import Memory.

Lemma Memory_evictOldest_scan_mem (stamp : Item -> Time) (l : list (string * Item)) :
  l <> [] -> (evictOldest_scan stamp l).1.1 ∈ l.*1.
Proof.
  induction l as [|[kx x] l IH] using rev_ind; [done|]. intros _.
  unfold evictOldest_scan. rewrite foldl_app, fmap_app. cbn [foldl].
  destruct (decide (l = [])) as [->|Hne].
  - cbn. set_solver.
  - specialize (IH Hne). unfold evictOldest_scan in IH.
    destruct (foldl (evictOldest_step stamp) ("", 0, true) l) as [[k t] first].
    unfold evictOldest_step. cbn [fst] in IH. destruct (_ || _); cbn; set_solver.
Qed.

Lemma Memory_evictLFU_scan_mem (l : list (string * Item)) :
  l <> [] -> (evictLFU_scan l).1 ∈ l.*1.
Proof.
  induction l as [|[kx x] l IH] using rev_ind; [done|]. intros _.
  unfold evictLFU_scan. rewrite foldl_app, fmap_app. cbn [foldl].
  destruct (decide (l = [])) as [->|Hne].
  - cbn. set_solver.
  - specialize (IH Hne). unfold evictLFU_scan in IH.
    destruct (foldl evictLFU_step ("", -1) l) as [k f].
    unfold evictLFU_step. cbn [fst] in IH. destruct (_ || _); cbn; set_solver.
Qed.

Lemma Memory_evictOldest_deletes (stamp : Item -> Time) it c :
  data c !! ""%string = None -> data c <> ∅ ->
  exists victim,
    is_Some (data c !! victim) /\
    (let '(oldestKey, _, _) := evictOldest_scan stamp (range it (data c)) in
     if decide (oldestKey <> ""%string)
     then add_evictions 1 (with_data (delete oldestKey (data c)) c)
     else c)
    = add_evictions 1 (with_data (delete victim (data c)) c).
Proof.
  intros Hempty Hne.
  pose proof (Memory_evictOldest_scan_mem stamp (range it (data c))) as Hmem.
  destruct (evictOldest_scan stamp (range it (data c))) as [[k t] first]. cbn [fst] in Hmem.
  apply list_elem_of_fmap in Hmem as ([k' x] & -> & Hin%elem_of_range);
    [|by rewrite range_nil].
  cbn [fst] in *. exists k'. split; [by eexists|].
  rewrite decide_True; [done|]. intros ->. congruence.
Qed.

(** While the empty key is not resident, [evict] on a non-empty cache
    deletes one entry, whatever the policy. *)
Lemma Memory_evict_deletes it c :
  data c !! ""%string = None -> data c <> ∅ ->
  exists victim,
    is_Some (data c !! victim) /\
    evict it c = add_evictions 1 (with_data (delete victim (data c)) c).
Proof.
  intros Hempty Hne. unfold evict. rewrite decide_False by (by rewrite map_size_empty_iff).
  assert (exists victim, is_Some (data c !! victim) /\
            evictLFU it c = add_evictions 1 (with_data (delete victim (data c)) c)) as HLFU.
  { pose proof (Memory_evictLFU_scan_mem (range it (data c))) as Hmem. unfold evictLFU.
    destruct (evictLFU_scan (range it (data c))) as [k f]. cbn [fst] in Hmem.
    apply list_elem_of_fmap in Hmem as ([k' x] & -> & Hin%elem_of_range);
      [|by rewrite range_nil].
    cbn [fst] in *. exists k'. split; [by eexists|].
    rewrite decide_True; [done|]. intros ->. congruence. }
  destruct (_ =? LRU); [by apply Memory_evictOldest_deletes|].
  destruct (_ =? LFU); [done|].
  destruct (_ =? FIFO); by apply Memory_evictOldest_deletes.
Qed.

Lemma Memory_bounded_new cfg : Memory_bounded cfg (NewMemoryCache cfg).
Proof. split_and!; [done..|]. cbn. rewrite map_size_empty. lia. Qed.

Lemma Memory_Get_bounded cfg h c key now :
  Memory_bounded cfg c -> Memory_bounded cfg (Memory.Get h c key now).1.2.
Proof.
  intros (Hcfg & Hempty & Hsz).
  assert (Memory_bounded cfg (add_miss c)) as Hmiss by done.
  assert (Memory_bounded cfg (add_miss (with_data (delete key (data c)) c))) as Hdel.
  { unfold Memory_bounded. split_and!; [done| |].
    - cbn. rewrite lookup_delete_None. by right.
    - intros Hpos. cbn. pose proof (size_delete_le (data c) key). specialize (Hsz Hpos). lia. }
  unfold Memory_bounded, Memory.Get. destruct (data c !! key) as [item|] eqn:Hi; [|done].
  destruct (IsExpired now item) eqn:He; cbn [negb]; [done|].
  cbv zeta. rewrite Hi, He. cbn [negb]. destruct (make h _) as [h1 value]. cbn.
  split_and!; [done| |].
  - rewrite lookup_insert_ne; [done|]. intros Heq. rewrite Heq in Hi. congruence.
  - by rewrite map_size_insert_Some by done.
Qed.

Lemma Memory_SetWithTTL_bounded cfg it h c key v ttl now :
  Memory_bounded cfg c -> slice_valid h v -> key <> ""%string ->
  Memory_bounded cfg (Memory.SetWithTTL it h c key v ttl now).1.2.
Proof.
  intros (Hcfg & Hempty & Hsz) Hv Hk. unfold Memory_bounded.
  rewrite MemoryFacts.Memory_SetWithTTL_spec by done. cbv zeta.
  destruct (Z.ltb_spec 0 (MaxSize (config c))) as [Hpos|Hnon]; cbn [andb].
  - destruct (Z.leb_spec (MaxSize (config c)) (Z.of_nat (size (data c)))) as [Hfull|Hroom].
    + destruct (data c !! key) as [item|] eqn:Hi.
      * cbn. split_and!; [done|by rewrite lookup_insert_ne|].
        rewrite map_size_insert_Some by done. done.
      * destruct (Memory_evict_deletes it c) as (victim & Hvic & ->);
          [done|apply size_positive; lia|]. cbn.
        split_and!; [done| |].
        -- rewrite lookup_insert_ne by done. rewrite lookup_delete_None. by right.
        -- intros Hp.
           pose proof (size_insert_le (delete victim (data c)) key
                         {| Value := Slice (length h) 0 (slice_len v);
                            ExpiresAt := far_deadline ttl (DefaultTTL (config c)) now;
                            LastAccess := now; AccessCount := 1; CreatedAt := now |}).
           pose proof (size_delete_Some (data c) victim Hvic). specialize (Hsz Hp). lia.
    + cbn. split_and!; [done|by rewrite lookup_insert_ne|]. intros Hp.
      pose proof (size_insert_le (data c) key
                    {| Value := Slice (length h) 0 (slice_len v);
                       ExpiresAt := far_deadline ttl (DefaultTTL (config c)) now;
                       LastAccess := now; AccessCount := 1; CreatedAt := now |}).
      rewrite <- Hcfg in *. lia.
  - cbn. split_and!; [done|by rewrite lookup_insert_ne|]. intros Hp.
    rewrite <- Hcfg in Hp. lia.
Qed.

Lemma Memory_Delete_bounded cfg c key :
  Memory_bounded cfg c -> Memory_bounded cfg (Memory.Delete c key).1.
Proof.
  intros (Hcfg & Hempty & Hsz). unfold Memory_bounded, Memory.Delete.
  destruct (data c !! key); [|done]. cbn. split_and!; [done| |].
  - rewrite lookup_delete_None. by right.
  - intros Hpos. pose proof (size_delete_le (data c) key). specialize (Hsz Hpos). lia.
Qed.

Lemma Memory_sweep_bounded cfg it c now :
  Memory_bounded cfg c -> Memory_bounded cfg (Memory.removeExpired it c now).
Proof.
  intros (Hcfg & Hempty & Hsz). unfold Memory_bounded.
  rewrite MemoryFacts.Memory_removeExpired_data.
  assert (config (removeExpired it c now) = config c) as ->.
  { unfold removeExpired. destruct (foldl _ _ _) as [m n]. by destruct (0 <? _). }
  split_and!; [done| |].
  - apply map_lookup_filter_None. by left.
  - intros Hpos.
    pose proof (size_filter_le (fun e => IsExpired now e.2 = false) (data c)).
    specialize (Hsz Hpos). lia.
Qed.

End memory_reach.

Lemma Memory_step_bounded cfg it h c call h' c' :
  Memory_bounded cfg c -> call_valid h call -> call_key_nonempty call ->
  call_step (MemoryCache_Cache it) (fun c now => Some (Memory.removeExpired it c now)) h c call
  = Some (h', c') ->
  Memory_bounded cfg c'.
Proof.
  intros Hb Hv Hk Hstep. destruct call as [key now|key v now|key v ttl now|key| | |now];
    cbn [call_step Get Set_ SetWithTTL Delete Clear Close MemoryCache_Cache call_valid
         call_key_nonempty] in *.
  - pose proof (Memory_Get_bounded cfg h c key now Hb) as Hb'.
    destruct (Memory.Get h c key now) as [[h1 c1] [s ok]]. by simplify_eq/=.
  - pose proof (Memory_SetWithTTL_bounded cfg it h c key v (DefaultTTL (Memory.config c)) now
                  Hb Hv Hk) as Hb'.
    unfold Memory.Set_ in Hstep.
    destruct (Memory.SetWithTTL it h c key v (DefaultTTL (Memory.config c)) now) as [[h1 c1] err].
    by simplify_eq/=.
  - pose proof (Memory_SetWithTTL_bounded cfg it h c key v ttl now Hb Hv Hk) as Hb'.
    destruct (Memory.SetWithTTL it h c key v ttl now) as [[h1 c1] err]. by simplify_eq/=.
  - pose proof (Memory_Delete_bounded cfg c key Hb) as Hb'.
    destruct (Memory.Delete c key) as [c1 d]. by simplify_eq/=.
  - simplify_eq/=. destruct Hb as (Hcfg & _ & _). split_and!; [done..|]. cbn.
    rewrite map_size_empty. lia.
  - simplify_eq/=. unfold Memory.Close. by destruct (Memory.stopped c).
  - simplify_eq/=. by apply Memory_sweep_bounded.
Qed.

Lemma Memory_Reachable_bounded cfg c :
  Reachable MemoryCache_Cache (fun it c now => Some (Memory.removeExpired it c now))
    call_key_nonempty (Memory.NewMemoryCache cfg) c ->
  Memory_bounded cfg c.
Proof.
  apply (Reachable_inv MemoryCache_Cache (fun it c now => Some (Memory.removeExpired it c now))
           call_key_nonempty _ (Memory_bounded cfg)).
  - apply Memory_bounded_new.
  - intros it h h' c1 c2 call Hb Hv Hk Hstep. by eapply Memory_step_bounded.
Qed.


(** X14.  Whatever calls are made on a cache built by [NewLRUWithTTL], in any
    order and with sweeps of the [cleanup] goroutine in between, the list
    stays well formed, no call dereferences a nil pointer (every call
    returns), and the cache never holds more keys than its capacity:
    [maxSize], or 1000 when [maxSize] is not positive. *)
Theorem LRU_calls_never_panic (maxSize : Z) (defaultTTL : Duration) (c : LRU.LRUCache) :
  Reachable (fun _ => LRUCache_Cache) LRU.removeExpired any_call
    (LRU.NewLRUWithTTL maxSize defaultTTL) c ->
  LRUInv.wf c /\
  LRU.maxSize c = capacity maxSize /\
  Keys (LRU.Stats_ c) <= capacity maxSize /\
  forall it h call,
    call_valid h call ->
    is_Some (call_step LRUCache_Cache (LRU.removeExpired it) h c call).
Proof.
  intros Hb%LRU_Reachable_bounded. pose proof Hb as (Hwf & Hm & Hsz).
  rewrite LRU_Stats_Keys. split_and!; [done..|].
  intros it h call Hv.
  destruct (LRU_step_bounded _ it h c call (capacity_pos maxSize) Hb Hv) as (h' & c' & -> & _).
  by eexists.
Qed.

Lemma LRU_calls_never_panic_witness :
  Reachable (fun _ => LRUCache_Cache) LRU.removeExpired any_call
    (LRU.NewLRUWithTTL 3 0) lru_ttl /\
  LRUInv.wf lru_ttl /\
  LRU.maxSize lru_ttl = capacity 3 /\
  Keys (LRU.Stats_ lru_ttl) <= capacity 3 /\
  forall it h call,
    call_valid h call ->
    is_Some (call_step LRUCache_Cache (LRU.removeExpired it) h lru_ttl call).
Proof.
  assert (Reachable (fun _ => LRUCache_Cache) LRU.removeExpired any_call
            (LRU.NewLRUWithTTL 3 0) lru_ttl) as Hreach.
  { apply (Reachable_step _ _ _ _ keyOrder [] [[]] (LRU.NewLRUWithTTL 3 0) lru_ttl
             (CallSetWithTTL "ttl_key" nil_slice (100 * Millisecond) 1000));
      [apply Reachable_new|done|done|vm_compute; reflexivity]. }
  split; [exact Hreach|exact (LRU_calls_never_panic 3 0 lru_ttl Hreach)].
Defined.

(** X15.  Whatever calls are made on a cache built by [NewLFUWithTTL], in any
    order, with any iteration order of the map and with sweeps in between,
    the cache never holds more keys than its capacity ([maxSize], or 1000
    when [maxSize] is not positive), and never holds the empty key. *)
Theorem LFU_capacity_holds (maxSize : Z) (defaultTTL : Duration) (c : LFU.LFUCache) :
  Reachable LFUCache_Cache (fun it c now => Some (LFU.removeExpired it c now)) any_call
    (LFU.NewLFUWithTTL maxSize defaultTTL) c ->
  LFU.maxSize c = capacity maxSize /\
  Keys (LFU.Stats_ c) <= capacity maxSize /\
  LFU_entry c ""%string = None.
Proof.
  intros (Hempty & Hm & Hsz)%LFU_Reachable_bounded.
  rewrite LFU_Stats_Keys. split_and!; [done..|]. unfold LFU_entry. by rewrite Hempty.
Qed.

Lemma LFU_capacity_holds_witness :
  Reachable LFUCache_Cache (fun it c now => Some (LFU.removeExpired it c now)) any_call
    (LFU.NewLFUWithTTL 3 0) lfu_ttl /\
  LFU.maxSize lfu_ttl = capacity 3 /\
  Keys (LFU.Stats_ lfu_ttl) <= capacity 3 /\
  LFU_entry lfu_ttl ""%string = None.
Proof.
  assert (Reachable LFUCache_Cache (fun it c now => Some (LFU.removeExpired it c now))
            any_call (LFU.NewLFUWithTTL 3 0) lfu_ttl) as Hreach.
  { apply (Reachable_step _ _ _ _ keyOrder [] [[]] (LFU.NewLFUWithTTL 3 0) lfu_ttl
             (CallSetWithTTL "ttl_key" nil_slice (100 * Millisecond) 1000));
      [apply Reachable_new|done|done|vm_compute; reflexivity]. }
  split; [exact Hreach|exact (LFU_capacity_holds 3 0 lfu_ttl Hreach)].
Defined.

(** X16.  A [MemoryCache] built with a positive [MaxSize] never holds more
    than [MaxSize] keys, whatever the eviction policy, the calls made, the
    iteration order of the map and the sweeps in between, as long as no
    [Set] or [SetWithTTL] is made with the empty key. *)
Theorem MemoryCache_capacity_holds (cfg : Config) (c : Memory.MemoryCache) :
  0 < MaxSize cfg ->
  Reachable MemoryCache_Cache (fun it c now => Some (Memory.removeExpired it c now))
    call_key_nonempty (Memory.NewMemoryCache cfg) c ->
  Memory.config c = cfg /\ Keys (Memory.Stats_ c) <= MaxSize cfg.
Proof.
  intros Hpos (Hcfg & _ & Hsz)%Memory_Reachable_bounded.
  rewrite Memory_Stats_Keys. split; [done|]. by apply Hsz.
Qed.

Lemma MemoryCache_capacity_holds_witness :
  (0 < MaxSize DefaultConfig /\
   Reachable MemoryCache_Cache (fun it c now => Some (Memory.removeExpired it c now))
     call_key_nonempty (Memory.NewMemoryCache DefaultConfig) memory_ttl) /\
  Memory.config memory_ttl = DefaultConfig /\
  Keys (Memory.Stats_ memory_ttl) <= MaxSize DefaultConfig.
Proof.
  assert (0 < MaxSize DefaultConfig) as Hpos by done.
  assert (Reachable MemoryCache_Cache
            (fun it c now => Some (Memory.removeExpired it c now))
            call_key_nonempty (Memory.NewMemoryCache DefaultConfig) memory_ttl) as Hreach.
  { apply (Reachable_step _ _ _ _ keyOrder [] [[]] (Memory.NewMemoryCache DefaultConfig)
             memory_ttl (CallSetWithTTL "ttl_key" nil_slice (100 * Millisecond) 1000));
      [apply Reachable_new|done|done|vm_compute; reflexivity]. }
  split; [by split|exact (MemoryCache_capacity_holds DefaultConfig memory_ttl Hpos Hreach)].
Defined.

(** ** The victim of [MemoryCache] under the policies LRU and FIFO *)

Lemma Memory_evict_oldest it c :
  EvictionPolicy_ (Memory.config c) <> LFU ->
  Memory.data c <> ∅ -> Memory.data c !! ""%string = None ->
  exists victim item,
    Memory.data c !! victim = Some item /\
    Memory.evict it c
    = Memory.add_evictions 1 (Memory.with_data (delete victim (Memory.data c)) c) /\
    forall k' item', Memory.data c !! k' = Some item' ->
      Memory_stamp (EvictionPolicy_ (Memory.config c)) item
      <= Memory_stamp (EvictionPolicy_ (Memory.config c)) item'.
Proof.
  intros Hpol Hne Hempty. unfold Memory.evict, Memory_stamp.
  rewrite decide_False by (by rewrite map_size_empty_iff).
  destruct (Z.eqb_spec (EvictionPolicy_ (Memory.config c)) LRU) as [Hlru|Hnlru].
  { rewrite Hlru. change (LRU =? FIFO) with false. cbv iota.
    by apply MemoryEvict.evictLRU_victim. }
  rewrite (proj2 (Z.eqb_neq _ _) Hpol).
  destruct (EvictionPolicy_ (Memory.config c) =? FIFO).
  - by apply MemoryEvict.evictFIFO_victim.
  - by apply MemoryEvict.evictLRU_victim.
Qed.

(** X17.  In a full [MemoryCache] whose policy is not LFU and that has no
    entry under the empty key, [SetWithTTL] of a new key evicts exactly one
    entry and counts one eviction.  Under FIFO the victim has the least
    creation time; under LRU, and under any policy value the code does not
    know, it has the least time of last access. *)
Theorem MemoryCache_evicts_the_oldest (it : MapIter) (h : heap) (key : string) (v : slice)
    (ttl : Duration) (now : Time) (c : Memory.MemoryCache) :
  EvictionPolicy_ (Memory.config c) <> LFU ->
  slice_valid h v ->
  Memory.data c !! key = None -> Memory.data c !! ""%string = None ->
  0 < MaxSize (Memory.config c) <= Z.of_nat (size (Memory.data c)) ->
  exists victim item newItem c',
    Memory.SetWithTTL it h c key v ttl now = (h ++ [slice_bytes h v], c', None) /\
    Memory.data c !! victim = Some item /\
    Memory.data c' = <[key := newItem]> (delete victim (Memory.data c)) /\
    Memory.evictions c' = AddInt64 (Memory.evictions c) 1 /\
    forall k' item', Memory.data c !! k' = Some item' ->
      Memory_stamp (EvictionPolicy_ (Memory.config c)) item
      <= Memory_stamp (EvictionPolicy_ (Memory.config c)) item'.
Proof.
  intros Hpol Hv Hnew Hempty [Hpos Hfull].
  destruct (Memory_evict_oldest it c Hpol) as (victim & item & Hvic & Hev & Hmin);
    [apply size_positive; lia|done|].
  exists victim, item. eexists _, _.
  rewrite MemoryFacts.Memory_SetWithTTL_spec by done. cbv zeta.
  rewrite (proj2 (Z.ltb_lt _ _) Hpos), (proj2 (Z.leb_le _ _) Hfull), Hnew, Hev.
  cbn [andb]. split; [reflexivity|]. by split_and!.
Qed.

Lemma MemoryCache_evicts_the_oldest_witness :
  (EvictionPolicy_ (Memory.config (memory_full FIFO)) <> LFU /\
   slice_valid [] nil_slice /\
   Memory.data (memory_full FIFO) !! "c"%string = None /\
   Memory.data (memory_full FIFO) !! ""%string = None /\
   0 < MaxSize (Memory.config (memory_full FIFO))
   <= Z.of_nat (size (Memory.data (memory_full FIFO)))) /\
  exists victim item newItem c',
    Memory.SetWithTTL keyOrder [] (memory_full FIFO) "c" nil_slice 0 3000
    = ([] ++ [slice_bytes [] nil_slice], c', None) /\
    Memory.data (memory_full FIFO) !! victim = Some item /\
    Memory.data c' = <[("c"%string) := newItem]> (delete victim (Memory.data (memory_full FIFO))) /\
    Memory.evictions c' = AddInt64 (Memory.evictions (memory_full FIFO)) 1 /\
    forall k' item', Memory.data (memory_full FIFO) !! k' = Some item' ->
      Memory_stamp (EvictionPolicy_ (Memory.config (memory_full FIFO))) item
      <= Memory_stamp (EvictionPolicy_ (Memory.config (memory_full FIFO))) item'.
Proof.
  assert (EvictionPolicy_ (Memory.config (memory_full FIFO)) <> LFU) as Hpol by done.
  assert (slice_valid [] nil_slice) as Hv by done.
  assert (Memory.data (memory_full FIFO) !! "c"%string = None) as Hnew
    by (vm_compute; reflexivity).
  assert (Memory.data (memory_full FIFO) !! ""%string = None) as Hempty
    by (vm_compute; reflexivity).
  assert (0 < MaxSize (Memory.config (memory_full FIFO))
          <= Z.of_nat (size (Memory.data (memory_full FIFO)))) as Hfull
    by (vm_compute; split; [reflexivity|discriminate]).
  split; [by split_and!|].
  exact (MemoryCache_evicts_the_oldest keyOrder [] "c" nil_slice 0 3000 (memory_full FIFO)
           Hpol Hv Hnew Hempty Hfull).
Defined.

(** * Hashing and sharding helpers ([internal/hash.go]) *)

Section hash.
Import Hash.

Lemma int64_pow2 k : 0 <= k < 63 -> int64_range (2 ^ k).
Proof.
  intros Hk. unfold int64_range, min_int64, max_int64.
  assert (0 < 2 ^ k) by (apply Z.pow_pos_nonneg; lia).
  assert (2 ^ k < 2 ^ 63) by (apply Z.pow_lt_mono_r; lia). lia.
Qed.

Lemma IsPowerOfTwo_pow2 n :
  int64_range n -> IsPowerOfTwo n = true <-> exists k, 0 <= k < 63 /\ n = 2 ^ k.
Proof.
  intros Hn. unfold IsPowerOfTwo. rewrite andb_true_iff, Z.ltb_lt, Z.eqb_eq. split.
  - intros [Hpos Hland].
    rewrite wrap64_id in Hland by (unfold int64_range, min_int64, max_int64 in *; lia).
    exists (Z.log2 n).
    pose proof (Z.log2_spec n Hpos) as [Hlo Hhi].
    pose proof (Z.log2_nonneg n) as Hk.
    assert (n = 2 ^ Z.log2 n) as Heq.
    { destruct (decide (n = 2 ^ Z.log2 n)) as [|Hne]; [done|]. exfalso.
      assert (Z.log2 (n - 1) = Z.log2 n) as Hlog.
      { apply Z.log2_unique; [done|]. lia. }
      assert (Z.testbit (Z.land n (n - 1)) (Z.log2 n) = true) as Hbit.
      { rewrite Z.land_spec. rewrite (Z.bit_log2 n) by done. rewrite <- Hlog.
        rewrite Z.bit_log2; [done|]. assert (0 < 2 ^ Z.log2 n) by (by apply Z.pow_pos_nonneg).
        lia. }
      rewrite Hland, Z.bits_0 in Hbit. done. }
    split; [|done]. split; [done|].
    destruct (Z.lt_ge_cases (Z.log2 n) 63) as [|Hge]; [done|].
    assert (2 ^ 63 <= 2 ^ Z.log2 n) by (apply Z.pow_le_mono_r; lia).
    unfold int64_range, max_int64 in Hn. lia.
  - intros (k & Hk & ->).
    assert (0 < 2 ^ k) by (apply Z.pow_pos_nonneg; lia). split; [done|].
    pose proof (int64_pow2 k Hk) as Hr.
    rewrite wrap64_id by (unfold int64_range, min_int64, max_int64 in *; lia).
    replace (2 ^ k - 1) with (Z.ones k) by (rewrite Z.ones_equiv; lia).
    rewrite Z.land_ones by lia. apply Z.mod_same. lia.
Qed.

(** The loop started at [2^i], below the least power of two [2^k] that
    reaches [n]. *)
Lemma NextPowerOfTwo_loop_spec (d : nat) : forall (fuel : nat) (i k n : Z),
  0 <= i -> i + Z.of_nat d = k -> k <= 62 -> (d < fuel)%nat ->
  2 ^ (k - 1) < n <= 2 ^ k ->
  NextPowerOfTwo_loop fuel (2 ^ i) n = Some (2 ^ k).
Proof.
  induction d as [|d IH]; intros fuel i k n Hi Hk Hk62 Hfuel [Hlo Hhi];
    (destruct fuel as [|fuel]; [lia|]); cbn [NextPowerOfTwo_loop].
  - assert (i = k) as -> by lia. by rewrite (proj2 (Z.ltb_ge _ _) Hhi).
  - assert (2 ^ i <= 2 ^ (k - 1)) by (apply Z.pow_le_mono_r; lia).
    rewrite (proj2 (Z.ltb_lt (2 ^ i) n)) by lia.
    rewrite Z.shiftl_mul_pow2 by lia. change (2 ^ 1) with 2.
    replace (2 ^ i * 2) with (2 ^ (i + 1)) by (rewrite Z.pow_add_r by lia; lia).
    rewrite wrap64_id by (apply int64_pow2; lia).
    apply IH; lia.
Qed.

(** Past [2^62] the loop runs through [..., 2^62, -2^63, 0, 0, ...], all
    below [n]. *)
Lemma NextPowerOfTwo_loop_diverges (fuel : nat) : forall (power n : Z),
  2 ^ 62 < n ->
  (exists i, 0 <= i <= 62 /\ power = 2 ^ i) \/ power = - 2 ^ 63 \/ power = 0 ->
  NextPowerOfTwo_loop fuel power n = None.
Proof.
  induction fuel as [|fuel IH]; intros power n Hn Hpower; [done|].
  cbn [NextPowerOfTwo_loop].
  assert (power < n) as Hlt.
  { destruct Hpower as [(i & Hi & ->)|[->| ->]]; [|lia..].
    assert (2 ^ i <= 2 ^ 62) by (apply Z.pow_le_mono_r; lia). lia. }
  rewrite (proj2 (Z.ltb_lt _ _) Hlt). apply IH; [done|].
  rewrite Z.shiftl_mul_pow2 by lia. change (2 ^ 1) with 2.
  destruct Hpower as [(i & Hi & ->)|[->| ->]].
  - destruct (decide (i = 62)) as [->|]; [right; left; reflexivity|].
    left. exists (i + 1). split; [lia|].
    replace (2 ^ i * 2) with (2 ^ (i + 1)) by (rewrite Z.pow_add_r by lia; lia).
    apply wrap64_id, int64_pow2. lia.
  - right; right. reflexivity.
  - right; right. reflexivity.
Qed.

Lemma land_mask_bounds x m : 0 <= m -> 0 <= Z.land x m <= m.
Proof.
  intros Hm. apply Z.ldiff_le; [done|].
  apply Z.bits_inj'. intros i Hi.
  rewrite Z.ldiff_spec, Z.land_spec, Z.bits_0. by destruct (Z.testbit x i), (Z.testbit m i).
Qed.

Lemma wrap64_mod_pow2 u k : 0 <= k <= 63 -> wrap64 u mod 2 ^ k = u mod 2 ^ k.
Proof.
  intros Hk. unfold wrap64.
  assert (2 ^ 63 = 2 ^ k * 2 ^ (63 - k)) as H63
    by (rewrite <- Z.pow_add_r by lia; f_equal; lia).
  assert (2 ^ 64 = 2 ^ k * 2 ^ (64 - k)) as H64
    by (rewrite <- Z.pow_add_r by lia; f_equal; lia).
  assert (0 < 2 ^ k) by (apply Z.pow_pos_nonneg; lia).
  rewrite (Z.mod_eq (u + 2 ^ 63) (2 ^ 64)) by lia.
  set (q := (u + 2 ^ 63) / 2 ^ 64).
  replace (u + 2 ^ 63 - 2 ^ 64 * q - 2 ^ 63) with (u + (- 2 ^ (64 - k) * q) * 2 ^ k)
    by (rewrite H64; ring).
  by rewrite Z.mod_add by lia.
Qed.

End hash.

(** X18.  [IsPowerOfTwo] decides the powers of two among the [int] values:
    it returns true exactly on [2^0, ..., 2^62]. *)
Theorem IsPowerOfTwo_correct (n : Z) :
  int64_range n ->
  Hash.IsPowerOfTwo n = true <-> exists k, 0 <= k < 63 /\ n = 2 ^ k.
Proof. apply IsPowerOfTwo_pow2. Qed.

Lemma IsPowerOfTwo_correct_witness :
  int64_range 8 /\ (Hash.IsPowerOfTwo 8 = true <-> exists k, 0 <= k < 63 /\ 8 = 2 ^ k).
Proof.
  assert (int64_range 8) as H8 by (unfold int64_range, min_int64, max_int64; lia).
  split; [exact H8|]. exact (IsPowerOfTwo_correct 8 H8).
Defined.

(** X19.  For [n <= 2^62], [NextPowerOfTwo] terminates (64 iterations are
    enough) and returns the least power of two that is at least [n]; it
    returns 1 for [n <= 1]. *)
Theorem NextPowerOfTwo_least (fuel : nat) (n : Z) :
  n <= 2 ^ 62 -> int64_range n -> (64 <= fuel)%nat ->
  exists k, 0 <= k <= 62 /\
    Hash.NextPowerOfTwo fuel n = Some (2 ^ k) /\
    n <= 2 ^ k /\
    forall j, 0 <= j -> n <= 2 ^ j -> 2 ^ k <= 2 ^ j.
Proof.
  intros Hn Hr Hfuel. unfold Hash.NextPowerOfTwo.
  destruct (Z.leb_spec n 1) as [Hle|Hgt].
  - exists 0. rewrite Z.pow_0_r. split; [lia|]. split; [done|]. split; [lia|].
    intros j Hj _. assert (0 < 2 ^ j) by (by apply Z.pow_pos_nonneg). lia.
  - set (k := Z.log2_up n).
    pose proof (Z.log2_up_spec n Hgt) as [Hlo Hhi]. fold k in Hlo, Hhi.
    assert (0 < k) as Hkpos by (apply Z.log2_up_pos; lia).
    assert (k <= 62) as Hk62 by (apply Z.log2_up_le_pow2; lia).
    replace (Z.pred k) with (k - 1) in Hlo by lia.
    exists k. split; [lia|]. split; [|split; [done|]].
    + destruct (Hash.IsPowerOfTwo n) eqn:Hpow.
      * apply IsPowerOfTwo_pow2 in Hpow as (k' & Hk' & ->); [|done].
        unfold k. by rewrite Z.log2_up_pow2 by lia.
      * change 1 with (2 ^ 0).
        apply (NextPowerOfTwo_loop_spec (Z.to_nat k)); lia.
    + intros j Hj Hnj. apply Z.pow_le_mono_r; [lia|].
      apply Z.log2_up_le_pow2; lia.
Qed.

Lemma NextPowerOfTwo_least_witness :
  exists k, 0 <= k <= 62 /\
    Hash.NextPowerOfTwo 64 1000 = Some (2 ^ k) /\
    1000 <= 2 ^ k /\
    forall j, 0 <= j -> 1000 <= 2 ^ j -> 2 ^ k <= 2 ^ j.
Proof.
  apply (NextPowerOfTwo_least 64 1000).
  - lia.
  - unfold int64_range, min_int64, max_int64. lia.
  - lia.
Defined.

(** X20.  For an [int] [n] above [2^62] the loop of [NextPowerOfTwo] never
    ends: [power] overflows to [-2^63], then stays 0, and is always below
    [n]. *)
Theorem NextPowerOfTwo_never_returns (fuel : nat) (n : Z) :
  2 ^ 62 < n -> int64_range n -> Hash.NextPowerOfTwo fuel n = None.
Proof.
  intros Hn Hr. unfold Hash.NextPowerOfTwo.
  rewrite (proj2 (Z.leb_gt n 1)) by lia.
  destruct (Hash.IsPowerOfTwo n) eqn:Hpow.
  - apply IsPowerOfTwo_pow2 in Hpow as (k & Hk & ->); [|done]. exfalso.
    assert (62 < k) by (apply (Z.pow_lt_mono_r_iff 2); lia). lia.
  - apply NextPowerOfTwo_loop_diverges; [done|]. left. exists 0. split; [lia|done].
Qed.

Lemma NextPowerOfTwo_never_returns_witness :
  Hash.NextPowerOfTwo 1000 (2 ^ 62 + 1) = None.
Proof.
  apply (NextPowerOfTwo_never_returns 1000 (2 ^ 62 + 1)).
  - lia.
  - unfold int64_range, min_int64, max_int64. lia.
Defined.

Lemma ShardIndex_spec (key : string) (shardCount : Z) :
  int64_range shardCount ->
  (shardCount <= 1 -> Hash.ShardIndex key shardCount = 0) /\
  (1 < shardCount ->
   0 <= Hash.ShardIndex key shardCount < shardCount /\
   Z.land (Hash.ShardIndex key shardCount) (shardCount - 1)
   = Hash.ShardIndex key shardCount) /\
  (1 < shardCount -> Hash.IsPowerOfTwo shardCount = true ->
   Hash.ShardIndex key shardCount = Hash.Hash64 key mod shardCount).
Proof.
  intros Hr. unfold Hash.ShardIndex. split; [|split].
  - intros Hle. by rewrite (proj2 (Z.leb_le _ _) Hle).
  - intros Hgt. rewrite (proj2 (Z.leb_gt _ _) Hgt).
    rewrite (wrap64_id (shardCount - 1))
      by (unfold int64_range, min_int64, max_int64 in *; lia).
    pose proof (land_mask_bounds (wrap64 (Hash.Hash64 key)) (shardCount - 1)). split; [lia|].
    by rewrite <- Z.land_assoc, Z.land_diag.
  - intros Hgt Hpow. rewrite (proj2 (Z.leb_gt _ _) Hgt).
    apply IsPowerOfTwo_pow2 in Hpow as (k & Hk & ->); [|done].
    rewrite (wrap64_id (2 ^ k - 1)) by (pose proof (int64_pow2 k Hk);
                          unfold int64_range, min_int64, max_int64 in *; lia).
    replace (2 ^ k - 1) with (Z.ones k) by (rewrite Z.ones_equiv; lia).
    rewrite Z.land_ones by lia. apply wrap64_mod_pow2. lia.
Qed.


(** X21.  [ShardIndex] returns 0 for [shardCount <= 1]; for a larger
    [shardCount] it returns an index in [0, shardCount) whose bits are
    among those of [shardCount - 1]; when [shardCount] is a power of two
    that index is the hash modulo [shardCount]. *)
Theorem ShardIndex_in_range (key : string) (shardCount : Z) :
  int64_range shardCount ->
  (shardCount <= 1 -> Hash.ShardIndex key shardCount = 0) /\
  (1 < shardCount ->
   0 <= Hash.ShardIndex key shardCount < shardCount /\
   Z.land (Hash.ShardIndex key shardCount) (shardCount - 1)
   = Hash.ShardIndex key shardCount) /\
  (1 < shardCount -> Hash.IsPowerOfTwo shardCount = true ->
   Hash.ShardIndex key shardCount = Hash.Hash64 key mod shardCount).
Proof. apply ShardIndex_spec. Qed.

Lemma ShardIndex_in_range_witness :
  int64_range 16 /\
  (16 <= 1 -> Hash.ShardIndex "user:123" 16 = 0) /\
  (1 < 16 ->
   0 <= Hash.ShardIndex "user:123" 16 < 16 /\
   Z.land (Hash.ShardIndex "user:123" 16) (16 - 1) = Hash.ShardIndex "user:123" 16) /\
  (1 < 16 -> Hash.IsPowerOfTwo 16 = true ->
   Hash.ShardIndex "user:123" 16 = Hash.Hash64 "user:123" mod 16).
Proof.
  assert (int64_range 16) as H16 by (unfold int64_range, min_int64, max_int64; lia).
  split; [exact H16|]. exact (ShardIndex_in_range "user:123" 16 H16).
Defined.

(** With three shards the mask is [0b10]: shard 1 is never chosen. *)
Remark ShardIndex_three_skips_one (key : string) : Hash.ShardIndex key 3 <> 1.
Proof.
  intros Heq.
  assert (int64_range 3) as H3 by (unfold int64_range, min_int64, max_int64; lia).
  destruct (ShardIndex_spec key 3 H3) as (_ & Hsub & _).
  destruct Hsub as [_ Hsub]; [lia|]. rewrite Heq in Hsub. done.
Qed.

(** * The string cache of the HTTP server *)

Section legacy.
Import Legacy.

(** [Get], case by case. *)
Lemma Legacy_Get_cases c key now :
  Get c key now =
    match data c !! key with
    | None => Some (add_miss c, (""%string, false))
    | Some item =>
        if After now (ExpiresAt item)
        then Some (add_miss (with_data (delete key (data c)) c), (""%string, false))
        else Some (add_hit c, (Value item, true))
    end.
Proof.
  unfold Get, IsExpired. destruct (data c !! key) as [item|] eqn:Hi; [|done].
  destruct (After now (ExpiresAt item)) eqn:He; cbn; by rewrite ?He.
Qed.

Lemma Legacy_removeExpired_fold (P : CacheItem -> bool) (L : list (string * CacheItem))
    (m : gmap string CacheItem) (n : Z) :
  foldl (fun '(m, expired) '(key, item) =>
           if P item then (delete key m, expired + 1) else (m, expired)) (m, n) L
  = (foldl (fun m key => delete key m) m (filter (fun e => P e.2 = true) L).*1,
     n + Z.of_nat (length (filter (fun e => P e.2 = true) L).*1)).
Proof.
  revert m n. induction L as [|[k x] L IH]; intros m n; cbn [foldl].
  - cbn. f_equal. lia.
  - destruct (P x) eqn:HP.
    + rewrite filter_cons_True by done. rewrite IH, fmap_cons.
      cbn [foldl length fst]. f_equal. rewrite Nat2Z.inj_succ. lia.
    + rewrite filter_cons_False by (simpl; congruence). by rewrite IH.
Qed.

(** X22.  In the string cache of the HTTP server a value stored at [t0]
    and read at [t] is returned exactly when [t] is not after the expiry:
    [t0 + ttl] for a positive [ttl], [t0] plus a hundred years otherwise (a
    negative [ttl] counts as none).  The read counts one hit and keeps the
    entry; after the expiry it counts one miss, returns the empty string
    and deletes the entry.  No key is refused, the empty key included, and
    [Get] never dereferences the nil item. *)
Theorem Legacy_Set_then_Get (c : SimpleCache) (key value : string) (ttl : Duration)
    (t0 t : Time) :
  let e := if 0 <? ttl then t0 + ttl else t0 + 100 * 365 * 24 * Hour in
  let item := {| Value := value; ExpiresAt := e |} in
  SetThenGet c key value ttl t0 t =
    if e <? t
    then Some ({| data := delete key (data c); hits := hits c;
                  misses := AddInt64 (misses c) 1; evictions := evictions c |},
               (""%string, false))
    else Some ({| data := <[key := item]> (data c); hits := AddInt64 (hits c) 1;
                  misses := misses c; evictions := evictions c |},
               (value, true)).
Proof.
  intros e item. unfold SetThenGet. rewrite Legacy_Get_cases.
  unfold SetWithTTL, Add. cbn [data with_data]. rewrite lookup_insert_eq.
  fold e. cbn [ExpiresAt Value]. unfold After. destruct (e <? t); [|done].
  unfold add_miss, with_data. cbn. by rewrite delete_insert_eq.
Qed.

(** X23.  [Get] of the string cache never returns an expired value: a
    resident key is a hit exactly when the clock is not after its expiry,
    and an entry found expired is deleted by the read, with a miss.  Every
    [Get] counts exactly one hit or one miss and leaves the other entries
    and the evictions counter alone. *)
Theorem Legacy_Get_honours_expiry (c : SimpleCache) (key : string) (now : Time) :
  exists c' v ok,
    Get c key now = Some (c', (v, ok)) /\
    (ok = true <-> exists item, data c !! key = Some item /\ now <= ExpiresAt item) /\
    (if ok
     then (exists item, data c !! key = Some item /\ v = Value item) /\
          data c' = data c /\
          Hits (Stats_ c') = AddInt64 (Hits (Stats_ c)) 1 /\
          Misses (Stats_ c') = Misses (Stats_ c)
     else v = ""%string /\ data c' = delete key (data c) /\
          Hits (Stats_ c') = Hits (Stats_ c) /\
          Misses (Stats_ c') = AddInt64 (Misses (Stats_ c)) 1) /\
    Evictions (Stats_ c') = Evictions (Stats_ c).
Proof.
  rewrite Legacy_Get_cases. destruct (data c !! key) as [item|] eqn:Hi.
  - unfold After. destruct (Z.ltb_spec (ExpiresAt item) now) as [Hlt|Hge].
    + eexists _, _, _. split; [done|]. split; [|split; [by split_and!|done]].
      split; [done|]. intros (item' & Heq & Hle). simplify_eq. lia.
    + eexists _, _, _. split; [done|]. split; [|split; [|done]].
      * split; [|done]. intros _. by exists item.
      * split_and!; [by exists item|done..].
  - eexists _, _, _. split; [done|]. split; [|split; [|done]].
    + split; [done|]. by intros (item' & Heq & _).
    + split_and!; [done| |done..]. cbn. by rewrite delete_id.
Qed.

(** X24.  A pass of the sweep of the string cache deletes exactly the
    entries whose expiry has passed, whatever the iteration order of the
    map, leaves hits and misses alone, and adds the number of entries
    deleted to the evictions counter (which it does not touch when nothing
    was deleted). *)
Theorem Legacy_sweep (it : MapIter) (c : SimpleCache) (now : Time) :
  let c' := removeExpired it c now in
  let deleted := (size (data c) - size (data c'))%nat in
  data c' = filter (fun e => IsExpired now e.2 = false) (data c) /\
  Keys (Stats_ c') = Keys (Stats_ c) - Z.of_nat deleted /\
  Evictions (Stats_ c') =
    (if (0 <? deleted)%nat then AddInt64 (Evictions (Stats_ c)) (Z.of_nat deleted)
     else Evictions (Stats_ c)) /\
  Hits (Stats_ c') = Hits (Stats_ c) /\ Misses (Stats_ c') = Misses (Stats_ c).
Proof.
  intros c' deleted.
  assert (data c' = filter (fun e => IsExpired now e.2 = false) (data c)) as Hdata.
  { unfold c', removeExpired. rewrite (Legacy_removeExpired_fold (IsExpired now)).
    rewrite <- (sweep_filter it). by destruct (0 <? _). }
  pose proof (sweep_count it (IsExpired now) (data c)) as Hcount.
  rewrite <- Hdata in Hcount.
  set (ks := (filter (fun e => IsExpired now e.2 = true) (range it (data c))).*1) in *.
  assert (deleted = length ks) as Hdel by (unfold deleted; lia).
  split; [done|]. split; [cbn; lia|].
  rewrite Hdel. unfold c', removeExpired.
  rewrite (Legacy_removeExpired_fold (IsExpired now)). fold ks. rewrite Z.add_0_l.
  destruct (length ks) as [|n] eqn:Hn.
  - by cbn.
  - replace (0 <? Z.of_nat (S n)) with true by (symmetry; apply Z.ltb_lt; lia). by cbn.
Qed.

End legacy.
